(** * SimpleVector: a shallow embedding of [simple_vector.h] and [array_ptr.h]

    The two headers implement a growable array ([SimpleVector<Type>]) on top
    of an owning pointer to a heap array ([ArrayPtr<Type>]).  The embedding
    keeps the shape of the C++ code:

    - [size_t] is a 64-bit unsigned integer, modelled as [Z] with the
      wrap-around written out ([wrap]);
    - raw pointers ([Type*], the iterators, references to elements) are a
      block identifier and an offset, or null;
    - the free store is a finite map from block identifiers to the arrays
      they hold; [new Type[n]] takes a block identifier that was never used
      before and [delete[]] removes the block;
    - [SimpleVector] objects live in an object store and methods take the
      location of [this], so that two names of one object ([v = v],
      [v.swap(v)]) behave as they do in C++;
    - every function runs in a state-and-error monad whose outcomes are a
      normal return, a thrown exception, a failed [assert] (the embedding is
      the build without [NDEBUG]) and undefined behaviour. *)

From Stdlib Require Import ZArith Lia.
From stdpp Require Import base tactics option list gmap.

Local Open Scope Z_scope.

(** ** Pointers, element types, the platform *)

Definition block := nat.
Definition loc := nat.

Inductive pointer : Type :=
| Null
| Ptr (b : block) (o : Z).

Definition ptr_eqb (p q : pointer) : bool :=
  match p, q with
  | Null, Null => true
  | Ptr b o, Ptr b' o' => Nat.eqb b b' && (o =? o')
  | _, _ => false
  end.

(** What the templates ask of [Type]. *)
Class Element (T : Type) := {
  (** [Type{}] *)
  value_init : T;
  (** what [new Type[n]] leaves in each cell: [Type{}] for a class type, an
      indeterminate value for a scalar type *)
  default_init : T;
  (** the state in which move assignment leaves its source *)
  moved_from : T → T;
  (** [operator==] of [Type] *)
  elem_eqb : T → T → bool;
}.

(** [operator<] of [Type], for the element types that have one; the
    comparison operators of the vectors ask for it. *)
Class Ordered (T : Type) := {
  elem_ltb : T → T → bool;
}.

(** What the C++ implementation leaves open. *)
Class Platform := {
  (** the longest array [new Type[n]] can give; longer requests throw
      [std::bad_alloc].  No object is larger than [PTRDIFF_MAX] bytes. *)
  max_alloc : Z;
  max_alloc_range : 0 ≤ max_alloc < 2 ^ 63;
  (** the unspecified result of [p <= q] on pointers into different arrays *)
  unspecified_le : pointer → pointer → bool;
}.

(** [size_t] arithmetic *)
Definition wrap (z : Z) : Z := z mod 2 ^ 64.

(** ** [ReserveProxyObj] and the free function [Reserve] *)

Module ReserveProxyObj.
Record t := Build { capacity_ : Z }.
Definition GetCapacity (obj : t) : Z := capacity_ obj.
End ReserveProxyObj.

Definition Reserve (capacity_to_reserve : Z) : ReserveProxyObj.t :=
  ReserveProxyObj.Build capacity_to_reserve.

(** ** Value categories

    [PushBack] is overloaded on [const Type&] and [Type&&]; which one a call
    selects depends on the type and value category of the argument. *)
Inductive category :=
| const_lvalue   (* an lvalue of type [const Type] *)
| lvalue         (* an lvalue of type [Type] *)
| const_xvalue   (* [std::move] of a const lvalue: [const Type&&] *)
| xvalue.        (* [std::move] of an lvalue: [Type&&] *)

(** [std::move(x)] is [static_cast<remove_reference_t<X>&&>(x)]: it keeps
    [const]. *)
Definition std_move_category (c : category) : category :=
  match c with
  | const_lvalue | const_xvalue => const_xvalue
  | lvalue | xvalue => xvalue
  end.

(** A parameter of type [Type&&] binds to rvalues of type [Type] only. *)
Definition binds_to_rvalue_ref (c : category) : bool :=
  match c with
  | xvalue => true
  | _ => false
  end.

(** ** The object and its fields *)

Module ArrayPtrRep.
Record t := Build { raw_ptr_ : pointer }.
End ArrayPtrRep.

Record SimpleVectorRep := BuildSV {
  size_ : Z;
  capacity_ : Z;
  items_ : ArrayPtrRep.t;
}.

Inductive exn := out_of_range | bad_alloc.

(** ** Memory and the monad *)

Module Mem.
Section Mem.
Context {T : Type} `{!Element T} `{!Platform}.

Record world := World {
  heap : gmap block (list T);
  next_block : block;
  objs : gmap loc SimpleVectorRep;
  next_loc : loc;
}.

Definition empty_world : world :=
  {| heap := ∅; next_block := O; objs := ∅; next_loc := O |}.

Definition set_heap (h : gmap block (list T)) (w : world) : world :=
  {| heap := h; next_block := next_block w; objs := objs w; next_loc := next_loc w |}.
Definition set_objs (o : gmap loc SimpleVectorRep) (w : world) : world :=
  {| heap := heap w; next_block := next_block w; objs := o; next_loc := next_loc w |}.

Inductive outcome (A : Type) :=
| Ok (a : A) (w : world)
| Throw (e : exn) (w : world)
| AssertFail
| Undefined.
Global Arguments Ok {A} a w.
Global Arguments Throw {A} e w.
Global Arguments AssertFail {A}.
Global Arguments Undefined {A}.

Definition M (A : Type) := world → outcome A.

Definition ret {A} (a : A) : M A := λ w, Ok a w.
Definition bind {A B} (m : M A) (k : A → M B) : M B := λ w,
  match m w with
  | Ok a w' => k a w'
  | Throw e w' => Throw e w'
  | AssertFail => AssertFail
  | Undefined => Undefined
  end.
Definition throw {A} (e : exn) : M A := λ w, Throw e w.
Definition undefined {A} : M A := λ _, Undefined.
Definition assert (c : bool) : M unit := λ w, if c then Ok tt w else AssertFail.
(** stack unwinding: when [m] throws, [cleanup] runs and the exception
    goes on *)
Definition unwinding {A} (m : M A) (cleanup : M unit) : M A := λ w,
  match m w with
  | Throw e w' =>
      match cleanup w' with
      | Ok _ w'' => Throw e w''
      | Throw e' w'' => Throw e' w''
      | AssertFail => AssertFail
      | Undefined => Undefined
      end
  | r => r
  end.

(** *** The free store *)

(** [new Type[n]] *)
Definition new_array (n : Z) : M pointer := λ w,
  if max_alloc <? n then Throw bad_alloc w
  else Ok (Ptr (next_block w) 0)
          {| heap := <[next_block w := replicate (Z.to_nat n) default_init]> (heap w);
             next_block := S (next_block w);
             objs := objs w; next_loc := next_loc w |}.

(** [delete[] p] *)
Definition delete_array (p : pointer) : M unit := λ w,
  match p with
  | Null => Ok tt w
  | Ptr b o =>
      match heap w !! b with
      | Some _ => if o =? 0 then Ok tt (set_heap (delete b (heap w)) w) else Undefined
      | None => Undefined
      end
  end.

(** [*p] read *)
Definition load (p : pointer) : M T := λ w,
  match p with
  | Null => Undefined
  | Ptr b o =>
      match heap w !! b with
      | Some l =>
          if 0 <=? o then
            match l !! Z.to_nat o with
            | Some v => Ok v w
            | None => Undefined
            end
          else Undefined
      | None => Undefined
      end
  end.

(** [*p = v] *)
Definition store (p : pointer) (v : T) : M unit := λ w,
  match p with
  | Null => Undefined
  | Ptr b o =>
      match heap w !! b with
      | Some l =>
          if (0 <=? o) && (o <? Z.of_nat (length l))
          then Ok tt (set_heap (<[b := <[Z.to_nat o := v]> l]> (heap w)) w)
          else Undefined
      | None => Undefined
      end
  end.

(** [p + n]: defined inside an array and one past its end; [nullptr + 0]
    is [nullptr] *)
Definition ptr_add (p : pointer) (n : Z) : M pointer := λ w,
  match p with
  | Null => if n =? 0 then Ok Null w else Undefined
  | Ptr b o =>
      match heap w !! b with
      | Some l =>
          if (0 <=? o + n) && (o + n <=? Z.of_nat (length l))
          then Ok (Ptr b (o + n)) w
          else Undefined
      | None => Undefined
      end
  end.

(** [p - q]: defined for two pointers into one array, and for two null
    pointers *)
Definition ptr_diff (p q : pointer) : M Z := λ w,
  match p, q with
  | Null, Null => Ok 0 w
  | Ptr b o, Ptr b' o' =>
      if Nat.eqb b b' then
        match heap w !! b with
        | Some _ => Ok (o - o') w
        | None => Undefined
        end
      else Undefined
  | _, _ => Undefined
  end.

(** [p <= q] *)
Definition ptr_le (p q : pointer) : bool :=
  match p, q with
  | Null, Null => true
  | Ptr b o, Ptr b' o' => if Nat.eqb b b' then o <=? o' else unspecified_le p q
  | _, _ => unspecified_le p q
  end.
(** [p < q] *)
Definition ptr_lt (p q : pointer) : bool := ptr_le p q && negb (ptr_eqb p q).

(** *** The object store *)

Definition get_obj (this : loc) : M SimpleVectorRep := λ w,
  match objs w !! this with
  | Some s => Ok s w
  | None => Undefined
  end.
Definition put_obj (this : loc) (s : SimpleVectorRep) : M unit := λ w,
  match objs w !! this with
  | Some _ => Ok tt (set_objs (<[this := s]> (objs w)) w)
  | None => Undefined
  end.
(** storage for a new object, holding [s] *)
Definition new_obj (s : SimpleVectorRep) : M loc := λ w,
  Ok (next_loc w)
     {| heap := heap w; next_block := next_block w;
        objs := <[next_loc w := s]> (objs w); next_loc := S (next_loc w) |}.
(** the storage of an object goes away *)
Definition del_obj (this : loc) : M unit := λ w,
  match objs w !! this with
  | Some _ => Ok tt (set_objs (delete this (objs w)) w)
  | None => Undefined
  end.
End Mem.
End Mem.
Import Mem.

Declare Scope monad_scope.
Delimit Scope monad_scope with monad.
Notation "x <- c1 ;; c2" := (bind c1 (λ x, c2))
  (at level 100, c1 at next level, right associativity) : monad_scope.
Notation "c1 ;; c2" := (bind c1 (λ _, c2))
  (at level 100, right associativity) : monad_scope.
Local Open Scope monad_scope.

Global Arguments world : clear implicits.
Global Arguments outcome : clear implicits.
Global Arguments M : clear implicits.

(** ** The algorithms of [<algorithm>] the headers call

    The iterators are raw pointers, so each algorithm walks [last - first]
    elements; a range whose end lies before its start is not a range. *)

Module Std.
Section Std.
Context {T : Type} `{!Element T} `{!Platform}.
Abbreviation M := (M T).

(** copy assignment of [Type] from the element at [s] to the element at [d] *)
Definition copy_assign (d s : pointer) : M unit :=
  v <- load s ;; store d v.

(** move assignment of [Type] from the element at [s] to the element at [d] *)
Definition move_assign (d s : pointer) : M unit :=
  v <- load s ;; store d v ;; store s (moved_from v).

Definition range_length (first last : pointer) : M nat :=
  n <- ptr_diff last first ;;
  if n <? 0 then undefined else ret (Z.to_nat n).

Fixpoint copy_n (n : nat) (first d_first : pointer) : M pointer :=
  match n with
  | O => ret d_first
  | S n' =>
      copy_assign d_first first ;;
      first' <- ptr_add first 1 ;;
      d_first' <- ptr_add d_first 1 ;;
      copy_n n' first' d_first'
  end.
(** [std::copy(first, last, d_first)] *)
Definition copy (first last d_first : pointer) : M pointer :=
  n <- range_length first last ;; copy_n n first d_first.

Fixpoint move_n (n : nat) (first d_first : pointer) : M pointer :=
  match n with
  | O => ret d_first
  | S n' =>
      move_assign d_first first ;;
      first' <- ptr_add first 1 ;;
      d_first' <- ptr_add d_first 1 ;;
      move_n n' first' d_first'
  end.
(** [std::move(first, last, d_first)] *)
Definition move (first last d_first : pointer) : M pointer :=
  n <- range_length first last ;; move_n n first d_first.

Fixpoint move_backward_n (n : nat) (last d_last : pointer) : M pointer :=
  match n with
  | O => ret d_last
  | S n' =>
      last' <- ptr_add last (-1) ;;
      d_last' <- ptr_add d_last (-1) ;;
      move_assign d_last' last' ;;
      move_backward_n n' last' d_last'
  end.
(** [std::move_backward(first, last, d_last)] *)
Definition move_backward (first last d_last : pointer) : M pointer :=
  n <- range_length first last ;; move_backward_n n last d_last.

Fixpoint fill_n (n : nat) (first value : pointer) : M unit :=
  match n with
  | O => ret tt
  | S n' =>
      copy_assign first value ;;
      first' <- ptr_add first 1 ;;
      fill_n n' first' value
  end.
(** [std::fill(first, last, value)] *)
Definition fill (first last value : pointer) : M unit :=
  n <- range_length first last ;; fill_n n first value.

Fixpoint generate_n (n : nat) (first : pointer) (g : M T) : M unit :=
  match n with
  | O => ret tt
  | S n' =>
      v <- g ;; store first v ;;
      first' <- ptr_add first 1 ;;
      generate_n n' first' g
  end.
(** [std::generate(first, last, g)] *)
Definition generate (first last : pointer) (g : M T) : M unit :=
  n <- range_length first last ;; generate_n n first g.

Fixpoint equal_n (n : nat) (first1 first2 : pointer) : M bool :=
  match n with
  | O => ret true
  | S n' =>
      x <- load first1 ;;
      y <- load first2 ;;
      if elem_eqb x y then
        first1' <- ptr_add first1 1 ;;
        first2' <- ptr_add first2 1 ;;
        equal_n n' first1' first2'
      else ret false
  end.
(** [std::equal(first1, last1, first2)] *)
Definition equal (first1 last1 first2 : pointer) : M bool :=
  n <- range_length first1 last1 ;; equal_n n first1 first2.

(** [std::lexicographical_compare(first1, last1, first2, last2)]: the
    loop runs while both ranges have elements, [n1] and [n2] are what is
    left of each *)
Fixpoint lexicographical_compare_n `{!Ordered T} (n1 n2 : nat)
    (first1 first2 : pointer) : M bool :=
  match n1, n2 with
  | O, O => ret false
  | O, S _ => ret true
  | S _, O => ret false
  | S n1', S n2' =>
      x <- load first1 ;;
      y <- load first2 ;;
      if elem_ltb x y then ret true
      else if elem_ltb y x then ret false
      else
        first1' <- ptr_add first1 1 ;;
        first2' <- ptr_add first2 1 ;;
        lexicographical_compare_n n1' n2' first1' first2'
  end.
Definition lexicographical_compare `{!Ordered T}
    (first1 last1 first2 last2 : pointer) : M bool :=
  n1 <- range_length first1 last1 ;;
  n2 <- range_length first2 last2 ;;
  lexicographical_compare_n n1 n2 first1 first2.

(** [for (size_t i = lo; i < hi; ++i) body] *)
Fixpoint for_loop (n : nat) (i : Z) (body : Z → M unit) : M unit :=
  match n with
  | O => ret tt
  | S n' => body i ;; for_loop n' (i + 1) body
  end.
Definition for_range (lo hi : Z) (body : Z → M unit) : M unit :=
  for_loop (Z.to_nat (hi - lo)) lo body.

(** the elements of a [std::initializer_list], written out from
    [d_first] on: [std::copy(init.begin(), init.end(), d_first)].  The
    array behind the list is a temporary no other pointer refers to. *)
Fixpoint copy_init (init : list T) (d_first : pointer) : M pointer :=
  match init with
  | [] => ret d_first
  | v :: init' =>
      store d_first v ;;
      d_first' <- ptr_add d_first 1 ;;
      copy_init init' d_first'
  end.
End Std.
End Std.

(** ** [ArrayPtr] ([array_ptr.h]) *)

Module ArrayPtr.
Section ArrayPtr.
Context {T : Type} `{!Element T} `{!Platform}.
Abbreviation M := (M T).
Import ArrayPtrRep.

(** [ArrayPtr() = default] *)
Definition default : t := Build Null.

(** [explicit ArrayPtr(size_t size)] *)
Definition from_size (size : Z) : M t :=
  if size =? 0 then ret (Build Null)
  else arr <- new_array size ;; ret (Build arr).

(** [ArrayPtr(ArrayPtr&& other)]: the new value and what is left in
    [other] *)
Definition move_ctor (other : t) : t * t :=
  (Build (raw_ptr_ other), Build Null).

(** [~ArrayPtr()] *)
Definition dtor (a : t) : M unit := delete_array (raw_ptr_ a).

(** [operator[]]: the reference [raw_ptr_[index]] *)
Definition index (a : t) (index : Z) : M pointer := ptr_add (raw_ptr_ a) index.

(** [Get()] *)
Definition Get (a : t) : pointer := raw_ptr_ a.

(** [swap(other)]: the new [*this] and the new [other] *)
Definition swap (a other : t) : t * t :=
  let tmp := raw_ptr_ a in
  (Build (raw_ptr_ other), Build tmp).

(** [operator=(ArrayPtr&& other)], for two objects: the new [*this] and
    what is left in [other].  The pointer [*this] held is overwritten. *)
Definition assign_move (a other : t) : t * t :=
  (Build (raw_ptr_ other), Build Null).

(** [explicit ArrayPtr(Type* raw_ptr)] *)
Definition from_raw (raw_ptr : pointer) : t :=
  if negb (ptr_eqb raw_ptr Null) then Build raw_ptr else Build Null.

(** [Release()]: the pointer it returns and the new [*this] *)
Definition Release (a : t) : pointer * t :=
  let tmp := raw_ptr_ a in
  (tmp, Build Null).

(** [explicit operator bool()] *)
Definition to_bool (a : t) : bool := negb (ptr_eqb (raw_ptr_ a) Null).
End ArrayPtr.
End ArrayPtr.

(** ** [SimpleVector] ([simple_vector.h])

    A method takes the location of [*this]; a parameter of reference type
    takes a pointer (to an element) or a location (of a vector). *)

Module SimpleVector.
Section SimpleVector.
Context {T : Type} `{!Element T} `{!Platform}.
Abbreviation M := (M T).

(** reading and writing the fields of the object at [this] *)
Definition rd {A} (field : SimpleVectorRep → A) (this : loc) : M A :=
  s <- get_obj this ;; ret (field s).
Definition wr_size_ (this : loc) (v : Z) : M unit :=
  s <- get_obj this ;; put_obj this (BuildSV v (capacity_ s) (items_ s)).
Definition wr_capacity_ (this : loc) (v : Z) : M unit :=
  s <- get_obj this ;; put_obj this (BuildSV (size_ s) v (items_ s)).
Definition wr_items_ (this : loc) (v : ArrayPtrRep.t) : M unit :=
  s <- get_obj this ;; put_obj this (BuildSV (size_ s) (capacity_ s) v).

(** [~SimpleVector()]: the members are destroyed, the storage goes away *)
Definition dtor (this : loc) : M unit :=
  it <- rd items_ this ;; ArrayPtr.dtor it ;; del_obj this.

(** [SimpleVector() noexcept = default] *)
Definition ctor_default : M loc :=
  new_obj (BuildSV 0 0 ArrayPtr.default).

(** [SimpleVector(SimpleVector&& other)] *)
Definition ctor_move (other : loc) : M loc :=
  sz <- rd size_ other ;; wr_size_ other 0 ;;
  cap <- rd capacity_ other ;; wr_capacity_ other 0 ;;
  it <- rd items_ other ;;
  let '(mine, theirs) := ArrayPtr.move_ctor it in
  wr_items_ other theirs ;;
  new_obj (BuildSV sz cap mine).

Definition GetSize (this : loc) : M Z := rd size_ this.
Definition GetCapacity (this : loc) : M Z := rd capacity_ this.
Definition IsEmpty (this : loc) : M bool :=
  sz <- rd size_ this ;; ret (sz =? 0).

Definition begin_ (this : loc) : M pointer :=
  it <- rd items_ this ;; ret (ArrayPtr.Get it).
Definition end_ (this : loc) : M pointer :=
  it <- rd items_ this ;; sz <- rd size_ this ;; ptr_add (ArrayPtr.Get it) sz.
Definition cbegin (this : loc) : M pointer :=
  it <- rd items_ this ;; ret (ArrayPtr.Get it).
Definition cend (this : loc) : M pointer :=
  it <- rd items_ this ;; sz <- rd size_ this ;; ptr_add (ArrayPtr.Get it) sz.

(** [swap(SimpleVector& other)] *)
Definition swap (this other : loc) : M unit :=
  a <- rd items_ this ;; b <- rd items_ other ;;
  let '(a', b') := ArrayPtr.swap a b in
  wr_items_ this a' ;; wr_items_ other b' ;;
  x <- rd size_ this ;; y <- rd size_ other ;;
  wr_size_ this y ;; wr_size_ other x ;;
  x <- rd capacity_ this ;; y <- rd capacity_ other ;;
  wr_capacity_ this y ;; wr_capacity_ other x.

(** [operator==] and [operator!=] (declared after the class, used by the
    assignment operators) *)
Definition operator_eq (lhs rhs : loc) : M bool :=
  n <- GetSize lhs ;; m <- GetSize rhs ;;
  if n =? m then
    first1 <- begin_ lhs ;; last1 <- end_ lhs ;; first2 <- begin_ rhs ;;
    Std.equal first1 last1 first2
  else ret false.
Definition operator_ne (lhs rhs : loc) : M bool :=
  e <- operator_eq lhs rhs ;; ret (negb e).

(** [operator=(SimpleVector&& rhs)] *)
Definition assign_move (this rhs : loc) : M loc :=
  ne <- operator_ne this rhs ;;
  (if ne then
     tmp <- ctor_move rhs ;;
     swap this tmp ;;
     dtor tmp
   else ret tt) ;;
  ret this.

(** [SimpleVector(const SimpleVector& other)] *)
Definition ctor_copy (other : loc) : M loc :=
  sz <- GetSize other ;; cap <- GetCapacity other ;;
  n <- GetSize other ;; it <- ArrayPtr.from_size n ;;
  this <- new_obj (BuildSV sz cap it) ;;
  first <- begin_ other ;; last <- end_ other ;; d_first <- begin_ this ;;
  Std.copy first last d_first ;;
  ret this.

(** [operator=(const SimpleVector& rhs)] *)
Definition assign_copy (this rhs : loc) : M loc :=
  ne <- operator_ne this rhs ;;
  (if ne then
     tmp <- ctor_copy rhs ;;
     swap this tmp ;;
     dtor tmp
   else ret tt) ;;
  ret this.

(** [explicit SimpleVector(size_t size)] *)
Definition ctor_size (size : Z) : M loc :=
  it <- ArrayPtr.from_size size ;;
  this <- new_obj (BuildSV size size it) ;;
  it <- rd items_ this ;;
  last <- ptr_add (ArrayPtr.Get it) size ;;
  Std.generate (ArrayPtr.Get it) last (ret value_init) ;;
  ret this.

(** [SimpleVector(size_t size, const Type& value)] *)
Definition ctor_size_value (size : Z) (value : pointer) : M loc :=
  it <- ArrayPtr.from_size size ;;
  this <- new_obj (BuildSV size size it) ;;
  first <- begin_ this ;; last <- end_ this ;;
  Std.fill first last value ;;
  ret this.

(** [SimpleVector(std::initializer_list<Type> init)] *)
Definition ctor_init_list (init : list T) : M loc :=
  let n := Z.of_nat (length init) in
  it <- ArrayPtr.from_size n ;;
  this <- new_obj (BuildSV n n it) ;;
  d_first <- begin_ this ;;
  Std.copy_init init d_first ;;
  ret this.

(** [At(size_t index)]: the reference it returns is a pointer to the
    element *)
Definition At (this : loc) (index : Z) : M pointer :=
  sz <- rd size_ this ;;
  if index >=? sz then throw out_of_range
  else it <- rd items_ this ;; ArrayPtr.index it index.

(** [operator[](size_t index)] *)
Definition operator_index (this : loc) (index : Z) : M pointer :=
  sz <- rd size_ this ;;
  assert (index <=? sz) ;;
  it <- rd items_ this ;; ArrayPtr.index it index.

(** [Clear()] *)
Definition Clear (this : loc) : M unit := wr_size_ this 0.

(** [Resize(size_t new_size)] *)
Definition Resize (this : loc) (new_size : Z) : M unit :=
  sz <- rd size_ this ;;
  if new_size =? sz then ret tt
  else if new_size <? sz then wr_size_ this new_size
  else
    cap <- rd capacity_ this ;;
    if new_size <=? cap then
      Std.for_range sz new_size (λ i,
        it <- rd items_ this ;; r <- ArrayPtr.index it i ;; store r value_init) ;;
      wr_size_ this new_size
    else
      wr_capacity_ this (Z.max (wrap (cap * 2)) new_size) ;;
      cap' <- rd capacity_ this ;;
      tmp <- ctor_size cap' ;;
      sz' <- rd size_ this ;;
      Std.for_range 0 sz' (λ i,
        it <- rd items_ this ;; s <- ArrayPtr.index it i ;;
        tit <- rd items_ tmp ;; d <- ArrayPtr.index tit i ;;
        Std.move_assign d s) ;;
      swap this tmp ;;
      wr_size_ this new_size ;;
      dtor tmp.

(** the statement that opens both [PushBack]s and the second half of both
    [Insert]s:
    [if(size_ < capacity_){ ++size_; } else{ Resize(size_ + 1); }] *)
Definition make_room (this : loc) : M unit :=
  sz <- rd size_ this ;; cap <- rd capacity_ this ;;
  if sz <? cap then wr_size_ this (wrap (sz + 1))
  else Resize this (wrap (sz + 1)).

(** [PushBack(const Type& item)] *)
Definition PushBack_const_ref (this : loc) (item : pointer) : M unit :=
  make_room this ;;
  it <- rd items_ this ;; sz <- rd size_ this ;;
  r <- ArrayPtr.index it (wrap (sz - 1)) ;;
  Std.copy_assign r item.

(** [PushBack(Type&& item)] *)
Definition PushBack_rvalue_ref (this : loc) (item : pointer) : M unit :=
  make_room this ;;
  it <- rd items_ this ;; sz <- rd size_ this ;;
  r <- ArrayPtr.index it (wrap (sz - 1)) ;;
  Std.move_assign r item.

(** overload resolution for a call [PushBack(e)], [e] of category [c] *)
Definition PushBack (this : loc) (c : category) (item : pointer) : M unit :=
  if binds_to_rvalue_ref c then PushBack_rvalue_ref this item
  else PushBack_const_ref this item.

(** [pos >= cbegin() && pos <= cend()] *)
Definition in_range_closed (this : loc) (pos : pointer) : M bool :=
  first <- cbegin this ;;
  if ptr_le first pos then last <- cend this ;; ret (ptr_le pos last)
  else ret false.
(** [pos >= cbegin() && pos < cend()] *)
Definition in_range_open (this : loc) (pos : pointer) : M bool :=
  first <- cbegin this ;;
  if ptr_le first pos then last <- cend this ;; ret (ptr_lt pos last)
  else ret false.

(** [Insert(ConstIterator pos, const Type& value)] *)
Definition Insert_const_ref (this : loc) (pos value : pointer) : M pointer :=
  ok <- in_range_closed this pos ;; assert ok ;;
  last <- cend this ;;
  if ptr_eqb pos last then
    PushBack this (std_move_category const_lvalue) value ;;
    e <- end_ this ;; ptr_add e (-1)
  else
    make_room this ;;
    first <- cbegin this ;; d <- ptr_diff pos first ;;
    let index := wrap d in
    it <- rd items_ this ;; from <- ArrayPtr.index it index ;;
    e <- end_ this ;; to <- ptr_add e (-1) ;;
    d_last <- end_ this ;;
    it <- Std.move_backward from to d_last ;;
    it <- ptr_add it (-1) ;;
    Std.copy_assign it value ;;
    ret it.

(** [Insert(ConstIterator pos, Type&& value)]: in the body [value] names
    an lvalue of type [Type] *)
Definition Insert_rvalue_ref (this : loc) (pos value : pointer) : M pointer :=
  ok <- in_range_closed this pos ;; assert ok ;;
  last <- cend this ;;
  if ptr_eqb pos last then
    PushBack this (std_move_category lvalue) value ;;
    e <- end_ this ;; ptr_add e (-1)
  else
    make_room this ;;
    first <- cbegin this ;; d <- ptr_diff pos first ;;
    let index := wrap d in
    it <- rd items_ this ;; from <- ArrayPtr.index it index ;;
    e <- end_ this ;; to <- ptr_add e (-1) ;;
    d_last <- end_ this ;;
    it <- Std.move_backward from to d_last ;;
    it <- ptr_add it (-1) ;;
    Std.move_assign it value ;;
    ret it.

(** [PopBack()] *)
Definition PopBack (this : loc) : M unit :=
  e <- IsEmpty this ;; assert (negb e) ;;
  sz <- rd size_ this ;; wr_size_ this (wrap (sz - 1)).

(** [Erase(ConstIterator pos)] *)
Definition Erase (this : loc) (pos : pointer) : M pointer :=
  e <- IsEmpty this ;; assert (negb e) ;;
  ok <- in_range_open this pos ;; assert ok ;;
  first <- cbegin this ;; d <- ptr_diff pos first ;;
  let index := wrap d in
  it <- rd items_ this ;; from <- ArrayPtr.index it (wrap (index + 1)) ;;
  to <- end_ this ;;
  it <- rd items_ this ;; d_first <- ArrayPtr.index it index ;;
  Std.move from to d_first ;;
  sz <- rd size_ this ;; wr_size_ this (wrap (sz - 1)) ;;
  it <- rd items_ this ;; ArrayPtr.index it index.

(** [Reserve(size_t new_capacity)] (the member function) *)
Definition Reserve (this : loc) (new_capacity : Z) : M unit :=
  cap <- rd capacity_ this ;;
  if new_capacity >? cap then
    new_items <- ArrayPtr.from_size new_capacity ;;
    first <- begin_ this ;; last <- end_ this ;;
    Std.copy first last (ArrayPtr.Get new_items) ;;
    it <- rd items_ this ;;
    let '(it', new_items') := ArrayPtr.swap it new_items in
    wr_items_ this it' ;;
    wr_capacity_ this new_capacity ;;
    ArrayPtr.dtor new_items'
  else ret tt.

(** [explicit SimpleVector(ReserveProxyObj obj)].  The body is
    [Reserve(obj.GetCapacity());].  Inside a member function an
    unqualified name is looked up in the class before the enclosing
    namespace, so [Reserve] is the member function above, which hides the
    free function of that name.  When it throws, the members built by
    their default initialisers are destroyed. *)
Definition ctor_reserve (obj : ReserveProxyObj.t) : M loc :=
  this <- new_obj (BuildSV 0 0 ArrayPtr.default) ;;
  unwinding (Reserve this (ReserveProxyObj.GetCapacity obj)) (dtor this) ;;
  ret this.

(** [operator<], [operator<=], [operator>] and [operator>=] (declared
    after the class) *)
Definition operator_lt `{!Ordered T} (lhs rhs : loc) : M bool :=
  first1 <- begin_ lhs ;; last1 <- end_ lhs ;;
  first2 <- begin_ rhs ;; last2 <- end_ rhs ;;
  Std.lexicographical_compare first1 last1 first2 last2.
Definition operator_le `{!Ordered T} (lhs rhs : loc) : M bool :=
  r <- operator_lt rhs lhs ;; ret (negb r).
Definition operator_gt `{!Ordered T} (lhs rhs : loc) : M bool :=
  r <- operator_le lhs rhs ;; ret (negb r).
Definition operator_ge `{!Ordered T} (lhs rhs : loc) : M bool :=
  r <- operator_lt lhs rhs ;; ret (negb r).
End SimpleVector.
End SimpleVector.

(** * An instance: vectors of integers

    [int] elements: [Type{}] is [0], a moved-from [int] keeps its value and
    the cells of [new int[n]] hold an arbitrary value, here [-1]. *)

#[export] Instance Z_Element : Element Z :=
  {| value_init := 0; default_init := -1; moved_from := λ x, x; elem_eqb := Z.eqb |}.

#[export] Instance Z_Ordered : Ordered Z := {| elem_ltb := Z.ltb |}.

#[export] Instance small_platform : Platform :=
  {| max_alloc := 2 ^ 40;
     max_alloc_range := conj (Z.pow_nonneg 2 40 ltac:(lia)) (Z.pow_lt_mono_r 2 40 63 ltac:(lia) ltac:(lia) ltac:(lia));
     unspecified_le := λ _ _, false |}.

(** [double] elements, to the extent that matters here: one value, [None],
    stands for a NaN, which compares unequal to itself. *)
#[export] Instance NaN_Element : Element (option Z) :=
  {| value_init := Some 0; default_init := Some (-1); moved_from := λ x, x;
     elem_eqb := λ x y, match x, y with Some a, Some b => a =? b | _, _ => false end |}.

(** Elements like [std::string], to the extent that matters here: a string
    is the list of its characters, [Type{}] is the empty string, and move
    assignment leaves its source empty. *)
#[export] Instance String_Element : Element (list Z) :=
  {| value_init := []; default_init := []; moved_from := λ _, [];
     elem_eqb := λ x y, bool_decide (x = y) |}.

(** * Scenarios

    What a client does in the scenarios of the specification. *)

Module Scenario.
Section Scenario.
Context {T : Type} `{!Element T} `{!Platform}.
Abbreviation M := (M T).

(** an array of the client's that holds [l] *)
Definition client_array (l : list T) : M pointer :=
  p <- new_array (Z.of_nat (length l)) ;; Std.copy_init l p ;; ret p.

(** five [PushBack]s on a default-constructed vector; the capacity after
    each *)
Definition five_push_backs (x1 x2 x3 x4 x5 : T) : M (list Z) :=
  v <- SimpleVector.ctor_default ;;
  args <- client_array [x1; x2; x3; x4; x5] ;;
  SimpleVector.PushBack_const_ref v args ;;
  c1 <- SimpleVector.GetCapacity v ;;
  arg <- ptr_add args 1 ;; SimpleVector.PushBack_const_ref v arg ;;
  c2 <- SimpleVector.GetCapacity v ;;
  arg <- ptr_add args 2 ;; SimpleVector.PushBack_const_ref v arg ;;
  c3 <- SimpleVector.GetCapacity v ;;
  arg <- ptr_add args 3 ;; SimpleVector.PushBack_const_ref v arg ;;
  c4 <- SimpleVector.GetCapacity v ;;
  arg <- ptr_add args 4 ;; SimpleVector.PushBack_const_ref v arg ;;
  c5 <- SimpleVector.GetCapacity v ;;
  ret [c1; c2; c3; c4; c5].

(** [SimpleVector<Type> v(init); v.Insert(v.begin() + index, x);] *)
Definition insert_at (init : list T) (index : Z) (x : T) : M pointer :=
  v <- SimpleVector.ctor_init_list init ;;
  arg <- client_array [x] ;;
  first <- SimpleVector.begin_ v ;; pos <- ptr_add first index ;;
  SimpleVector.Insert_const_ref v pos arg.

(** the same call with an rvalue argument, which selects the overload on
    [Type&&] *)
Definition insert_rvalue_at (init : list T) (index : Z) (x : T) : M pointer :=
  v <- SimpleVector.ctor_init_list init ;;
  arg <- client_array [x] ;;
  first <- SimpleVector.begin_ v ;; pos <- ptr_add first index ;;
  SimpleVector.Insert_rvalue_ref v pos arg.

(** the same after [v.Reserve(capacity)] *)
Definition reserve_insert_at (init : list T) (capacity index : Z) (x : T)
    : M (option (list T)) :=
  v <- SimpleVector.ctor_init_list init ;;
  SimpleVector.Reserve v capacity ;;
  arg <- client_array [x] ;;
  first <- SimpleVector.begin_ v ;; pos <- ptr_add first index ;;
  SimpleVector.Insert_const_ref v pos arg ;;
  λ w, Ok (match objs w !! v with
           | Some s =>
               match ArrayPtrRep.raw_ptr_ (items_ s) with
               | Ptr b _ => take (Z.to_nat (size_ s)) <$> heap w !! b
               | Null => None
               end
           | None => None
           end) w.

(** [SimpleVector<Type> a(dst), b(src); a = std::move(b);] and what
    [b.GetSize()], [b.GetCapacity()] and [b.begin()] are afterwards *)
Definition move_assign_from (dst src : list T) : M (Z * Z * pointer) :=
  a <- SimpleVector.ctor_init_list dst ;;
  b <- SimpleVector.ctor_init_list src ;;
  SimpleVector.assign_move a b ;;
  sz <- SimpleVector.GetSize b ;; cap <- SimpleVector.GetCapacity b ;;
  first <- SimpleVector.begin_ b ;;
  ret (sz, cap, first).

(** [SimpleVector<Type> v(init); v.Reserve(capacity);
    const Type& x = v[k]; v.Insert(v.begin() + index, x);]
    and what [x] reads before and after the call *)
Definition insert_own_element (init : list T) (capacity index k : Z) : M (T * T) :=
  v <- SimpleVector.ctor_init_list init ;;
  SimpleVector.Reserve v capacity ;;
  x <- SimpleVector.operator_index v k ;;
  before <- load x ;;
  first <- SimpleVector.begin_ v ;; pos <- ptr_add first index ;;
  SimpleVector.Insert_const_ref v pos x ;;
  after <- load x ;;
  ret (before, after).

(** [SimpleVector<Type> v(init); v.Reserve(capacity); v = v;] and what
    [v.begin()] is before and after the assignment *)
Definition copy_self_assign (init : list T) (capacity : Z) : M (pointer * pointer) :=
  v <- SimpleVector.ctor_init_list init ;;
  SimpleVector.Reserve v capacity ;;
  first <- SimpleVector.begin_ v ;;
  SimpleVector.assign_copy v v ;;
  first' <- SimpleVector.begin_ v ;;
  ret (first, first').

(** the same with [v = std::move(v);] *)
Definition move_self_assign (init : list T) (capacity : Z) : M (pointer * pointer) :=
  v <- SimpleVector.ctor_init_list init ;;
  SimpleVector.Reserve v capacity ;;
  first <- SimpleVector.begin_ v ;;
  SimpleVector.assign_move v v ;;
  first' <- SimpleVector.begin_ v ;;
  ret (first, first').

(** [SimpleVector<Type> v(init); v.Reserve(capacity); v.PushBack(x);] *)
Definition reserve_push_back (init : list T) (capacity : Z) (x : T) : M unit :=
  v <- SimpleVector.ctor_init_list init ;;
  SimpleVector.Reserve v capacity ;;
  arg <- client_array [x] ;;
  SimpleVector.PushBack_const_ref v arg.

(** the same with [v = v;] before the [PushBack] *)
Definition copy_self_assign_push_back (init : list T) (capacity : Z) (x : T) : M unit :=
  v <- SimpleVector.ctor_init_list init ;;
  SimpleVector.Reserve v capacity ;;
  arg <- client_array [x] ;;
  SimpleVector.assign_copy v v ;;
  SimpleVector.PushBack_const_ref v arg.

(** [SimpleVector<Type> v(init); v[index];] *)
Definition index_at (init : list T) (index : Z) : M pointer :=
  v <- SimpleVector.ctor_init_list init ;;
  SimpleVector.operator_index v index.
End Scenario.
End Scenario.

(** * Vocabulary of the specification *)

Section Verification.
Context {T : Type} `{!Element T} `{!Platform}.
Abbreviation M := (M T).
Abbreviation world := (world T).
Implicit Types (w : world) (p q : pointer) (b : block) (this other : loc).

(** ** Total and partial correctness

    [wp] is total correctness: the run returns normally and the result
    satisfies [Q].  [wlp] is partial correctness: a run that ends in a
    failed [assert] or in undefined behaviour leaves no state to speak
    about, a run that returns or throws does. *)

Definition wp {A} (m : M A) (w : world) (Q : A → world → Prop) : Prop :=
  match m w with
  | Ok a w' => Q a w'
  | _ => False
  end.

Definition wlp {A} (m : M A) (w : world)
    (Q : A → world → Prop) (E : exn → world → Prop) : Prop :=
  match m w with
  | Ok a w' => Q a w'
  | Throw e w' => E e w'
  | AssertFail | Undefined => True
  end.

(** ** What a vector holds

    The elements of the vector at [this] are the cells [[0, size_)] of the
    array [items_] points to. *)
Definition elements (w : world) (this : loc) : option (list T) :=
  match objs w !! this with
  | None => None
  | Some s =>
      match ArrayPtrRep.raw_ptr_ (items_ s) with
      | Null => if size_ s =? 0 then Some [] else None
      | Ptr b o =>
          match heap w !! b with
          | Some l =>
              if (o =? 0) && (0 <=? size_ s) && (size_ s <=? Z.of_nat (length l))
              then Some (take (Z.to_nat (size_ s)) l)
              else None
          | None => None
          end
      end
  end.

(** ** Well-formed states *)

(** the fields of one vector: the size is within the capacity and within
    the array, which is live *)
Definition wf_vec (h : gmap block (list T)) (s : SimpleVectorRep) : Prop :=
  0 ≤ size_ s ≤ capacity_ s ∧
  match ArrayPtrRep.raw_ptr_ (items_ s) with
  | Null => size_ s = 0
  | Ptr b o => o = 0 ∧ ∃ l, h !! b = Some l ∧ size_ s ≤ Z.of_nat (length l)
  end.

(** the vector at [o] owns block [b] *)
Definition owns (w : world) (o : loc) (b : block) : Prop :=
  ∃ s x, objs w !! o = Some s ∧ ArrayPtrRep.raw_ptr_ (items_ s) = Ptr b x.

Record wf_world (w : world) : Prop := {
  wf_fresh_block : ∀ b, (next_block w ≤ b)%nat → heap w !! b = None;
  wf_fresh_loc : ∀ o, (next_loc w ≤ o)%nat → objs w !! o = None;
  wf_alloc : ∀ b l, heap w !! b = Some l → Z.of_nat (length l) ≤ max_alloc;
  wf_objs : ∀ o s, objs w !! o = Some s → wf_vec (heap w) s;
  wf_owner : ∀ o1 o2 b, owns w o1 b → owns w o2 b → o1 = o2;
}.

(** the arrays the vectors do not own are the caller's; [client_frame w w']
    says they are in [w'] what they were in [w] *)
Definition client_frame (w w' : world) : Prop :=
  ∀ b l, heap w !! b = Some l → (∀ o, ¬ owns w o b) →
         heap w' !! b = Some l ∧ ∀ o, ¬ owns w' o b.

(** what a call that starts in [w0] owes its caller in the state [w] it
    leaves *)
Definition kept (w0 w : world) : Prop := wf_world w ∧ client_frame w0 w.

(** [w'] is [w] after assignments to elements of the arrays in [B] *)
Definition stores_in (B : block → Prop) (w w' : world) : Prop :=
  objs w' = objs w ∧ next_block w' = next_block w ∧ next_loc w' = next_loc w ∧
  (∀ b, length <$> heap w' !! b = length <$> heap w !! b) ∧
  (∀ b, ¬ B b → heap w' !! b = heap w !! b).

Definition in_block (p : pointer) (b : block) : Prop :=
  match p with
  | Null => False
  | Ptr b' _ => b' = b
  end.

(** a computation that only assigns to elements of the arrays in [B] and
    never throws *)
Definition frames {A} (B : block → Prop) (m : M A) : Prop :=
  ∀ w, wlp m w (λ _ w', stores_in B w w') (λ _ _, False).

(** ... and returns a pointer into one of them *)
Definition lands_in (B : block → Prop) (m : M pointer) : Prop :=
  ∀ w, wlp m w (λ r w', stores_in B w w' ∧ ∀ b, in_block r b → B b) (λ _ _, False).

(** ** What the operations are compared with *)

(** the array behind the vector at [this] has a cell for each unit of its
    capacity *)
Definition backed (w : world) (this : loc) : Prop :=
  ∃ s, objs w !! this = Some s ∧
       match ArrayPtrRep.raw_ptr_ (items_ s) with
       | Null => capacity_ s = 0
       | Ptr b _ => ∃ l, heap w !! b = Some l ∧ capacity_ s ≤ Z.of_nat (length l)
       end.

(** the object [p] points to is the caller's, not an element of a vector,
    and holds [v] *)
Definition client_holds (w : world) (p : pointer) (v : T) : Prop :=
  match p with
  | Null => False
  | Ptr b o => (∃ l, heap w !! b = Some l ∧ 0 ≤ o ∧ l !! Z.to_nat o = Some v) ∧
               ∀ this, ¬ owns w this b
  end.

(** no vector owns block [b], as a test *)
Definition owned_by_none (w : world) (b : block) : bool :=
  forallb (λ os, match ArrayPtrRep.raw_ptr_ (items_ os.2) with
                 | Null => true
                 | Ptr b' _ => negb (Nat.eqb b' b)
                 end)
          (map_to_list (objs w)).

(** walking on from [p] with [*p] and [++p] reads the values [zs], in
    this order *)
Fixpoint reads (w : world) (p : pointer) (zs : list T) : Prop :=
  match zs with
  | [] => True
  | z :: zs' =>
      load p w = Ok z w ∧ ∃ p', ptr_add p 1 w = Ok p' w ∧ reads w p' zs'
  end.

(** two lists are equal element by element, by [operator==] of [Type] *)
Fixpoint equal_lists (xs ys : list T) : bool :=
  match xs, ys with
  | [], [] => true
  | x :: xs', y :: ys' => elem_eqb x y && equal_lists xs' ys'
  | _, _ => false
  end.

(** the lexicographic order of lists, by [operator<] of [Type] *)
Fixpoint lex_lt `{!Ordered T} (xs ys : list T) : bool :=
  match xs, ys with
  | _, [] => false
  | [], _ :: _ => true
  | x :: xs', y :: ys' =>
      if elem_ltb x y then true
      else if elem_ltb y x then false
      else lex_lt xs' ys'
  end.

(** ** Reachable states

    A client builds vectors, calls their methods, destroys them, allocates
    arrays of its own and assigns to elements through pointers. *)
Inductive call :=
| CtorDefault
| CtorMove (other : loc)
| CtorCopy (other : loc)
| CtorSize (size : Z)
| CtorSizeValue (size : Z) (value : pointer)
| CtorInitList (init : list T)
| CtorReserve (obj : ReserveProxyObj.t)
| Dtor (this : loc)
| AssignMove (this rhs : loc)
| AssignCopy (this rhs : loc)
| CallClear (this : loc)
| CallResize (this : loc) (new_size : Z)
| CallPushBackConstRef (this : loc) (item : pointer)
| CallPushBackRvalueRef (this : loc) (item : pointer)
| CallInsertConstRef (this : loc) (pos value : pointer)
| CallInsertRvalueRef (this : loc) (pos value : pointer)
| CallPopBack (this : loc)
| CallErase (this : loc) (pos : pointer)
| CallSwap (this other : loc)
| CallReserve (this : loc) (new_capacity : Z)
| ClientNew (n : Z)
| ClientStore (p : pointer) (v : T).

Definition run (c : call) : M unit :=
  match c with
  | CtorDefault => SimpleVector.ctor_default ;; ret tt
  | CtorMove other => SimpleVector.ctor_move other ;; ret tt
  | CtorCopy other => SimpleVector.ctor_copy other ;; ret tt
  | CtorSize size => SimpleVector.ctor_size size ;; ret tt
  | CtorSizeValue size value => SimpleVector.ctor_size_value size value ;; ret tt
  | CtorInitList init => SimpleVector.ctor_init_list init ;; ret tt
  | CtorReserve obj => SimpleVector.ctor_reserve obj ;; ret tt
  | Dtor this => SimpleVector.dtor this
  | AssignMove this rhs => SimpleVector.assign_move this rhs ;; ret tt
  | AssignCopy this rhs => SimpleVector.assign_copy this rhs ;; ret tt
  | CallClear this => SimpleVector.Clear this
  | CallResize this new_size => SimpleVector.Resize this new_size
  | CallPushBackConstRef this item => SimpleVector.PushBack_const_ref this item
  | CallPushBackRvalueRef this item => SimpleVector.PushBack_rvalue_ref this item
  | CallInsertConstRef this pos value => SimpleVector.Insert_const_ref this pos value ;; ret tt
  | CallInsertRvalueRef this pos value => SimpleVector.Insert_rvalue_ref this pos value ;; ret tt
  | CallPopBack this => SimpleVector.PopBack this
  | CallErase this pos => SimpleVector.Erase this pos ;; ret tt
  | CallSwap this other => SimpleVector.swap this other
  | CallReserve this new_capacity => SimpleVector.Reserve this new_capacity
  | ClientNew n => new_array n ;; ret tt
  | ClientStore p v => store p v
  end.

Definition is_size_t (n : Z) : Prop := 0 ≤ n < 2 ^ 64.

(** the arguments of type [size_t] are values of that type *)
Definition well_typed (c : call) : Prop :=
  match c with
  | CtorSize size | CtorSizeValue size _ => is_size_t size
  | CtorInitList init => is_size_t (Z.of_nat (length init))
  | CtorReserve obj => is_size_t (ReserveProxyObj.GetCapacity obj)
  | CallResize _ n | CallReserve _ n | ClientNew n => is_size_t n
  | _ => True
  end.

(** the state a call leaves behind, and the state a sequence of calls
    leaves behind *)
Definition world_after {A} (m : M A) (w : world) : world :=
  match m w with
  | Ok _ w' | Throw _ w' => w'
  | AssertFail | Undefined => w
  end.
Definition run_all (cs : list call) (w : world) : world :=
  foldl (λ w c, world_after (run c) w) w cs.

Inductive reachable : world → Prop :=
| reachable_empty : reachable empty_world
| reachable_return c w w' :
    reachable w → well_typed c → run c w = Ok tt w' → reachable w'
| reachable_throw c w e w' :
    reachable w → well_typed c → run c w = Throw e w' → reachable w'.

(** * Rules for [wp] and [wlp] *)

#[local] Arguments wp : simpl never.
#[local] Arguments wlp : simpl never.

Lemma wp_intro {A} (m : M A) w a w' (Q : A → world → Prop) :
  m w = Ok a w' → Q a w' → wp m w Q.
Proof. unfold wp. by intros ->. Qed.

Lemma wp_elim {A} (m : M A) w (Q : A → world → Prop) :
  wp m w Q → ∃ a w', m w = Ok a w' ∧ Q a w'.
Proof. unfold wp. destruct (m w); naive_solver. Qed.

Lemma wp_mono {A} (m : M A) w (Q Q' : A → world → Prop) :
  wp m w Q → (∀ a w', Q a w' → Q' a w') → wp m w Q'.
Proof. unfold wp. destruct (m w); naive_solver. Qed.

Lemma wp_ret {A} (a : A) w Q : Q a w → wp (ret a) w Q.
Proof. done. Qed.

Lemma wp_bind {A B} (m : M A) (k : A → M B) w Q :
  wp m w (λ a w', wp (k a) w' Q) → wp (bind m k) w Q.
Proof. unfold wp, bind. by destruct (m w). Qed.

Lemma wlp_mono {A} (m : M A) w (Q Q' : A → world → Prop) (E E' : exn → world → Prop) :
  wlp m w Q E → (∀ a w', Q a w' → Q' a w') → (∀ e w', E e w' → E' e w') →
  wlp m w Q' E'.
Proof. unfold wlp. destruct (m w); naive_solver. Qed.

Lemma wlp_ret {A} (a : A) w Q E : Q a w → wlp (ret a) w Q E.
Proof. done. Qed.

Lemma wlp_bind {A B} (m : M A) (k : A → M B) w Q E :
  wlp m w (λ a w', wlp (k a) w' Q E) E → wlp (bind m k) w Q E.
Proof. unfold wlp, bind. by destruct (m w). Qed.

Lemma wlp_throw {A} e w (Q : A → world → Prop) (E : exn → world → Prop) :
  E e w → wlp (throw e) w Q E.
Proof. done. Qed.

Lemma wlp_undefined {A} w (Q : A → world → Prop) E : wlp undefined w Q E.
Proof. done. Qed.

Lemma wlp_assert c w (Q : unit → world → Prop) E :
  (c = true → Q tt w) → wlp (assert c) w Q E.
Proof. unfold wlp, assert. destruct c; auto. Qed.

Lemma wp_assert c w (Q : unit → world → Prop) :
  c = true → Q tt w → wp (assert c) w Q.
Proof. unfold wp, assert. by intros ->. Qed.

Lemma wlp_unwinding {A} (m : M A) cleanup w Q (E : exn → world → Prop) :
  wlp m w Q (λ e w', wlp cleanup w' (λ _ w'', E e w'') E) →
  wlp (unwinding m cleanup) w Q E.
Proof.
  unfold wlp, unwinding. destruct (m w); try done.
  by destruct (cleanup w0).
Qed.

Lemma wp_unwinding {A} (m : M A) cleanup w Q :
  wp m w Q → wp (unwinding m cleanup) w Q.
Proof. unfold wp, unwinding. by destruct (m w). Qed.

(** *** The object store *)

Lemma wlp_get_obj this w Q E :
  (∀ s, objs w !! this = Some s → Q s w) → wlp (get_obj this) w Q E.
Proof. unfold wlp, get_obj. destruct (objs w !! this); auto. Qed.

Lemma wp_get_obj this s w Q :
  objs w !! this = Some s → Q s w → wp (get_obj this) w Q.
Proof. unfold wp, get_obj. by intros ->. Qed.

Lemma wlp_put_obj this s w Q E :
  (∀ s0, objs w !! this = Some s0 → Q tt (set_objs (<[this := s]> (objs w)) w)) →
  wlp (put_obj this s) w Q E.
Proof. unfold wlp, put_obj. destruct (objs w !! this); eauto. Qed.

Lemma wp_put_obj this s s0 w Q :
  objs w !! this = Some s0 →
  Q tt (set_objs (<[this := s]> (objs w)) w) →
  wp (put_obj this s) w Q.
Proof. unfold wp, put_obj. by intros ->. Qed.

Lemma wlp_new_obj s w Q E :
  Q (next_loc w) (World (heap w) (next_block w) (<[next_loc w := s]> (objs w)) (S (next_loc w))) →
  wlp (new_obj s) w Q E.
Proof. done. Qed.

Lemma wp_new_obj s w Q :
  Q (next_loc w) (World (heap w) (next_block w) (<[next_loc w := s]> (objs w)) (S (next_loc w))) →
  wp (new_obj s) w Q.
Proof. done. Qed.

Lemma wlp_del_obj this w Q E :
  (∀ s0, objs w !! this = Some s0 → Q tt (set_objs (delete this (objs w)) w)) →
  wlp (del_obj this) w Q E.
Proof. unfold wlp, del_obj. destruct (objs w !! this); eauto. Qed.

Lemma wp_del_obj this s0 w Q :
  objs w !! this = Some s0 →
  Q tt (set_objs (delete this (objs w)) w) →
  wp (del_obj this) w Q.
Proof. unfold wp, del_obj. by intros ->. Qed.

(** *** The free store *)

Lemma wlp_new_array n w Q (E : exn → world → Prop) :
  (max_alloc < n → E bad_alloc w) →
  (n ≤ max_alloc →
   Q (Ptr (next_block w) 0)
     (World (<[next_block w := replicate (Z.to_nat n) default_init]> (heap w))
              (S (next_block w)) (objs w) (next_loc w))) →
  wlp (new_array n) w Q E.
Proof.
  unfold wlp, new_array. intros HE HQ.
  destruct (Z.ltb_spec max_alloc n); auto.
Qed.

Lemma wp_new_array n w Q :
  n ≤ max_alloc →
  Q (Ptr (next_block w) 0)
    (World (<[next_block w := replicate (Z.to_nat n) default_init]> (heap w))
             (S (next_block w)) (objs w) (next_loc w)) →
  wp (new_array n) w Q.
Proof.
  unfold wp, new_array. intros Hn HQ.
  destruct (Z.ltb_spec max_alloc n); [lia | done].
Qed.

Lemma wlp_delete_array p w Q E :
  (p = Null → Q tt w) →
  (∀ b l, p = Ptr b 0 → heap w !! b = Some l → Q tt (set_heap (delete b (heap w)) w)) →
  wlp (delete_array p) w Q E.
Proof.
  unfold wlp, delete_array. intros HN HP. destruct p as [|b o]; [auto|].
  destruct (heap w !! b) eqn:Hb; [|done].
  destruct (Z.eqb_spec o 0); [subst; eauto | done].
Qed.

Lemma wp_delete_array_null w Q : Q tt w → wp (delete_array Null) w Q.
Proof. done. Qed.

Lemma wp_delete_array b l w Q :
  heap w !! b = Some l → Q tt (set_heap (delete b (heap w)) w) →
  wp (delete_array (Ptr b 0)) w Q.
Proof. unfold wp, delete_array. by intros ->. Qed.

Lemma wlp_load p w Q E :
  (∀ b o l v, p = Ptr b o → heap w !! b = Some l → 0 ≤ o →
              l !! Z.to_nat o = Some v → Q v w) →
  wlp (load p) w Q E.
Proof.
  unfold wlp, load. intros HQ. destruct p as [|b o]; [done|].
  destruct (heap w !! b) as [l|] eqn:Hb; [|done].
  destruct (Z.leb_spec 0 o); [|done].
  destruct (l !! Z.to_nat o) eqn:Hl; [|done]. eauto.
Qed.

Lemma wp_load b o l v w Q :
  heap w !! b = Some l → 0 ≤ o → l !! Z.to_nat o = Some v → Q v w →
  wp (load (Ptr b o)) w Q.
Proof.
  unfold wp, load. intros -> Ho Hl HQ.
  destruct (Z.leb_spec 0 o); [|lia]. by rewrite Hl.
Qed.

Lemma wlp_store p v w Q E :
  (∀ b o l, p = Ptr b o → heap w !! b = Some l → 0 ≤ o < Z.of_nat (length l) →
            Q tt (set_heap (<[b := <[Z.to_nat o := v]> l]> (heap w)) w)) →
  wlp (store p v) w Q E.
Proof.
  unfold wlp, store. intros HQ. destruct p as [|b o]; [done|].
  destruct (heap w !! b) as [l|] eqn:Hb; [|done].
  destruct (Z.leb_spec 0 o), (Z.ltb_spec o (Z.of_nat (length l))); simpl; try done.
  apply (HQ b o l); auto with lia.
Qed.

Lemma wp_store b o l v w Q :
  heap w !! b = Some l → 0 ≤ o < Z.of_nat (length l) →
  Q tt (set_heap (<[b := <[Z.to_nat o := v]> l]> (heap w)) w) →
  wp (store (Ptr b o) v) w Q.
Proof.
  unfold wp, store. intros -> Ho HQ.
  destruct (Z.leb_spec 0 o), (Z.ltb_spec o (Z.of_nat (length l))); simpl; try done; lia.
Qed.

Lemma wlp_ptr_add p n w Q E :
  (p = Null → n = 0 → Q Null w) →
  (∀ b o l, p = Ptr b o → heap w !! b = Some l →
            0 ≤ o + n ≤ Z.of_nat (length l) → Q (Ptr b (o + n)) w) →
  wlp (ptr_add p n) w Q E.
Proof.
  unfold wlp, ptr_add. intros HN HP. destruct p as [|b o].
  - destruct (Z.eqb_spec n 0); auto.
  - destruct (heap w !! b) as [l|] eqn:Hb; [|done].
    destruct (Z.leb_spec 0 (o + n)), (Z.leb_spec (o + n) (Z.of_nat (length l)));
      simpl; try done.
    apply (HP b o l); auto with lia.
Qed.

Lemma wp_ptr_add_null w Q : Q Null w → wp (ptr_add Null 0) w Q.
Proof. done. Qed.

Lemma wp_ptr_add b o n l w Q :
  heap w !! b = Some l → 0 ≤ o + n ≤ Z.of_nat (length l) →
  Q (Ptr b (o + n)) w → wp (ptr_add (Ptr b o) n) w Q.
Proof.
  unfold wp, ptr_add. intros -> Ho HQ.
  destruct (Z.leb_spec 0 (o + n)), (Z.leb_spec (o + n) (Z.of_nat (length l)));
    simpl; try done; lia.
Qed.

Lemma wlp_ptr_diff p q w Q E :
  (p = Null → q = Null → Q 0 w) →
  (∀ b o o' l, p = Ptr b o → q = Ptr b o' → heap w !! b = Some l → Q (o - o') w) →
  wlp (ptr_diff p q) w Q E.
Proof.
  unfold wlp, ptr_diff. intros HN HP.
  destruct p as [|b o], q as [|b' o']; auto.
  destruct (Nat.eqb_spec b b'); [subst|done].
  destruct (heap w !! b') eqn:Hb; [|done]. eauto.
Qed.

Lemma wp_ptr_diff_null w Q : Q 0 w → wp (ptr_diff Null Null) w Q.
Proof. done. Qed.

Lemma wp_ptr_diff b o o' l w Q :
  heap w !! b = Some l → Q (o - o') w → wp (ptr_diff (Ptr b o) (Ptr b o')) w Q.
Proof. unfold wp, ptr_diff. rewrite Nat.eqb_refl. by intros ->. Qed.

(** *** Fields *)

Lemma wlp_rd {A} (f : SimpleVectorRep → A) this w Q E :
  (∀ s, objs w !! this = Some s → Q (f s) w) → wlp (SimpleVector.rd f this) w Q E.
Proof. intros HQ. apply wlp_bind, wlp_get_obj. intros s Hs. by apply wlp_ret, HQ. Qed.

Lemma wp_rd {A} (f : SimpleVectorRep → A) this s w Q :
  objs w !! this = Some s → Q (f s) w → wp (SimpleVector.rd f this) w Q.
Proof. intros Hs HQ. eapply wp_bind, wp_get_obj; [done|]. by apply wp_ret. Qed.

Lemma wlp_wr_size_ this v w Q E :
  (∀ s, objs w !! this = Some s →
        Q tt (set_objs (<[this := BuildSV v (capacity_ s) (items_ s)]> (objs w)) w)) →
  wlp (SimpleVector.wr_size_ this v) w Q E.
Proof.
  intros HQ. apply wlp_bind, wlp_get_obj. intros s Hs.
  apply wlp_put_obj. intros _ _. by apply HQ.
Qed.

Lemma wp_wr_size_ this v s w Q :
  objs w !! this = Some s →
  Q tt (set_objs (<[this := BuildSV v (capacity_ s) (items_ s)]> (objs w)) w) →
  wp (SimpleVector.wr_size_ this v) w Q.
Proof. intros Hs HQ. eapply wp_bind, wp_get_obj; [done|]. by eapply wp_put_obj. Qed.

Lemma wlp_wr_capacity_ this v w Q E :
  (∀ s, objs w !! this = Some s →
        Q tt (set_objs (<[this := BuildSV (size_ s) v (items_ s)]> (objs w)) w)) →
  wlp (SimpleVector.wr_capacity_ this v) w Q E.
Proof.
  intros HQ. apply wlp_bind, wlp_get_obj. intros s Hs.
  apply wlp_put_obj. intros _ _. by apply HQ.
Qed.

Lemma wp_wr_capacity_ this v s w Q :
  objs w !! this = Some s →
  Q tt (set_objs (<[this := BuildSV (size_ s) v (items_ s)]> (objs w)) w) →
  wp (SimpleVector.wr_capacity_ this v) w Q.
Proof. intros Hs HQ. eapply wp_bind, wp_get_obj; [done|]. by eapply wp_put_obj. Qed.

Lemma wlp_wr_items_ this v w Q E :
  (∀ s, objs w !! this = Some s →
        Q tt (set_objs (<[this := BuildSV (size_ s) (capacity_ s) v]> (objs w)) w)) →
  wlp (SimpleVector.wr_items_ this v) w Q E.
Proof.
  intros HQ. apply wlp_bind, wlp_get_obj. intros s Hs.
  apply wlp_put_obj. intros _ _. by apply HQ.
Qed.

Lemma wp_wr_items_ this v s w Q :
  objs w !! this = Some s →
  Q tt (set_objs (<[this := BuildSV (size_ s) (capacity_ s) v]> (objs w)) w) →
  wp (SimpleVector.wr_items_ this v) w Q.
Proof. intros Hs HQ. eapply wp_bind, wp_get_obj; [done|]. by eapply wp_put_obj. Qed.

(** * Assignments to elements keep the shape of the state *)

Lemma stores_in_refl B w : stores_in B w w.
Proof. unfold stores_in. by split_and!. Qed.

Lemma stores_in_trans B w1 w2 w3 :
  stores_in B w1 w2 → stores_in B w2 w3 → stores_in B w1 w3.
Proof.
  intros (Ho & Hb & Hl & Hlen & Hf) (Ho' & Hb' & Hl' & Hlen' & Hf').
  unfold stores_in. split_and!; try congruence.
  intros b Hb0. by rewrite Hf', Hf.
Qed.

Lemma stores_in_mono B B' w w' :
  (∀ b, B b → B' b) → stores_in B w w' → stores_in B' w w'.
Proof. intros HB (?&?&?&?&Hf). unfold stores_in. split_and!; auto. Qed.

Lemma stores_in_store B w b l i v :
  heap w !! b = Some l → B b →
  stores_in B w (set_heap (<[b := <[i := v]> l]> (heap w)) w).
Proof.
  intros Hl HB. unfold stores_in. split_and!; simpl; try done.
  - intros b'. destruct (decide (b = b')) as [->|].
    + by rewrite lookup_insert_eq, Hl; simpl; rewrite length_insert.
    + by rewrite lookup_insert_ne.
  - intros b' Hb'. rewrite lookup_insert_ne; [done|]. by intros ->.
Qed.

Lemma wlp_frames {A} B (m : M A) w Q E :
  frames B m → (∀ a w', stores_in B w w' → Q a w') → wlp m w Q E.
Proof. intros Hm HQ. eapply wlp_mono; [apply Hm | auto | done]. Qed.

Lemma frames_mono {A} B B' (m : M A) :
  (∀ b, B b → B' b) → frames B m → frames B' m.
Proof.
  intros HB Hm w. eapply wlp_mono; [apply Hm | | done].
  intros a w' Hw'. cbv beta in *. eapply stores_in_mono; eassumption.
Qed.

Lemma frames_ret {A} B (a : A) : frames B (ret a).
Proof. intros w. apply wlp_ret, stores_in_refl. Qed.

Lemma frames_bind {A C} B (m : M A) (k : A → M C) :
  frames B m → (∀ a, frames B (k a)) → frames B (bind m k).
Proof.
  intros Hm Hk w. apply wlp_bind. eapply wlp_mono; [apply Hm | | done].
  intros a w' Hw'. eapply wlp_mono; [apply Hk | | done].
  intros c w'' Hw''. cbv beta in *. eapply stores_in_trans; eassumption.
Qed.

Lemma frames_undefined {A} B : frames B (undefined : M A).
Proof. intros w. apply wlp_undefined. Qed.

Lemma frames_assert B c : frames B (assert c).
Proof. intros w. apply wlp_assert. intros _. apply stores_in_refl. Qed.

Lemma frames_load B p : frames B (load p).
Proof. intros w. apply wlp_load. intros. apply stores_in_refl. Qed.

Lemma frames_store B p v : (∀ b, in_block p b → B b) → frames B (store p v).
Proof.
  intros HB w. apply wlp_store. intros b o l -> Hl _.
  apply stores_in_store; [done|]. by apply HB.
Qed.

Lemma frames_ptr_add B p n : frames B (ptr_add p n).
Proof. intros w. apply wlp_ptr_add; intros; apply stores_in_refl. Qed.

Lemma frames_ptr_diff B p q : frames B (ptr_diff p q).
Proof. intros w. apply wlp_ptr_diff; intros; apply stores_in_refl. Qed.

Lemma frames_get_obj B this : frames B (get_obj this).
Proof. intros w. apply wlp_get_obj. intros. apply stores_in_refl. Qed.

Lemma frames_rd {A} B (f : SimpleVectorRep → A) this : frames B (SimpleVector.rd f this).
Proof. intros w. apply wlp_rd. intros. apply stores_in_refl. Qed.

Lemma frames_if {A} B (c : bool) (m1 m2 : M A) :
  frames B m1 → frames B m2 → frames B (if c then m1 else m2).
Proof. by destruct c. Qed.

(** [p + n] stays in the array of [p] *)
Lemma wlp_ptr_add_in p n w (Q : pointer → world → Prop) E :
  (∀ r, (∀ b, in_block r b → in_block p b) → Q r w) → wlp (ptr_add p n) w Q E.
Proof.
  intros HQ. apply wlp_ptr_add.
  - intros -> _. by apply HQ.
  - intros b o l -> _ _. by apply HQ.
Qed.

Lemma frames_copy_assign B d s :
  (∀ b, in_block d b → B b) → frames B (Std.copy_assign d s).
Proof.
  intros HB. apply frames_bind; [apply frames_load|].
  intros v. by apply frames_store.
Qed.

Lemma frames_move_assign B d s :
  (∀ b, in_block d b → B b) → (∀ b, in_block s b → B b) →
  frames B (Std.move_assign d s).
Proof.
  intros HB HB'. apply frames_bind; [apply frames_load|].
  intros v. apply frames_bind; [by apply frames_store|].
  intros _. by apply frames_store.
Qed.

Lemma frames_range_length B first last : frames B (Std.range_length first last).
Proof.
  apply frames_bind; [apply frames_ptr_diff|].
  intros n. apply frames_if; [apply frames_undefined | apply frames_ret].
Qed.

Lemma lands_in_frames B m : lands_in B m → frames B m.
Proof. intros Hm w. eapply wlp_mono; [apply Hm | | done]. by intros r w' [? _]. Qed.

Lemma lands_in_step {A} B (m : M A) (k : A → M pointer) :
  frames B m → (∀ a, lands_in B (k a)) → lands_in B (bind m k).
Proof.
  intros Hm Hk w. apply wlp_bind. eapply wlp_mono; [apply Hm | | done].
  intros a w' Hw'. eapply wlp_mono; [apply Hk | | done].
  intros r w'' [Hw'' Hr]. cbv beta in *. split; [|done].
  eapply stores_in_trans; eassumption.
Qed.

Lemma lands_in_ptr_add B p n (k : pointer → M pointer) :
  (∀ r, (∀ b, in_block r b → in_block p b) → lands_in B (k r)) →
  lands_in B (bind (ptr_add p n) k).
Proof.
  intros Hk w. apply wlp_bind, wlp_ptr_add_in. intros r Hr. by apply Hk.
Qed.

Lemma lands_in_copy_n B n first d_first :
  (∀ b, in_block d_first b → B b) → lands_in B (Std.copy_n n first d_first).
Proof.
  revert first d_first. induction n as [|n IH]; intros first d_first HB; simpl.
  - intros w. apply wlp_ret. split; [apply stores_in_refl | done].
  - apply lands_in_step; [by apply frames_copy_assign|]. intros _.
    apply lands_in_ptr_add. intros first' _.
    apply lands_in_ptr_add. intros d' Hd'. apply IH. auto.
Qed.

Lemma lands_in_copy B first last d_first :
  (∀ b, in_block d_first b → B b) → lands_in B (Std.copy first last d_first).
Proof.
  intros HB. apply lands_in_step; [apply frames_range_length|].
  intros n. by apply lands_in_copy_n.
Qed.

Lemma lands_in_move_n B n first d_first :
  (∀ b, in_block first b → B b) → (∀ b, in_block d_first b → B b) →
  lands_in B (Std.move_n n first d_first).
Proof.
  revert first d_first. induction n as [|n IH]; intros first d_first HB HB'; simpl.
  - intros w. apply wlp_ret. split; [apply stores_in_refl | done].
  - apply lands_in_step; [by apply frames_move_assign|]. intros _.
    apply lands_in_ptr_add. intros first' Hf'.
    apply lands_in_ptr_add. intros d' Hd'. apply IH; auto.
Qed.

Lemma lands_in_move B first last d_first :
  (∀ b, in_block first b → B b) → (∀ b, in_block d_first b → B b) →
  lands_in B (Std.move first last d_first).
Proof.
  intros HB HB'. apply lands_in_step; [apply frames_range_length|].
  intros n. by apply lands_in_move_n.
Qed.

Lemma lands_in_move_backward_n B n last d_last :
  (∀ b, in_block last b → B b) → (∀ b, in_block d_last b → B b) →
  lands_in B (Std.move_backward_n n last d_last).
Proof.
  revert last d_last. induction n as [|n IH]; intros last d_last HB HB'; simpl.
  - intros w. apply wlp_ret. split; [apply stores_in_refl | done].
  - apply lands_in_ptr_add. intros last' Hl'.
    apply lands_in_ptr_add. intros d' Hd'.
    apply lands_in_step; [apply frames_move_assign; auto|]. intros _.
    apply IH; auto.
Qed.

Lemma lands_in_move_backward B first last d_last :
  (∀ b, in_block last b → B b) → (∀ b, in_block d_last b → B b) →
  lands_in B (Std.move_backward first last d_last).
Proof.
  intros HB HB'. apply lands_in_step; [apply frames_range_length|].
  intros n. by apply lands_in_move_backward_n.
Qed.

Lemma lands_in_copy_init B init d_first :
  (∀ b, in_block d_first b → B b) → lands_in B (Std.copy_init init d_first).
Proof.
  revert d_first. induction init as [|v init IH]; intros d_first HB; simpl.
  - intros w. apply wlp_ret. split; [apply stores_in_refl | done].
  - apply lands_in_step; [by apply frames_store|]. intros _.
    apply lands_in_ptr_add. intros d' Hd'. apply IH. auto.
Qed.

Lemma frames_ptr_add_in {A} B p n (k : pointer → M A) :
  (∀ r, (∀ b, in_block r b → in_block p b) → frames B (k r)) →
  frames B (bind (ptr_add p n) k).
Proof.
  intros Hk w. apply wlp_bind, wlp_ptr_add_in. intros r Hr. by apply Hk.
Qed.

Lemma frames_fill_n B n first value :
  (∀ b, in_block first b → B b) → frames B (Std.fill_n n first value).
Proof.
  revert first. induction n as [|n IH]; intros first HB; simpl.
  - apply frames_ret.
  - apply frames_bind; [by apply frames_copy_assign|]. intros _.
    apply frames_ptr_add_in. intros first' Hf'. apply IH. auto.
Qed.

Lemma frames_fill B first last value :
  (∀ b, in_block first b → B b) → frames B (Std.fill first last value).
Proof.
  intros HB. apply frames_bind; [apply frames_range_length|].
  intros n. by apply frames_fill_n.
Qed.

Lemma frames_generate_n B n first v :
  (∀ b, in_block first b → B b) → frames B (Std.generate_n n first (ret v)).
Proof.
  revert first. induction n as [|n IH]; intros first HB; simpl.
  - apply frames_ret.
  - apply frames_bind; [apply frames_ret|]. intros x.
    apply frames_bind; [by apply frames_store|]. intros _.
    apply frames_ptr_add_in. intros first' Hf'. apply IH. auto.
Qed.

Lemma frames_generate B first last v :
  (∀ b, in_block first b → B b) → frames B (Std.generate first last (ret v)).
Proof.
  intros HB. apply frames_bind; [apply frames_range_length|].
  intros n. by apply frames_generate_n.
Qed.

Lemma frames_equal_n B n first1 first2 : frames B (Std.equal_n n first1 first2).
Proof.
  revert first1 first2. induction n as [|n IH]; intros first1 first2; simpl.
  - apply frames_ret.
  - apply frames_bind; [apply frames_load|]. intros x.
    apply frames_bind; [apply frames_load|]. intros y.
    apply frames_if; [|apply frames_ret].
    apply frames_bind; [apply frames_ptr_add|]. intros ?.
    apply frames_bind; [apply frames_ptr_add|]. intros ?. apply IH.
Qed.

Lemma frames_equal B first1 last1 first2 : frames B (Std.equal first1 last1 first2).
Proof.
  apply frames_bind; [apply frames_range_length|].
  intros n. apply frames_equal_n.
Qed.

Lemma frames_for_loop B n i (body : Z → M unit) :
  (∀ j, frames B (body j)) → frames B (Std.for_loop n i body).
Proof.
  intros Hbody. revert i. induction n as [|n IH]; intros i; simpl.
  - apply frames_ret.
  - apply frames_bind; [apply Hbody|]. intros _. apply IH.
Qed.

(** * Well-formed states under the steps the methods take *)

Lemma stores_in_lookup B w w' b l :
  stores_in B w w' → heap w !! b = Some l →
  ∃ l', heap w' !! b = Some l' ∧ length l' = length l.
Proof.
  intros (_&_&_&Hlen&_) Hl. specialize (Hlen b). rewrite Hl in Hlen.
  destruct (heap w' !! b) as [l'|]; simplify_eq/=. eauto.
Qed.

Lemma stores_in_lookup_inv B w w' b l' :
  stores_in B w w' → heap w' !! b = Some l' →
  ∃ l, heap w !! b = Some l ∧ length l' = length l.
Proof.
  intros (_&_&_&Hlen&_) Hl. specialize (Hlen b). rewrite Hl in Hlen.
  destruct (heap w !! b) as [l|]; simplify_eq/=. eauto.
Qed.

Lemma stores_in_owns B w w' o b : stores_in B w w' → owns w' o b ↔ owns w o b.
Proof. intros (Ho&_). unfold owns. by rewrite Ho. Qed.

Lemma wf_vec_shape (h h' : gmap block (list T)) s :
  (∀ b, length <$> h' !! b = length <$> h !! b) → wf_vec h s → wf_vec h' s.
Proof.
  intros Hlen [Hs Hp]. split; [done|].
  destruct (ArrayPtrRep.raw_ptr_ (items_ s)) as [|b o]; [done|].
  destruct Hp as (-> & l & Hl & Hsz). split; [done|].
  specialize (Hlen b). rewrite Hl in Hlen.
  destruct (h' !! b) as [l'|]; simplify_eq/=. exists l'. split; [done|]. lia.
Qed.

Lemma wf_world_stores_in B w w' : wf_world w → stores_in B w w' → wf_world w'.
Proof.
  intros [Hfb Hfl Hal Hob Hown] Hst.
  pose proof Hst as (Ho & Hnb & Hnl & Hlen & _). split.
  - intros b Hb. rewrite Hnb in Hb. specialize (Hfb b Hb). specialize (Hlen b).
    rewrite Hfb in Hlen. by destruct (heap w' !! b).
  - intros o Hlo. rewrite Ho. apply Hfl. by rewrite <-Hnl.
  - intros b l' Hl'. destruct (stores_in_lookup_inv _ _ _ _ _ Hst Hl') as (l&Hl&->).
    eauto.
  - intros o s Hs. rewrite Ho in Hs. eapply wf_vec_shape; eauto.
  - intros o1 o2 b H1%(stores_in_owns _ _ _ _ _ Hst) H2%(stores_in_owns _ _ _ _ _ Hst).
    eauto.
Qed.

Lemma client_frame_refl w : client_frame w w.
Proof. by intros b l Hl Hb. Qed.

Lemma client_frame_trans w1 w2 w3 :
  client_frame w1 w2 → client_frame w2 w3 → client_frame w1 w3.
Proof. intros H12 H23 b l Hl Hb. destruct (H12 b l Hl Hb). by apply H23. Qed.

(** assignments in arrays that vectors own leave the caller's arrays alone *)
Lemma client_frame_stores_in B w w' :
  stores_in B w w' → (∀ b, B b → ∃ o, owns w o b) → client_frame w w'.
Proof.
  intros Hst HB b l Hl Hb. split.
  - destruct Hst as (_&_&_&_&Hf). rewrite Hf; [done|].
    intros [o Ho]%HB. by eapply Hb.
  - intros o. rewrite (stores_in_owns _ _ _ _ _ Hst). apply Hb.
Qed.

Lemma owns_insert w o this s b :
  owns (set_objs (<[this := s]> (objs w)) w) o b ↔
  (o = this ∧ ∃ x, ArrayPtrRep.raw_ptr_ (items_ s) = Ptr b x) ∨ (o ≠ this ∧ owns w o b).
Proof.
  unfold owns; simpl. destruct (decide (o = this)) as [->|Hne].
  - rewrite lookup_insert_eq. split.
    + intros (s' & x & [= <-] & Hx). left. eauto.
    + intros [[_ [x Hx]]|[? _]]; [eauto|done].
  - rewrite lookup_insert_ne by done. split.
    + intros Ho. by right.
    + by intros [[? _]|[_ ?]].
Qed.

(** the size changes, within the capacity and within the array *)
Lemma wf_wr_size w this s n :
  wf_world w → objs w !! this = Some s →
  0 ≤ n ≤ capacity_ s →
  (n ≤ size_ s ∨
   ∃ b l, ArrayPtrRep.raw_ptr_ (items_ s) = Ptr b 0 ∧ heap w !! b = Some l ∧
          n ≤ Z.of_nat (length l)) →
  wf_world (set_objs (<[this := BuildSV n (capacity_ s) (items_ s)]> (objs w)) w).
Proof.
  intros [Hfb Hfl Hal Hob Hown] Hs Hn Hn'. split; simpl.
  - done.
  - intros o Ho. rewrite lookup_insert_ne; [by apply Hfl|].
    intros <-. rewrite Hfl in Hs; done.
  - done.
  - intros o s'. destruct (decide (o = this)) as [->|Hne].
    + rewrite lookup_insert_eq. intros [= <-]. specialize (Hob _ _ Hs).
      destruct Hob as [Hsz Hp]. split; simpl; [lia|].
      destruct (ArrayPtrRep.raw_ptr_ (items_ s)) as [|b o] eqn:Hraw.
      * destruct Hn' as [?|(?&?&?&_)]; [lia|done].
      * destruct Hp as (-> & l & Hl & Hle). split; [done|]. exists l. split; [done|].
        destruct Hn' as [?|(?&?&?&?&?)]; [lia|]. simplify_eq. lia.
    + rewrite lookup_insert_ne by done. apply Hob.
  - intros o1 o2 b. rewrite !owns_insert. simpl.
    intros [[-> H1]|[? H1]] [[-> H2]|[? H2]]; [done| | |by eauto].
    + destruct H1 as [x Hx]. apply (Hown this o2 b); [|done]. by exists s, x.
    + destruct H2 as [x Hx]. apply (Hown o1 this b); [done|]. by exists s, x.
Qed.

Lemma client_frame_wr_size w this s n c :
  objs w !! this = Some s →
  client_frame w (set_objs (<[this := BuildSV n c (items_ s)]> (objs w)) w).
Proof.
  intros Hs b l Hl Hb. split; [done|]. intros o. rewrite owns_insert. simpl.
  intros [[-> [x Hx]]|[_ Ho]]; [|by eapply Hb].
  apply (Hb this). by exists s, x.
Qed.

(** the capacity changes, and stays at or above the size *)
Lemma wf_wr_capacity w this s c :
  wf_world w → objs w !! this = Some s → size_ s ≤ c →
  wf_world (set_objs (<[this := BuildSV (size_ s) c (items_ s)]> (objs w)) w).
Proof.
  intros [Hfb Hfl Hal Hob Hown] Hs Hc. split; simpl.
  - done.
  - intros o Ho. rewrite lookup_insert_ne; [by apply Hfl|].
    intros <-. rewrite Hfl in Hs; done.
  - done.
  - intros o s'. destruct (decide (o = this)) as [->|Hne].
    + rewrite lookup_insert_eq. intros [= <-]. specialize (Hob _ _ Hs).
      destruct Hob as [Hsz Hp]. split; simpl; [lia|done].
    + rewrite lookup_insert_ne by done. apply Hob.
  - intros o1 o2 b. rewrite !owns_insert. simpl.
    intros [[-> H1]|[? H1]] [[-> H2]|[? H2]]; [done| | |by eauto].
    + destruct H1 as [x Hx]. apply (Hown this o2 b); [|done]. by exists s, x.
    + destruct H2 as [x Hx]. apply (Hown o1 this b); [done|]. by exists s, x.
Qed.

Lemma client_frame_put w this s s' :
  objs w !! this = Some s →
  (∀ b x, ArrayPtrRep.raw_ptr_ (items_ s') = Ptr b x → ∃ o, owns w o b) →
  client_frame w (set_objs (<[this := s']> (objs w)) w).
Proof.
  intros Hs Hs' b l Hl Hb. split; [done|]. intros o. rewrite owns_insert.
  intros [[-> [x Hx]]|[_ Ho]]; [|by eapply Hb].
  destruct (Hs' _ _ Hx) as [o' Ho']. by eapply Hb.
Qed.

(** [items_] changes to an array no other vector owns *)
Lemma wf_wr_items w this s v :
  wf_world w → objs w !! this = Some s →
  match v with
  | Null => size_ s = 0
  | Ptr b o => o = 0 ∧ (∃ l, heap w !! b = Some l ∧ size_ s ≤ Z.of_nat (length l)) ∧
               ∀ o', o' ≠ this → ¬ owns w o' b
  end →
  wf_world (set_objs (<[this := BuildSV (size_ s) (capacity_ s) (ArrayPtrRep.Build v)]> (objs w)) w).
Proof.
  intros [Hfb Hfl Hal Hob Hown] Hs Hv. split; simpl.
  - done.
  - intros o Ho. rewrite lookup_insert_ne; [by apply Hfl|].
    intros <-. rewrite Hfl in Hs; done.
  - done.
  - intros o s'. destruct (decide (o = this)) as [->|Hne].
    + rewrite lookup_insert_eq. intros [= <-]. specialize (Hob _ _ Hs).
      destruct Hob as [Hsz Hp]. split; simpl; [lia|].
      destruct v as [|b o]; [done|]. by destruct Hv as (-> & ? & _).
    + rewrite lookup_insert_ne by done. apply Hob.
  - intros o1 o2 b. rewrite !owns_insert. simpl.
    intros [[-> H1]|[? H1]] [[-> H2]|[? H2]]; [done| | |by eauto].
    + destruct H1 as [x ->]. destruct Hv as (_ & _ & Hv). by destruct (Hv o2).
    + destruct H2 as [x ->]. destruct Hv as (_ & _ & Hv). by destruct (Hv o1).
Qed.

Lemma swap_lookup (m : gmap loc SimpleVectorRep) this other s1 s2 o :
  m !! this = Some s1 → m !! other = Some s2 →
  <[other := s1]> (<[this := s2]> m) !! o =
  m !! (if decide (o = other) then this else if decide (o = this) then other else o).
Proof.
  intros H1 H2. repeat case_decide; simplify_map_eq; done.
Qed.

Lemma swap_loc_inj this other (o1 o2 : loc) :
  (if decide (o1 = other) then this else if decide (o1 = this) then other else o1) =
  (if decide (o2 = other) then this else if decide (o2 = this) then other else o2) →
  o1 = o2.
Proof. repeat case_decide; congruence. Qed.

(** two vectors exchange their fields *)
Lemma wf_swap w this other s1 s2 :
  wf_world w → objs w !! this = Some s1 → objs w !! other = Some s2 →
  wf_world (set_objs (<[other := s1]> (<[this := s2]> (objs w))) w).
Proof.
  intros [Hfb Hfl Hal Hob Hown] H1 H2. split; simpl.
  - done.
  - intros o Ho. rewrite !lookup_insert_ne; [by apply Hfl| |].
    + intros <-. rewrite Hfl in H1; done.
    + intros <-. rewrite Hfl in H2; done.
  - done.
  - intros o s'. destruct (decide (o = other)) as [->|Hne].
    + rewrite lookup_insert_eq. intros [= <-]. eauto.
    + rewrite lookup_insert_ne by done. destruct (decide (o = this)) as [->|Hne'].
      * rewrite lookup_insert_eq. intros [= <-]. eauto.
      * rewrite lookup_insert_ne by done. apply Hob.
  - intros o1 o2 b (s & x & Hs & Hx) (s' & x' & Hs' & Hx'). simpl in *.
    rewrite (swap_lookup _ _ _ _ _ _ H1 H2) in Hs.
    rewrite (swap_lookup _ _ _ _ _ _ H1 H2) in Hs'.
    apply (swap_loc_inj this other).
    apply (Hown _ _ b); [by exists s, x | by exists s', x'].
Qed.

Lemma client_frame_swap w this other s1 s2 :
  objs w !! this = Some s1 → objs w !! other = Some s2 →
  client_frame w (set_objs (<[other := s1]> (<[this := s2]> (objs w))) w).
Proof.
  intros H1 H2 b l Hl Hb. split; [done|].
  intros o (s & x & Hs & Hx). simpl in Hs.
  rewrite (swap_lookup _ _ _ _ _ _ H1 H2) in Hs.
  eapply Hb. by exists s, x.
Qed.

(** a new array, which no vector owns yet *)
Lemma wf_new_array w n v :
  wf_world w → n ≤ max_alloc →
  wf_world (World (<[next_block w := replicate (Z.to_nat n) v]> (heap w))
                  (S (next_block w)) (objs w) (next_loc w)).
Proof.
  intros [Hfb Hfl Hal Hob Hown] Hn. split; simpl.
  - intros b Hb. rewrite lookup_insert_ne by lia. apply Hfb. lia.
  - done.
  - intros b l. destruct (decide (b = next_block w)) as [->|Hne].
    + rewrite lookup_insert_eq. intros [= <-]. rewrite length_replicate.
      pose proof max_alloc_range. lia.
    + rewrite lookup_insert_ne by done. apply Hal.
  - intros o s Hs. destruct (Hob _ _ Hs) as [Hsz Hp]. split; [done|].
    destruct (ArrayPtrRep.raw_ptr_ (items_ s)) as [|b o']; [done|].
    destruct Hp as (-> & l & Hl & Hle). split; [done|]. exists l. split; [|done].
    rewrite lookup_insert_ne; [done|]. intros <-. rewrite Hfb in Hl; [done|lia].
  - done.
Qed.

Lemma client_frame_new_array w n v :
  wf_world w →
  client_frame w (World (<[next_block w := replicate (Z.to_nat n) v]> (heap w))
                        (S (next_block w)) (objs w) (next_loc w)).
Proof.
  intros Hwf b l Hl Hb. split; [|done]. simpl.
  rewrite lookup_insert_ne; [done|]. intros <-.
  rewrite (wf_fresh_block _ Hwf) in Hl; [done|lia].
Qed.

(** a new vector; when it has an array, no vector owns that array yet *)
Lemma wf_new_obj w s :
  wf_world w → wf_vec (heap w) s →
  (∀ b x o, ArrayPtrRep.raw_ptr_ (items_ s) = Ptr b x → ¬ owns w o b) →
  wf_world (World (heap w) (next_block w) (<[next_loc w := s]> (objs w)) (S (next_loc w))).
Proof.
  intros [Hfb Hfl Hal Hob Hown] Hs Hfree.
  assert (∀ o b, owns (World (heap w) (next_block w) (<[next_loc w := s]> (objs w))
                             (S (next_loc w))) o b ↔
                 (o = next_loc w ∧ ∃ x, ArrayPtrRep.raw_ptr_ (items_ s) = Ptr b x) ∨
                 (o ≠ next_loc w ∧ owns w o b)) as Howns.
  { intros o b. apply (owns_insert w o (next_loc w) s b). }
  split; simpl.
  - done.
  - intros o Ho. rewrite lookup_insert_ne by lia. apply Hfl. lia.
  - done.
  - intros o s'. destruct (decide (o = next_loc w)) as [->|Hne].
    + rewrite lookup_insert_eq. by intros [= <-].
    + rewrite lookup_insert_ne by done. apply Hob.
  - intros o1 o2 b. rewrite !Howns.
    intros [[-> H1]|[? H1]] [[-> H2]|[? H2]]; [done| | |by eauto].
    + destruct H1 as [x Hx]. by destruct (Hfree _ _ o2 Hx).
    + destruct H2 as [x Hx]. by destruct (Hfree _ _ o1 Hx).
Qed.

Lemma client_frame_new_obj w s :
  (∀ b x l, ArrayPtrRep.raw_ptr_ (items_ s) = Ptr b x → heap w !! b = Some l →
            ∃ o, owns w o b) →
  client_frame w (World (heap w) (next_block w) (<[next_loc w := s]> (objs w)) (S (next_loc w))).
Proof.
  intros Hs b l Hl Hb. split; [done|]. intros o Ho.
  apply (owns_insert w o (next_loc w) s b) in Ho as [[-> [x Hx]]|[_ Ho]].
  - destruct (Hs _ _ _ Hx Hl) as [o' Ho']. by eapply Hb.
  - by eapply Hb.
Qed.

(** the storage of a vector goes away; its array, if any, stays behind *)
Lemma wf_del_obj w this :
  wf_world w → wf_world (set_objs (delete this (objs w)) w).
Proof.
  intros [Hfb Hfl Hal Hob Hown]. split; simpl.
  - done.
  - intros o Ho. destruct (decide (o = this)) as [->|Hne].
    + apply lookup_delete_eq.
    + rewrite lookup_delete_ne by done. by apply Hfl.
  - done.
  - intros o s [_ Hs]%lookup_delete_Some. eauto.
  - intros o1 o2 b (s & x & Hs & Hx) (s' & x' & Hs' & Hx'). simpl in *.
    apply lookup_delete_Some in Hs as [_ Hs]. apply lookup_delete_Some in Hs' as [_ Hs'].
    apply (Hown _ _ b); [by exists s, x | by exists s', x'].
Qed.

Lemma client_frame_del_obj w this :
  client_frame w (set_objs (delete this (objs w)) w).
Proof.
  intros b l Hl Hb. split; [done|].
  intros o (s & x & Hs & Hx). simpl in *.
  apply lookup_delete_Some in Hs as [_ Hs]. eapply Hb. by exists s, x.
Qed.

(** an array no vector owns goes away *)
Lemma wf_delete_array w b :
  wf_world w → (∀ o, ¬ owns w o b) → wf_world (set_heap (delete b (heap w)) w).
Proof.
  intros [Hfb Hfl Hal Hob Hown] Hfree. split; simpl.
  - intros b' Hb'. destruct (decide (b' = b)) as [->|Hne].
    + apply lookup_delete_eq.
    + rewrite lookup_delete_ne by done. by apply Hfb.
  - done.
  - intros b' l [_ Hl]%lookup_delete_Some. eauto.
  - intros o s Hs. destruct (Hob _ _ Hs) as [Hsz Hp]. split; [done|].
    destruct (ArrayPtrRep.raw_ptr_ (items_ s)) as [|b' o'] eqn:Hraw; [done|].
    destruct Hp as (-> & l & Hl & Hle). split; [done|]. exists l. split; [|done].
    rewrite lookup_delete_ne; [done|]. intros <-. by apply (Hfree o); exists s, 0.
  - done.
Qed.

(** a vector is destroyed: its array goes away with it *)
Lemma wf_dtor w this s b x :
  wf_world w → objs w !! this = Some s →
  ArrayPtrRep.raw_ptr_ (items_ s) = Ptr b x →
  wf_world (set_objs (delete this (objs (set_heap (delete b (heap w)) w)))
                     (set_heap (delete b (heap w)) w)).
Proof.
  intros Hwf Hs Hraw.
  cut (wf_world (set_heap (delete b (heap (set_objs (delete this (objs w)) w)))
                          (set_objs (delete this (objs w)) w))); [done|].
  apply wf_delete_array.
  - by apply wf_del_obj.
  - intros o (s' & x' & Hs' & Hx'). simpl in *.
    apply lookup_delete_Some in Hs' as [Hne Hs']. apply Hne. apply (wf_owner _ Hwf _ _ b); [by exists s, x | by exists s', x'].
Qed.

Lemma client_frame_dtor w this s b x :
  objs w !! this = Some s →
  ArrayPtrRep.raw_ptr_ (items_ s) = Ptr b x →
  client_frame w (set_objs (delete this (objs (set_heap (delete b (heap w)) w)))
                           (set_heap (delete b (heap w)) w)).
Proof.
  intros Hs Hraw b' l Hl Hb'. split; simpl.
  - rewrite lookup_delete_ne; [done|]. intros <-. by apply (Hb' this); exists s, x.
  - intros o (s' & x' & Hs' & Hx'). simpl in *.
    apply lookup_delete_Some in Hs' as [_ Hs']. eapply Hb'. by exists s', x'.
Qed.

(** * The methods keep the state well-formed *)

Lemma kept_refl w : wf_world w → kept w w.
Proof. intros Hwf. split; [done | apply client_frame_refl]. Qed.

Lemma kept_trans w0 w w' : kept w0 w → kept w w' → kept w0 w'.
Proof. intros [_ H1] [? H2]. split; [done|]. by eapply client_frame_trans. Qed.

Lemma kept_step w0 w w' : kept w0 w → wf_world w' → client_frame w w' → kept w0 w'.
Proof. intros Hk Hwf Hcf. eapply kept_trans; [done|]. by split. Qed.

Lemma kept_stores_in B w0 w w' :
  kept w0 w → stores_in B w w' → (∀ b, B b → ∃ o, owns w o b) → kept w0 w'.
Proof.
  intros Hk Hst HB. eapply kept_step; [done| |].
  - eapply wf_world_stores_in; [apply Hk | done].
  - by eapply client_frame_stores_in.
Qed.

Lemma swap_run this other w :
  SimpleVector.swap this other w =
  match objs w !! this, objs w !! other with
  | Some s1, Some s2 => Ok tt (set_objs (<[other := s1]> (<[this := s2]> (objs w))) w)
  | _, _ => Undefined
  end.
Proof.
  unfold SimpleVector.swap, SimpleVector.rd, SimpleVector.wr_items_,
    SimpleVector.wr_size_, SimpleVector.wr_capacity_, ArrayPtr.swap,
    bind, ret, get_obj, put_obj.
  cbv beta.
  destruct (objs w !! this) as [s1|] eqn:H1; [|done].
  destruct (decide (this = other)) as [<-|Hne].
  - repeat (progress (rewrite ?H1, ?lookup_insert_eq; simpl)).
    rewrite ?insert_insert_eq. by destruct s1 as [z1 c1 [p1]].
  - simpl. destruct (objs w !! other) as [s2|] eqn:H2; [|done]. simpl.
    repeat (progress (rewrite ?H1, ?H2, ?lookup_insert_eq, ?lookup_insert_ne by done; simpl)).
    f_equal. unfold set_objs; simpl. f_equal.
    destruct s1 as [z1 c1 [p1]], s2 as [z2 c2 [p2]]; simpl.
    apply map_eq. intros o.
    destruct (decide (o = other)) as [->|?]; [by rewrite !lookup_insert_eq|].
    rewrite !(lookup_insert_ne _ other) by done.
    destruct (decide (o = this)) as [->|?]; [by rewrite !lookup_insert_eq|].
    by rewrite !lookup_insert_ne by done.
Qed.

Lemma wlp_swap this other w Q E :
  (∀ s1 s2, objs w !! this = Some s1 → objs w !! other = Some s2 →
            Q tt (set_objs (<[other := s1]> (<[this := s2]> (objs w))) w)) →
  wlp (SimpleVector.swap this other) w Q E.
Proof.
  intros HQ. unfold wlp. rewrite swap_run.
  destruct (objs w !! this), (objs w !! other); auto.
Qed.

Lemma wp_swap this other s1 s2 w Q :
  objs w !! this = Some s1 → objs w !! other = Some s2 →
  Q tt (set_objs (<[other := s1]> (<[this := s2]> (objs w))) w) →
  wp (SimpleVector.swap this other) w Q.
Proof. intros H1 H2 HQ. unfold wp. by rewrite swap_run, H1, H2. Qed.

Lemma swap_kept this other w :
  wf_world w → wlp (SimpleVector.swap this other) w (λ _, kept w) (λ _, kept w).
Proof.
  intros Hwf. apply wlp_swap. intros s1 s2 H1 H2. split.
  - by apply wf_swap.
  - by apply client_frame_swap.
Qed.

Lemma dtor_kept this w :
  wf_world w → wlp (SimpleVector.dtor this) w (λ _, kept w) (λ _, kept w).
Proof.
  intros Hwf. unfold SimpleVector.dtor, ArrayPtr.dtor.
  apply wlp_bind, wlp_rd. intros s Hs.
  apply wlp_bind, wlp_delete_array.
  - intros Hraw. apply wlp_del_obj. intros _ _. split.
    + by apply wf_del_obj.
    + apply client_frame_del_obj.
  - intros b l Hraw Hl. apply wlp_del_obj. intros _ _. split.
    + by eapply wf_dtor.
    + by eapply client_frame_dtor.
Qed.

Lemma wf_owns_live w o b : wf_world w → owns w o b → is_Some (heap w !! b).
Proof.
  intros Hwf (s & x & Hs & Hx). destruct (wf_objs _ Hwf _ _ Hs) as [_ Hp].
  rewrite Hx in Hp. destruct Hp as (_ & l & Hl & _). eauto.
Qed.

Lemma wf_owns_lt w o b : wf_world w → owns w o b → (b < next_block w)%nat.
Proof.
  intros Hwf [l Hl]%wf_owns_live; [|done].
  destruct (decide (b < next_block w)%nat); [done|].
  rewrite (wf_fresh_block _ Hwf) in Hl; [done|lia].
Qed.

Lemma wf_obj_lt w o s : wf_world w → objs w !! o = Some s → (o < next_loc w)%nat.
Proof.
  intros Hwf Hs. destruct (decide (o < next_loc w)%nat); [done|].
  rewrite (wf_fresh_loc _ Hwf) in Hs; [done|lia].
Qed.

(** a new array and a new vector that owns it *)
Lemma wf_new_vec w n v s :
  wf_world w → n ≤ max_alloc →
  0 ≤ size_ s ≤ capacity_ s → size_ s ≤ n →
  ArrayPtrRep.raw_ptr_ (items_ s) = Ptr (next_block w) 0 →
  wf_world (World (<[next_block w := replicate (Z.to_nat n) v]> (heap w))
                  (S (next_block w)) (<[next_loc w := s]> (objs w)) (S (next_loc w))).
Proof.
  intros Hwf Hn Hs Hsn Hraw.
  pose proof (wf_new_obj (World (<[next_block w := replicate (Z.to_nat n) v]> (heap w))
                                (S (next_block w)) (objs w) (next_loc w)) s) as Hnew.
  simpl in Hnew. apply Hnew; clear Hnew.
  - by apply wf_new_array.
  - split; [done|]. rewrite Hraw. split; [done|]. simpl.
    rewrite lookup_insert_eq. eexists. split; [done|]. rewrite length_replicate. lia.
  - intros b x o. rewrite Hraw. intros [= <- <-] (s' & x' & Hs' & Hx'). simpl in *.
    assert (next_block w < next_block w)%nat; [|lia].
    apply (wf_owns_lt w o); [done|]. by exists s', x'.
Qed.

Lemma client_frame_new_vec w l s :
  wf_world w →
  (∀ b x, ArrayPtrRep.raw_ptr_ (items_ s) = Ptr b x → b = next_block w) →
  client_frame w (World (<[next_block w := l]> (heap w))
                        (S (next_block w)) (<[next_loc w := s]> (objs w)) (S (next_loc w))).
Proof.
  intros Hwf Hs b l' Hl' Hb.
  assert (b ≠ next_block w) as Hne.
  { intros ->. rewrite (wf_fresh_block _ Hwf) in Hl'; [done|lia]. }
  split; simpl.
  - by rewrite lookup_insert_ne.
  - intros o (s' & x' & Hs' & Hx'). simpl in *.
    destruct (decide (o = next_loc w)) as [->|Hne'].
    + rewrite lookup_insert_eq in Hs'. simplify_eq. by apply Hs in Hx'.
    + rewrite lookup_insert_ne in Hs' by done. eapply Hb. by exists s', x'.
Qed.

Lemma ctor_size_kept n w :
  wf_world w → 0 ≤ n →
  wlp (SimpleVector.ctor_size n) w
    (λ tmp w', kept w w' ∧ tmp = next_loc w ∧
               ∃ it, objs w' = <[tmp := BuildSV n n it]> (objs w))
    (λ _ w', w' = w).
Proof.
  intros Hwf Hn. unfold SimpleVector.ctor_size, ArrayPtr.from_size, ArrayPtr.Get.
  apply wlp_bind. destruct (Z.eqb_spec n 0) as [->|Hn0].
  - apply wlp_ret, wlp_bind, wlp_new_obj, wlp_bind, wlp_rd. simpl.
    rewrite lookup_insert_eq. intros s [= <-]. simpl.
    apply wlp_bind, wlp_ptr_add; [|done]. intros _ _.
    unfold Std.generate, Std.range_length.
    apply wlp_bind, wlp_bind, wlp_bind, wlp_ptr_diff; [|done]. intros _ _. simpl.
    apply wlp_ret, wlp_ret, wlp_ret. split_and!; [|done|by eexists].
    split.
    + apply wf_new_obj; [done|by split|done].
    + by apply client_frame_new_obj.
  - apply wlp_bind, wlp_new_array; [done|]. intros Hmax.
    apply wlp_ret, wlp_bind, wlp_new_obj, wlp_bind, wlp_rd. simpl.
    rewrite lookup_insert_eq. intros s [= <-]. simpl.
    assert (kept w (World (<[next_block w := replicate (Z.to_nat n) default_init]> (heap w))
                          (S (next_block w))
                          (<[next_loc w := BuildSV n n (ArrayPtrRep.Build (Ptr (next_block w) 0))]> (objs w))
                          (S (next_loc w)))) as Hk.
    { split.
      - apply wf_new_vec; simpl; auto with lia.
      - apply client_frame_new_vec; [done|]. simpl. by intros b x [= <- <-]. }
    apply wlp_bind, wlp_ptr_add; [done|]. intros b o l [= <- <-] Hl Hle.
    apply wlp_bind. eapply wlp_frames.
    { apply (frames_generate (eq (next_block w))). simpl. auto. }
    intros _ w' Hst. apply wlp_ret. split_and!; [|done|].
    + eapply kept_stores_in; [done..|]. intros b <-. exists (next_loc w).
      eexists _, 0. simpl. by rewrite lookup_insert_eq.
    + destruct Hst as (-> & _). simpl. by eexists.
Qed.

(** the loop of [Resize] that fills the cells from [i] on with [Type{}] *)
Lemma fill_loop_spec this k i w s :
  objs w !! this = Some s →
  wlp (Std.for_loop k i (λ i,
         it <- SimpleVector.rd items_ this ;; r <- ArrayPtr.index it i ;;
         store r value_init)) w
    (λ _ w', stores_in (owns w this) w w' ∧
             (k ≠ O → ∃ b x l, ArrayPtrRep.raw_ptr_ (items_ s) = Ptr b x ∧
                               heap w !! b = Some l ∧
                               x + i + Z.of_nat k ≤ Z.of_nat (length l)))
    (λ _ _, False).
Proof.
  revert i w. induction k as [|k IH]; intros i w Hs; simpl.
  - apply wlp_ret. split; [apply stores_in_refl | done].
  - apply wlp_bind, wlp_bind, wlp_rd. intros s' Hs'. simplify_eq.
    unfold ArrayPtr.index.
    apply wlp_bind, wlp_ptr_add; [intros Hraw _; by apply wlp_store|].
    intros b x l Hraw Hl Hx. apply wlp_store. intros ? ? ? [= <- <-] Hl' Hx'.
    simplify_eq.
    assert (stores_in (owns w this) w
              (set_heap (<[b := <[Z.to_nat (x + i) := value_init]> l]> (heap w)) w)) as Hst.
    { apply stores_in_store; [done|]. by exists s, x. }
    eapply wlp_mono; [apply IH; by simpl | | done].
    intros _ w' [Hst' Hk]. cbv beta in *. split.
    + eapply stores_in_trans; [done|]. eapply stores_in_mono; [|done].
      intros b' (s' & x' & Hs' & Hraw'). simpl in Hs'. by exists s', x'.
    + intros _. exists b, x, l. split_and!; [done..|].
      destruct k as [|k]; [lia|].
      destruct Hk as (b' & x' & l' & Hraw' & Hl'' & Hle); [done|].
      rewrite Hraw in Hraw'. simplify_eq. simpl in Hl''.
      rewrite lookup_insert_eq in Hl''. simplify_eq.
      rewrite length_insert in Hle. lia.
Qed.

Lemma for_loop_stores B n i body w :
  (∀ j w', stores_in B w w' →
           wlp (body j) w' (λ _ w'', stores_in B w' w'') (λ _ _, False)) →
  wlp (Std.for_loop n i body) w (λ _ w', stores_in B w w') (λ _ _, False).
Proof.
  intros Hbody. cut (∀ w', stores_in B w w' →
    wlp (Std.for_loop n i body) w' (λ _ w'', stores_in B w w'') (λ _ _, False)).
  { intros Hcut. apply Hcut, stores_in_refl. }
  revert i. induction n as [|n IH]; intros i w' Hw'; simpl.
  - by apply wlp_ret.
  - apply wlp_bind. eapply wlp_mono; [by apply Hbody | | done].
    intros ? w'' Hw''. cbv beta in *. apply IH. by eapply stores_in_trans.
Qed.

Lemma wf_vec_of w o s : wf_world w → objs w !! o = Some s → wf_vec (heap w) s.
Proof. intros Hwf. apply (wf_objs _ Hwf). Qed.

Lemma kept_wr_size w0 w this s n :
  kept w0 w → objs w !! this = Some s →
  0 ≤ n ≤ capacity_ s →
  (n ≤ size_ s ∨
   ∃ b l, ArrayPtrRep.raw_ptr_ (items_ s) = Ptr b 0 ∧ heap w !! b = Some l ∧
          n ≤ Z.of_nat (length l)) →
  kept w0 (set_objs (<[this := BuildSV n (capacity_ s) (items_ s)]> (objs w)) w).
Proof.
  intros Hk Hs Hn Hn'. eapply kept_step; [done| |].
  - apply wf_wr_size; [apply Hk|done..].
  - by apply client_frame_wr_size.
Qed.

Lemma kept_wr_capacity w0 w this s c :
  kept w0 w → objs w !! this = Some s → size_ s ≤ c →
  kept w0 (set_objs (<[this := BuildSV (size_ s) c (items_ s)]> (objs w)) w).
Proof.
  intros Hk Hs Hc. eapply kept_step; [done| |].
  - apply wf_wr_capacity; [apply Hk|done..].
  - by apply client_frame_wr_size.
Qed.

Lemma kept_swap w0 w this other s1 s2 :
  kept w0 w → objs w !! this = Some s1 → objs w !! other = Some s2 →
  kept w0 (set_objs (<[other := s1]> (<[this := s2]> (objs w))) w).
Proof.
  intros Hk H1 H2. eapply kept_step; [done| |].
  - apply wf_swap; [apply Hk|done..].
  - by apply client_frame_swap.
Qed.

Lemma Resize_kept this n w :
  wf_world w → 0 ≤ n →
  wlp (SimpleVector.Resize this n) w (λ _, kept w) (λ _, kept w).
Proof.
  intros Hwf Hn. pose proof (kept_refl w Hwf) as Hk.
  unfold SimpleVector.Resize.
  apply wlp_bind, wlp_rd. intros s Hs.
  pose proof (wf_vec_of _ _ _ Hwf Hs) as [Hsz Hp].
  destruct (Z.eqb_spec n (size_ s)) as [->|Hne]; [by apply wlp_ret|].
  destruct (Z.ltb_spec n (size_ s)) as [Hlt|Hge].
  { apply wlp_wr_size_. intros s' Hs'. simplify_eq.
    apply kept_wr_size; auto with lia. }
  apply wlp_bind, wlp_rd. intros s' Hs'. simplify_eq.
  destruct (Z.leb_spec n (capacity_ s)) as [Hle|Hgt].
  - (* within the capacity *)
    apply wlp_bind. unfold Std.for_range.
    eapply wlp_mono; [by apply (fill_loop_spec this _ _ w s) | | done].
    intros ? w1 [Hst Hfill]. cbv beta in *.
    destruct Hfill as (b & x & l & Hraw & Hl & Hlen); [lia|].
    rewrite Hraw in Hp. destruct Hp as (-> & _).
    assert (kept w w1) as Hk1.
    { eapply kept_stores_in; [done..|]. eauto. }
    apply wlp_wr_size_. intros s' Hs'.
    pose proof Hst as (Ho & _). rewrite Ho in Hs'. simplify_eq.
    destruct (stores_in_lookup _ _ _ _ _ Hst Hl) as (l1 & Hl1 & Hlen1).
    apply kept_wr_size; [done|by rewrite Ho|lia|].
    right. exists b, l1. split_and!; [done..|]. lia.
  - (* growth *)
    apply wlp_bind, wlp_wr_capacity_. intros s' Hs'. simplify_eq.
    set (cap' := Z.max (wrap (capacity_ s * 2)) n).
    assert (n ≤ cap') as Hcap' by (unfold cap'; lia).
    assert (kept w (set_objs (<[this := BuildSV (size_ s) cap' (items_ s)]> (objs w)) w))
      as Hk1 by (apply kept_wr_capacity; auto with lia).
    set (w1 := set_objs _ w) in *.
    assert (objs w1 !! this = Some (BuildSV (size_ s) cap' (items_ s))) as Hs1.
    { unfold w1. simpl. by rewrite lookup_insert_eq. }
    apply wlp_bind, wlp_rd. intros s' Hs'. simplify_eq. simpl.
    apply wlp_bind.
    eapply wlp_mono; [apply ctor_size_kept; [apply Hk1|lia] | | ].
    2:{ intros e w' ->. done. }
    intros tmp w2 (Hk2 & Htmp & it & Ho2).
    assert (kept w w2) as Hk2' by (by eapply kept_trans).
    assert (this ≠ tmp) as Hne'.
    { pose proof (wf_obj_lt _ _ _ (proj1 Hk1) Hs1). lia. }
    clear Htmp.
    assert (objs w2 !! this = Some (BuildSV (size_ s) cap' (items_ s))) as Hs2.
    { rewrite Ho2. by rewrite lookup_insert_ne. }
    assert (objs w2 !! tmp = Some (BuildSV cap' cap' it)) as Ht2.
    { rewrite Ho2. by rewrite lookup_insert_eq. }
    apply wlp_bind, wlp_rd. intros s' Hs'. simplify_eq. simpl.
    apply wlp_bind. unfold Std.for_range.
    eapply wlp_mono;
      [apply (for_loop_stores (λ b, owns w2 this b ∨ owns w2 tmp b)) | | done].
    { intros j w' Hw'. pose proof Hw' as (Ho' & _).
      apply wlp_bind, wlp_rd. intros s' Hs'. rewrite Ho' in Hs'. simplify_eq.
      unfold ArrayPtr.index. simpl.
      apply wlp_bind, wlp_ptr_add_in. intros src Hsrc.
      apply wlp_bind, wlp_rd. intros s' Hs'. rewrite Ho' in Hs'. simplify_eq. simpl.
      apply wlp_bind, wlp_ptr_add_in. intros dst Hdst.
      apply frames_move_assign.
      - intros b Hb%Hdst. right. destruct (ArrayPtrRep.raw_ptr_ it) eqn:?; [done|].
        simpl in Hb. subst. by eexists _, _.
      - intros b Hb%Hsrc. left.
        destruct (ArrayPtrRep.raw_ptr_ (items_ s)) eqn:?; [done|].
        simpl in Hb. subst. by eexists _, _. }
    intros ? w3 Hst3. cbv beta in *.
    assert (kept w w3) as Hk3.
    { eapply kept_stores_in; [done..|]. intros b [?|?]; eauto. }
    pose proof Hst3 as (Ho3 & _).
    apply wlp_bind, wlp_swap. intros s1 s2 H1 H2. rewrite Ho3 in H1, H2. simplify_eq.
    assert (kept w (set_objs (<[tmp := BuildSV (size_ s) cap' (items_ s)]>
                                (<[this := BuildSV cap' cap' it]> (objs w3))) w3)) as Hk4.
    { apply kept_swap; [done|by rewrite Ho3..]. }
    set (w4 := set_objs _ w3) in *.
    apply wlp_bind, wlp_wr_size_. intros s' Hs'.
    unfold w4 in Hs'. simpl in Hs'.
    rewrite lookup_insert_ne, lookup_insert_eq in Hs' by done. simplify_eq. simpl.
    assert (kept w (set_objs (<[this := BuildSV n cap' it]> (objs w4)) w4)) as Hk5.
    { apply (kept_wr_size w w4 this (BuildSV cap' cap' it)); simpl; auto with lia.
      unfold w4. simpl. by rewrite lookup_insert_ne, lookup_insert_eq. }
    eapply wlp_mono; [apply dtor_kept, Hk5 | |];
      intros ? w6 Hk6; by eapply kept_trans.
Qed.

Lemma wf_size_bound w o s :
  wf_world w → objs w !! o = Some s → 0 ≤ size_ s < 2 ^ 63.
Proof.
  intros Hwf Hs. destruct (wf_vec_of _ _ _ Hwf Hs) as [Hsz Hp].
  pose proof max_alloc_range.
  destruct (ArrayPtrRep.raw_ptr_ (items_ s)) as [|b x]; [lia|].
  destruct Hp as (_ & l & Hl & Hle). pose proof (wf_alloc _ Hwf _ _ Hl). lia.
Qed.

Lemma wrap_small z : 0 ≤ z < 2 ^ 64 → wrap z = z.
Proof. intros Hz. unfold wrap. by apply Z.mod_small. Qed.

Lemma wrap_range z : 0 ≤ wrap z < 2 ^ 64.
Proof. unfold wrap. apply Z.mod_pos_bound. lia. Qed.

(** [make_room] either leaves a well-formed state (it grew the array) or
    only counted the new element in; in that case the state is well-formed
    once it is known that the array has a cell for it *)
Lemma make_room_spec this w :
  wf_world w →
  wlp (SimpleVector.make_room this) w
    (λ _ w', kept w w' ∨
             ∃ s, objs w !! this = Some s ∧ size_ s < capacity_ s ∧
                  w' = set_objs (<[this := BuildSV (size_ s + 1) (capacity_ s) (items_ s)]>
                                   (objs w)) w)
    (λ _, kept w).
Proof.
  intros Hwf. unfold SimpleVector.make_room.
  apply wlp_bind, wlp_rd. intros s Hs.
  apply wlp_bind, wlp_rd. intros s' Hs'. simplify_eq.
  pose proof (wf_size_bound _ _ _ Hwf Hs) as Hb.
  destruct (Z.ltb_spec (size_ s) (capacity_ s)) as [Hlt|Hge].
  - apply wlp_wr_size_. intros s' Hs'. simplify_eq. right. exists s.
    rewrite wrap_small by lia. done.
  - eapply wlp_mono; [apply Resize_kept; [done|apply wrap_range] | | done].
    intros; by left.
Qed.

Lemma kept_in_place B w0 w w2 this s b l :
  kept w0 w → objs w !! this = Some s → size_ s < capacity_ s →
  ArrayPtrRep.raw_ptr_ (items_ s) = Ptr b 0 → heap w !! b = Some l →
  size_ s + 1 ≤ Z.of_nat (length l) →
  stores_in B (set_objs (<[this := BuildSV (size_ s + 1) (capacity_ s) (items_ s)]>
                           (objs w)) w) w2 →
  (∀ b', B b' → b' = b) →
  kept w0 w2.
Proof.
  intros Hk Hs Hlt Hraw Hl Hle Hst HB.
  pose proof (wf_vec_of _ _ _ (proj1 Hk) Hs) as [Hsz _].
  eapply kept_stores_in; [|done|].
  - apply kept_wr_size; [done..|lia|]. right. by exists b, l.
  - intros b' ->%HB. exists this, (BuildSV (size_ s + 1) (capacity_ s) (items_ s)), 0.
    simpl. by rewrite lookup_insert_eq.
Qed.

(** the same, for what is left of well-formedness when the stores also reach
    arrays of the caller *)
Lemma wf_in_place B w w2 this s b l :
  wf_world w → objs w !! this = Some s → size_ s < capacity_ s →
  ArrayPtrRep.raw_ptr_ (items_ s) = Ptr b 0 → heap w !! b = Some l →
  size_ s + 1 ≤ Z.of_nat (length l) →
  stores_in B (set_objs (<[this := BuildSV (size_ s + 1) (capacity_ s) (items_ s)]>
                           (objs w)) w) w2 →
  wf_world w2.
Proof.
  intros Hwf Hs Hlt Hraw Hl Hle Hst.
  pose proof (wf_vec_of _ _ _ Hwf Hs) as [Hsz _].
  eapply wf_world_stores_in; [|done].
  apply wf_wr_size; [done..|lia|]. right. by exists b, l.
Qed.

(** the last statement of [PushBack(const Type&)] *)
Lemma push_copy_tail this item w :
  wlp (it <- SimpleVector.rd items_ this ;; sz <- SimpleVector.rd size_ this ;;
       r <- ArrayPtr.index it (wrap (sz - 1)) ;;
       Std.copy_assign r item) w
    (λ _ w', stores_in (owns w this) w w' ∧
             ∃ s b x l, objs w !! this = Some s ∧
                        ArrayPtrRep.raw_ptr_ (items_ s) = Ptr b x ∧ heap w !! b = Some l ∧
                        0 ≤ x + wrap (size_ s - 1) < Z.of_nat (length l))
    (λ _ _, False).
Proof.
  apply wlp_bind, wlp_rd. intros s Hs.
  apply wlp_bind, wlp_rd. intros s' Hs'. simplify_eq.
  unfold ArrayPtr.index, Std.copy_assign.
  apply wlp_bind, wlp_ptr_add.
  { intros Hraw _. apply wlp_bind, wlp_load. intros. by apply wlp_store. }
  intros b x l Hraw Hl Hx.
  apply wlp_bind, wlp_load. intros _ _ _ v _ _ _ _.
  apply wlp_store. intros ? ? l' [= <- <-] Hl' Hx'. simplify_eq. split.
  - apply stores_in_store; [done|]. by exists s, x.
  - by exists s, b, x, l.
Qed.

(** the last statement of [PushBack(Type&&)] *)
Lemma push_move_tail this item w :
  wlp (it <- SimpleVector.rd items_ this ;; sz <- SimpleVector.rd size_ this ;;
       r <- ArrayPtr.index it (wrap (sz - 1)) ;;
       Std.move_assign r item) w
    (λ _ w', stores_in (λ _, True) w w' ∧
             ∃ s b x l, objs w !! this = Some s ∧
                        ArrayPtrRep.raw_ptr_ (items_ s) = Ptr b x ∧ heap w !! b = Some l ∧
                        0 ≤ x + wrap (size_ s - 1) < Z.of_nat (length l))
    (λ _ _, False).
Proof.
  apply wlp_bind, wlp_rd. intros s Hs.
  apply wlp_bind, wlp_rd. intros s' Hs'. simplify_eq.
  unfold ArrayPtr.index, Std.move_assign.
  apply wlp_bind, wlp_ptr_add.
  { intros Hraw _. apply wlp_bind, wlp_load. intros.
    apply wlp_bind. by apply wlp_store. }
  intros b x l Hraw Hl Hx.
  apply wlp_bind, wlp_load. intros _ _ _ v _ _ _ _.
  apply wlp_bind, wlp_store. intros ? ? l' [= <- <-] Hl' Hx'. simplify_eq.
  eapply wlp_frames; [by apply (frames_store (λ _, True))|].
  intros _ w' Hst. split.
  - eapply stores_in_trans; [|done]. by apply stores_in_store.
  - by exists s, b, x, l.
Qed.

Lemma PushBack_const_ref_kept this item w :
  wf_world w →
  wlp (SimpleVector.PushBack_const_ref this item) w (λ _, kept w) (λ _, kept w).
Proof.
  intros Hwf. unfold SimpleVector.PushBack_const_ref.
  apply wlp_bind. eapply wlp_mono; [by apply make_room_spec | | done].
  intros _ w1 [Hk1|(s & Hs & Hlt & ->)].
  - eapply wlp_mono; [by apply (push_copy_tail this item w1) | | done].
    intros _ w2 [Hst _]. eapply kept_stores_in; [done..|]. eauto.
  - pose proof (wf_size_bound _ _ _ Hwf Hs) as Hb.
    pose proof (wf_vec_of _ _ _ Hwf Hs) as [_ Hp].
    eapply wlp_mono; [eapply push_copy_tail | | done].
    intros _ w2 [Hst (s1 & b & x & l & Hs1 & Hraw & Hl & Hx)]. simpl in *.
    rewrite lookup_insert_eq in Hs1. simplify_eq. simpl in *.
    rewrite Hraw in Hp. destruct Hp as (-> & _).
    rewrite wrap_small in Hx by lia.
    eapply (kept_in_place _ w w _ this s b l); [by apply kept_refl|done..|lia|done|].
    intros b' (s' & x' & Hs' & Hx'). simpl in Hs'.
    rewrite lookup_insert_eq in Hs'. simplify_eq. simpl in Hx'. congruence.
Qed.

Lemma PushBack_rvalue_ref_wf this item w :
  wf_world w →
  wlp (SimpleVector.PushBack_rvalue_ref this item) w (λ _, wf_world) (λ _, wf_world).
Proof.
  intros Hwf. unfold SimpleVector.PushBack_rvalue_ref.
  apply wlp_bind. eapply wlp_mono; [by apply make_room_spec | | by intros ?? []].
  intros _ w1 [[Hwf1 _]|(s & Hs & Hlt & ->)].
  - eapply wlp_mono; [by apply (push_move_tail this item w1) | | done].
    intros _ w2 [Hst _]. by eapply wf_world_stores_in.
  - pose proof (wf_size_bound _ _ _ Hwf Hs) as Hb.
    pose proof (wf_vec_of _ _ _ Hwf Hs) as [_ Hp].
    eapply wlp_mono; [eapply push_move_tail | | done].
    intros _ w2 [Hst (s1 & b & x & l & Hs1 & Hraw & Hl & Hx)]. simpl in *.
    rewrite lookup_insert_eq in Hs1. simplify_eq. simpl in *.
    rewrite Hraw in Hp. destruct Hp as (-> & _).
    rewrite wrap_small in Hx by lia.
    eapply (wf_in_place _ w _ this s b l); [done..|lia|done].
Qed.

Lemma PushBack_wf this c item w :
  wf_world w →
  wlp (SimpleVector.PushBack this c item) w (λ _, wf_world) (λ _, wf_world).
Proof.
  intros Hwf. unfold SimpleVector.PushBack. destruct (binds_to_rvalue_ref c).
  - by apply PushBack_rvalue_ref_wf.
  - eapply wlp_mono; [by apply PushBack_const_ref_kept | |]; by intros ?? [].
Qed.

Lemma wlp_begin this w Q E :
  (∀ s, objs w !! this = Some s → Q (ArrayPtrRep.raw_ptr_ (items_ s)) w) →
  wlp (SimpleVector.begin_ this) w Q E.
Proof. intros HQ. apply wlp_bind, wlp_rd. intros s Hs. by apply wlp_ret, HQ. Qed.

Lemma wlp_cbegin this w Q E :
  (∀ s, objs w !! this = Some s → Q (ArrayPtrRep.raw_ptr_ (items_ s)) w) →
  wlp (SimpleVector.cbegin this) w Q E.
Proof. apply wlp_begin. Qed.

Lemma wlp_end this w Q E :
  (∀ s, objs w !! this = Some s →
        ArrayPtrRep.raw_ptr_ (items_ s) = Null → size_ s = 0 → Q Null w) →
  (∀ s b x l, objs w !! this = Some s →
              ArrayPtrRep.raw_ptr_ (items_ s) = Ptr b x → heap w !! b = Some l →
              0 ≤ x + size_ s ≤ Z.of_nat (length l) → Q (Ptr b (x + size_ s)) w) →
  wlp (SimpleVector.end_ this) w Q E.
Proof.
  intros HN HP. apply wlp_bind, wlp_rd. intros s Hs.
  apply wlp_bind, wlp_rd. intros s' Hs'. simplify_eq.
  unfold ArrayPtr.Get. apply wlp_ptr_add; eauto.
Qed.

Lemma wlp_cend this w Q E :
  (∀ s, objs w !! this = Some s →
        ArrayPtrRep.raw_ptr_ (items_ s) = Null → size_ s = 0 → Q Null w) →
  (∀ s b x l, objs w !! this = Some s →
              ArrayPtrRep.raw_ptr_ (items_ s) = Ptr b x → heap w !! b = Some l →
              0 ≤ x + size_ s ≤ Z.of_nat (length l) → Q (Ptr b (x + size_ s)) w) →
  wlp (SimpleVector.cend this) w Q E.
Proof. apply wlp_end. Qed.

(** an iterator of the vector points into the array the vector owns *)
Lemma wlp_end_in this w (Q : pointer → world → Prop) E :
  (∀ s r, objs w !! this = Some s →
          (∀ b, in_block r b → owns w this b) →
          (ArrayPtrRep.raw_ptr_ (items_ s) = Null → size_ s = 0) →
          (∀ b x l, ArrayPtrRep.raw_ptr_ (items_ s) = Ptr b x → heap w !! b = Some l →
                    x + size_ s ≤ Z.of_nat (length l)) →
          Q r w) →
  wlp (SimpleVector.end_ this) w Q E.
Proof.
  intros HQ. apply wlp_end.
  - intros s Hs Hraw Hsz. apply (HQ s).
    + done.
    + done.
    + done.
    + intros; congruence.
  - intros s b x l Hs Hraw Hl Hx. apply (HQ s).
    + done.
    + simpl. intros ? <-. by exists s, x.
    + congruence.
    + intros b' x' l' Hraw' Hl'. rewrite Hraw in Hraw'. injection Hraw' as <- <-.
      rewrite Hl in Hl'. injection Hl' as <-. lia.
Qed.

Lemma wlp_ptr_diff_any p q w (Q : Z → world → Prop) E :
  (∀ d, Q d w) → wlp (ptr_diff p q) w Q E.
Proof. intros HQ. apply wlp_ptr_diff; auto. Qed.

(** what the two [Insert]s do after [make_room], up to the last assignment *)
Lemma insert_shift this pos w (k : pointer → M pointer) Q :
  (∀ s it w', objs w !! this = Some s →
     stores_in (owns w this) w w' →
     (∀ b, in_block it b → owns w this b) →
     (ArrayPtrRep.raw_ptr_ (items_ s) = Null → size_ s = 0) →
     (∀ b x l, ArrayPtrRep.raw_ptr_ (items_ s) = Ptr b x → heap w !! b = Some l →
               x + size_ s ≤ Z.of_nat (length l)) →
     wlp (k it) w' Q (λ _ _, False)) →
  wlp (first <- SimpleVector.cbegin this ;; d <- ptr_diff pos first ;;
       let index := wrap d in
       it <- SimpleVector.rd items_ this ;; from <- ArrayPtr.index it index ;;
       e <- SimpleVector.end_ this ;; to <- ptr_add e (-1) ;;
       d_last <- SimpleVector.end_ this ;;
       it <- Std.move_backward from to d_last ;;
       it <- ptr_add it (-1) ;; k it) w Q (λ _ _, False).
Proof.
  intros Hk.
  apply wlp_bind, wlp_cbegin. intros s Hs.
  apply wlp_bind, wlp_ptr_diff_any. intros d.
  apply wlp_bind, wlp_rd. intros s' Hs'. simplify_eq.
  unfold ArrayPtr.index.
  apply wlp_bind, wlp_ptr_add_in. intros from Hfrom.
  apply wlp_bind, wlp_end_in. intros s' e Hs' He _ _. simplify_eq.
  apply wlp_bind, wlp_ptr_add_in. intros to Hto.
  apply wlp_bind, wlp_end_in. intros s' d_last Hs' Hd HN HP. simplify_eq.
  apply wlp_bind.
  eapply wlp_mono; [apply (lands_in_move_backward (owns w this)) | | done].
  { intros b Hb%Hto. by apply He. }
  { done. }
  intros it w1 [Hst Hit]. cbv beta in *.
  apply wlp_bind, wlp_ptr_add_in. intros it' Hit'.
  apply (Hk s); auto.
Qed.

Lemma wlp_no_throw {A} (m : M A) w Q E :
  wlp m w Q (λ _ _, False) → wlp m w Q E.
Proof. intros Hm. eapply wlp_mono; [done..|]. done. Qed.

Lemma wlp_cend_any this w (Q : pointer → world → Prop) E :
  (∀ r, Q r w) → wlp (SimpleVector.cend this) w Q E.
Proof. intros HQ. apply wlp_cend; auto. Qed.

Lemma wlp_end_any this w (Q : pointer → world → Prop) E :
  (∀ r, Q r w) → wlp (SimpleVector.end_ this) w Q E.
Proof. intros HQ. apply wlp_end; auto. Qed.

Lemma wlp_ptr_add_any p n w (Q : pointer → world → Prop) E :
  (∀ r, Q r w) → wlp (ptr_add p n) w Q E.
Proof. intros HQ. apply wlp_ptr_add; auto. Qed.

Lemma wlp_in_range_closed this pos w (Q : bool → world → Prop) E :
  (∀ r, Q r w) → wlp (SimpleVector.in_range_closed this pos) w Q E.
Proof.
  intros HQ. unfold SimpleVector.in_range_closed.
  apply wlp_bind, wlp_cbegin. intros s Hs.
  destruct (ptr_le _ pos); [|by apply wlp_ret].
  apply wlp_bind, wlp_cend_any. intros r. by apply wlp_ret.
Qed.

Lemma wlp_in_range_open this pos w (Q : bool → world → Prop) E :
  (∀ r, Q r w) → wlp (SimpleVector.in_range_open this pos) w Q E.
Proof.
  intros HQ. unfold SimpleVector.in_range_open.
  apply wlp_bind, wlp_cbegin. intros s Hs.
  destruct (ptr_le _ pos); [|by apply wlp_ret].
  apply wlp_bind, wlp_cend_any. intros r. by apply wlp_ret.
Qed.

Lemma owns_in_place w this s o b :
  owns (set_objs (<[this := BuildSV (size_ s + 1) (capacity_ s) (items_ s)]> (objs w)) w) o b →
  objs w !! this = Some s → owns w o b.
Proof.
  intros [[-> [x Hx]]|[_ Ho]]%owns_insert Hs; [|done]. simpl in Hx. by exists s, x.
Qed.

Lemma Insert_const_ref_kept this pos value w :
  wf_world w →
  wlp (SimpleVector.Insert_const_ref this pos value) w (λ _, kept w) (λ _, kept w).
Proof.
  intros Hwf. unfold SimpleVector.Insert_const_ref.
  apply wlp_bind, wlp_in_range_closed. intros ok.
  apply wlp_bind, wlp_assert. intros _.
  apply wlp_bind, wlp_cend_any. intros last.
  destruct (ptr_eqb pos last).
  - apply wlp_bind. simpl.
    eapply wlp_mono; [by apply PushBack_const_ref_kept | | done].
    intros ? w1 Hk1. cbv beta in *. apply wlp_bind, wlp_end_any. intros e.
    by apply wlp_ptr_add_any.
  - apply wlp_bind. eapply wlp_mono; [by apply make_room_spec | | done].
    intros ? w1 Hw1. cbv beta in *.
    apply wlp_no_throw, insert_shift.
    intros s1 it w2 Hs1 Hst Hit HN HP.
    apply wlp_bind. eapply wlp_frames; [by apply (frames_copy_assign (owns w1 this))|].
    intros _ w3 Hst3. apply wlp_ret.
    pose proof (stores_in_trans _ _ _ _ Hst Hst3) as Hst13.
    destruct Hw1 as [Hk1|(s & Hs & Hlt & ->)].
    + eapply kept_stores_in; [done..|]. eauto.
    + simpl in Hs1. rewrite lookup_insert_eq in Hs1. simplify_eq. simpl in *.
      pose proof (wf_vec_of _ _ _ Hwf Hs) as [Hsz Hp].
      destruct (ArrayPtrRep.raw_ptr_ (items_ s)) as [|b x] eqn:Hraw.
      { specialize (HN eq_refl). lia. }
      destruct Hp as (-> & l & Hl & Hle).
      specialize (HP _ _ _ eq_refl Hl).
      eapply (kept_in_place _ w w _ this s b l); [by apply kept_refl|done..|lia|done|].
      intros b' (s' & x' & Hs' & Hx')%owns_in_place; [|done]. congruence.
Qed.

Lemma Insert_rvalue_ref_wf this pos value w :
  wf_world w →
  wlp (SimpleVector.Insert_rvalue_ref this pos value) w (λ _, wf_world) (λ _, wf_world).
Proof.
  intros Hwf. unfold SimpleVector.Insert_rvalue_ref.
  apply wlp_bind, wlp_in_range_closed. intros ok.
  apply wlp_bind, wlp_assert. intros _.
  apply wlp_bind, wlp_cend_any. intros last.
  destruct (ptr_eqb pos last).
  - apply wlp_bind. simpl.
    eapply wlp_mono; [by apply PushBack_rvalue_ref_wf | | done].
    intros ? w1 Hk1. cbv beta in *. apply wlp_bind, wlp_end_any. intros e.
    by apply wlp_ptr_add_any.
  - apply wlp_bind. eapply wlp_mono; [by apply make_room_spec | | by intros ?? []].
    intros ? w1 Hw1. cbv beta in *.
    apply wlp_no_throw, insert_shift.
    intros s1 it w2 Hs1 Hst Hit HN HP.
    apply wlp_bind.
    eapply wlp_frames; [by apply (frames_move_assign (λ _, True))|].
    intros _ w3 Hst3. apply wlp_ret.
    assert (stores_in (λ _, True) w1 w3) as Hst13.
    { eapply stores_in_trans; [|done]. by eapply stores_in_mono. }
    destruct Hw1 as [[Hwf1 _]|(s & Hs & Hlt & ->)].
    + by eapply wf_world_stores_in.
    + simpl in Hs1. rewrite lookup_insert_eq in Hs1. simplify_eq. simpl in *.
      pose proof (wf_vec_of _ _ _ Hwf Hs) as [Hsz Hp].
      destruct (ArrayPtrRep.raw_ptr_ (items_ s)) as [|b x] eqn:Hraw.
      { specialize (HN eq_refl). lia. }
      destruct Hp as (-> & l & Hl & Hle).
      specialize (HP _ _ _ eq_refl Hl).
      eapply (wf_in_place _ w _ this s b l); [done..|lia|done].
Qed.

Lemma Clear_kept this w :
  wf_world w → wlp (SimpleVector.Clear this) w (λ _, kept w) (λ _, kept w).
Proof.
  intros Hwf. apply wlp_wr_size_. intros s Hs.
  destruct (wf_vec_of _ _ _ Hwf Hs) as [Hsz _].
  apply kept_wr_size; [by apply kept_refl|done|lia|lia].
Qed.

Lemma PopBack_kept this w :
  wf_world w → wlp (SimpleVector.PopBack this) w (λ _, kept w) (λ _, kept w).
Proof.
  intros Hwf. unfold SimpleVector.PopBack, SimpleVector.IsEmpty.
  apply wlp_bind, wlp_bind, wlp_rd. intros s Hs. apply wlp_ret.
  apply wlp_bind, wlp_assert. intros Hne%negb_true_iff%Z.eqb_neq.
  apply wlp_bind, wlp_rd. intros s' Hs'. simplify_eq.
  apply wlp_wr_size_. intros s' Hs'. simplify_eq.
  destruct (wf_vec_of _ _ _ Hwf Hs) as [Hsz _].
  pose proof (wf_size_bound _ _ _ Hwf Hs).
  rewrite wrap_small by lia.
  apply kept_wr_size; [by apply kept_refl|done|lia|lia].
Qed.

Lemma Erase_kept this pos w :
  wf_world w → wlp (SimpleVector.Erase this pos) w (λ _, kept w) (λ _, kept w).
Proof.
  intros Hwf. unfold SimpleVector.Erase, SimpleVector.IsEmpty.
  apply wlp_bind, wlp_bind, wlp_rd. intros s Hs. apply wlp_ret.
  apply wlp_bind, wlp_assert. intros Hne%negb_true_iff%Z.eqb_neq.
  apply wlp_bind, wlp_in_range_open. intros ok.
  apply wlp_bind, wlp_assert. intros _.
  apply wlp_bind, wlp_cbegin. intros s' Hs'. simplify_eq.
  apply wlp_bind, wlp_ptr_diff_any. intros d.
  apply wlp_bind, wlp_rd. intros s' Hs'. simplify_eq.
  unfold ArrayPtr.index.
  apply wlp_bind, wlp_ptr_add_in. intros from Hfrom.
  apply wlp_bind, wlp_end_in. intros s' to Hs' Hto _ _. simplify_eq.
  apply wlp_bind, wlp_rd. intros s' Hs'. simplify_eq.
  apply wlp_bind, wlp_ptr_add_in. intros d_first Hd.
  assert (∀ r b, (∀ b, in_block r b → in_block (ArrayPtrRep.raw_ptr_ (items_ s)) b) →
                 in_block r b → owns w this b) as Hin.
  { intros r b Hr Hb%Hr. destruct (ArrayPtrRep.raw_ptr_ (items_ s)) eqn:?; [done|].
    simpl in Hb. subst. by eexists _, _. }
  apply wlp_bind.
  eapply wlp_mono; [apply (lands_in_move (owns w this)); by eauto | | done].
  intros r w1 [Hst _]. cbv beta in *.
  assert (kept w w1) as Hk1.
  { eapply kept_stores_in; [by apply kept_refl|done|eauto]. }
  pose proof Hst as (Ho & _).
  apply wlp_bind, wlp_rd. intros s' Hs'. rewrite Ho in Hs'. simplify_eq.
  apply wlp_bind, wlp_wr_size_. intros s' Hs'. rewrite Ho in Hs'. simplify_eq.
  destruct (wf_vec_of _ _ _ Hwf Hs) as [Hsz _].
  pose proof (wf_size_bound _ _ _ Hwf Hs).
  rewrite (wrap_small (size_ s - 1)) by lia.
  apply wlp_bind, wlp_rd. intros s1 _. apply wlp_ptr_add_any. intros r1.
  apply kept_wr_size; [done|by rewrite Ho|lia|lia].
Qed.

Lemma ctor_default_kept w :
  wf_world w → wlp SimpleVector.ctor_default w (λ _, kept w) (λ _, kept w).
Proof.
  intros Hwf. apply wlp_new_obj. split.
  - apply wf_new_obj; [done|by split|done].
  - by apply client_frame_new_obj.
Qed.

(** ** The remaining constructors and methods *)

Lemma frames_wf {A} B (m : M A) w :
  frames B m → wf_world w → wlp m w (λ _, wf_world) (λ _, wf_world).
Proof.
  intros Hm Hwf. eapply wlp_frames; [done|].
  intros a w' Hst. by eapply wf_world_stores_in.
Qed.

Lemma frames_begin B this : frames B (SimpleVector.begin_ this).
Proof. apply frames_bind; [apply frames_rd|]. intros it. apply frames_ret. Qed.

Lemma frames_end B this : frames B (SimpleVector.end_ this).
Proof.
  apply frames_bind; [apply frames_rd|]. intros it.
  apply frames_bind; [apply frames_rd|]. intros sz. apply frames_ptr_add.
Qed.

Lemma frames_operator_eq B lhs rhs : frames B (SimpleVector.operator_eq lhs rhs).
Proof.
  apply frames_bind; [apply frames_rd|]. intros n.
  apply frames_bind; [apply frames_rd|]. intros m.
  apply frames_if; [|apply frames_ret].
  apply frames_bind; [apply frames_begin|]. intros first1.
  apply frames_bind; [apply frames_end|]. intros last1.
  apply frames_bind; [apply frames_begin|]. intros first2.
  apply frames_equal.
Qed.

Lemma frames_operator_ne B lhs rhs : frames B (SimpleVector.operator_ne lhs rhs).
Proof.
  apply frames_bind; [apply frames_operator_eq|]. intros e. apply frames_ret.
Qed.

(** allocation of the array and of the object, as the constructors that
    take a size begin *)
Lemma ctor_alloc_wf {A} n sz cap (k : loc → M A) w :
  wf_world w → 0 ≤ sz ≤ cap → sz ≤ n → 0 ≤ n →
  (∀ this, frames (λ _, True) (k this)) →
  wlp (it <- ArrayPtr.from_size n ;; this <- new_obj (BuildSV sz cap it) ;; k this) w
    (λ _, wf_world) (λ _, wf_world).
Proof.
  intros Hwf Hsz Hn Hn0 Hk. unfold ArrayPtr.from_size.
  apply wlp_bind. destruct (Z.eqb_spec n 0) as [->|Hne].
  - apply wlp_ret, wlp_bind, wlp_new_obj. eapply frames_wf; [done|].
    apply wf_new_obj; [done| |done]. split; simpl; lia.
  - apply wlp_bind, wlp_new_array; [done|]. intros Hmax.
    apply wlp_ret, wlp_bind, wlp_new_obj. eapply frames_wf; [done|]. simpl.
    by apply wf_new_vec.
Qed.

Lemma ctor_copy_wf other w :
  wf_world w → wlp (SimpleVector.ctor_copy other) w (λ _, wf_world) (λ _, wf_world).
Proof.
  intros Hwf. unfold SimpleVector.ctor_copy, SimpleVector.GetSize, SimpleVector.GetCapacity.
  apply wlp_bind, wlp_rd. intros s Hs.
  apply wlp_bind, wlp_rd. intros s' Hs'. simplify_eq.
  apply wlp_bind, wlp_rd. intros s' Hs'. simplify_eq.
  destruct (wf_vec_of _ _ _ Hwf Hs) as [Hsz _].
  apply ctor_alloc_wf; [done|lia..|]. intros this.
  apply frames_bind; [apply frames_begin|]. intros first.
  apply frames_bind; [apply frames_end|]. intros last.
  apply frames_bind; [apply frames_begin|]. intros d_first.
  apply frames_bind; [by apply lands_in_frames, lands_in_copy|]. intros _.
  apply frames_ret.
Qed.

Lemma ctor_size_value_wf size value w :
  wf_world w → 0 ≤ size →
  wlp (SimpleVector.ctor_size_value size value) w (λ _, wf_world) (λ _, wf_world).
Proof.
  intros Hwf Hsz. unfold SimpleVector.ctor_size_value.
  apply ctor_alloc_wf; [done|lia..|]. intros this.
  apply frames_bind; [apply frames_begin|]. intros first.
  apply frames_bind; [apply frames_end|]. intros last.
  apply frames_bind; [by apply frames_fill|]. intros _.
  apply frames_ret.
Qed.

Lemma ctor_init_list_wf init w :
  wf_world w →
  wlp (SimpleVector.ctor_init_list init) w (λ _, wf_world) (λ _, wf_world).
Proof.
  intros Hwf. unfold SimpleVector.ctor_init_list.
  apply ctor_alloc_wf; [done|lia..|]. intros this.
  apply frames_bind; [apply frames_begin|]. intros d_first.
  apply frames_bind; [by apply lands_in_frames, lands_in_copy_init|]. intros _.
  apply frames_ret.
Qed.

Lemma ctor_move_wf other w :
  wf_world w → wlp (SimpleVector.ctor_move other) w (λ _, wf_world) (λ _, wf_world).
Proof.
  intros Hwf. unfold SimpleVector.ctor_move, ArrayPtr.move_ctor.
  apply wlp_bind, wlp_rd. intros s Hs.
  destruct (wf_vec_of _ _ _ Hwf Hs) as [Hsz Hp].
  apply wlp_bind, wlp_wr_size_. intros s' Hs'. simplify_eq.
  assert (wf_world (set_objs (<[other := BuildSV 0 (capacity_ s) (items_ s)]> (objs w)) w))
    as Hwf1 by (apply wf_wr_size; auto with lia).
  set (w1 := set_objs _ w) in *.
  assert (objs w1 !! other = Some (BuildSV 0 (capacity_ s) (items_ s))) as Hs1.
  { unfold w1. simpl. by rewrite lookup_insert_eq. }
  apply wlp_bind, wlp_rd. intros s' Hs'. simplify_eq. simpl.
  apply wlp_bind, wlp_wr_capacity_. intros s' Hs'. simplify_eq. simpl.
  assert (wf_world (set_objs (<[other := BuildSV 0 0 (items_ s)]> (objs w1)) w1))
    as Hwf2 by (by apply (wf_wr_capacity w1 other (BuildSV 0 (capacity_ s) (items_ s)))).
  set (w2 := set_objs _ w1) in *.
  assert (objs w2 !! other = Some (BuildSV 0 0 (items_ s))) as Hs2.
  { unfold w2. simpl. by rewrite lookup_insert_eq. }
  apply wlp_bind, wlp_rd. intros s' Hs'. simplify_eq. simpl.
  apply wlp_bind, wlp_wr_items_. intros s' Hs'. simplify_eq. simpl.
  assert (wf_world (set_objs (<[other := BuildSV 0 0 (ArrayPtrRep.Build Null)]> (objs w2)) w2))
    as Hwf3 by (by apply (wf_wr_items w2 other (BuildSV 0 0 (items_ s)) Null)).
  set (w3 := set_objs _ w2) in *.
  apply wlp_new_obj. apply wf_new_obj; [done| |].
  - split; [done|]. simpl. done.
  - simpl. intros b x o Hraw (s' & x' & Hs' & Hx'). unfold w3, w2, w1 in Hs'. simpl in Hs'.
    rewrite !insert_insert_eq in Hs'.
    destruct (decide (o = other)) as [->|Hne].
    + rewrite lookup_insert_eq in Hs'. by simplify_eq.
    + rewrite lookup_insert_ne in Hs' by done. apply Hne.
      apply (wf_owner _ Hwf _ _ b); [by exists s', x' | by exists s, x].
Qed.

Lemma assign_move_wf this rhs w :
  wf_world w → wlp (SimpleVector.assign_move this rhs) w (λ _, wf_world) (λ _, wf_world).
Proof.
  intros Hwf. unfold SimpleVector.assign_move.
  apply wlp_bind. eapply wlp_frames; [apply (frames_operator_ne (λ _, True))|].
  intros ne w1 Hst. assert (wf_world w1) as Hwf1 by (by eapply wf_world_stores_in).
  apply wlp_bind. destruct ne; [|by apply wlp_ret, wlp_ret].
  apply wlp_bind. eapply wlp_mono; [by apply ctor_move_wf | | done].
  intros tmp w2 Hwf2. cbv beta in *.
  apply wlp_bind. eapply wlp_mono; [by apply swap_kept | | by intros ?? []].
  intros ? w3 [Hwf3 _].
  eapply wlp_mono; [by apply dtor_kept | | by intros ?? []].
  intros ? w4 [Hwf4 _]. by apply wlp_ret.
Qed.

Lemma assign_copy_wf this rhs w :
  wf_world w → wlp (SimpleVector.assign_copy this rhs) w (λ _, wf_world) (λ _, wf_world).
Proof.
  intros Hwf. unfold SimpleVector.assign_copy.
  apply wlp_bind. eapply wlp_frames; [apply (frames_operator_ne (λ _, True))|].
  intros ne w1 Hst. assert (wf_world w1) as Hwf1 by (by eapply wf_world_stores_in).
  apply wlp_bind. destruct ne; [|by apply wlp_ret, wlp_ret].
  apply wlp_bind. eapply wlp_mono; [by apply ctor_copy_wf | | done].
  intros tmp w2 Hwf2. cbv beta in *.
  apply wlp_bind. eapply wlp_mono; [by apply swap_kept | | by intros ?? []].
  intros ? w3 [Hwf3 _].
  eapply wlp_mono; [by apply dtor_kept | | by intros ?? []].
  intros ? w4 [Hwf4 _]. by apply wlp_ret.
Qed.

Lemma Reserve_wf this new_capacity w :
  wf_world w →
  wlp (SimpleVector.Reserve this new_capacity) w (λ _, wf_world) (λ _, wf_world).
Proof.
  intros Hwf. unfold SimpleVector.Reserve.
  apply wlp_bind, wlp_rd. intros s Hs.
  destruct (wf_vec_of _ _ _ Hwf Hs) as [Hsz Hp].
  destruct (Z.gtb_spec new_capacity (capacity_ s)) as [Hgt|Hle]; [|by apply wlp_ret].
  unfold ArrayPtr.from_size. destruct (Z.eqb_spec new_capacity 0) as [->|_]; [lia|].
  apply wlp_bind, wlp_bind, wlp_new_array; [done|]. intros Hmax. apply wlp_ret.
  set (nb := next_block w).
  set (w1 := World _ _ _ _).
  assert (wf_world w1) as Hwf1 by (by apply wf_new_array).
  apply wlp_bind. eapply wlp_frames; [apply (frames_begin (eq nb))|]. intros first w1' Hst1.
  apply wlp_bind. eapply wlp_frames; [apply (frames_end (eq nb))|]. intros last w1'' Hst1'.
  apply wlp_bind.
  eapply wlp_frames.
  { apply lands_in_frames, (lands_in_copy (eq nb)). simpl. auto. }
  intros ? w2' Hst2'.
  assert (stores_in (eq nb) w1 w2') as Hst2.
  { eapply stores_in_trans; [|done]. eapply stores_in_trans; done. }
  clear Hst1 Hst1' Hst2' w1' w1''. rename w2' into w2.
  assert (wf_world w2) as Hwf2 by (by eapply wf_world_stores_in).
  pose proof Hst2 as (Ho2 & _).
  assert (objs w2 !! this = Some s) as Hs2 by (by rewrite Ho2).
  destruct (stores_in_lookup _ _ _ nb (replicate (Z.to_nat new_capacity) default_init)
              Hst2) as (l2 & Hl2 & Hlen2).
  { unfold w1. simpl. by rewrite lookup_insert_eq. }
  rewrite length_replicate in Hlen2.
  assert (∀ o b, owns w2 o b → owns w o b ∧ b ≠ nb) as Hold.
  { intros o b Ho. apply (stores_in_owns _ _ _ _ _ Hst2) in Ho.
    assert (owns w o b) as Ho' by done. split; [done|].
    pose proof (wf_owns_lt _ _ _ Hwf Ho'). unfold nb. lia. }
  apply wlp_bind, wlp_rd. intros s' Hs'. simplify_eq. simpl.
  apply wlp_bind, wlp_wr_items_. intros s' Hs'. simplify_eq.
  assert (wf_world (set_objs (<[this := BuildSV (size_ s) (capacity_ s)
                                          (ArrayPtrRep.Build (Ptr nb 0))]> (objs w2)) w2))
    as Hwf3.
  { apply wf_wr_items; [done..|]. split; [done|]. split.
    - exists l2. split; [done|]. lia.
    - intros o' _ [_ ?]%Hold. done. }
  set (w3 := set_objs _ w2) in *.
  assert (objs w3 !! this = Some (BuildSV (size_ s) (capacity_ s) (ArrayPtrRep.Build (Ptr nb 0))))
    as Hs3.
  { unfold w3. simpl. by rewrite lookup_insert_eq. }
  apply wlp_bind, wlp_wr_capacity_. intros s' Hs'. simplify_eq. simpl.
  assert (wf_world (set_objs (<[this := BuildSV (size_ s) new_capacity
                                          (ArrayPtrRep.Build (Ptr nb 0))]> (objs w3)) w3))
    as Hwf4.
  { apply (wf_wr_capacity w3 this (BuildSV (size_ s) (capacity_ s)
                                     (ArrayPtrRep.Build (Ptr nb 0)))); [done..|]. simpl. lia. }
  set (w4 := set_objs _ w3) in *.
  unfold ArrayPtr.dtor. simpl.
  apply wlp_delete_array; [done|].
  intros b l Hraw Hl. apply wf_delete_array; [done|].
  intros o (s' & x' & Hs' & Hx'). unfold w4, w3 in Hs'. simpl in Hs'.
  rewrite insert_insert_eq in Hs'.
  assert (owns w2 this b) as [_ Hbn]%Hold by (by exists s, 0).
  destruct (decide (o = this)) as [->|Hne].
  - rewrite lookup_insert_eq in Hs'. simplify_eq. simpl in Hx'. congruence.
  - rewrite lookup_insert_ne in Hs' by done. apply Hne.
    rewrite Ho2 in Hs'. unfold w1 in Hs'. simpl in Hs'.
    apply (wf_owner _ Hwf _ _ b); [by exists s', x' | by exists s, 0].
Qed.

Lemma ctor_reserve_wf obj w :
  wf_world w → wlp (SimpleVector.ctor_reserve obj) w (λ _, wf_world) (λ _, wf_world).
Proof.
  intros Hwf. unfold SimpleVector.ctor_reserve.
  apply wlp_bind, wlp_new_obj.
  assert (wf_world (World (heap w) (next_block w)
                          (<[next_loc w := BuildSV 0 0 ArrayPtr.default]> (objs w))
                          (S (next_loc w)))) as Hwf1.
  { apply wf_new_obj; [done|by split|done]. }
  apply wlp_bind, wlp_unwinding.
  eapply wlp_mono; [by apply Reserve_wf | |].
  - intros ? w2 Hwf2. by apply wlp_ret.
  - intros e w2 Hwf2. cbv beta in *.
    eapply wlp_mono; [by apply dtor_kept | |]; by intros ?? [].
Qed.

(** ** Every call keeps the state well-formed *)

Lemma wlp_discard {A} (m : M A) w (Q : world → Prop) E :
  wlp m w (λ _, Q) E → wlp (m ;; ret tt) w (λ _, Q) E.
Proof.
  intros Hm. apply wlp_bind. eapply wlp_mono; [done| |done].
  intros a w' HQ. by apply wlp_ret.
Qed.

Lemma wlp_forget {A} (m : M A) w w0 :
  wlp m w (λ _, kept w0) (λ _, kept w0) → wlp m w (λ _, wf_world) (λ _, wf_world).
Proof. intros Hm. eapply wlp_mono; [done| |]; by intros ?? []. Qed.

Lemma run_wf c w :
  wf_world w → well_typed c → wlp (run c) w (λ _, wf_world) (λ _, wf_world).
Proof.
  intros Hwf Hc. destruct c; simpl in *; unfold is_size_t in *.
  - by eapply wlp_discard, wlp_forget, ctor_default_kept.
  - by apply wlp_discard, ctor_move_wf.
  - by apply wlp_discard, ctor_copy_wf.
  - apply wlp_discard. eapply wlp_mono; [apply ctor_size_kept; [done|lia] | |].
    + by intros ?? [[] _].
    + by intros ?? ->.
  - apply wlp_discard, ctor_size_value_wf; [done|lia].
  - by apply wlp_discard, ctor_init_list_wf.
  - by apply wlp_discard, ctor_reserve_wf.
  - by eapply wlp_forget, dtor_kept.
  - by apply wlp_discard, assign_move_wf.
  - by apply wlp_discard, assign_copy_wf.
  - by eapply wlp_forget, Clear_kept.
  - eapply wlp_forget, Resize_kept; [done|lia].
  - by eapply wlp_forget, PushBack_const_ref_kept.
  - by apply PushBack_rvalue_ref_wf.
  - by eapply wlp_discard, wlp_forget, Insert_const_ref_kept.
  - by apply wlp_discard, Insert_rvalue_ref_wf.
  - by eapply wlp_forget, PopBack_kept.
  - by eapply wlp_discard, wlp_forget, Erase_kept.
  - by eapply wlp_forget, swap_kept.
  - by apply Reserve_wf.
  - apply wlp_discard, wlp_new_array; [done|]. intros Hn. by apply wf_new_array.
  - by eapply frames_wf; [apply (frames_store (λ _, True))|].
Qed.

Lemma wf_empty_world : wf_world empty_world.
Proof.
  split; simpl; try done.
  intros o1 o2 b (s & x & Hs & _). simpl in Hs. by rewrite lookup_empty in Hs.
Qed.

Lemma reachable_wf w : reachable w → wf_world w.
Proof.
  induction 1 as [|c w w' _ IH Hc Hrun|c w e w' _ IH Hc Hrun].
  - apply wf_empty_world.
  - pose proof (run_wf c w IH Hc) as Hwlp. unfold wlp in Hwlp. by rewrite Hrun in Hwlp.
  - pose proof (run_wf c w IH Hc) as Hwlp. unfold wlp in Hwlp. by rewrite Hrun in Hwlp.
Qed.

(** * Runs that return *)

Lemma wp_wlp {A} (m : M A) w (Q Q' : A → world → Prop) E :
  wp m w Q → wlp m w Q' E → wp m w (λ a w', Q a w' ∧ Q' a w').
Proof. unfold wp, wlp. destruct (m w); naive_solver. Qed.

Lemma wp_eq {A} (m : M A) w (Q : A → world → Prop) a w' :
  wp m w Q → m w = Ok a w' → Q a w'.
Proof. unfold wp. intros Hm Heq. by rewrite Heq in Hm. Qed.

Lemma wp_generate_n n b o l v w :
  heap w !! b = Some l → 0 ≤ o → o + Z.of_nat n ≤ Z.of_nat (length l) →
  wp (Std.generate_n n (Ptr b o) (ret v)) w (λ _ w', stores_in (eq b) w w').
Proof.
  revert o l w. induction n as [|n IH]; intros o l w Hl Ho Hn; simpl.
  - apply wp_ret, stores_in_refl.
  - apply wp_bind, wp_ret. eapply wp_bind, wp_store; [done|lia|].
    eapply wp_bind, wp_ptr_add.
    { simpl. by rewrite lookup_insert_eq. }
    { rewrite length_insert. lia. }
    eapply wp_mono.
    { eapply IH; [simpl; by rewrite lookup_insert_eq|lia|rewrite length_insert; lia]. }
    intros ? w' Hst. cbv beta in *. eapply stores_in_trans; [|done]. by apply stores_in_store.
Qed.

Lemma wp_ctor_size n w :
  0 < n ≤ max_alloc →
  wp (SimpleVector.ctor_size n) w
    (λ tmp w', tmp = next_loc w ∧
               objs w' = <[tmp := BuildSV n n (ArrayPtrRep.Build (Ptr (next_block w) 0))]> (objs w) ∧
               (∀ b, b ≠ next_block w → heap w' !! b = heap w !! b) ∧
               ∃ l', heap w' !! next_block w = Some l' ∧ Z.of_nat (length l') = n).
Proof.
  intros Hn. unfold SimpleVector.ctor_size, ArrayPtr.from_size, ArrayPtr.Get.
  destruct (Z.eqb_spec n 0) as [->|_]; [lia|].
  apply wp_bind, wp_bind, wp_new_array; [lia|].
  apply wp_ret, wp_bind, wp_new_obj.
  eapply wp_bind, wp_rd; [simpl; by rewrite lookup_insert_eq|]. simpl.
  eapply wp_bind, wp_ptr_add; [simpl; by rewrite lookup_insert_eq| |].
  { rewrite length_replicate. lia. }
  unfold Std.generate, Std.range_length.
  eapply wp_bind, wp_bind, wp_bind, wp_ptr_diff; [simpl; by rewrite lookup_insert_eq|].
  destruct (Z.ltb_spec (0 + n - 0) 0); [lia|].
  apply wp_ret. eapply wp_mono.
  { eapply wp_generate_n; [simpl; by rewrite lookup_insert_eq|lia|].
    rewrite length_replicate. lia. }
  intros ? w' Hst. cbv beta in *. apply wp_ret. split; [done|].
  pose proof Hst as (-> & _ & _ & _ & Hfr). simpl. split; [done|]. split.
  { intros b Hb. rewrite Hfr by done. simpl. by rewrite lookup_insert_ne. }
  destruct (stores_in_lookup _ _ _ (next_block w)
              (replicate (Z.to_nat n) default_init) Hst) as (l' & Hl' & Hlen).
  { simpl. by rewrite lookup_insert_eq. }
  exists l'. split; [done|]. rewrite Hlen, length_replicate. lia.
Qed.

(** the loop of [Resize] that moves the elements to the new array *)
Lemma wp_move_loop this tmp k i w s t b nb l l' :
  objs w !! this = Some s → objs w !! tmp = Some t →
  ArrayPtrRep.raw_ptr_ (items_ s) = Ptr b 0 →
  ArrayPtrRep.raw_ptr_ (items_ t) = Ptr nb 0 →
  b ≠ nb → heap w !! b = Some l → heap w !! nb = Some l' → 0 ≤ i →
  i + Z.of_nat k ≤ Z.of_nat (length l) → i + Z.of_nat k ≤ Z.of_nat (length l') →
  wp (Std.for_loop k i (λ i,
        it <- SimpleVector.rd items_ this ;; s <- ArrayPtr.index it i ;;
        tit <- SimpleVector.rd items_ tmp ;; d <- ArrayPtr.index tit i ;;
        Std.move_assign d s)) w
     (λ _ w', stores_in (λ x, x = b ∨ x = nb) w w').
Proof.
  intros Hs Ht Hraw Hraw' Hne. revert i w l l' Hs Ht.
  induction k as [|k IH]; intros i w l l' Hs Ht Hl Hl' Hi Hk Hk'; simpl.
  - apply wp_ret, stores_in_refl.
  - unfold ArrayPtr.index, Std.move_assign.
    destruct (lookup_lt_is_Some_2 l (Z.to_nat i)) as [v Hv]; [lia|].
    eapply wp_bind, wp_bind, wp_rd; [done|]. cbv beta. rewrite Hraw.
    eapply wp_bind, wp_ptr_add; [done|lia|].
    eapply wp_bind, wp_rd; [done|]. cbv beta. rewrite Hraw'.
    eapply wp_bind, wp_ptr_add; [done|lia|].
    eapply wp_bind, wp_load; [done|lia|by rewrite Z.add_0_l|].
    eapply wp_bind, wp_store; [done|lia|].
    eapply wp_store; [simpl; by rewrite lookup_insert_ne|lia|].
    set (w1 := set_heap _ (set_heap _ w)).
    assert (stores_in (λ x, x = b ∨ x = nb) w w1) as Hst1.
    { eapply stores_in_trans.
      - apply (stores_in_store _ w nb); [done|by right].
      - apply stores_in_store; [simpl; by rewrite lookup_insert_ne|by left]. }
    eapply wp_mono.
    { eapply (IH (i + 1) w1); try done.
      - unfold w1; simpl. by rewrite lookup_insert_eq.
      - unfold w1; simpl. rewrite lookup_insert_ne by done. by rewrite lookup_insert_eq.
      - lia.
      - rewrite length_insert. lia.
      - rewrite length_insert. lia. }
    intros ? w' Hst. cbv beta in *. by eapply stores_in_trans.
Qed.

Lemma Resize_grow this n w s :
  wf_world w → objs w !! this = Some s →
  capacity_ s < n → Z.max (capacity_ s * 2) n ≤ max_alloc →
  ∃ w', SimpleVector.Resize this n w = Ok tt w' ∧ kept w w' ∧
        objs w' !! this =
          Some (BuildSV n (Z.max (capacity_ s * 2) n)
                  (ArrayPtrRep.Build (Ptr (next_block w) 0))) ∧
        ∃ l', heap w' !! next_block w = Some l' ∧
              Z.of_nat (length l') = Z.max (capacity_ s * 2) n.
Proof.
  intros Hwf Hs Hn Hmax.
  pose proof (wf_vec_of _ _ _ Hwf Hs) as [Hsz Hp].
  pose proof max_alloc_range as Hrange.
  pose proof (wf_obj_lt _ _ _ Hwf Hs) as Hlt.
  set (cap' := Z.max (capacity_ s * 2) n) in *.
  set (nb := next_block w).
  cut (wp (SimpleVector.Resize this n) w (λ _ w',
         objs w' !! this = Some (BuildSV n cap' (ArrayPtrRep.Build (Ptr nb 0))) ∧
         ∃ l', heap w' !! nb = Some l' ∧ Z.of_nat (length l') = cap')).
  { intros Hwp.
    pose proof (wp_wlp _ _ _ _ _ Hwp (Resize_kept this n w Hwf ltac:(lia))) as Hboth.
    apply wp_elim in Hboth as ([] & w' & Heq & Hpost & Hk). eauto. }
  unfold SimpleVector.Resize.
  eapply wp_bind, wp_rd; [done|]. cbv beta.
  destruct (Z.eqb_spec n (size_ s)); [lia|].
  destruct (Z.ltb_spec n (size_ s)); [lia|].
  eapply wp_bind, wp_rd; [done|]. cbv beta.
  destruct (Z.leb_spec n (capacity_ s)); [lia|].
  rewrite (wrap_small (capacity_ s * 2)) by lia. fold cap'.
  eapply wp_bind, wp_wr_capacity_; [done|].
  eapply wp_bind, wp_rd; [simpl; by rewrite lookup_insert_eq|]. simpl.
  eapply wp_bind, wp_mono; [apply wp_ctor_size; lia|].
  intros tmp w2 (-> & Ho2 & Hfr2 & l' & Hl' & Hlen'). simpl in *. fold nb in Hl', Hfr2.
  assert (objs w2 !! this = Some (BuildSV (size_ s) cap' (items_ s))) as Hs2.
  { rewrite Ho2, lookup_insert_ne by lia. by rewrite lookup_insert_eq. }
  assert (objs w2 !! next_loc w = Some (BuildSV cap' cap' (ArrayPtrRep.Build (Ptr nb 0)))) as Ht2.
  { by rewrite Ho2, lookup_insert_eq. }
  eapply wp_bind, wp_rd; [done|]. simpl.
  (* the loop, and what is to be destroyed at the end *)
  assert (wp (Std.for_range 0 (size_ s) (λ i,
            it <- SimpleVector.rd items_ this ;; s0 <- ArrayPtr.index it i ;;
            tit <- SimpleVector.rd items_ (next_loc w) ;; d <- ArrayPtr.index tit i ;;
            Std.move_assign d s0)) w2
            (λ _ w3, stores_in (λ x, owns w this x ∨ x = nb) w2 w3)) as Hloop.
  { unfold Std.for_range.
    destruct (ArrayPtrRep.raw_ptr_ (items_ s)) as [|b x] eqn:Hraw.
    - rewrite Hp. simpl. apply wp_ret, stores_in_refl.
    - destruct Hp as (-> & l & Hl & Hle).
      assert (b ≠ nb) as Hbn.
      { intros ->. rewrite (wf_fresh_block _ Hwf) in Hl; [done|]. unfold nb. lia. }
      eapply wp_mono.
      { eapply (wp_move_loop this (next_loc w) _ 0 w2 _ _ b nb l l'); try done.
        - by rewrite Hfr2.
        - lia.
        - lia. }
      intros ? w3 Hst. cbv beta in *. eapply stores_in_mono; [|done].
      intros b' [->| ->]; [left|by right]. by exists s, 0. }
  eapply wp_bind, wp_mono; [exact Hloop|]. clear Hloop.
  intros ? w3 Hst3. cbv beta in *. pose proof Hst3 as (Ho3 & _).
  eapply wp_bind, wp_swap; [by rewrite Ho3..|].
  eapply wp_bind, wp_wr_size_.
  { simpl. rewrite lookup_insert_ne by lia. by rewrite lookup_insert_eq. }
  simpl. unfold SimpleVector.dtor, ArrayPtr.dtor.
  eapply wp_bind, wp_rd.
  { simpl. rewrite lookup_insert_ne by lia. by rewrite lookup_insert_eq. }
  simpl.
  destruct (stores_in_lookup _ _ _ nb l' Hst3 Hl') as (l3 & Hl3 & Hlen3).
  destruct (ArrayPtrRep.raw_ptr_ (items_ s)) as [|b x] eqn:Hraw.
  - eapply wp_bind, wp_delete_array_null.
    eapply wp_del_obj.
    { simpl. rewrite lookup_insert_ne by lia. by rewrite lookup_insert_eq. }
    simpl. split.
    + rewrite lookup_delete_ne by lia. by rewrite lookup_insert_eq.
    + exists l3. split; [done|]. lia.
  - destruct Hp as (-> & l & Hl & Hle).
    assert (b ≠ nb) as Hbn.
    { intros ->. rewrite (wf_fresh_block _ Hwf) in Hl; [done|]. unfold nb. lia. }
    destruct (stores_in_lookup _ _ _ b l Hst3) as (l3' & Hl3' & _).
    { by rewrite Hfr2. }
    eapply wp_bind, wp_delete_array; [simpl; done|].
    eapply wp_del_obj.
    { simpl. rewrite lookup_insert_ne by lia. by rewrite lookup_insert_eq. }
    simpl. split.
    + rewrite lookup_delete_ne by lia. by rewrite lookup_insert_eq.
    + exists l3. split; [by rewrite lookup_delete_ne|]. lia.
Qed.

Lemma rd_ok {A} (f : SimpleVectorRep → A) this s w :
  objs w !! this = Some s → SimpleVector.rd f this w = Ok (f s) w.
Proof.
  intros Hs. unfold SimpleVector.rd, bind, get_obj, ret. by rewrite Hs.
Qed.

Lemma client_frame_lookup w w' b l :
  client_frame w w' → heap w !! b = Some l → (∀ o, ¬ owns w o b) →
  heap w' !! b = Some l.
Proof. intros Hcf Hl Hb. by destruct (Hcf b l Hl Hb). Qed.

(** [PushBack] on a full vector: the array grows, by the policy of
    [Resize], and the new element is a copy of the argument *)
Lemma PushBack_grow this w s bv ov lv v :
  wf_world w → objs w !! this = Some s →
  capacity_ s ≤ size_ s → Z.max (capacity_ s * 2) (size_ s + 1) ≤ max_alloc →
  heap w !! bv = Some lv → 0 ≤ ov → lv !! Z.to_nat ov = Some v →
  (∀ o, ¬ owns w o bv) →
  ∃ w', SimpleVector.PushBack_const_ref this (Ptr bv ov) w = Ok tt w' ∧ kept w w' ∧
        objs w' !! this =
          Some (BuildSV (size_ s + 1) (Z.max (capacity_ s * 2) (size_ s + 1))
                  (ArrayPtrRep.Build (Ptr (next_block w) 0))) ∧
        ∃ l', heap w' !! next_block w = Some l' ∧
              Z.of_nat (length l') = Z.max (capacity_ s * 2) (size_ s + 1) ∧
              l' !! Z.to_nat (size_ s) = Some v.
Proof.
  intros Hwf Hs Hfull Hmax Hlv Hov Hv Hfree.
  pose proof (wf_vec_of _ _ _ Hwf Hs) as [Hsz Hp].
  pose proof (wf_size_bound _ _ _ Hwf Hs) as Hb.
  destruct (Resize_grow this (size_ s + 1) w s) as (w1 & Heq & Hk1 & Hs1 & l1 & Hl1 & Hlen1);
    [done|done|lia|done|].
  set (cap' := Z.max (capacity_ s * 2) (size_ s + 1)) in *.
  set (nb := next_block w) in *.
  cut (wp (SimpleVector.PushBack_const_ref this (Ptr bv ov)) w (λ _ w',
         objs w' !! this = Some (BuildSV (size_ s + 1) cap' (ArrayPtrRep.Build (Ptr nb 0))) ∧
         ∃ l', heap w' !! nb = Some l' ∧ Z.of_nat (length l') = cap' ∧
               l' !! Z.to_nat (size_ s) = Some v)).
  { intros Hwp.
    pose proof (wp_wlp _ _ _ _ _ Hwp (PushBack_const_ref_kept this (Ptr bv ov) w Hwf)) as Hboth.
    apply wp_elim in Hboth as ([] & w' & Heq' & Hpost & Hk). eauto. }
  unfold SimpleVector.PushBack_const_ref, SimpleVector.make_room.
  eapply wp_bind, wp_bind, wp_rd; [done|]. cbv beta.
  eapply wp_bind, wp_rd; [done|]. cbv beta.
  destruct (Z.ltb_spec (size_ s) (capacity_ s)); [lia|].
  rewrite (wrap_small (size_ s + 1)) by lia.
  eapply wp_intro; [exact Heq|].
  eapply wp_bind, wp_rd; [done|]. simpl.
  eapply wp_bind, wp_rd; [done|]. simpl.
  replace (size_ s + 1 - 1) with (size_ s) by lia.
  rewrite (wrap_small (size_ s)) by lia.
  unfold ArrayPtr.index, Std.copy_assign. simpl.
  eapply wp_bind, wp_ptr_add; [done|lia|].
  eapply wp_bind, wp_load; [|done|done|].
  { eapply client_frame_lookup; [apply Hk1|done..]. }
  eapply wp_store; [done|lia|]. simpl. split; [done|].
  eexists. rewrite lookup_insert_eq. split; [done|]. rewrite length_insert.
  split; [done|]. rewrite Z.add_0_l. apply list_lookup_insert_eq.
  apply Nat2Z.inj_lt. rewrite Z2Nat.id by lia. lia.
Qed.

(** [At] *)
Lemma At_run this index w s :
  objs w !! this = Some s →
  SimpleVector.At this index w =
    if index >=? size_ s then Throw out_of_range w
    else ptr_add (ArrayPtrRep.raw_ptr_ (items_ s)) index w.
Proof.
  intros Hs. unfold SimpleVector.At, bind. rewrite (rd_ok _ _ _ _ Hs).
  destruct (index >=? size_ s); [done|]. by rewrite (rd_ok _ _ _ _ Hs).
Qed.

Lemma elements_Some w this xs :
  elements w this = Some xs →
  ∃ s, objs w !! this = Some s ∧ size_ s = Z.of_nat (length xs) ∧
       match ArrayPtrRep.raw_ptr_ (items_ s) with
       | Null => xs = []
       | Ptr b o => o = 0 ∧ ∃ l, heap w !! b = Some l ∧
                    xs = take (Z.to_nat (size_ s)) l ∧
                    size_ s ≤ Z.of_nat (length l)
       end.
Proof.
  unfold elements. destruct (objs w !! this) as [s|]; [|done].
  intros Hel. exists s. split; [done|].
  destruct (ArrayPtrRep.raw_ptr_ (items_ s)) as [|b o].
  - destruct (Z.eqb_spec (size_ s) 0); by simplify_eq.
  - destruct (heap w !! b) as [l|]; [|done].
    destruct (Z.eqb_spec o 0), (Z.leb_spec 0 (size_ s)),
      (Z.leb_spec (size_ s) (Z.of_nat (length l))); simplify_eq/=.
    split; [|by eauto]. rewrite length_take. lia.
Qed.

(** * The claims *)

Lemma GetSize_ok this s w :
  objs w !! this = Some s → SimpleVector.GetSize this w = Ok (size_ s) w.
Proof. apply rd_ok. Qed.

Lemma GetCapacity_ok this s w :
  objs w !! this = Some s → SimpleVector.GetCapacity this w = Ok (capacity_ s) w.
Proof. apply rd_ok. Qed.

(** C4.  In every state a client can reach, every vector has
    [0 <= size <= capacity], and [end() - begin()] is defined and equal to
    its size. *)
Theorem reachable_size_capacity_range (w : world) (this : loc) :
  reachable w → is_Some (objs w !! this) →
  ∃ n c first last,
    SimpleVector.GetSize this w = Ok n w ∧
    SimpleVector.GetCapacity this w = Ok c w ∧
    0 ≤ n ≤ c ∧
    SimpleVector.begin_ this w = Ok first w ∧
    SimpleVector.end_ this w = Ok last w ∧
    ptr_diff last first w = Ok n w.
Proof.
  intros Hwf%reachable_wf [s Hs].
  destruct (wf_vec_of _ _ _ Hwf Hs) as [Hsz Hp].
  exists (size_ s), (capacity_ s), (ArrayPtrRep.raw_ptr_ (items_ s)).
  unfold SimpleVector.begin_, SimpleVector.end_, ArrayPtr.Get, bind.
  rewrite (GetSize_ok _ _ _ Hs), (GetCapacity_ok _ _ _ Hs), !(rd_ok _ _ _ _ Hs).
  unfold ret.
  destruct (ArrayPtrRep.raw_ptr_ (items_ s)) as [|b o].
  - exists Null. rewrite Hp in *. simpl. split_and!; try done; lia.
  - destruct Hp as (-> & l & Hl & Hle). exists (Ptr b (size_ s)).
    unfold ptr_add, ptr_diff. rewrite Hl, Nat.eqb_refl.
    rewrite Z.add_0_l, Z.sub_0_r.
    destruct (Z.leb_spec 0 (size_ s)); [|lia].
    destruct (Z.leb_spec (size_ s) (Z.of_nat (length l))); [|lia]. simpl.
    split_and!; try done; lia.
Qed.

(** C8.  [At(i)] throws [out_of_range] exactly when [i >= size]; otherwise
    it returns a reference to the element at index [i], and the state is
    what it was. *)
Theorem At_checks_bounds (w : world) (this : loc) (xs : list T) (index : Z) :
  elements w this = Some xs → 0 ≤ index →
  (SimpleVector.At this index w = Throw out_of_range w ↔ Z.of_nat (length xs) ≤ index) ∧
  (index < Z.of_nat (length xs) →
   ∃ p x, SimpleVector.At this index w = Ok p w ∧ load p w = Ok x w ∧
          xs !! Z.to_nat index = Some x).
Proof.
  intros (s & Hs & Hlen & Hp)%elements_Some Hindex.
  rewrite (At_run _ _ _ _ Hs).
  destruct (Z.geb_spec index (size_ s)) as [Hge|Hlt].
  { split; [split; [lia|done]|lia]. }
  destruct (ArrayPtrRep.raw_ptr_ (items_ s)) as [|b o].
  { subst xs. simpl in *. lia. }
  destruct Hp as (-> & l & Hl & -> & Hle).
  destruct (lookup_lt_is_Some_2 l (Z.to_nat index)) as [x Hx]; [lia|].
  assert (ptr_add (Ptr b 0) index w = Ok (Ptr b index) w) as Hadd.
  { unfold ptr_add. rewrite Hl, Z.add_0_l.
    destruct (Z.leb_spec 0 index), (Z.leb_spec index (Z.of_nat (length l))); simpl;
      try lia. done. }
  rewrite Hadd. split; [split; [done|lia]|].
  intros _. exists (Ptr b index), x. split; [done|]. split.
  - unfold load. rewrite Hl. destruct (Z.leb_spec 0 index); [|lia]. by rewrite Hx.
  - rewrite lookup_take_lt by lia. done.
Qed.

(** the loop of [Resize] that fills the cells from [i] on with [Type{}],
    with the array it leaves *)
Lemma wp_fill_loop this k i w s b l :
  objs w !! this = Some s → ArrayPtrRep.raw_ptr_ (items_ s) = Ptr b 0 →
  heap w !! b = Some l → 0 ≤ i → i + Z.of_nat k ≤ Z.of_nat (length l) →
  wp (Std.for_loop k i (λ i,
        it <- SimpleVector.rd items_ this ;; r <- ArrayPtr.index it i ;;
        store r value_init)) w
     (λ _ w', objs w' = objs w ∧
              heap w' !! b =
                Some (take (Z.to_nat i) l ++ replicate k value_init ++
                      drop (Z.to_nat i + k) l)).
Proof.
  intros Hs Hraw. revert i w l Hs.
  induction k as [|k IH]; intros i w l Hs Hl Hi Hk; simpl.
  - apply wp_ret. split; [done|]. by rewrite Nat.add_0_r, take_drop.
  - unfold ArrayPtr.index.
    eapply wp_bind, wp_bind, wp_rd; [done|]. cbv beta. rewrite Hraw.
    eapply wp_bind, wp_ptr_add; [done|lia|]. rewrite Z.add_0_l.
    eapply wp_store; [done|lia|].
    eapply wp_mono.
    { eapply (IH (i + 1)); [done|simpl; by rewrite lookup_insert_eq|lia|].
      rewrite length_insert. lia. }
    intros ? w' [Ho Hh]. cbv beta in *. split; [done|]. rewrite Hh. f_equal.
    replace (Z.to_nat (i + 1)) with (S (Z.to_nat i)) by lia.
    rewrite (take_S_r _ _ value_init) by (apply list_lookup_insert_eq; lia).
    rewrite take_insert_ge by lia. rewrite drop_insert_lt by lia.
    rewrite <-app_assoc. simpl.
    replace (Z.to_nat i + S k)%nat with (S (Z.to_nat i + k)) by lia. done.
Qed.

Lemma Resize_shrink this n w s :
  objs w !! this = Some s → n < size_ s →
  SimpleVector.Resize this n w =
    Ok tt (set_objs (<[this := BuildSV n (capacity_ s) (items_ s)]> (objs w)) w).
Proof.
  intros Hs Hn. unfold SimpleVector.Resize, bind. rewrite (rd_ok _ _ _ _ Hs).
  destruct (Z.eqb_spec n (size_ s)); [lia|].
  destruct (Z.ltb_spec n (size_ s)); [|lia].
  unfold SimpleVector.wr_size_, bind, get_obj, put_obj. rewrite Hs. simpl.
  by rewrite Hs.
Qed.

Lemma Resize_same this w s :
  objs w !! this = Some s → SimpleVector.Resize this (size_ s) w = Ok tt w.
Proof.
  intros Hs. unfold SimpleVector.Resize, bind. rewrite (rd_ok _ _ _ _ Hs).
  by rewrite Z.eqb_refl.
Qed.

(** growing within the capacity, and within the array *)
Lemma Resize_within this n w s b l :
  objs w !! this = Some s → ArrayPtrRep.raw_ptr_ (items_ s) = Ptr b 0 →
  heap w !! b = Some l →
  0 ≤ size_ s < n → n ≤ capacity_ s → n ≤ Z.of_nat (length l) →
  ∃ w', SimpleVector.Resize this n w = Ok tt w' ∧
        objs w' = <[this := BuildSV n (capacity_ s) (items_ s)]> (objs w) ∧
        heap w' !! b =
          Some (take (Z.to_nat (size_ s)) l ++
                replicate (Z.to_nat (n - size_ s)) value_init ++
                drop (Z.to_nat n) l).
Proof.
  intros Hs Hraw Hl Hsz Hcap Hlen.
  cut (wp (SimpleVector.Resize this n) w (λ _ w',
         objs w' = <[this := BuildSV n (capacity_ s) (items_ s)]> (objs w) ∧
         heap w' !! b =
           Some (take (Z.to_nat (size_ s)) l ++
                 replicate (Z.to_nat (n - size_ s)) value_init ++
                 drop (Z.to_nat n) l))).
  { intros ([] & w' & Heq & Hpost)%wp_elim. eauto. }
  unfold SimpleVector.Resize.
  eapply wp_bind, wp_rd; [done|]. cbv beta.
  destruct (Z.eqb_spec n (size_ s)); [lia|].
  destruct (Z.ltb_spec n (size_ s)); [lia|].
  eapply wp_bind, wp_rd; [done|]. cbv beta.
  destruct (Z.leb_spec n (capacity_ s)); [|lia].
  unfold Std.for_range.
  eapply wp_bind, wp_mono.
  { eapply (wp_fill_loop this _ _ w s b l); [done..|lia|lia]. }
  intros ? w' [Ho Hh]. cbv beta in *.
  eapply wp_wr_size_; [by rewrite Ho|]. simpl. rewrite Ho. split; [done|].
  rewrite Hh.
  replace (Z.to_nat (size_ s) + Z.to_nat (n - size_ s))%nat with (Z.to_nat n) by lia.
  done.
Qed.

(** C9.  [Resize(k)] followed by [Resize(old_size)], for [k <= old_size],
    gives back the old size; the first [k] elements are what they were and
    the elements from [k] on are [Type{}]. *)
Theorem resize_down_up (w : world) (this : loc) (xs : list T) (k : Z) :
  wf_world w → elements w this = Some xs → 0 ≤ k ≤ Z.of_nat (length xs) →
  ∃ w',
    (SimpleVector.Resize this k ;; SimpleVector.Resize this (Z.of_nat (length xs))) w
      = Ok tt w' ∧
    SimpleVector.GetSize this w' = Ok (Z.of_nat (length xs)) w' ∧
    elements w' this =
      Some (take (Z.to_nat k) xs ++
            replicate (length xs - Z.to_nat k) value_init).
Proof.
  intros Hwf Hel Hk.
  pose proof Hel as (s & Hs & Hlen & Hp)%elements_Some.
  destruct (wf_vec_of _ _ _ Hwf Hs) as [Hsz _].
  unfold bind. destruct (decide (k = size_ s)) as [->|Hne].
  - (* nothing to do, twice *)
    rewrite (Resize_same _ _ _ Hs). rewrite <-Hlen, (Resize_same _ _ _ Hs).
    exists w. split; [done|]. rewrite (GetSize_ok _ _ _ Hs). split; [done|].
    rewrite Hel. f_equal. rewrite Hlen, Nat2Z.id, Nat.sub_diag, take_ge by lia.
    by rewrite app_nil_r.
  - rewrite (Resize_shrink _ _ _ s) by (done || lia).
    destruct (ArrayPtrRep.raw_ptr_ (items_ s)) as [|b o] eqn:Hraw.
    { subst xs. simpl in *. lia. }
    destruct Hp as (-> & l & Hl & Hxs & Hle).
    set (w1 := set_objs _ w).
    destruct (Resize_within this (Z.of_nat (length xs)) w1
                (BuildSV k (capacity_ s) (items_ s)) b l)
      as (w' & Heq & Ho' & Hh'); simpl; try done; try lia.
    { by rewrite lookup_insert_eq. }
    simpl in *. exists w'. split; [done|].
    assert (objs w' !! this = Some (BuildSV (Z.of_nat (length xs)) (capacity_ s) (items_ s)))
      as Hs'.
    { rewrite Ho'. by rewrite lookup_insert_eq. }
    rewrite (GetSize_ok _ _ _ Hs'). split; [done|].
    unfold elements. rewrite Hs'. simpl. rewrite Hraw, Hh'. simpl.
    rewrite !length_app, length_take, length_replicate, length_drop.
    destruct (Z.leb_spec 0 (Z.of_nat (length xs))); [|lia].
    destruct (Z.leb_spec (Z.of_nat (length xs))
                (Z.of_nat (Z.to_nat k `min` length l +
                   (Z.to_nat (Z.of_nat (length xs) - k) +
                    (length l - Z.to_nat (Z.of_nat (length xs))))))); [|lia].
    simpl. f_equal.
    rewrite Nat2Z.id. rewrite take_app_ge by (rewrite length_take; lia).
    rewrite length_take.
    rewrite take_app_ge by (rewrite length_replicate; lia).
    rewrite length_replicate.
    replace (length xs - Z.to_nat k `min` length l -
             Z.to_nat (Z.of_nat (length xs) - k))%nat with O by lia.
    rewrite take_0, app_nil_r. f_equal.
    + rewrite Hxs, take_take. f_equal. lia.
    + f_equal. lia.
Qed.

Lemma wp_equal_n k b1 i1 b2 i2 w l1 l2 :
  heap w !! b1 = Some l1 → heap w !! b2 = Some l2 → 0 ≤ i1 → 0 ≤ i2 →
  i1 + Z.of_nat k ≤ Z.of_nat (length l1) → i2 + Z.of_nat k ≤ Z.of_nat (length l2) →
  wp (Std.equal_n k (Ptr b1 i1) (Ptr b2 i2)) w (λ _ w', w' = w).
Proof.
  intros Hl1 Hl2. revert i1 i2. induction k as [|k IH]; intros i1 i2 H1 H2 Hk1 Hk2; simpl.
  - by apply wp_ret.
  - destruct (lookup_lt_is_Some_2 l1 (Z.to_nat i1)) as [x Hx]; [lia|].
    destruct (lookup_lt_is_Some_2 l2 (Z.to_nat i2)) as [y Hy]; [lia|].
    eapply wp_bind, wp_load; [done..|].
    eapply wp_bind, wp_load; [done..|].
    destruct (elem_eqb x y); [|by apply wp_ret].
    eapply wp_bind, wp_ptr_add; [done|lia|].
    eapply wp_bind, wp_ptr_add; [done|lia|].
    apply IH; lia.
Qed.

(** comparing a well-formed vector with itself returns, with some answer *)
Lemma wp_operator_ne_self this w s :
  wf_world w → objs w !! this = Some s →
  wp (SimpleVector.operator_ne this this) w (λ _ w', w' = w).
Proof.
  intros Hwf Hs. destruct (wf_vec_of _ _ _ Hwf Hs) as [Hsz Hp].
  unfold SimpleVector.operator_ne, SimpleVector.operator_eq, SimpleVector.GetSize,
    SimpleVector.begin_, SimpleVector.end_, ArrayPtr.Get.
  eapply wp_bind, wp_bind, wp_rd; [done|]. cbv beta.
  eapply wp_bind, wp_rd; [done|]. cbv beta. rewrite Z.eqb_refl.
  eapply wp_bind, wp_bind, wp_rd; [done|]. cbv beta. apply wp_ret.
  eapply wp_bind, wp_bind, wp_rd; [done|]. cbv beta.
  eapply wp_bind, wp_rd; [done|]. cbv beta.
  unfold Std.equal, Std.range_length.
  destruct (ArrayPtrRep.raw_ptr_ (items_ s)) as [|b o] eqn:Hraw.
  - rewrite Hp. apply wp_ptr_add_null.
    eapply wp_bind, wp_bind, wp_rd; [done|]. cbv beta. rewrite Hraw. apply wp_ret.
    by unfold wp.
  - destruct Hp as (-> & l & Hl & Hle).
    eapply wp_ptr_add; [done|lia|].
    eapply wp_bind, wp_bind, wp_rd; [done|]. cbv beta. rewrite Hraw. apply wp_ret.
    eapply wp_bind, wp_bind, wp_ptr_diff; [done|].
    destruct (Z.ltb_spec (0 + size_ s - 0) 0); [lia|]. apply wp_ret.
    eapply wp_mono; [eapply wp_equal_n; try done; lia|].
    intros e w' ->. by apply wp_ret.
Qed.

Lemma wp_copy_n k i b nb w l l' :
  b ≠ nb → heap w !! b = Some l → heap w !! nb = Some l' → 0 ≤ i →
  i + Z.of_nat k ≤ Z.of_nat (length l) → i + Z.of_nat k ≤ Z.of_nat (length l') →
  wp (Std.copy_n k (Ptr b i) (Ptr nb i)) w
     (λ _ w', stores_in (eq nb) w w' ∧
              heap w' !! nb =
                Some (take (Z.to_nat i) l' ++ take k (drop (Z.to_nat i) l) ++
                      drop (Z.to_nat i + k) l')).
Proof.
  intros Hne. revert i w l'.
  induction k as [|k IH]; intros i w l' Hl Hl' Hi Hk Hk'; simpl.
  - apply wp_ret. split; [apply stores_in_refl|]. by rewrite Nat.add_0_r, take_drop.
  - unfold Std.copy_assign.
    destruct (lookup_lt_is_Some_2 l (Z.to_nat i)) as [x Hx]; [lia|].
    eapply wp_bind, wp_bind, wp_load; [done..|].
    eapply wp_store; [done|lia|].
    eapply wp_bind, wp_ptr_add; [simpl; by rewrite lookup_insert_ne|lia|].
    eapply wp_bind, wp_ptr_add; [simpl; by rewrite lookup_insert_eq| |].
    { rewrite length_insert. lia. }
    eapply wp_mono.
    { eapply (IH (i + 1)); [simpl; by rewrite lookup_insert_ne|
                            simpl; by rewrite lookup_insert_eq|lia|lia|].
      rewrite length_insert. lia. }
    intros ? w' [Hst Hh]. cbv beta in *. split.
    { eapply stores_in_trans; [|done]. by apply stores_in_store. }
    rewrite Hh. f_equal.
    replace (Z.to_nat (i + 1)) with (S (Z.to_nat i)) by lia.
    rewrite (take_S_r _ _ x) by (apply list_lookup_insert_eq; lia).
    rewrite take_insert_ge by lia. rewrite drop_insert_lt by lia.
    rewrite <-app_assoc. simpl.
    replace (Z.to_nat i + S k)%nat with (S (Z.to_nat i + k)) by lia.
    by rewrite (drop_S l x (Z.to_nat i)).
Qed.

Lemma wp_ctor_copy other w s xs :
  wf_world w → objs w !! other = Some s → elements w other = Some xs →
  wp (SimpleVector.ctor_copy other) w
     (λ tmp w', tmp = next_loc w ∧
        ∃ it, objs w' = <[tmp := BuildSV (size_ s) (capacity_ s) it]> (objs w) ∧
              (∀ b l, heap w !! b = Some l → heap w' !! b = Some l) ∧
              match ArrayPtrRep.raw_ptr_ it with
              | Null => xs = []
              | Ptr nb o => o = 0 ∧ heap w !! nb = None ∧ heap w' !! nb = Some xs
              end).
Proof.
  intros Hwf Hs (s' & Hs' & Hlen & Hp)%elements_Some. simplify_eq.
  pose proof (wf_size_bound _ _ _ Hwf Hs) as Hb.
  pose proof (wf_obj_lt _ _ _ Hwf Hs) as Hlt.
  pose proof max_alloc_range as Hrange.
  unfold SimpleVector.ctor_copy, SimpleVector.GetSize, SimpleVector.GetCapacity,
    SimpleVector.begin_, SimpleVector.end_, ArrayPtr.Get, ArrayPtr.from_size.
  eapply wp_bind, wp_rd; [done|]. cbv beta.
  eapply wp_bind, wp_rd; [done|]. cbv beta.
  eapply wp_bind, wp_rd; [done|]. cbv beta.
  destruct (Z.eqb_spec (size_ s) 0) as [Hz|Hnz].
  - (* nothing to copy and no array *)
    assert (xs = []) as -> by (apply length_zero_iff_nil; lia).
    apply wp_bind, wp_ret, wp_bind, wp_new_obj.
    eapply wp_bind, wp_bind, wp_rd; [simpl; by rewrite lookup_insert_ne by lia|].
    cbv beta. apply wp_ret.
    eapply wp_bind, wp_bind, wp_rd; [simpl; by rewrite lookup_insert_ne by lia|].
    eapply wp_bind, wp_rd; [simpl; by rewrite lookup_insert_ne by lia|]. cbv beta.
    unfold Std.copy, Std.range_length. rewrite Hz.
    destruct (ArrayPtrRep.raw_ptr_ (items_ s)) as [|b o] eqn:Hraw.
    + apply wp_ptr_add_null.
      eapply wp_bind, wp_bind, wp_rd; [simpl; by rewrite lookup_insert_eq|].
      apply wp_ret. simpl.
      apply wp_bind, wp_bind, wp_bind, wp_ptr_diff_null. simpl.
      apply wp_ret, wp_ret, wp_ret. split; [done|]. by eexists.
    + destruct Hp as (-> & l & Hl & _ & Hle).
      eapply wp_ptr_add; [simpl; done|lia|].
      eapply wp_bind, wp_bind, wp_rd; [simpl; by rewrite lookup_insert_eq|].
      apply wp_ret. simpl.
      eapply wp_bind, wp_bind, wp_bind, wp_ptr_diff; [simpl; done|]. simpl.
      apply wp_ret, wp_ret, wp_ret. split; [done|]. by eexists.
  - (* a new array of [size_] cells, filled from the old one *)
    destruct (ArrayPtrRep.raw_ptr_ (items_ s)) as [|b o] eqn:Hraw.
    { subst xs. simpl in *. lia. }
    destruct Hp as (-> & l & Hl & Hxs & Hle).
    assert (b ≠ next_block w) as Hbn.
    { intros ->. rewrite (wf_fresh_block _ Hwf) in Hl; [done|lia]. }
    apply wp_bind, wp_bind, wp_new_array; [pose proof (wf_alloc _ Hwf _ _ Hl); lia|].
    apply wp_ret, wp_bind, wp_new_obj.
    eapply wp_bind, wp_bind, wp_rd; [simpl; by rewrite lookup_insert_ne by lia|].
    cbv beta. apply wp_ret. rewrite Hraw.
    eapply wp_bind, wp_bind, wp_rd; [simpl; by rewrite lookup_insert_ne by lia|].
    eapply wp_bind, wp_rd; [simpl; by rewrite lookup_insert_ne by lia|]. cbv beta.
    rewrite Hraw.
    eapply wp_ptr_add; [simpl; by rewrite lookup_insert_ne|lia|].
    eapply wp_bind, wp_bind, wp_rd; [simpl; by rewrite lookup_insert_eq|].
    apply wp_ret. simpl.
    unfold Std.copy, Std.range_length.
    eapply wp_bind, wp_bind, wp_bind, wp_ptr_diff; [simpl; by rewrite lookup_insert_ne|].
    destruct (Z.ltb_spec (0 + size_ s - 0) 0); [lia|]. apply wp_ret.
    eapply wp_mono.
    { eapply (wp_copy_n _ 0 b (next_block w) _ l); try done.
      - simpl. by rewrite lookup_insert_ne.
      - simpl. by rewrite lookup_insert_eq.
      - lia.
      - rewrite length_replicate. lia. }
    intros ? w' [Hst Hh]. cbv beta in *. apply wp_ret. split; [done|].
    pose proof Hst as (Ho & _ & _ & _ & Hfr).
    eexists. split; [by rewrite Ho|]. simpl. split.
    + intros b' l0 Hl0. rewrite Hfr; simpl.
      * rewrite lookup_insert_ne; [done|]. intros <-.
        rewrite (wf_fresh_block _ Hwf) in Hl0; [done|lia].
      * intros <-. rewrite (wf_fresh_block _ Hwf) in Hl0; [done|lia].
    + split; [done|]. split; [apply (wf_fresh_block _ Hwf); lia|].
      rewrite Hh. f_equal. simpl.
      replace (0 + size_ s - 0) with (size_ s) by lia.
      change (Z.to_nat 0) with O. rewrite drop_0.
      rewrite (drop_ge (replicate _ _)) by (rewrite length_replicate; lia).
      by rewrite app_nil_r, Hxs.
Qed.

Lemma elements_at w this s it xs :
  objs w !! this = Some (BuildSV (size_ s) (capacity_ s) it) →
  size_ s = Z.of_nat (length xs) →
  match ArrayPtrRep.raw_ptr_ it with
  | Null => xs = []
  | Ptr nb o => o = 0 ∧ heap w !! nb = Some xs
  end →
  elements w this = Some xs.
Proof.
  intros Hs Hlen Hit. unfold elements. rewrite Hs. simpl.
  destruct (ArrayPtrRep.raw_ptr_ it) as [|nb o].
  - subst xs. simpl in Hlen. by rewrite Hlen.
  - destruct Hit as (-> & ->). simpl.
    destruct (Z.leb_spec 0 (size_ s)); [|lia].
    destruct (Z.leb_spec (size_ s) (Z.of_nat (length xs))); [|lia]. simpl.
    f_equal. apply take_ge. lia.
Qed.

(** assigning a vector to itself, by copy or by move, leaves [size_],
    [capacity_] and the elements what they were, whatever the guard of the
    assignment answers *)
Lemma self_assignment_fields (w : world) (this : loc)
    (s : SimpleVectorRep) (xs : list T) :
  wf_world w → objs w !! this = Some s → elements w this = Some xs →
  (∃ w', SimpleVector.assign_copy this this w = Ok this w' ∧
         SimpleVector.GetSize this w' = Ok (size_ s) w' ∧
         SimpleVector.GetCapacity this w' = Ok (capacity_ s) w' ∧
         elements w' this = Some xs) ∧
  (∃ w', SimpleVector.assign_move this this w = Ok this w' ∧
         SimpleVector.GetSize this w' = Ok (size_ s) w' ∧
         SimpleVector.GetCapacity this w' = Ok (capacity_ s) w' ∧
         elements w' this = Some xs).
Proof.
  intros Hwf Hs Hel.
  pose proof (wf_obj_lt _ _ _ Hwf Hs) as Hlt.
  pose proof Hel as (s' & Hs' & Hlen & Hp)%elements_Some. simplify_eq.
  destruct (wp_elim _ _ _ (wp_operator_ne_self this w s Hwf Hs)) as (ne & ? & Hne & ->).
  split.
  - (* by copy *)
    cut (wp (SimpleVector.assign_copy this this) w (λ r w',
           r = this ∧ ∃ it, objs w' !! this = Some (BuildSV (size_ s) (capacity_ s) it) ∧
                            elements w' this = Some xs)).
    { intros (r & w' & Heq & -> & it & Hs' & Hel')%wp_elim. exists w'.
      rewrite (GetSize_ok _ _ _ Hs'), (GetCapacity_ok _ _ _ Hs'). done. }
    unfold SimpleVector.assign_copy.
    eapply wp_bind, wp_intro; [exact Hne|].
    destruct ne.
    2:{ apply wp_bind, wp_ret, wp_ret. split; [done|]. exists (items_ s).
        by destruct s. }
    eapply wp_bind, wp_bind, wp_mono; [by apply (wp_ctor_copy this w s xs)|].
    intros tmp w1 (-> & it & Ho1 & Hfr1 & Hit).
    eapply wp_bind, wp_swap.
    { rewrite Ho1. by rewrite lookup_insert_ne by lia. }
    { rewrite Ho1. by rewrite lookup_insert_eq. }
    unfold SimpleVector.dtor, ArrayPtr.dtor.
    eapply wp_bind, wp_rd; [simpl; by rewrite lookup_insert_eq|].
    assert (∀ (h : gmap block (list T)),
              match ArrayPtrRep.raw_ptr_ it with
              | Null => xs = []
              | Ptr nb o => o = 0 ∧ h !! nb = Some xs
              end →
              wp (del_obj (next_loc w))
                 (set_heap h (set_objs (<[next_loc w := s]>
                    (<[this := BuildSV (size_ s) (capacity_ s) it]> (objs w1))) w1))
                 (λ _ w2, wp (ret tt) w2 (λ _ w', wp (ret this) w' (λ r w',
                    r = this ∧ ∃ it, objs w' !! this =
                                       Some (BuildSV (size_ s) (capacity_ s) it) ∧
                                     elements w' this = Some xs)))) as Hfinish.
    { intros h Hh. eapply wp_del_obj; [simpl; by rewrite lookup_insert_eq|].
      apply wp_ret, wp_ret. split; [done|]. exists it.
      assert (objs (set_objs (delete (next_loc w)
                 (objs (set_heap h (set_objs (<[next_loc w := s]>
                    (<[this := BuildSV (size_ s) (capacity_ s) it]> (objs w1))) w1))))
                 (set_heap h (set_objs (<[next_loc w := s]>
                    (<[this := BuildSV (size_ s) (capacity_ s) it]> (objs w1))) w1)))
                !! this = Some (BuildSV (size_ s) (capacity_ s) it)) as Hs2.
      { simpl. rewrite lookup_delete_ne by lia.
        rewrite lookup_insert_ne by lia. by rewrite lookup_insert_eq. }
      split; [done|]. by eapply elements_at. }
    simpl. destruct (ArrayPtrRep.raw_ptr_ (items_ s)) as [|b o] eqn:Hraw.
    + apply wp_bind, wp_delete_array_null.
      replace (set_objs (<[next_loc w := s]>
                 (<[this := BuildSV (size_ s) (capacity_ s) it]> (objs w1))) w1)
        with (set_heap (heap w1) (set_objs (<[next_loc w := s]>
                 (<[this := BuildSV (size_ s) (capacity_ s) it]> (objs w1))) w1))
        by done.
      apply Hfinish. destruct (ArrayPtrRep.raw_ptr_ it); [done|]. by destruct Hit as (?&?&?).
    + destruct Hp as (-> & l & Hl & Hxs & Hle).
      eapply wp_bind, wp_delete_array; [simpl; by apply Hfr1|].
      apply Hfinish. destruct (ArrayPtrRep.raw_ptr_ it) as [|nb o]; [done|].
      destruct Hit as (-> & Hnone & Hsome). split; [done|]. simpl.
      rewrite lookup_delete_ne; [done|]. intros <-. by rewrite Hl in Hnone.
  - (* by move *)
    cut (wp (SimpleVector.assign_move this this) w (λ r w',
           r = this ∧ objs w' !! this = Some s ∧ heap w' = heap w)).
    { intros (r & w' & Heq & -> & Hs' & Hh')%wp_elim. exists w'.
      rewrite (GetSize_ok _ _ _ Hs'), (GetCapacity_ok _ _ _ Hs').
      split_and!; try done. unfold elements in *. rewrite Hs', Hh'. by rewrite Hs in Hel. }
    unfold SimpleVector.assign_move.
    eapply wp_bind, wp_intro; [exact Hne|].
    destruct ne; [|by apply wp_bind, wp_ret, wp_ret].
    unfold SimpleVector.ctor_move, ArrayPtr.move_ctor.
    eapply wp_bind, wp_bind, wp_bind, wp_rd; [done|]. cbv beta.
    eapply wp_bind, wp_wr_size_; [done|].
    eapply wp_bind, wp_rd; [simpl; by rewrite lookup_insert_eq|]. simpl.
    eapply wp_bind, wp_wr_capacity_; [simpl; by rewrite lookup_insert_eq|]. simpl.
    eapply wp_bind, wp_rd; [simpl; by rewrite lookup_insert_eq|]. simpl.
    eapply wp_bind, wp_wr_items_; [simpl; by rewrite lookup_insert_eq|]. simpl.
    apply wp_new_obj. simpl.
    eapply wp_bind, wp_swap.
    { simpl. rewrite lookup_insert_ne by lia. by rewrite lookup_insert_eq. }
    { simpl. by rewrite lookup_insert_eq. }
    unfold SimpleVector.dtor, ArrayPtr.dtor.
    eapply wp_bind, wp_rd; [simpl; by rewrite lookup_insert_eq|]. simpl.
    apply wp_bind, wp_delete_array_null.
    eapply wp_del_obj; [simpl; by rewrite lookup_insert_eq|]. simpl.
    apply wp_ret. split; [done|]. split; [|done]. simpl.
    rewrite lookup_delete_ne by lia. rewrite lookup_insert_ne by lia.
    rewrite lookup_insert_eq. by destruct s as [? ? []].
Qed.

Lemma reachable_world_after c w :
  reachable w → well_typed c → reachable (world_after (run c) w).
Proof.
  intros Hw Hc. unfold world_after. destruct (run c w) as [[] w'|e w'| |] eqn:Hrun.
  - by eapply reachable_return.
  - by eapply reachable_throw.
  - done.
  - done.
Qed.

Lemma reachable_run_all cs w :
  reachable w → Forall well_typed cs → reachable (run_all cs w).
Proof.
  intros Hw Hcs. revert w Hw. induction Hcs as [|c cs Hc _ IH]; intros w Hw; simpl.
  - done.
  - apply IH. by apply reachable_world_after.
Qed.

(** a run that returns, as an equation *)
Lemma wp_intro_eq {A} (m : M A) w a w' :
  wp m w (λ r w'', r = a ∧ w'' = w') → m w = Ok a w'.
Proof. intros (r & w'' & Heq & -> & ->)%wp_elim. done. Qed.

(** ** Runs with the state they leave

    The lemmas from here on give the state a run leaves as a term: the
    array of one block replaced, the fields of one object replaced. *)

Lemma set_heap_id w : set_heap (heap w) w = w.
Proof. by destruct w. Qed.

Lemma set_heap_insert_id w b l : heap w !! b = Some l → set_heap (<[b := l]> (heap w)) w = w.
Proof. intros Hl. rewrite insert_id by done. apply set_heap_id. Qed.

Lemma set_heap_twice w b l1 l2 :
  set_heap (<[b := l2]> (heap (set_heap (<[b := l1]> (heap w)) w)))
           (set_heap (<[b := l1]> (heap w)) w)
  = set_heap (<[b := l2]> (heap w)) w.
Proof. unfold set_heap. simpl. by rewrite insert_insert_eq. Qed.

(** writing [v :: vs] from cell [i] on is writing [v] to cell [i] and [vs]
    from cell [i + 1] on *)
Lemma splice_cons (l : list T) i v vs :
  (i < length l)%nat →
  take (S i) (<[i := v]> l) ++ vs ++ drop (S i + length vs) (<[i := v]> l)
  = take i l ++ (v :: vs) ++ drop (i + S (length vs)) l.
Proof.
  intros Hi. rewrite (take_S_r _ _ v) by (by apply list_lookup_insert_eq).
  rewrite take_insert_ge by lia. rewrite drop_insert_lt by lia.
  rewrite <-app_assoc. simpl. by replace (i + S (length vs))%nat with (S (i + length vs)) by lia.
Qed.

Lemma splice_nil (l : list T) i : take i l ++ [] ++ drop (i + 0) l = l.
Proof. simpl. by rewrite Nat.add_0_r, take_drop. Qed.

Lemma length_splice (l vs : list T) i :
  (i + length vs ≤ length l)%nat →
  length (take i l ++ vs ++ drop (i + length vs) l) = length l.
Proof. intros. rewrite !length_app, length_take, length_drop. lia. Qed.

(** [std::copy] from an initializer list *)
Lemma wp_copy_init init b i l w :
  heap w !! b = Some l → 0 ≤ i → i + Z.of_nat (length init) ≤ Z.of_nat (length l) →
  wp (Std.copy_init init (Ptr b i)) w
     (λ r w', r = Ptr b (i + Z.of_nat (length init)) ∧
              w' = set_heap (<[b := take (Z.to_nat i) l ++ init ++
                                     drop (Z.to_nat i + length init) l]> (heap w)) w).
Proof.
  revert i l w. induction init as [|v init IH]; intros i l w Hl Hi Hlen; simpl in *.
  - apply wp_ret. rewrite Z.add_0_r. split; [done|].
    change (take (Z.to_nat i) l ++ drop (Z.to_nat i + 0) l)
      with (take (Z.to_nat i) l ++ [] ++ drop (Z.to_nat i + 0) l).
    by rewrite splice_nil, set_heap_insert_id.
  - eapply wp_bind, wp_store; [done|lia|].
    eapply wp_bind, wp_ptr_add; [simpl; by rewrite lookup_insert_eq| |].
    { rewrite length_insert. lia. }
    eapply wp_mono.
    { eapply (IH (i + 1)); [simpl; by rewrite lookup_insert_eq|lia|].
      rewrite length_insert. lia. }
    intros r w' [-> ->]. cbv beta. split; [f_equal; lia|].
    rewrite set_heap_twice. do 2 f_equal.
    replace (Z.to_nat (i + 1)) with (S (Z.to_nat i)) by lia.
    apply splice_cons. lia.
Qed.

(** [std::generate] with a generator that returns [v] *)
Lemma wp_generate_n_run n b i l v w :
  heap w !! b = Some l → 0 ≤ i → i + Z.of_nat n ≤ Z.of_nat (length l) →
  wp (Std.generate_n n (Ptr b i) (ret v)) w
     (λ _ w', w' = set_heap (<[b := take (Z.to_nat i) l ++ replicate n v ++
                                     drop (Z.to_nat i + n) l]> (heap w)) w).
Proof.
  revert i l w. induction n as [|n IH]; intros i l w Hl Hi Hlen; simpl.
  - apply wp_ret. rewrite Nat.add_0_r, take_drop. by rewrite set_heap_insert_id.
  - apply wp_bind, wp_ret. eapply wp_bind, wp_store; [done|lia|].
    eapply wp_bind, wp_ptr_add; [simpl; by rewrite lookup_insert_eq| |].
    { rewrite length_insert. lia. }
    eapply wp_mono.
    { eapply (IH (i + 1)); [simpl; by rewrite lookup_insert_eq|lia|].
      rewrite length_insert. lia. }
    intros r w' ->. cbv beta. rewrite set_heap_twice. do 2 f_equal.
    replace (Z.to_nat (i + 1)) with (S (Z.to_nat i)) by lia.
    pose proof (splice_cons l (Z.to_nat i) v (replicate n v)) as Hsp.
    rewrite length_replicate in Hsp. apply Hsp. lia.
Qed.

(** [std::fill] with a value that lies in another array *)
Lemma wp_fill_n_run n b i l bv ov lv v w :
  b ≠ bv → heap w !! b = Some l → heap w !! bv = Some lv →
  0 ≤ ov → lv !! Z.to_nat ov = Some v →
  0 ≤ i → i + Z.of_nat n ≤ Z.of_nat (length l) →
  wp (Std.fill_n n (Ptr b i) (Ptr bv ov)) w
     (λ _ w', w' = set_heap (<[b := take (Z.to_nat i) l ++ replicate n v ++
                                     drop (Z.to_nat i + n) l]> (heap w)) w).
Proof.
  intros Hne. revert i l w.
  induction n as [|n IH]; intros i l w Hl Hlv Hov Hv Hi Hlen; simpl.
  - apply wp_ret. rewrite Nat.add_0_r, take_drop. by rewrite set_heap_insert_id.
  - unfold Std.copy_assign.
    eapply wp_bind, wp_bind, wp_load; [done..|].
    eapply wp_store; [done|lia|].
    eapply wp_bind, wp_ptr_add; [simpl; by rewrite lookup_insert_eq| |].
    { rewrite length_insert. lia. }
    eapply wp_mono.
    { eapply (IH (i + 1)); [simpl; by rewrite lookup_insert_eq|
                            simpl; by rewrite lookup_insert_ne|done|done|lia|].
      rewrite length_insert. lia. }
    intros r w' ->. cbv beta. rewrite set_heap_twice. do 2 f_equal.
    replace (Z.to_nat (i + 1)) with (S (Z.to_nat i)) by lia.
    pose proof (splice_cons l (Z.to_nat i) v (replicate n v)) as Hsp.
    rewrite length_replicate in Hsp. apply Hsp. lia.
Qed.

Lemma begin_run this w s :
  objs w !! this = Some s →
  SimpleVector.begin_ this w = Ok (ArrayPtrRep.raw_ptr_ (items_ s)) w.
Proof.
  intros Hs. unfold SimpleVector.begin_, ArrayPtr.Get.
  unfold bind. by rewrite (rd_ok _ _ _ _ Hs).
Qed.

(** ** The constructors *)

Lemma elements_intro w this s b l :
  objs w !! this = Some s → ArrayPtrRep.raw_ptr_ (items_ s) = Ptr b 0 →
  heap w !! b = Some l → 0 ≤ size_ s ≤ Z.of_nat (length l) →
  elements w this = Some (take (Z.to_nat (size_ s)) l).
Proof.
  intros Hs Hraw Hl Hsz. unfold elements. rewrite Hs, Hraw, Hl. simpl.
  destruct (Z.leb_spec 0 (size_ s)); [|lia].
  by destruct (Z.leb_spec (size_ s) (Z.of_nat (length l))); [|lia].
Qed.

Lemma elements_null w this s :
  objs w !! this = Some s → ArrayPtrRep.raw_ptr_ (items_ s) = Null → size_ s = 0 →
  elements w this = Some [].
Proof. intros Hs Hraw Hsz. unfold elements. by rewrite Hs, Hraw, Hsz. Qed.

(** a vector keeps its elements when its fields and its array stay *)
Lemma elements_frame w w' o :
  objs w' !! o = objs w !! o →
  (∀ b, owns w o b → heap w' !! b = heap w !! b) →
  elements w' o = elements w o.
Proof.
  intros Ho Hh. unfold elements. rewrite Ho.
  destruct (objs w !! o) as [s|] eqn:Hs; [|done].
  destruct (ArrayPtrRep.raw_ptr_ (items_ s)) as [|b x] eqn:Hraw; [done|].
  rewrite (Hh b); [done|]. by exists s, x.
Qed.

(** the other vectors, after a constructor took a new array and a new
    object *)
Lemma elements_new_vec w l s o :
  wf_world w → o ≠ next_loc w →
  elements (World (<[next_block w := l]> (heap w)) (S (next_block w))
                  (<[next_loc w := s]> (objs w)) (S (next_loc w))) o
  = elements w o.
Proof.
  intros Hwf Ho. apply elements_frame; simpl.
  - by rewrite lookup_insert_ne.
  - intros b Hb. rewrite lookup_insert_ne; [done|].
    intros <-. pose proof (wf_owns_lt _ _ _ Hwf Hb). lia.
Qed.

Lemma elements_new_obj w s o :
  o ≠ next_loc w →
  elements (World (heap w) (next_block w) (<[next_loc w := s]> (objs w)) (S (next_loc w))) o
  = elements w o.
Proof. intros Ho. apply elements_frame; simpl; [by rewrite lookup_insert_ne|done]. Qed.

Lemma backed_intro w this s b x l :
  objs w !! this = Some s → ArrayPtrRep.raw_ptr_ (items_ s) = Ptr b x →
  heap w !! b = Some l → capacity_ s ≤ Z.of_nat (length l) → backed w this.
Proof. intros Hs Hraw Hl Hc. exists s. split; [done|]. rewrite Hraw. by exists l. Qed.

Lemma backed_null w this s :
  objs w !! this = Some s → ArrayPtrRep.raw_ptr_ (items_ s) = Null → capacity_ s = 0 →
  backed w this.
Proof. intros Hs Hraw Hc. exists s. split; [done|]. by rewrite Hraw. Qed.

(** X1.  [SimpleVector(std::initializer_list<Type> init)] builds a new
    vector whose elements are those of the list, in order, with size and
    capacity the length of the list; an array of that length stands behind
    it; the vectors there were keep their elements.  A list too long to
    allocate makes it throw [bad_alloc] and leaves the state as it was. *)
Theorem ctor_init_list_elements (w : world) (init : list T) :
  wf_world w →
  (Z.of_nat (length init) ≤ max_alloc →
   ∃ this w',
     SimpleVector.ctor_init_list init w = Ok this w' ∧
     objs w !! this = None ∧
     elements w' this = Some init ∧
     SimpleVector.GetSize this w' = Ok (Z.of_nat (length init)) w' ∧
     SimpleVector.GetCapacity this w' = Ok (Z.of_nat (length init)) w' ∧
     backed w' this ∧
     ∀ o, o ≠ this → elements w' o = elements w o) ∧
  (max_alloc < Z.of_nat (length init) →
   SimpleVector.ctor_init_list init w = Throw bad_alloc w).
Proof.
  intros Hwf. split.
  - intros Hlen.
    cut (wp (SimpleVector.ctor_init_list init) w (λ this w',
           this = next_loc w ∧
           (∃ it, objs w' !! this =
                    Some (BuildSV (Z.of_nat (length init)) (Z.of_nat (length init)) it)) ∧
           elements w' this = Some init ∧ backed w' this ∧
           ∀ o, o ≠ this → elements w' o = elements w o)).
    { intros (this & w' & Heq & -> & [it Hs] & Hel & Hb & Hfr)%wp_elim.
      exists (next_loc w), w'. split_and!; try done.
      - apply (wf_fresh_loc _ Hwf). lia.
      - by rewrite (GetSize_ok _ _ _ Hs).
      - by rewrite (GetCapacity_ok _ _ _ Hs). }
    unfold SimpleVector.ctor_init_list, ArrayPtr.from_size, SimpleVector.begin_,
      ArrayPtr.Get.
    destruct (Z.eqb_spec (Z.of_nat (length init)) 0) as [Hz|Hnz].
    + assert (init = []) as -> by (apply length_zero_iff_nil; lia). simpl.
      apply wp_bind, wp_ret, wp_bind, wp_new_obj.
      eapply wp_bind, wp_bind, wp_rd; [simpl; by rewrite lookup_insert_eq|].
      simpl. apply wp_ret, wp_bind, wp_ret, wp_ret.
      split; [done|]. split; [eexists; simpl; by rewrite lookup_insert_eq|].
      split; [|split].
      * eapply elements_null; simpl; [by rewrite lookup_insert_eq|done..].
      * eapply backed_null; simpl; [by rewrite lookup_insert_eq|done..].
      * intros o Ho. by apply elements_new_obj.
    + apply wp_bind, wp_bind, wp_new_array; [done|].
      apply wp_ret, wp_bind, wp_new_obj.
      eapply wp_bind, wp_bind, wp_rd; [simpl; by rewrite lookup_insert_eq|].
      simpl. apply wp_ret.
      eapply wp_bind, wp_mono.
      { eapply (wp_copy_init init _ 0); [simpl; by rewrite lookup_insert_eq|lia|].
        rewrite length_replicate. lia. }
      intros r w' [-> ->]. cbv beta. apply wp_ret. simpl.
      rewrite insert_insert_eq.
      rewrite (drop_ge (replicate _ _)) by (rewrite length_replicate; lia).
      rewrite app_nil_r.
      split; [done|]. split; [eexists; simpl; by rewrite lookup_insert_eq|].
      split; [|split].
      * rewrite (elements_intro _ _ _ (next_block w) init (lookup_insert_eq _ _ _));
          simpl; [|done|by rewrite lookup_insert_eq|lia].
        f_equal. apply take_ge. lia.
      * eapply backed_intro; simpl;
          [by rewrite lookup_insert_eq|done|by rewrite lookup_insert_eq|simpl; lia].
      * intros o Ho. by apply elements_new_vec.
  - intros Hlen. unfold SimpleVector.ctor_init_list, ArrayPtr.from_size, bind, new_array.
    destruct (Z.eqb_spec (Z.of_nat (length init)) 0) as [Hz|Hnz].
    { pose proof max_alloc_range. lia. }
    by destruct (Z.ltb_spec max_alloc (Z.of_nat (length init))); [|lia].
Qed.

(** what the three constructors that take a size leave: a new object with
    a new array of [n] cells that holds [xs] *)
Lemma new_vec_post w n xs :
  wf_world w → Z.of_nat (length xs) = n →
  let this := next_loc w in
  let w' := World (<[next_block w := xs]> (heap w)) (S (next_block w))
              (<[this := BuildSV n n (ArrayPtrRep.Build (Ptr (next_block w) 0))]> (objs w))
              (S this) in
  objs w !! this = None ∧
  elements w' this = Some xs ∧
  SimpleVector.GetSize this w' = Ok n w' ∧
  SimpleVector.GetCapacity this w' = Ok n w' ∧
  backed w' this ∧
  ∀ o, o ≠ this → elements w' o = elements w o.
Proof.
  intros Hwf Hn this w'.
  assert (objs w' !! this = Some (BuildSV n n (ArrayPtrRep.Build (Ptr (next_block w) 0))))
    as Hs by (simpl; by rewrite lookup_insert_eq).
  assert (heap w' !! next_block w = Some xs) as Hl by (simpl; by rewrite lookup_insert_eq).
  split_and!.
  - apply (wf_fresh_loc _ Hwf). lia.
  - rewrite (elements_intro _ _ _ _ _ Hs eq_refl Hl) by (simpl; lia).
    simpl. f_equal. apply take_ge. lia.
  - by rewrite (GetSize_ok _ _ _ Hs).
  - by rewrite (GetCapacity_ok _ _ _ Hs).
  - eapply backed_intro; [done..|simpl; lia].
  - intros o Ho. by apply elements_new_vec.
Qed.

Lemma new_empty_vec_post w :
  wf_world w →
  let this := next_loc w in
  let w' := World (heap w) (next_block w)
              (<[this := BuildSV 0 0 (ArrayPtrRep.Build Null)]> (objs w)) (S this) in
  objs w !! this = None ∧
  elements w' this = Some [] ∧
  SimpleVector.GetSize this w' = Ok 0 w' ∧
  SimpleVector.GetCapacity this w' = Ok 0 w' ∧
  backed w' this ∧
  ∀ o, o ≠ this → elements w' o = elements w o.
Proof.
  intros Hwf this w'.
  assert (objs w' !! this = Some (BuildSV 0 0 (ArrayPtrRep.Build Null)))
    as Hs by (simpl; by rewrite lookup_insert_eq).
  split_and!.
  - apply (wf_fresh_loc _ Hwf). lia.
  - by eapply elements_null.
  - by rewrite (GetSize_ok _ _ _ Hs).
  - by rewrite (GetCapacity_ok _ _ _ Hs).
  - by eapply backed_null.
  - intros o Ho. by apply elements_new_obj.
Qed.

(** X2.  [SimpleVector(size_t size)] builds a new vector of [size]
    elements, each [Type{}], with capacity [size]; the vectors there were
    keep their elements.  A size too large to allocate makes it throw
    [bad_alloc] and leaves the state as it was. *)
Theorem ctor_size_elements (w : world) (size : Z) :
  wf_world w → 0 ≤ size →
  (size ≤ max_alloc →
   ∃ this w',
     SimpleVector.ctor_size size w = Ok this w' ∧
     objs w !! this = None ∧
     elements w' this = Some (replicate (Z.to_nat size) value_init) ∧
     SimpleVector.GetSize this w' = Ok size w' ∧
     SimpleVector.GetCapacity this w' = Ok size w' ∧
     backed w' this ∧
     ∀ o, o ≠ this → elements w' o = elements w o) ∧
  (max_alloc < size → SimpleVector.ctor_size size w = Throw bad_alloc w).
Proof.
  intros Hwf Hsize. split.
  - intros Hlen.
    unfold SimpleVector.ctor_size, ArrayPtr.from_size, ArrayPtr.Get.
    destruct (Z.eqb_spec size 0) as [->|Hnz].
    + exists (next_loc w). eexists. split; [|by apply new_empty_vec_post].
      apply wp_intro_eq.
      apply wp_bind, wp_ret, wp_bind, wp_new_obj.
      eapply wp_bind, wp_rd; [simpl; by rewrite lookup_insert_eq|]. simpl.
      apply wp_bind, wp_ptr_add_null. unfold Std.generate, Std.range_length.
      apply wp_bind, wp_bind, wp_bind, wp_ptr_diff_null. simpl.
      by apply wp_ret, wp_ret, wp_ret.
    + exists (next_loc w). eexists. split;
        [|apply (new_vec_post w size (replicate (Z.to_nat size) value_init) Hwf);
          rewrite length_replicate; lia].
      apply wp_intro_eq.
      apply wp_bind, wp_bind, wp_new_array; [done|].
      apply wp_ret, wp_bind, wp_new_obj.
      eapply wp_bind, wp_rd; [simpl; by rewrite lookup_insert_eq|]. simpl.
      eapply wp_bind, wp_ptr_add; [simpl; by rewrite lookup_insert_eq| |].
      { rewrite length_replicate. lia. }
      unfold Std.generate, Std.range_length.
      eapply wp_bind, wp_bind, wp_bind, wp_ptr_diff; [simpl; by rewrite lookup_insert_eq|].
      destruct (Z.ltb_spec (0 + size - 0) 0); [lia|]. apply wp_ret.
      eapply wp_mono.
      { eapply (wp_generate_n_run _ _ 0); [simpl; by rewrite lookup_insert_eq|lia|].
        rewrite length_replicate. lia. }
      intros r w' ->. cbv beta. apply wp_ret. split; [done|].
      unfold set_heap. simpl. rewrite insert_insert_eq.
      rewrite (drop_ge (replicate _ default_init)) by (rewrite length_replicate; lia).
      rewrite app_nil_r. by replace (0 + size - 0) with size by lia.
  - intros Hlen. unfold SimpleVector.ctor_size, ArrayPtr.from_size, bind, new_array.
    destruct (Z.eqb_spec size 0) as [Hz|Hnz].
    { pose proof max_alloc_range. lia. }
    by destruct (Z.ltb_spec max_alloc size); [|lia].
Qed.

(** X3.  [SimpleVector(size_t size, const Type& value)] builds a new
    vector of [size] elements, each a copy of [value], with capacity
    [size]; [value] and the vectors there were stay as they are.  A size
    too large to allocate makes it throw [bad_alloc] and leaves the state
    as it was. *)
Theorem ctor_size_value_elements (w : world) (size : Z) (value : pointer) (v : T) :
  wf_world w → 0 ≤ size → client_holds w value v →
  (size ≤ max_alloc →
   ∃ this w',
     SimpleVector.ctor_size_value size value w = Ok this w' ∧
     objs w !! this = None ∧
     elements w' this = Some (replicate (Z.to_nat size) v) ∧
     SimpleVector.GetSize this w' = Ok size w' ∧
     SimpleVector.GetCapacity this w' = Ok size w' ∧
     backed w' this ∧
     load value w' = Ok v w' ∧
     ∀ o, o ≠ this → elements w' o = elements w o) ∧
  (max_alloc < size → SimpleVector.ctor_size_value size value w = Throw bad_alloc w).
Proof.
  intros Hwf Hsize Hv. destruct value as [|bv ov]; [done|].
  destruct Hv as [(lv & Hlv & Hov & Hv) Hfree].
  assert (bv ≠ next_block w) as Hbv.
  { intros ->. rewrite (wf_fresh_block _ Hwf) in Hlv; [done|lia]. }
  split.
  - intros Hlen.
    unfold SimpleVector.ctor_size_value, ArrayPtr.from_size, SimpleVector.begin_,
      SimpleVector.end_, ArrayPtr.Get.
    destruct (Z.eqb_spec size 0) as [->|Hnz].
    + exists (next_loc w). eexists.
      split; [|destruct (new_empty_vec_post w Hwf) as (?&?&?&?&?&?); split_and!; try done].
      * apply wp_intro_eq.
        apply wp_bind, wp_ret, wp_bind, wp_new_obj.
        eapply wp_bind, wp_bind, wp_rd; [simpl; by rewrite lookup_insert_eq|]. simpl.
        apply wp_ret.
        eapply wp_bind, wp_bind, wp_rd; [simpl; by rewrite lookup_insert_eq|]. simpl.
        eapply wp_bind, wp_rd; [simpl; by rewrite lookup_insert_eq|]. simpl.
        apply wp_ptr_add_null. unfold Std.fill, Std.range_length.
        apply wp_bind, wp_bind, wp_bind, wp_ptr_diff_null. simpl.
        by apply wp_ret, wp_ret, wp_ret.
      * unfold load. simpl. rewrite Hlv.
        destruct (Z.leb_spec 0 ov); [|lia]. by rewrite Hv.
    + exists (next_loc w). eexists.
      split; [|destruct (new_vec_post w size (replicate (Z.to_nat size) v) Hwf)
                 as (?&?&?&?&?&?); [rewrite length_replicate; lia|];
               split_and!; try done].
      * apply wp_intro_eq.
        apply wp_bind, wp_bind, wp_new_array; [done|].
        apply wp_ret, wp_bind, wp_new_obj.
        eapply wp_bind, wp_bind, wp_rd; [simpl; by rewrite lookup_insert_eq|]. simpl.
        apply wp_ret.
        eapply wp_bind, wp_bind, wp_rd; [simpl; by rewrite lookup_insert_eq|]. simpl.
        eapply wp_bind, wp_rd; [simpl; by rewrite lookup_insert_eq|]. simpl.
        eapply wp_ptr_add; [simpl; by rewrite lookup_insert_eq| |].
        { rewrite length_replicate. lia. }
        unfold Std.fill, Std.range_length.
        eapply wp_bind, wp_bind, wp_bind, wp_ptr_diff; [simpl; by rewrite lookup_insert_eq|].
        destruct (Z.ltb_spec (0 + size - 0) 0); [lia|]. apply wp_ret.
        eapply wp_mono.
        { eapply (wp_fill_n_run _ (next_block w) 0 _ bv ov lv v);
            [done|simpl; by rewrite lookup_insert_eq|simpl; by rewrite lookup_insert_ne|
             done|done|lia|].
          rewrite length_replicate. lia. }
        intros r w' ->. cbv beta. apply wp_ret. split; [done|].
        unfold set_heap. simpl. rewrite insert_insert_eq.
        rewrite (drop_ge (replicate _ default_init)) by (rewrite length_replicate; lia).
        rewrite app_nil_r. by replace (0 + size - 0) with size by lia.
      * unfold load. simpl. rewrite lookup_insert_ne by done. rewrite Hlv.
        destruct (Z.leb_spec 0 ov); [|lia]. by rewrite Hv.
  - intros Hlen. unfold SimpleVector.ctor_size_value, ArrayPtr.from_size, bind, new_array.
    destruct (Z.eqb_spec size 0) as [Hz|Hnz].
    { pose proof max_alloc_range. lia. }
    by destruct (Z.ltb_spec max_alloc size); [|lia].
Qed.

(** X4.  The copy constructor builds a new vector with the elements and
    the size of the source, in an array of its own; the source and the
    other vectors keep their elements. *)
Theorem ctor_copy_elements (w : world) (other : loc) (xs : list T) :
  wf_world w → elements w other = Some xs →
  ∃ this w',
    SimpleVector.ctor_copy other w = Ok this w' ∧
    objs w !! this = None ∧
    elements w' this = Some xs ∧
    SimpleVector.GetSize this w' = Ok (Z.of_nat (length xs)) w' ∧
    (∀ b, owns w' this b → ¬ owns w' other b) ∧
    ∀ o, o ≠ this → elements w' o = elements w o.
Proof.
  intros Hwf Hel. pose proof Hel as (s & Hs & Hlen & _)%elements_Some.
  destruct (wp_elim _ _ _ (wp_ctor_copy other w s xs Hwf Hs Hel))
    as (this & w' & Heq & -> & it & Ho & Hh & Hit).
  pose proof (wf_obj_lt _ _ _ Hwf Hs) as Hlt.
  assert (objs w' !! next_loc w = Some (BuildSV (size_ s) (capacity_ s) it)) as Hs'
    by (rewrite Ho; by rewrite lookup_insert_eq).
  exists (next_loc w), w'. split_and!; [done|..].
  - apply (wf_fresh_loc _ Hwf). lia.
  - apply (elements_at w' _ s it xs Hs' Hlen).
    destruct (ArrayPtrRep.raw_ptr_ it); [done|]. by destruct Hit as (? & _ & ?).
  - rewrite (GetSize_ok _ _ _ Hs'). simpl. by rewrite Hlen.
  - intros b (s1 & x1 & Hs1 & Hraw1) Hown2.
    assert (owns w other b) as Hown.
    { destruct Hown2 as (s2 & x2 & Hs2 & Hraw2).
      rewrite Ho, lookup_insert_ne in Hs2 by lia. by exists s2, x2. }
    rewrite Hs' in Hs1. simplify_eq. simpl in *. rewrite Hraw1 in Hit.
    destruct Hit as (_ & Hnone & _).
    destruct (wf_owns_live w other b Hwf Hown) as [l Hl]. by rewrite Hl in Hnone.
  - intros o Hne. apply elements_frame.
    + rewrite Ho. by rewrite lookup_insert_ne.
    + intros b Hb. destruct (wf_owns_live w o b Hwf Hb) as [l Hl].
      by rewrite Hl, (Hh _ _ Hl).
Qed.

(** X5.  The copy constructor copies [capacity_] but allocates [size]
    cells only.  The copy of a vector with room to spare reports the
    capacity of the source, and the next [PushBack] on the copy takes the
    branch that does not reallocate and writes behind the end of the
    array: undefined behaviour. *)
Theorem ctor_copy_capacity_without_cells (w : world) (other : loc)
    (s : SimpleVectorRep) (xs : list T) (item : pointer) :
  wf_world w → objs w !! other = Some s → elements w other = Some xs →
  size_ s < capacity_ s →
  ∃ this w',
    SimpleVector.ctor_copy other w = Ok this w' ∧
    SimpleVector.GetSize this w' = Ok (size_ s) w' ∧
    SimpleVector.GetCapacity this w' = Ok (capacity_ s) w' ∧
    ¬ backed w' this ∧
    SimpleVector.PushBack_const_ref this item w' = Undefined.
Proof.
  intros Hwf Hs Hel Hroom. pose proof Hel as (s0 & Hs0 & Hlen & _)%elements_Some.
  simplify_eq.
  destruct (wp_elim _ _ _ (wp_ctor_copy other w s xs Hwf Hs Hel))
    as (this & w' & Heq & -> & it & Ho & Hh & Hit).
  pose proof (wf_size_bound _ _ _ Hwf Hs) as Hb.
  assert (objs w' !! next_loc w = Some (BuildSV (size_ s) (capacity_ s) it)) as Hs'
    by (rewrite Ho; by rewrite lookup_insert_eq).
  exists (next_loc w), w'. split_and!; [done|..].
  - by rewrite (GetSize_ok _ _ _ Hs').
  - by rewrite (GetCapacity_ok _ _ _ Hs').
  - intros (s1 & Hs1 & Hback). rewrite Hs' in Hs1. simplify_eq. simpl in *.
    destruct (ArrayPtrRep.raw_ptr_ it) as [|nb o]; [lia|].
    destruct Hit as (_ & _ & Hnb). destruct Hback as (l & Hl & Hc).
    rewrite Hnb in Hl. simplify_eq. lia.
  - set (w1 := set_objs (<[next_loc w := BuildSV (size_ s + 1) (capacity_ s) it]>
                           (objs w')) w').
    assert (SimpleVector.make_room (next_loc w) w' = Ok tt w1) as Hmk.
    { apply wp_intro_eq. unfold SimpleVector.make_room.
      eapply wp_bind, wp_rd; [done|]. eapply wp_bind, wp_rd; [done|]. simpl.
      destruct (Z.ltb_spec (size_ s) (capacity_ s)); [|lia].
      rewrite wrap_small by lia. by eapply wp_wr_size_. }
    assert (objs w1 !! next_loc w = Some (BuildSV (size_ s + 1) (capacity_ s) it)) as Hs1
      by (simpl; by rewrite lookup_insert_eq).
    unfold SimpleVector.PushBack_const_ref, bind. rewrite Hmk.
    rewrite !(rd_ok _ _ _ _ Hs1). simpl.
    replace (size_ s + 1 - 1) with (size_ s) by lia. rewrite wrap_small by lia.
    unfold ArrayPtr.index, Std.copy_assign, bind.
    destruct (ArrayPtrRep.raw_ptr_ it) as [|nb o].
    + subst xs. simpl in Hlen. rewrite Hlen. simpl.
      destruct (load item w1) as [v w2| | |] eqn:Hl; try done.
      all: unfold load in Hl; repeat case_match; by simplify_eq.
    + destruct Hit as (-> & _ & Hnb). unfold ptr_add. simpl. rewrite Hnb.
      destruct (Z.leb_spec 0 (0 + size_ s)); [|lia].
      destruct (Z.leb_spec (0 + size_ s) (Z.of_nat (length xs))); [|lia]. simpl.
      destruct (load item w1) as [v w2| | |] eqn:Hl; try done.
      2,3: unfold load in Hl; repeat case_match; by simplify_eq.
      assert (w2 = w1) as -> by (unfold load in Hl; repeat case_match; by simplify_eq).
      unfold store. simpl. rewrite Hnb.
      destruct (Z.leb_spec 0 (0 + size_ s)); [|lia].
      by destruct (Z.ltb_spec (0 + size_ s) (Z.of_nat (length xs))); [lia|].
Qed.

(** X6.  The move constructor gives the new vector the size, the capacity
    and the array of the source, with its elements, and leaves the source
    with size [0], capacity [0] and a null pointer; nothing is allocated
    and the other vectors keep their elements. *)
Theorem ctor_move_elements (w : world) (other : loc) (s : SimpleVectorRep)
    (xs : list T) :
  wf_world w → objs w !! other = Some s → elements w other = Some xs →
  ∃ this w',
    SimpleVector.ctor_move other w = Ok this w' ∧
    objs w !! this = None ∧
    heap w' = heap w ∧
    elements w' this = Some xs ∧
    SimpleVector.GetSize this w' = Ok (size_ s) w' ∧
    SimpleVector.GetCapacity this w' = Ok (capacity_ s) w' ∧
    SimpleVector.begin_ this w' = Ok (ArrayPtrRep.raw_ptr_ (items_ s)) w' ∧
    elements w' other = Some [] ∧
    SimpleVector.GetSize other w' = Ok 0 w' ∧
    SimpleVector.GetCapacity other w' = Ok 0 w' ∧
    SimpleVector.begin_ other w' = Ok Null w' ∧
    ∀ o, o ≠ this → o ≠ other → elements w' o = elements w o.
Proof.
  intros Hwf Hs Hel.
  pose proof (wf_obj_lt _ _ _ Hwf Hs) as Hlt.
  set (w' := World (heap w) (next_block w)
               (<[next_loc w := s]>
                  (<[other := BuildSV 0 0 (ArrayPtrRep.Build Null)]> (objs w)))
               (S (next_loc w))).
  assert (SimpleVector.ctor_move other w = Ok (next_loc w) w') as Heq.
  { apply wp_intro_eq. unfold SimpleVector.ctor_move, ArrayPtr.move_ctor.
    eapply wp_bind, wp_rd; [done|]. cbv beta.
    eapply wp_bind, wp_wr_size_; [done|].
    eapply wp_bind, wp_rd; [simpl; by rewrite lookup_insert_eq|]. simpl.
    eapply wp_bind, wp_wr_capacity_; [simpl; by rewrite lookup_insert_eq|]. simpl.
    eapply wp_bind, wp_rd; [simpl; by rewrite lookup_insert_eq|]. simpl.
    eapply wp_bind, wp_wr_items_; [simpl; by rewrite lookup_insert_eq|]. simpl.
    apply wp_new_obj. split; [done|]. unfold w'. rewrite !insert_insert_eq.
    by destruct s as [? ? []]. }
  assert (objs w' !! next_loc w = Some s) as Hs1
    by (simpl; by rewrite lookup_insert_eq).
  assert (objs w' !! other = Some (BuildSV 0 0 (ArrayPtrRep.Build Null))) as Hs2.
  { simpl. rewrite lookup_insert_ne by lia. by rewrite lookup_insert_eq. }
  exists (next_loc w), w'. split_and!; try done.
  - apply (wf_fresh_loc _ Hwf). lia.
  - unfold elements in *. rewrite Hs1. by rewrite Hs in Hel.
  - by rewrite (GetSize_ok _ _ _ Hs1).
  - by rewrite (GetCapacity_ok _ _ _ Hs1).
  - unfold SimpleVector.begin_, bind. by rewrite (rd_ok _ _ _ _ Hs1).
  - by eapply elements_null.
  - by rewrite (GetSize_ok _ _ _ Hs2).
  - by rewrite (GetCapacity_ok _ _ _ Hs2).
  - unfold SimpleVector.begin_, bind. by rewrite (rd_ok _ _ _ _ Hs2).
  - intros o Ho1 Ho2. apply elements_frame; [|done]. simpl.
    by rewrite !lookup_insert_ne.
Qed.

(** ** [Resize], [PushBack] and [Reserve] with the elements they leave *)

Lemma insert2_twice (h : gmap block (list T)) b nb x y x0 y0 :
  b ≠ nb →
  <[b := x]> (<[nb := y]> (<[b := x0]> (<[nb := y0]> h))) = <[b := x]> (<[nb := y]> h).
Proof.
  intros Hne. apply map_eq. intros k.
  destruct (decide (k = b)) as [->|Hb].
  { by rewrite !lookup_insert_eq. }
  destruct (decide (k = nb)) as [->|Hnb].
  { rewrite !(lookup_insert_ne _ b nb) by done. by rewrite !lookup_insert_eq. }
  by repeat (rewrite lookup_insert_ne by congruence).
Qed.

Lemma ctor_size_run n w :
  0 < n ≤ max_alloc →
  SimpleVector.ctor_size n w =
    Ok (next_loc w)
       (World (<[next_block w := replicate (Z.to_nat n) value_init]> (heap w))
              (S (next_block w))
              (<[next_loc w := BuildSV n n (ArrayPtrRep.Build (Ptr (next_block w) 0))]>
                 (objs w))
              (S (next_loc w))).
Proof.
  intros Hn. apply wp_intro_eq.
  unfold SimpleVector.ctor_size, ArrayPtr.from_size, ArrayPtr.Get.
  destruct (Z.eqb_spec n 0) as [->|_]; [lia|].
  apply wp_bind, wp_bind, wp_new_array; [lia|].
  apply wp_ret, wp_bind, wp_new_obj.
  eapply wp_bind, wp_rd; [simpl; by rewrite lookup_insert_eq|]. simpl.
  eapply wp_bind, wp_ptr_add; [simpl; by rewrite lookup_insert_eq| |].
  { rewrite length_replicate. lia. }
  unfold Std.generate, Std.range_length.
  eapply wp_bind, wp_bind, wp_bind, wp_ptr_diff; [simpl; by rewrite lookup_insert_eq|].
  destruct (Z.ltb_spec (0 + n - 0) 0); [lia|]. apply wp_ret.
  eapply wp_mono.
  { eapply (wp_generate_n_run _ _ 0); [simpl; by rewrite lookup_insert_eq|lia|].
    rewrite length_replicate. lia. }
  intros r w' ->. cbv beta. apply wp_ret. split; [done|].
  unfold set_heap. simpl. rewrite insert_insert_eq.
  rewrite (drop_ge (replicate _ default_init)) by (rewrite length_replicate; lia).
  rewrite app_nil_r. by replace (0 + n - 0) with n by lia.
Qed.

(** the loop of [Resize] that moves the elements to the new array, with
    the two arrays it leaves *)
Lemma wp_move_loop_run this tmp k i w s t b nb l l' :
  objs w !! this = Some s → objs w !! tmp = Some t →
  ArrayPtrRep.raw_ptr_ (items_ s) = Ptr b 0 →
  ArrayPtrRep.raw_ptr_ (items_ t) = Ptr nb 0 →
  b ≠ nb → heap w !! b = Some l → heap w !! nb = Some l' → 0 ≤ i →
  i + Z.of_nat k ≤ Z.of_nat (length l) → i + Z.of_nat k ≤ Z.of_nat (length l') →
  wp (Std.for_loop k i (λ i,
        it <- SimpleVector.rd items_ this ;; s <- ArrayPtr.index it i ;;
        tit <- SimpleVector.rd items_ tmp ;; d <- ArrayPtr.index tit i ;;
        Std.move_assign d s)) w
     (λ _ w', w' = set_heap
        (<[b := take (Z.to_nat i) l ++ (moved_from <$> take k (drop (Z.to_nat i) l)) ++
                drop (Z.to_nat i + k) l]>
           (<[nb := take (Z.to_nat i) l' ++ take k (drop (Z.to_nat i) l) ++
                    drop (Z.to_nat i + k) l']> (heap w))) w).
Proof.
  intros Hs Ht Hraw Hraw' Hne. revert i w l l' Hs Ht.
  induction k as [|k IH]; intros i w l l' Hs Ht Hl Hl' Hi Hk Hk'; simpl.
  - apply wp_ret. rewrite Nat.add_0_r, !take_drop.
    rewrite (insert_id _ nb l') by done. by rewrite set_heap_insert_id.
  - unfold ArrayPtr.index, Std.move_assign.
    destruct (lookup_lt_is_Some_2 l (Z.to_nat i)) as [v Hv]; [lia|].
    eapply wp_bind, wp_bind, wp_rd; [done|]. cbv beta. rewrite Hraw.
    eapply wp_bind, wp_ptr_add; [done|lia|].
    eapply wp_bind, wp_rd; [done|]. cbv beta. rewrite Hraw'.
    eapply wp_bind, wp_ptr_add; [done|lia|].
    eapply wp_bind, wp_load; [done|lia|by rewrite Z.add_0_l|].
    eapply wp_bind, wp_store; [done|lia|].
    eapply wp_store; [simpl; by rewrite lookup_insert_ne|lia|].
    rewrite !Z.add_0_l.
    eapply wp_mono.
    { eapply (IH (i + 1)); try done.
      - simpl. by rewrite lookup_insert_eq.
      - simpl. rewrite lookup_insert_ne by done. by rewrite lookup_insert_eq.
      - lia.
      - rewrite length_insert. lia.
      - rewrite length_insert. lia. }
    intros ? w' ->. cbv beta. unfold set_heap. simpl.
    rewrite insert2_twice by done. f_equal.
    replace (Z.to_nat (i + 1)) with (S (Z.to_nat i)) by lia.
    rewrite drop_insert_lt by lia.
    rewrite (drop_S l v (Z.to_nat i)) by done. simpl.
    assert (length (take k (drop (S (Z.to_nat i)) l)) = k) as Hlk
      by (rewrite length_take, length_drop; lia).
    f_equal; [|f_equal].
    + pose proof (splice_cons l (Z.to_nat i) (moved_from v)
                    (moved_from <$> take k (drop (S (Z.to_nat i)) l))) as Hsp.
      rewrite length_fmap, Hlk in Hsp. apply Hsp. lia.
    + pose proof (splice_cons l' (Z.to_nat i) v (take k (drop (S (Z.to_nat i)) l))) as Hsp.
      rewrite Hlk in Hsp. apply Hsp. lia.
Qed.

(** [Resize] to more than the capacity: the new array holds the elements
    and, from there on, [Type{}]; the old array is deleted *)
Lemma Resize_grow_run this n w s xs :
  wf_world w → objs w !! this = Some s → elements w this = Some xs →
  capacity_ s < n → Z.max (capacity_ s * 2) n ≤ max_alloc →
  ∃ w', SimpleVector.Resize this n w = Ok tt w' ∧ wf_world w' ∧
        objs w' !! this =
          Some (BuildSV n (Z.max (capacity_ s * 2) n)
                  (ArrayPtrRep.Build (Ptr (next_block w) 0))) ∧
        heap w' !! next_block w =
          Some (xs ++ replicate (Z.to_nat (Z.max (capacity_ s * 2) n - size_ s))
                        value_init) ∧
        (∀ o, o ≠ this → objs w' !! o = objs w !! o) ∧
        (∀ b, b ≠ next_block w → ¬ owns w this b → heap w' !! b = heap w !! b) ∧
        (∀ b, owns w this b → heap w' !! b = None).
Proof.
  intros Hwf Hs Hel Hn Hmax.
  pose proof Hel as (s0 & Hs0 & Hlen & Hxs)%elements_Some. simplify_eq.
  pose proof (wf_vec_of _ _ _ Hwf Hs) as [Hsz Hp].
  pose proof max_alloc_range as Hrange.
  pose proof (wf_obj_lt _ _ _ Hwf Hs) as Hlt.
  set (cap' := Z.max (capacity_ s * 2) n) in *.
  set (nb := next_block w).
  cut (wp (SimpleVector.Resize this n) w (λ _ w',
         objs w' !! this = Some (BuildSV n cap' (ArrayPtrRep.Build (Ptr nb 0))) ∧
         heap w' !! nb =
           Some (xs ++ replicate (Z.to_nat (cap' - size_ s)) value_init) ∧
         (∀ o, o ≠ this → objs w' !! o = objs w !! o) ∧
         (∀ b, b ≠ nb → ¬ owns w this b → heap w' !! b = heap w !! b) ∧
         (∀ b, owns w this b → heap w' !! b = None))).
  { intros Hwp.
    pose proof (wp_wlp _ _ _ _ _ Hwp (Resize_kept this n w Hwf ltac:(lia))) as Hboth.
    apply wp_elim in Hboth as ([] & w' & Heq & Hpost & [Hwf' _]).
    exists w'. by destruct Hpost as (? & ? & ? & ? & ?). }
  unfold SimpleVector.Resize.
  eapply wp_bind, wp_rd; [done|]. cbv beta.
  destruct (Z.eqb_spec n (size_ s)); [lia|].
  destruct (Z.ltb_spec n (size_ s)); [lia|].
  eapply wp_bind, wp_rd; [done|]. cbv beta.
  destruct (Z.leb_spec n (capacity_ s)); [lia|].
  rewrite (wrap_small (capacity_ s * 2)) by lia. fold cap'.
  eapply wp_bind, wp_wr_capacity_; [done|].
  eapply wp_bind, wp_rd; [simpl; by rewrite lookup_insert_eq|]. simpl.
  eapply wp_bind, wp_intro; [apply ctor_size_run; lia|]. simpl.
  set (l' := replicate (Z.to_nat cap') value_init).
  assert (length l' = Z.to_nat cap') as Hlen' by apply length_replicate.
  eapply wp_bind, wp_rd.
  { simpl. rewrite lookup_insert_ne by lia. by rewrite lookup_insert_eq. }
  simpl. unfold Std.for_range.
  destruct (ArrayPtrRep.raw_ptr_ (items_ s)) as [|b x] eqn:Hraw.
  - (* no elements, no old array *)
    subst xs. rewrite Hp. simpl.
    apply wp_bind, wp_ret.
    eapply wp_bind, wp_swap.
    { simpl. rewrite lookup_insert_ne by lia. by rewrite lookup_insert_eq. }
    { simpl. by rewrite lookup_insert_eq. }
    eapply wp_bind, wp_wr_size_.
    { simpl. rewrite lookup_insert_ne by lia. by rewrite lookup_insert_eq. }
    simpl. unfold SimpleVector.dtor, ArrayPtr.dtor.
    eapply wp_bind, wp_rd.
    { simpl. rewrite lookup_insert_ne by lia. by rewrite lookup_insert_eq. }
    simpl. rewrite Hraw.
    eapply wp_bind, wp_delete_array_null.
    eapply wp_del_obj.
    { simpl. rewrite lookup_insert_ne by lia. by rewrite lookup_insert_eq. }
    simpl. split_and!.
    + rewrite lookup_delete_ne by lia. by rewrite lookup_insert_eq.
    + rewrite lookup_insert_eq. by rewrite ?Hp, Z.sub_0_r.
    + intros o Ho. destruct (decide (o = next_loc w)) as [->|Ho'].
      * rewrite lookup_delete_eq. symmetry. apply (wf_fresh_loc _ Hwf). lia.
      * rewrite lookup_delete_ne by done. by rewrite !lookup_insert_ne.
    + intros b Hb _. by rewrite lookup_insert_ne.
    + intros b (s1 & x1 & Hs1 & Hraw1). simplify_eq. congruence.
  - destruct Hxs as (-> & l & Hl & Hxs & Hle).
    assert (b ≠ nb) as Hbn.
    { intros ->. rewrite (wf_fresh_block _ Hwf) in Hl; [done|]. unfold nb. lia. }
    eapply wp_bind, wp_mono.
    { eapply (wp_move_loop_run this (next_loc w) _ 0 _ _ _ b nb l l'); simpl.
      - rewrite lookup_insert_ne by lia. by rewrite lookup_insert_eq.
      - by rewrite lookup_insert_eq.
      - done.
      - done.
      - done.
      - by rewrite lookup_insert_ne.
      - by rewrite lookup_insert_eq.
      - lia.
      - lia.
      - lia. }
    intros ? w3 ->. cbv beta.
    eapply wp_bind, wp_swap.
    { simpl. rewrite lookup_insert_ne by lia. by rewrite lookup_insert_eq. }
    { simpl. by rewrite lookup_insert_eq. }
    eapply wp_bind, wp_wr_size_.
    { simpl. rewrite lookup_insert_ne by lia. by rewrite lookup_insert_eq. }
    simpl. unfold SimpleVector.dtor, ArrayPtr.dtor.
    eapply wp_bind, wp_rd.
    { simpl. rewrite lookup_insert_ne by lia. by rewrite lookup_insert_eq. }
    simpl. rewrite Hraw.
    eapply wp_bind, wp_delete_array; [simpl; by rewrite lookup_insert_eq|].
    eapply wp_del_obj.
    { simpl. rewrite lookup_insert_ne by lia. by rewrite lookup_insert_eq. }
    simpl. split_and!.
    + rewrite lookup_delete_ne by lia. by rewrite lookup_insert_eq.
    + rewrite lookup_delete_ne by done. rewrite lookup_insert_ne by done.
      rewrite lookup_insert_eq. f_equal.
      change (Z.to_nat 0) with O. rewrite drop_0. simpl.
      replace (Z.to_nat (size_ s - 0)) with (Z.to_nat (size_ s)) by lia.
      rewrite <-Hxs. f_equal. unfold l'.
      rewrite drop_replicate. f_equal. lia.
    + intros o Ho. destruct (decide (o = next_loc w)) as [->|Ho'].
      * rewrite lookup_delete_eq. symmetry. apply (wf_fresh_loc _ Hwf). lia.
      * rewrite lookup_delete_ne by done. by rewrite !lookup_insert_ne.
    + intros b' Hb' Hown. destruct (decide (b' = b)) as [->|Hb].
      * destruct Hown. by exists s, 0.
      * rewrite lookup_delete_ne by done. by rewrite !lookup_insert_ne.
    + intros b' (s1 & x1 & Hs1 & Hraw1). simplify_eq.
      assert (b' = b) as -> by congruence. by rewrite lookup_delete_eq.
Qed.

Lemma wlp_eq {A} (m : M A) w Q E a w' : wlp m w Q E → m w = Ok a w' → Q a w'.
Proof. unfold wlp. intros Hm Heq. by rewrite Heq in Hm. Qed.

Lemma wlp_eq_throw {A} (m : M A) w Q E e w' : wlp m w Q E → m w = Throw e w' → E e w'.
Proof. unfold wlp. intros Hm Heq. by rewrite Heq in Hm. Qed.

Lemma bind_ok {A B} (m : M A) (k : A → M B) w a w1 :
  m w = Ok a w1 → bind m k w = k a w1.
Proof. unfold bind. by intros ->. Qed.

(** the vectors other than [this], when a call touched the fields and the
    array of [this] only *)
Lemma elements_others w w' this :
  wf_world w →
  (∀ o, o ≠ this → objs w' !! o = objs w !! o) →
  (∀ b, (b < next_block w)%nat → ¬ owns w this b → heap w' !! b = heap w !! b) →
  ∀ o, o ≠ this → elements w' o = elements w o.
Proof.
  intros Hwf Ho Hh o Hne. apply elements_frame; [by apply Ho|].
  intros b Hb. apply Hh; [by eapply wf_owns_lt|].
  intros Hthis. apply Hne. by eapply (wf_owner _ Hwf).
Qed.

(** the loop of [Resize] that fills the cells from [i] on with [Type{}] *)
Lemma wp_fill_loop_run this k i w s b l :
  objs w !! this = Some s → ArrayPtrRep.raw_ptr_ (items_ s) = Ptr b 0 →
  heap w !! b = Some l → 0 ≤ i → i + Z.of_nat k ≤ Z.of_nat (length l) →
  wp (Std.for_loop k i (λ i,
        it <- SimpleVector.rd items_ this ;; r <- ArrayPtr.index it i ;;
        store r value_init)) w
     (λ _ w', w' = set_heap (<[b := take (Z.to_nat i) l ++ replicate k value_init ++
                                     drop (Z.to_nat i + k) l]> (heap w)) w).
Proof.
  intros Hs Hraw. revert i w l Hs.
  induction k as [|k IH]; intros i w l Hs Hl Hi Hk; simpl.
  - apply wp_ret. rewrite Nat.add_0_r, take_drop. by rewrite set_heap_insert_id.
  - unfold ArrayPtr.index.
    eapply wp_bind, wp_bind, wp_rd; [done|]. cbv beta. rewrite Hraw.
    eapply wp_bind, wp_ptr_add; [done|lia|]. rewrite Z.add_0_l.
    eapply wp_store; [done|lia|].
    eapply wp_mono.
    { eapply (IH (i + 1)); [done|simpl; by rewrite lookup_insert_eq|lia|].
      rewrite length_insert. lia. }
    intros r w' ->. cbv beta. rewrite set_heap_twice. do 2 f_equal.
    replace (Z.to_nat (i + 1)) with (S (Z.to_nat i)) by lia.
    pose proof (splice_cons l (Z.to_nat i) value_init (replicate k value_init)) as Hsp.
    rewrite length_replicate in Hsp. apply Hsp. lia.
Qed.

(** [Resize] to more than the size, within the capacity and the array *)
Lemma Resize_within_run this n w s b l :
  objs w !! this = Some s → ArrayPtrRep.raw_ptr_ (items_ s) = Ptr b 0 →
  heap w !! b = Some l →
  0 ≤ size_ s < n → n ≤ capacity_ s → n ≤ Z.of_nat (length l) →
  SimpleVector.Resize this n w =
    Ok tt (World (<[b := take (Z.to_nat (size_ s)) l ++
                         replicate (Z.to_nat (n - size_ s)) value_init ++
                         drop (Z.to_nat n) l]> (heap w))
                 (next_block w)
                 (<[this := BuildSV n (capacity_ s) (items_ s)]> (objs w))
                 (next_loc w)).
Proof.
  intros Hs Hraw Hl Hsz Hcap Hlen. apply wp_intro_eq.
  unfold SimpleVector.Resize.
  eapply wp_bind, wp_rd; [done|]. cbv beta.
  destruct (Z.eqb_spec n (size_ s)); [lia|].
  destruct (Z.ltb_spec n (size_ s)); [lia|].
  eapply wp_bind, wp_rd; [done|]. cbv beta.
  destruct (Z.leb_spec n (capacity_ s)); [|lia].
  unfold Std.for_range.
  eapply wp_bind, wp_mono.
  { eapply (wp_fill_loop_run this _ _ w s b l); [done..|lia|lia]. }
  intros ? w' ->. cbv beta.
  eapply wp_wr_size_; [done|]. simpl. split; [done|]. unfold set_objs, set_heap. simpl.
  by replace (Z.to_nat (size_ s) + Z.to_nat (n - size_ s))%nat with (Z.to_nat n) by lia.
Qed.

(** X7.  [Resize(n)] to a size that is not smaller, in two cases.
    Within the capacity, for a vector whose array has a cell for each
    unit of capacity, the array stays: [begin()] and the capacity are
    what they were and no array is allocated or freed.  Beyond the
    capacity, whatever the array, and provided the allocation succeeds,
    the vector moves to a new array: the capacity becomes
    [max(capacity * 2, n)], [begin()] points at an array that was not
    there before and the old array is freed.  In both cases the elements
    are kept and [Type{}] is appended up to the new size, and the other
    vectors keep their elements. *)
Theorem resize_up_elements (w : world) (this : loc) (s : SimpleVectorRep)
    (xs : list T) (n : Z) :
  wf_world w → objs w !! this = Some s → elements w this = Some xs →
  size_ s ≤ n →
  (n ≤ capacity_ s → backed w this) →
  (capacity_ s < n → Z.max (capacity_ s * 2) n ≤ max_alloc) →
  ∃ w',
    SimpleVector.Resize this n w = Ok tt w' ∧
    wf_world w' ∧
    elements w' this =
      Some (xs ++ replicate (Z.to_nat (n - size_ s)) value_init) ∧
    SimpleVector.GetSize this w' = Ok n w' ∧
    SimpleVector.GetCapacity this w' =
      Ok (if n <=? capacity_ s then capacity_ s else Z.max (capacity_ s * 2) n) w' ∧
    backed w' this ∧
    (n ≤ capacity_ s →
     (∃ first, SimpleVector.begin_ this w = Ok first w ∧
               SimpleVector.begin_ this w' = Ok first w') ∧
     ∀ b, length <$> heap w' !! b = length <$> heap w !! b) ∧
    (capacity_ s < n →
     SimpleVector.begin_ this w' = Ok (Ptr (next_block w) 0) w' ∧
     heap w !! next_block w = None ∧
     ∀ b, owns w this b → heap w' !! b = None) ∧
    ∀ o, o ≠ this → elements w' o = elements w o.
Proof.
  intros Hwf Hs Hel Hn Hbacked Hmax.
  pose proof Hel as (s0 & Hs0 & Hlen & Hxs)%elements_Some. simplify_eq.
  pose proof (wf_vec_of _ _ _ Hwf Hs) as [Hsz Hp].
  destruct (Z.leb_spec n (capacity_ s)) as [Hle|Hgt].
  - destruct (Hbacked Hle) as (s0 & Hs0 & Hback).
    assert (s0 = s) as -> by congruence. clear Hs0.
    destruct (decide (n = size_ s)) as [->|Hne].
    + exists w. rewrite (Resize_same _ _ _ Hs), (GetSize_ok _ _ _ Hs),
        (GetCapacity_ok _ _ _ Hs), Z.sub_diag, app_nil_r.
      split_and!; try done; try lia.
      * by exists s.
      * intros _. split; [|done]. rewrite (begin_run _ _ _ Hs). by eexists.
    + destruct (ArrayPtrRep.raw_ptr_ (items_ s)) as [|b x] eqn:Hraw; [lia|].
      destruct Hxs as (-> & l & Hl & Hxs & Hll).
      destruct Hback as (l0 & Hl0 & Hcl). assert (l0 = l) as -> by congruence.
      eexists. split; [apply (Resize_within_run this n w s b l); done || lia|].
      set (w' := World _ _ _ _).
      assert (SimpleVector.Resize this n w = Ok tt w') as Heq
        by (apply (Resize_within_run this n w s b l); done || lia).
      assert (objs w' !! this = Some (BuildSV n (capacity_ s) (items_ s))) as Hs'
        by (simpl; by rewrite lookup_insert_eq).
      assert (heap w' !! b =
                Some (take (Z.to_nat (size_ s)) l ++
                      replicate (Z.to_nat (n - size_ s)) value_init ++
                      drop (Z.to_nat n) l)) as Hl'
        by (simpl; by rewrite lookup_insert_eq).
      assert (length (take (Z.to_nat (size_ s)) l ++
                      replicate (Z.to_nat (n - size_ s)) value_init ++
                      drop (Z.to_nat n) l) = length l) as Hlen'.
      { rewrite !length_app, length_take, length_replicate, length_drop. lia. }
      split_and!.
      * destruct (wlp_eq _ _ _ _ _ _ (Resize_kept this n w Hwf ltac:(lia)) Heq). done.
      * rewrite (elements_intro _ _ _ _ _ Hs' Hraw Hl') by (simpl; lia). simpl.
        f_equal. rewrite app_assoc. rewrite take_app_le.
        2:{ rewrite length_app, length_take, length_replicate. lia. }
        rewrite take_ge; [by rewrite Hxs|].
        rewrite length_app, length_take, length_replicate. lia.
      * by rewrite (GetSize_ok _ _ _ Hs').
      * by rewrite (GetCapacity_ok _ _ _ Hs').
      * eapply backed_intro; [done..|]. simpl. lia.
      * intros _. split.
        -- exists (Ptr b 0). rewrite (begin_run _ _ _ Hs), (begin_run _ _ _ Hs').
           simpl. by rewrite Hraw.
        -- intros b'. simpl. destruct (decide (b' = b)) as [->|Hb'].
           ++ rewrite lookup_insert_eq, Hl. simpl. f_equal. apply Hlen'.
           ++ by rewrite lookup_insert_ne.
      * lia.
      * apply (elements_others w w' this Hwf); simpl.
        -- intros o Ho. by rewrite lookup_insert_ne.
        -- intros b' _ Hown. rewrite lookup_insert_ne; [done|].
           intros <-. apply Hown. by exists s, 0.
  - destruct (Resize_grow_run this n w s xs Hwf Hs Hel Hgt (Hmax Hgt))
      as (w' & Heq & Hwf' & Hs' & Hl' & Hobjs & Hheap & Hold).
    exists w'. split_and!.
    + done.
    + done.
    + rewrite (elements_intro _ _ _ _ _ Hs' eq_refl Hl'); simpl.
      2:{ rewrite length_app, length_replicate. lia. }
      f_equal.
      rewrite take_app_ge by lia.
      rewrite take_replicate. f_equal. f_equal. lia.
    + by rewrite (GetSize_ok _ _ _ Hs').
    + by rewrite (GetCapacity_ok _ _ _ Hs').
    + eapply backed_intro; [done..|]. simpl.
      rewrite length_app, length_replicate. lia.
    + lia.
    + intros _. split_and!.
      * by rewrite (begin_run _ _ _ Hs').
      * apply (wf_fresh_block _ Hwf). lia.
      * done.
    + apply (elements_others w w' this Hwf); [done|].
      intros b Hb Hown. apply Hheap; [lia|done].
Qed.

(** X8.  When the allocation of the new array fails, [Resize] throws
    [bad_alloc] after it has assigned the new value to [capacity_]: the size
    and the elements are what they were, the capacity is not, and no array
    of that many cells stands behind the vector. *)
Theorem resize_bad_alloc_keeps_new_capacity (w : world) (this : loc)
    (s : SimpleVectorRep) (n : Z) :
  wf_world w → objs w !! this = Some s →
  capacity_ s < n → max_alloc < Z.max (wrap (capacity_ s * 2)) n →
  ∃ w',
    SimpleVector.Resize this n w = Throw bad_alloc w' ∧
    elements w' this = elements w this ∧
    SimpleVector.GetSize this w' = Ok (size_ s) w' ∧
    SimpleVector.GetCapacity this w' = Ok (Z.max (wrap (capacity_ s * 2)) n) w' ∧
    ¬ backed w' this.
Proof.
  intros Hwf Hs Hn Hmax.
  pose proof (wf_vec_of _ _ _ Hwf Hs) as [Hsz Hp].
  pose proof max_alloc_range as Hrange.
  set (c' := Z.max (wrap (capacity_ s * 2)) n) in *.
  set (w' := set_objs (<[this := BuildSV (size_ s) c' (items_ s)]> (objs w)) w).
  assert (objs w' !! this = Some (BuildSV (size_ s) c' (items_ s))) as Hs'
    by (simpl; by rewrite lookup_insert_eq).
  exists w'. split_and!.
  - unfold SimpleVector.Resize.
    erewrite bind_ok; [|by apply rd_ok]. cbv beta.
    destruct (Z.eqb_spec n (size_ s)); [lia|].
    destruct (Z.ltb_spec n (size_ s)); [lia|].
    erewrite bind_ok; [|by apply rd_ok]. cbv beta.
    destruct (Z.leb_spec n (capacity_ s)); [lia|].
    fold c'.
    erewrite bind_ok; [|apply wp_intro_eq; by eapply wp_wr_capacity_].
    fold w'. erewrite bind_ok; [|by apply rd_ok]. simpl.
    unfold bind, SimpleVector.ctor_size, ArrayPtr.from_size, bind, new_array.
    destruct (Z.eqb_spec c' 0); [lia|].
    by destruct (Z.ltb_spec max_alloc c'); [|lia].
  - unfold elements. rewrite Hs', Hs. done.
  - by rewrite (GetSize_ok _ _ _ Hs').
  - by rewrite (GetCapacity_ok _ _ _ Hs').
  - intros (s1 & Hs1 & Hback). rewrite Hs' in Hs1. simplify_eq. simpl in *.
    destruct (ArrayPtrRep.raw_ptr_ (items_ s)) as [|b x]; [lia|].
    destruct Hback as (l & Hl & Hc). pose proof (wf_alloc _ Hwf _ _ Hl). lia.
Qed.

Lemma take_S_insert (l : list T) n v :
  (n < length l)%nat → take (S n) (<[n := v]> l) = take n l ++ [v].
Proof.
  intros Hn. rewrite (take_S_r _ _ v) by (by apply list_lookup_insert_eq).
  by rewrite take_insert_ge by lia.
Qed.

(** the statement that makes room for one more element: what it leaves.
    With room to spare an array of [capacity_] cells has to stand behind
    the vector; a full vector moves to a new array *)
Lemma make_room_run this w s xs :
  wf_world w → objs w !! this = Some s → elements w this = Some xs →
  (size_ s < capacity_ s → backed w this) →
  (capacity_ s ≤ size_ s → Z.max (capacity_ s * 2) (size_ s + 1) ≤ max_alloc) →
  ∃ w1 b l,
    SimpleVector.make_room this w = Ok tt w1 ∧
    objs w1 !! this =
      Some (BuildSV (size_ s + 1)
              (if size_ s <? capacity_ s then capacity_ s
               else Z.max (capacity_ s * 2) (size_ s + 1))
              (ArrayPtrRep.Build (Ptr b 0))) ∧
    heap w1 !! b = Some l ∧
    take (Z.to_nat (size_ s)) l = xs ∧
    size_ s + 1 ≤ Z.of_nat (length l) ∧
    (if size_ s <? capacity_ s then capacity_ s
     else Z.max (capacity_ s * 2) (size_ s + 1)) ≤ Z.of_nat (length l) ∧
    (if size_ s <? capacity_ s
     then owns w this b ∧ heap w !! b = Some l ∧ heap w1 = heap w
     else b = next_block w) ∧
    (∀ o, o ≠ this → objs w1 !! o = objs w !! o) ∧
    (∀ b', (b' < next_block w)%nat → ¬ owns w this b' → heap w1 !! b' = heap w !! b').
Proof.
  intros Hwf Hs Hel Hbacked Hmax.
  pose proof Hel as (s0 & Hs0 & Hlen & Hxs)%elements_Some. simplify_eq.
  pose proof (wf_vec_of _ _ _ Hwf Hs) as [Hsz Hp].
  pose proof (wf_size_bound _ _ _ Hwf Hs) as Hb.
  destruct (Z.ltb_spec (size_ s) (capacity_ s)) as [Hroom|Hfull].
  - destruct (Hbacked Hroom) as (s0 & Hs0 & Hback).
    assert (s0 = s) as -> by congruence. clear Hs0 Hbacked.
    destruct (ArrayPtrRep.raw_ptr_ (items_ s)) as [|b x] eqn:Hraw; [lia|].
    destruct Hxs as (-> & l & Hl & Hxs & Hll).
    destruct Hback as (l0 & Hl0 & Hcl). assert (l0 = l) as -> by congruence.
    exists (set_objs (<[this := BuildSV (size_ s + 1) (capacity_ s) (items_ s)]> (objs w)) w),
      b, l.
    split_and!; simpl; try done; try lia.
    + apply wp_intro_eq. unfold SimpleVector.make_room.
      eapply wp_bind, wp_rd; [done|]. eapply wp_bind, wp_rd; [done|]. simpl.
      destruct (Z.ltb_spec (size_ s) (capacity_ s)); [|lia].
      rewrite wrap_small by lia. by eapply wp_wr_size_.
    + rewrite lookup_insert_eq. destruct s as [? ? []]. simpl in *. by rewrite Hraw.
    + by exists s, 0.
    + intros o Ho. by rewrite lookup_insert_ne.
  - destruct (Resize_grow_run this (size_ s + 1) w s xs Hwf Hs Hel ltac:(lia) (Hmax Hfull))
      as (w1 & Heq & Hwf1 & Hs1 & Hl1 & Hobjs & Hheap & _).
    exists w1, (next_block w). eexists.
    split_and!; try done.
    + unfold SimpleVector.make_room.
      erewrite bind_ok; [|by apply rd_ok]. erewrite bind_ok; [|by apply rd_ok].
      cbv beta. destruct (Z.ltb_spec (size_ s) (capacity_ s)); [lia|].
      by rewrite wrap_small by lia.
    + rewrite take_app_ge by lia. replace (Z.to_nat (size_ s) - length xs)%nat with O by lia.
      by rewrite take_0, app_nil_r.
    + rewrite length_app, length_replicate. lia.
    + rewrite length_app, length_replicate. lia.
    + intros b' Hb' Hown. apply Hheap; [lia|done].
Qed.

Lemma client_holds_load w p v : client_holds w p v → load p w = Ok v w.
Proof.
  destruct p as [|b o]; [done|]. intros [(l & Hl & Ho & Hv) _].
  unfold load. rewrite Hl. destruct (Z.leb_spec 0 o); [|lia]. by rewrite Hv.
Qed.

(** X9.  [PushBack(const Type&)], called with an object of the caller
    that is not an element of a vector, in two cases.  With room to
    spare, and an array with a cell for each unit of capacity behind the
    vector, the array and the capacity stay.  On a full vector, and
    provided the allocation succeeds, the capacity becomes
    [max(capacity * 2, size + 1)].  In both cases the elements are the old
    ones followed by a copy of the argument, and the argument and the
    other vectors are what they were.  (A copy of a vector with spare
    capacity has room to spare and no such array.) *)
Theorem push_back_const_ref_elements (w : world) (this : loc)
    (s : SimpleVectorRep) (xs : list T) (item : pointer) (v : T) :
  wf_world w → objs w !! this = Some s → elements w this = Some xs →
  (size_ s < capacity_ s → backed w this) → client_holds w item v →
  (capacity_ s ≤ size_ s → Z.max (capacity_ s * 2) (size_ s + 1) ≤ max_alloc) →
  ∃ w',
    SimpleVector.PushBack_const_ref this item w = Ok tt w' ∧
    wf_world w' ∧
    elements w' this = Some (xs ++ [v]) ∧
    SimpleVector.GetCapacity this w' =
      Ok (if size_ s <? capacity_ s then capacity_ s
          else Z.max (capacity_ s * 2) (size_ s + 1)) w' ∧
    backed w' this ∧
    (size_ s < capacity_ s →
     ∃ first, SimpleVector.begin_ this w = Ok first w ∧
              SimpleVector.begin_ this w' = Ok first w') ∧
    client_holds w' item v ∧
    ∀ o, o ≠ this → elements w' o = elements w o.
Proof.
  intros Hwf Hs Hel Hback Hitem Hmax.
  pose proof (wf_size_bound _ _ _ Hwf Hs) as Hb.
  pose proof (wf_vec_of _ _ _ Hwf Hs) as [Hsz _].
  destruct (make_room_run this w s xs Hwf Hs Hel Hback Hmax)
    as (w1 & b & l & Hmk & Hs1 & Hl1 & Hxs & Hlen1 & Hcap1 & Hcase & Hobjs & Hheap).
  set (c := if size_ s <? capacity_ s then capacity_ s
            else Z.max (capacity_ s * 2) (size_ s + 1)) in *.
  destruct item as [|bv ov]; [done|].
  destruct Hitem as [(lv & Hlv & Hov & Hv) Hfree].
  assert ((bv < next_block w)%nat) as Hbv.
  { destruct (decide (bv < next_block w)%nat); [done|].
    rewrite (wf_fresh_block _ Hwf) in Hlv; [done|lia]. }
  assert (bv ≠ b) as Hne.
  { intros ->. destruct (size_ s <? capacity_ s).
    - destruct Hcase as (Hown & _). by apply (Hfree this).
    - lia. }
  assert (heap w1 !! bv = Some lv) as Hlv1 by (by rewrite Hheap).
  set (w' := set_heap (<[b := <[Z.to_nat (size_ s) := v]> l]> (heap w1)) w1).
  assert (SimpleVector.PushBack_const_ref this (Ptr bv ov) w = Ok tt w') as Heq.
  { apply wp_intro_eq. unfold SimpleVector.PushBack_const_ref.
    eapply wp_bind, wp_intro; [exact Hmk|].
    eapply wp_bind, wp_rd; [done|]. eapply wp_bind, wp_rd; [done|]. simpl.
    replace (size_ s + 1 - 1) with (size_ s) by lia. rewrite wrap_small by lia.
    unfold ArrayPtr.index. simpl.
    eapply wp_bind, wp_ptr_add; [done|lia|]. unfold Std.copy_assign.
    eapply wp_bind, wp_load; [done..|].
    eapply wp_store; [done|lia|]. by rewrite Z.add_0_l. }
  assert (objs w' !! this = Some (BuildSV (size_ s + 1) c (ArrayPtrRep.Build (Ptr b 0))))
    as Hs' by done.
  assert (heap w' !! b = Some (<[Z.to_nat (size_ s) := v]> l)) as Hl'
    by (simpl; by rewrite lookup_insert_eq).
  assert (∀ o, ¬ owns w' o bv) as Hfree'.
  { intros o (s2 & x2 & Hs2 & Hraw2). simpl in Hs2.
    destruct (decide (o = this)) as [->|Ho].
    - rewrite Hs1 in Hs2. simplify_eq. simpl in Hraw2. congruence.
    - rewrite Hobjs in Hs2 by done. apply (Hfree o). by exists s2, x2. }
  exists w'. split_and!; try done.
  - by destruct (wlp_eq _ _ _ _ _ _ (PushBack_const_ref_kept this (Ptr bv ov) w Hwf) Heq).
  - rewrite (elements_intro _ _ _ _ _ Hs' eq_refl Hl'); simpl.
    2:{ rewrite length_insert. lia. }
    f_equal. replace (Z.to_nat (size_ s + 1)) with (S (Z.to_nat (size_ s))) by lia.
    rewrite take_S_insert by lia. by rewrite Hxs.
  - by rewrite (GetCapacity_ok _ _ _ Hs').
  - eapply backed_intro; [done..|]. simpl. rewrite length_insert. lia.
  - intros Hroom. exists (Ptr b 0). rewrite (begin_run _ _ _ Hs), (begin_run _ _ _ Hs').
    split; [|done]. destruct (Z.ltb_spec (size_ s) (capacity_ s)); [|lia].
    destruct Hcase as ((s2 & x2 & Hs2 & Hraw2) & _). simplify_eq.
    pose proof (wf_vec_of _ _ _ Hwf Hs) as [_ Hp]. rewrite Hraw2 in Hp.
    destruct Hp as (-> & _). by rewrite Hraw2.
  - split; [|done]. exists lv. split_and!; try done. simpl.
    by rewrite lookup_insert_ne.
  - apply (elements_others w w' this Hwf); [done|].
    intros b' Hb' Hown. simpl. rewrite lookup_insert_ne; [by apply Hheap|].
    intros <-. destruct (size_ s <? capacity_ s).
    + by destruct Hcase as (? & _).
    + lia.
Qed.

(** X10.  [PushBack(Type&&)], called with an object of the caller that is
    not an element of a vector, in two cases.  With room to spare, and an
    array with a cell for each unit of capacity behind the vector, the
    array and the capacity stay.  On a full vector, and provided the
    allocation succeeds, the capacity becomes
    [max(capacity * 2, size + 1)].  In both cases the elements are the old
    ones followed by the value of the argument, the argument is left
    moved from, and the other vectors are what they were. *)
Theorem push_back_rvalue_ref_elements (w : world) (this : loc)
    (s : SimpleVectorRep) (xs : list T) (item : pointer) (v : T) :
  wf_world w → objs w !! this = Some s → elements w this = Some xs →
  (size_ s < capacity_ s → backed w this) → client_holds w item v →
  (capacity_ s ≤ size_ s → Z.max (capacity_ s * 2) (size_ s + 1) ≤ max_alloc) →
  ∃ w',
    SimpleVector.PushBack_rvalue_ref this item w = Ok tt w' ∧
    wf_world w' ∧
    elements w' this = Some (xs ++ [v]) ∧
    SimpleVector.GetCapacity this w' =
      Ok (if size_ s <? capacity_ s then capacity_ s
          else Z.max (capacity_ s * 2) (size_ s + 1)) w' ∧
    backed w' this ∧
    (size_ s < capacity_ s →
     ∃ first, SimpleVector.begin_ this w = Ok first w ∧
              SimpleVector.begin_ this w' = Ok first w') ∧
    client_holds w' item (moved_from v) ∧
    ∀ o, o ≠ this → elements w' o = elements w o.
Proof.
  intros Hwf Hs Hel Hback Hitem Hmax.
  pose proof (wf_size_bound _ _ _ Hwf Hs) as Hb.
  pose proof (wf_vec_of _ _ _ Hwf Hs) as [Hsz _].
  destruct (make_room_run this w s xs Hwf Hs Hel Hback Hmax)
    as (w1 & b & l & Hmk & Hs1 & Hl1 & Hxs & Hlen1 & Hcap1 & Hcase & Hobjs & Hheap).
  set (c := if size_ s <? capacity_ s then capacity_ s
            else Z.max (capacity_ s * 2) (size_ s + 1)) in *.
  destruct item as [|bv ov]; [done|].
  destruct Hitem as [(lv & Hlv & Hov & Hv) Hfree].
  assert ((bv < next_block w)%nat) as Hbv.
  { destruct (decide (bv < next_block w)%nat); [done|].
    rewrite (wf_fresh_block _ Hwf) in Hlv; [done|lia]. }
  assert (bv ≠ b) as Hne.
  { intros ->. destruct (size_ s <? capacity_ s).
    - destruct Hcase as (Hown & _). by apply (Hfree this).
    - lia. }
  assert (heap w1 !! bv = Some lv) as Hlv1 by (by rewrite Hheap).
  assert (Z.to_nat ov < length lv)%nat as Hovlt by (by eapply lookup_lt_Some).
  set (w' := set_heap (<[bv := <[Z.to_nat ov := moved_from v]> lv]>
                         (<[b := <[Z.to_nat (size_ s) := v]> l]> (heap w1))) w1).
  assert (SimpleVector.PushBack_rvalue_ref this (Ptr bv ov) w = Ok tt w') as Heq.
  { apply wp_intro_eq. unfold SimpleVector.PushBack_rvalue_ref.
    eapply wp_bind, wp_intro; [exact Hmk|].
    eapply wp_bind, wp_rd; [done|]. eapply wp_bind, wp_rd; [done|]. simpl.
    replace (size_ s + 1 - 1) with (size_ s) by lia. rewrite wrap_small by lia.
    unfold ArrayPtr.index. simpl.
    eapply wp_bind, wp_ptr_add; [done|lia|]. unfold Std.move_assign.
    eapply wp_bind, wp_load; [done..|].
    eapply wp_bind, wp_store; [done|lia|].
    eapply wp_store; [simpl; by rewrite lookup_insert_ne|lia|].
    by rewrite Z.add_0_l. }
  assert (objs w' !! this = Some (BuildSV (size_ s + 1) c (ArrayPtrRep.Build (Ptr b 0))))
    as Hs' by done.
  assert (heap w' !! b = Some (<[Z.to_nat (size_ s) := v]> l)) as Hl'.
  { simpl. rewrite lookup_insert_ne by done. by rewrite lookup_insert_eq. }
  assert (∀ o, ¬ owns w' o bv) as Hfree'.
  { intros o (s2 & x2 & Hs2 & Hraw2). simpl in Hs2.
    destruct (decide (o = this)) as [->|Ho].
    - rewrite Hs1 in Hs2. simplify_eq. simpl in Hraw2. congruence.
    - rewrite Hobjs in Hs2 by done. apply (Hfree o). by exists s2, x2. }
  exists w'. split_and!; try done.
  - exact (wlp_eq _ _ _ _ _ _ (PushBack_rvalue_ref_wf this (Ptr bv ov) w Hwf) Heq).
  - rewrite (elements_intro _ _ _ _ _ Hs' eq_refl Hl'); simpl.
    2:{ rewrite length_insert. lia. }
    f_equal. replace (Z.to_nat (size_ s + 1)) with (S (Z.to_nat (size_ s))) by lia.
    rewrite take_S_insert by lia. by rewrite Hxs.
  - by rewrite (GetCapacity_ok _ _ _ Hs').
  - eapply backed_intro; [done..|]. simpl. rewrite length_insert. lia.
  - intros Hroom. exists (Ptr b 0). rewrite (begin_run _ _ _ Hs), (begin_run _ _ _ Hs').
    split; [|done]. destruct (Z.ltb_spec (size_ s) (capacity_ s)); [|lia].
    destruct Hcase as ((s2 & x2 & Hs2 & Hraw2) & _). simplify_eq.
    pose proof (wf_vec_of _ _ _ Hwf Hs) as [_ Hp]. rewrite Hraw2 in Hp.
    destruct Hp as (-> & _). by rewrite Hraw2.
  - split; [|done]. eexists. split_and!; [simpl; by rewrite lookup_insert_eq|done|].
    by apply list_lookup_insert_eq.
  - intros o Ho. apply elements_frame; [by apply Hobjs|].
    intros b' Hb'. simpl.
    rewrite lookup_insert_ne by (intros <-; by apply (Hfree o)).
    assert (¬ owns w this b') as Hnot.
    { intros Hthis. apply Ho. by eapply (wf_owner _ Hwf). }
    rewrite lookup_insert_ne; [apply Hheap; [by eapply wf_owns_lt|done]|].
    intros <-. destruct (size_ s <? capacity_ s).
    + by destruct Hcase as (? & _).
    + pose proof (wf_owns_lt _ _ _ Hwf Hb'). lia.
Qed.

(** ** [Clear], [PopBack] and [swap] *)

(** X11.  [Clear()] leaves no elements and keeps the capacity and the
    array: nothing is freed and nothing else changes. *)
Theorem clear_keeps_capacity (w : world) (this : loc) (s : SimpleVectorRep)
    (xs : list T) :
  objs w !! this = Some s → elements w this = Some xs →
  ∃ w',
    SimpleVector.Clear this w = Ok tt w' ∧
    elements w' this = Some [] ∧
    SimpleVector.GetSize this w' = Ok 0 w' ∧
    SimpleVector.GetCapacity this w' = Ok (capacity_ s) w' ∧
    SimpleVector.begin_ this w' = Ok (ArrayPtrRep.raw_ptr_ (items_ s)) w' ∧
    heap w' = heap w ∧
    (backed w this → backed w' this) ∧
    ∀ o, o ≠ this → elements w' o = elements w o.
Proof.
  intros Hs Hel.
  set (w' := set_objs (<[this := BuildSV 0 (capacity_ s) (items_ s)]> (objs w)) w).
  assert (objs w' !! this = Some (BuildSV 0 (capacity_ s) (items_ s))) as Hs'
    by (simpl; by rewrite lookup_insert_eq).
  exists w'. split_and!; try done.
  - apply wp_intro_eq. unfold SimpleVector.Clear. by eapply wp_wr_size_.
  - pose proof Hel as (s0 & Hs0 & Hlen & Hxs)%elements_Some. simplify_eq.
    unfold elements. rewrite Hs'. simpl.
    destruct (ArrayPtrRep.raw_ptr_ (items_ s)) as [|b o]; [done|].
    destruct Hxs as (-> & l & Hl & _ & _). rewrite Hl. simpl.
    by destruct (Z.leb_spec 0 (Z.of_nat (length l))); [|lia].
  - by rewrite (GetSize_ok _ _ _ Hs').
  - by rewrite (GetCapacity_ok _ _ _ Hs').
  - unfold SimpleVector.begin_, bind. by rewrite (rd_ok _ _ _ _ Hs').
  - intros (s0 & Hs0 & Hb). simplify_eq. exists (BuildSV 0 (capacity_ s) (items_ s)).
    split; [done|]. simpl. done.
  - intros o Ho. apply elements_frame; [|done]. simpl. by rewrite lookup_insert_ne.
Qed.

(** X12.  [PopBack()] on a vector with elements drops the last one and
    keeps the capacity and the array; on an empty vector its assertion
    fails. *)
Theorem pop_back_elements (w : world) (this : loc) (s : SimpleVectorRep)
    (xs : list T) :
  wf_world w → objs w !! this = Some s → elements w this = Some xs →
  (xs = [] → SimpleVector.PopBack this w = AssertFail) ∧
  (xs ≠ [] →
   ∃ w',
     SimpleVector.PopBack this w = Ok tt w' ∧
     elements w' this = Some (take (length xs - 1) xs) ∧
     SimpleVector.GetCapacity this w' = Ok (capacity_ s) w' ∧
     heap w' = heap w ∧
     (backed w this → backed w' this) ∧
     ∀ o, o ≠ this → elements w' o = elements w o).
Proof.
  intros Hwf Hs Hel.
  pose proof Hel as (s0 & Hs0 & Hlen & Hxs)%elements_Some. simplify_eq.
  pose proof (wf_size_bound _ _ _ Hwf Hs) as Hb.
  split.
  - intros ->. simpl in Hlen. unfold SimpleVector.PopBack, SimpleVector.IsEmpty.
    erewrite bind_ok; [|erewrite bind_ok; [|by apply rd_ok]; done].
    by rewrite Hlen.
  - intros Hne.
    assert (0 < size_ s) as Hpos by (destruct xs; [done|simpl in Hlen; lia]).
    set (w' := set_objs (<[this := BuildSV (size_ s - 1) (capacity_ s) (items_ s)]>
                           (objs w)) w).
    assert (objs w' !! this = Some (BuildSV (size_ s - 1) (capacity_ s) (items_ s))) as Hs'
      by (simpl; by rewrite lookup_insert_eq).
    exists w'. split_and!; try done.
    + apply wp_intro_eq. unfold SimpleVector.PopBack, SimpleVector.IsEmpty.
      eapply wp_bind, wp_bind, wp_rd; [done|]. apply wp_ret.
      destruct (Z.eqb_spec (size_ s) 0); [lia|].
      apply wp_bind, wp_assert; [done|].
      eapply wp_bind, wp_rd; [done|]. cbv beta. rewrite wrap_small by lia.
      by eapply wp_wr_size_.
    + unfold elements. rewrite Hs'. simpl.
      destruct (ArrayPtrRep.raw_ptr_ (items_ s)) as [|b o]; [subst; done|].
      destruct Hxs as (-> & l & Hl & -> & Hle). rewrite Hl. simpl.
      destruct (Z.leb_spec 0 (size_ s - 1)); [|lia].
      destruct (Z.leb_spec (size_ s - 1) (Z.of_nat (length l))); [|lia]. simpl.
      f_equal. rewrite take_take. f_equal. rewrite length_take. lia.
    + by rewrite (GetCapacity_ok _ _ _ Hs').
    + intros (s0 & Hs0 & Hback). simplify_eq.
      exists (BuildSV (size_ s - 1) (capacity_ s) (items_ s)). by split.
    + intros o Ho. apply elements_frame; [|done]. simpl. by rewrite lookup_insert_ne.
Qed.

(** X13.  [swap] exchanges the elements, the sizes, the capacities and
    the arrays of the two vectors; no element is copied and no other
    vector changes; a second [swap] gives back the state before the
    first. *)
Theorem swap_exchanges (w : world) (this other : loc) (s1 s2 : SimpleVectorRep) :
  objs w !! this = Some s1 → objs w !! other = Some s2 →
  ∃ w',
    SimpleVector.swap this other w = Ok tt w' ∧
    elements w' this = elements w other ∧
    elements w' other = elements w this ∧
    SimpleVector.GetCapacity this w' = Ok (capacity_ s2) w' ∧
    SimpleVector.GetCapacity other w' = Ok (capacity_ s1) w' ∧
    SimpleVector.begin_ this w' = Ok (ArrayPtrRep.raw_ptr_ (items_ s2)) w' ∧
    SimpleVector.begin_ other w' = Ok (ArrayPtrRep.raw_ptr_ (items_ s1)) w' ∧
    heap w' = heap w ∧
    (∀ o, o ≠ this → o ≠ other → elements w' o = elements w o) ∧
    SimpleVector.swap this other w' = Ok tt w.
Proof.
  intros Hs1 Hs2.
  set (w' := set_objs (<[other := s1]> (<[this := s2]> (objs w))) w).
  assert (objs w' !! other = Some s1) as Ho' by (simpl; by rewrite lookup_insert_eq).
  assert (objs w' !! this = Some s2) as Ht'.
  { simpl. destruct (decide (this = other)) as [->|Hne].
    - rewrite lookup_insert_eq. congruence.
    - rewrite lookup_insert_ne by done. by rewrite lookup_insert_eq. }
  exists w'. split_and!; try done.
  - by rewrite swap_run, Hs1, Hs2.
  - unfold elements. by rewrite Ht', Hs2.
  - unfold elements. by rewrite Ho', Hs1.
  - by rewrite (GetCapacity_ok _ _ _ Ht').
  - by rewrite (GetCapacity_ok _ _ _ Ho').
  - unfold SimpleVector.begin_, bind. by rewrite (rd_ok _ _ _ _ Ht').
  - unfold SimpleVector.begin_, bind. by rewrite (rd_ok _ _ _ _ Ho').
  - intros o Ho1 Ho2. apply elements_frame; [|done]. simpl.
    by rewrite !lookup_insert_ne.
  - rewrite swap_run, Ht', Ho'. f_equal. destruct w as [h nb o nl]. unfold w', set_objs.
    simpl in *. f_equal. apply map_eq. intros k.
    destruct (decide (k = other)) as [->|Hk1].
    { by rewrite lookup_insert_eq. }
    rewrite lookup_insert_ne by done.
    destruct (decide (k = this)) as [->|Hk2].
    { by rewrite lookup_insert_eq. }
    by rewrite !lookup_insert_ne.
Qed.

(** ** The member function [Reserve] *)

(** X14.  [Reserve(n)] with [n] above the capacity moves the vector to a
    new array of [n] cells: the elements and the size stay, the capacity
    becomes [n], the old array is freed, the other vectors keep their
    elements.  With [n] within the capacity it does nothing.  When the
    allocation fails it throws [bad_alloc] and the state is what it
    was. *)
Theorem reserve_elements (w : world) (this : loc) (s : SimpleVectorRep)
    (xs : list T) (n : Z) :
  wf_world w → objs w !! this = Some s → elements w this = Some xs →
  (n ≤ capacity_ s → SimpleVector.Reserve this n w = Ok tt w) ∧
  (capacity_ s < n → n ≤ max_alloc →
   ∃ w',
     SimpleVector.Reserve this n w = Ok tt w' ∧
     wf_world w' ∧
     elements w' this = Some xs ∧
     SimpleVector.GetSize this w' = Ok (size_ s) w' ∧
     SimpleVector.GetCapacity this w' = Ok n w' ∧
     backed w' this ∧
     (∀ b, owns w this b → heap w' !! b = None) ∧
     ∀ o, o ≠ this → elements w' o = elements w o) ∧
  (capacity_ s < n → max_alloc < n →
   SimpleVector.Reserve this n w = Throw bad_alloc w).
Proof.
  intros Hwf Hs Hel.
  pose proof Hel as (s0 & Hs0 & Hlen & Hxs)%elements_Some. simplify_eq.
  pose proof (wf_vec_of _ _ _ Hwf Hs) as [Hsz Hp].
  pose proof (wf_obj_lt _ _ _ Hwf Hs) as Hlt.
  split_and!.
  - intros Hn. unfold SimpleVector.Reserve. erewrite bind_ok; [|by apply rd_ok].
    cbv beta. by destruct (Z.gtb_spec n (capacity_ s)); [lia|].
  - intros Hn Hmax. set (nb := next_block w).
    cut (wp (SimpleVector.Reserve this n) w (λ _ w',
           objs w' = <[this := BuildSV (size_ s) n (ArrayPtrRep.Build (Ptr nb 0))]> (objs w) ∧
           heap w' !! nb =
             Some (xs ++ replicate (Z.to_nat (n - size_ s)) default_init) ∧
           (∀ b, owns w this b → heap w' !! b = None) ∧
           (∀ b, b ≠ nb → ¬ owns w this b → heap w' !! b = heap w !! b))).
    { intros ([] & w' & Heq & Ho' & Hl' & Hold & Hfr)%wp_elim.
      assert (objs w' !! this = Some (BuildSV (size_ s) n (ArrayPtrRep.Build (Ptr nb 0))))
        as Hs' by (rewrite Ho'; by rewrite lookup_insert_eq).
      exists w'. split_and!; try done.
      - exact (wlp_eq _ _ _ _ _ _ (Reserve_wf this n w Hwf) Heq).
      - rewrite (elements_intro _ _ _ _ _ Hs' eq_refl Hl'); simpl.
        2:{ rewrite length_app, length_replicate. lia. }
        f_equal. rewrite take_app_ge by lia.
        replace (Z.to_nat (size_ s) - length xs)%nat with O by lia.
        by rewrite take_0, app_nil_r.
      - by rewrite (GetSize_ok _ _ _ Hs').
      - by rewrite (GetCapacity_ok _ _ _ Hs').
      - eapply backed_intro; [done..|]. simpl. rewrite length_app, length_replicate. lia.
      - apply (elements_others w w' this Hwf).
        + intros o Ho. rewrite Ho'. by rewrite lookup_insert_ne.
        + intros b Hb Hown. apply Hfr; [unfold nb; lia|done]. }
    unfold SimpleVector.Reserve, ArrayPtr.from_size, SimpleVector.begin_,
      SimpleVector.end_, ArrayPtr.Get, ArrayPtr.swap, ArrayPtr.dtor.
    eapply wp_bind, wp_rd; [done|]. cbv beta.
    destruct (Z.gtb_spec n (capacity_ s)); [|lia].
    destruct (Z.eqb_spec n 0); [lia|].
    apply wp_bind, wp_bind, wp_new_array; [done|]. apply wp_ret.
    eapply wp_bind, wp_bind, wp_rd; [done|]. apply wp_ret.
    eapply wp_bind, wp_bind, wp_rd; [done|].
    eapply wp_bind, wp_rd; [done|]. cbv beta.
    unfold Std.copy, Std.range_length.
    destruct (ArrayPtrRep.raw_ptr_ (items_ s)) as [|b x] eqn:Hraw.
    + subst xs. rewrite Hp. apply wp_ptr_add_null.
      apply wp_bind, wp_bind, wp_bind, wp_ptr_diff_null. simpl. apply wp_ret, wp_ret.
      eapply wp_bind, wp_rd; [done|]. cbv beta. simpl.
      eapply wp_bind, wp_wr_items_; [done|].
      eapply wp_bind, wp_wr_capacity_; [simpl; by rewrite lookup_insert_eq|]. simpl.
      rewrite Hraw. apply wp_delete_array_null. simpl.
      rewrite insert_insert_eq, Hp. split_and!; try done.
      * rewrite lookup_insert_eq. by rewrite Z.sub_0_r.
      * intros b (s1 & x1 & Hs1 & Hraw1). simplify_eq. congruence.
      * intros b Hb _. by rewrite lookup_insert_ne.
    + destruct Hxs as (-> & l & Hl & Hxs & Hle).
      assert (b ≠ nb) as Hbn.
      { intros ->. rewrite (wf_fresh_block _ Hwf) in Hl; [done|]. unfold nb. lia. }
      eapply wp_ptr_add; [simpl; by rewrite lookup_insert_ne|lia|].
      eapply wp_bind, wp_bind, wp_bind, wp_ptr_diff; [simpl; by rewrite lookup_insert_ne|].
      destruct (Z.ltb_spec (0 + size_ s - 0) 0); [lia|]. apply wp_ret.
      eapply wp_mono.
      { eapply (wp_copy_n _ 0 b nb _ l); try done.
        - simpl. by rewrite lookup_insert_ne.
        - simpl. by rewrite lookup_insert_eq.
        - lia.
        - rewrite length_replicate. lia. }
      intros ? w2 [Hst Hh]. cbv beta in *.
      pose proof Hst as (Ho2 & _ & _ & _ & Hfr2). simpl in *.
      eapply wp_bind, wp_rd; [by rewrite Ho2|]. cbv beta. simpl.
      eapply wp_bind, wp_wr_items_; [by rewrite Ho2|].
      eapply wp_bind, wp_wr_capacity_; [simpl; by rewrite lookup_insert_eq|]. simpl.
      rewrite Hraw.
      eapply wp_delete_array.
      { simpl. rewrite Hfr2 by done. by rewrite lookup_insert_ne. }
      simpl. rewrite insert_insert_eq, Ho2. split_and!; try done.
      * rewrite lookup_delete_ne by done. rewrite Hh. f_equal.
        change (Z.to_nat 0) with O. rewrite drop_0. simpl.
        replace (Z.to_nat (0 + size_ s - 0)) with (Z.to_nat (size_ s)) by lia.
        rewrite <-Hxs. f_equal. rewrite drop_replicate. f_equal. lia.
      * intros b' (s1 & x1 & Hs1 & Hraw1). simplify_eq.
        assert (b' = b) as -> by congruence. by rewrite lookup_delete_eq.
      * intros b' Hb' Hown. destruct (decide (b' = b)) as [->|Hb].
        -- destruct Hown. by exists s, 0.
        -- rewrite lookup_delete_ne by done. rewrite Hfr2 by done.
           by rewrite lookup_insert_ne.
  - intros Hn Hmax. pose proof max_alloc_range.
    unfold SimpleVector.Reserve. erewrite bind_ok; [|by apply rd_ok]. cbv beta.
    destruct (Z.gtb_spec n (capacity_ s)); [|lia].
    unfold ArrayPtr.from_size, bind, new_array.
    destruct (Z.eqb_spec n 0); [lia|].
    by destruct (Z.ltb_spec max_alloc n); [|lia].
Qed.

(** ** [Erase] and [Insert]: the shifts *)

Lemma insert2_shift_left (pre : list T) y m m' rest :
  <[S (length pre) := m']> (<[length pre := m]> (pre ++ y :: m :: rest))
  = (pre ++ [m]) ++ m' :: rest.
Proof.
  rewrite !insert_app_r_alt by (rewrite ?length_app; simpl; lia).
  rewrite Nat.sub_diag. replace (S (length pre) - length pre)%nat with 1%nat by lia.
  simpl. by rewrite <-app_assoc.
Qed.

Lemma insert2_shift_right (pre mid : list T) y m m' post :
  <[(length pre + length mid)%nat := m']>
    (<[S (length pre + length mid) := m]> (pre ++ (mid ++ [m]) ++ y :: post))
  = pre ++ mid ++ m' :: m :: post.
Proof.
  rewrite <-(app_assoc mid), (app_assoc pre mid). simpl.
  rewrite !insert_app_r_alt by (rewrite ?length_app; simpl; lia).
  rewrite length_app, Nat.sub_diag.
  replace (S (length pre + length mid) - (length pre + length mid))%nat with 1%nat by lia.
  simpl. by rewrite <-app_assoc.
Qed.

(** [std::move] of [mid] one cell to the left, inside one array *)
Lemma wp_move_n_shift mid pre y post b w i :
  i = Z.of_nat (length pre) →
  heap w !! b = Some (pre ++ y :: mid ++ post) →
  wp (Std.move_n (length mid) (Ptr b (i + 1)) (Ptr b i)) w
     (λ r w', r = Ptr b (i + Z.of_nat (length mid)) ∧
              ∃ x, w' = set_heap (<[b := pre ++ mid ++ x :: post]> (heap w)) w).
Proof.
  revert pre y w i. induction mid as [|m mid IH]; intros pre y w i Hi Hl; simpl.
  - apply wp_ret. split; [f_equal; lia|]. exists y. by rewrite set_heap_insert_id.
  - unfold Std.move_assign. simpl in Hl.
    assert (length (pre ++ y :: m :: mid ++ post) =
            (length pre + S (S (length mid + length post)))%nat) as Hlen.
    { rewrite length_app. simpl. rewrite length_app. lia. }
    eapply wp_bind, wp_bind, wp_load; [done|lia| |].
    { replace (Z.to_nat (i + 1)) with (length pre + 1)%nat by lia.
      rewrite lookup_app_r by lia.
      by replace (length pre + 1 - length pre)%nat with 1%nat by lia. }
    eapply wp_bind, wp_store; [done|lia|].
    eapply wp_store; [simpl; by rewrite lookup_insert_eq| |].
    { rewrite length_insert. lia. }
    simpl. rewrite insert_insert_eq.
    replace (Z.to_nat i) with (length pre) by lia.
    replace (Z.to_nat (i + 1)) with (S (length pre)) by lia.
    rewrite insert2_shift_left.
    eapply wp_bind, wp_ptr_add; [simpl; by rewrite lookup_insert_eq| |].
    { rewrite !length_app. simpl. rewrite length_app. lia. }
    eapply wp_bind, wp_ptr_add; [simpl; by rewrite lookup_insert_eq| |].
    { rewrite !length_app. simpl. rewrite length_app. lia. }
    eapply wp_mono.
    { eapply (IH (pre ++ [m]) (moved_from m) _ (i + 1)).
      - rewrite length_app. simpl. lia.
      - simpl. by rewrite lookup_insert_eq. }
    intros r w' [-> [x ->]]. cbv beta. split; [f_equal; lia|]. exists x.
    unfold set_heap. simpl. rewrite insert_insert_eq. by rewrite <-app_assoc.
Qed.

(** [std::move_backward] of [mid] one cell to the right, inside one array *)
Lemma wp_move_backward_n_shift mid pre y post b w i :
  i = Z.of_nat (length pre) →
  heap w !! b = Some (pre ++ mid ++ y :: post) →
  wp (Std.move_backward_n (length mid) (Ptr b (i + Z.of_nat (length mid)))
        (Ptr b (i + Z.of_nat (length mid) + 1))) w
     (λ r w', r = Ptr b (i + 1) ∧
              ∃ x, w' = set_heap (<[b := pre ++ x :: mid ++ post]> (heap w)) w).
Proof.
  revert y post w. induction mid as [|m mid IH] using rev_ind; intros y post w Hi Hl.
  - simpl. apply wp_ret. split; [f_equal; lia|]. exists y. by rewrite set_heap_insert_id.
  - rewrite length_app. simpl. rewrite Nat.add_1_r. simpl.
    assert (length (pre ++ (mid ++ [m]) ++ y :: post) =
            (length pre + length mid + S (S (length post)))%nat) as Hlen.
    { rewrite !length_app. simpl. lia. }
    eapply wp_bind, wp_ptr_add; [done|lia|].
    eapply wp_bind, wp_ptr_add; [done|lia|].
    unfold Std.move_assign.
    eapply wp_bind, wp_bind, wp_load; [done|lia| |].
    { replace (Z.to_nat (i + Z.of_nat (S (length mid)) + -1))
        with (length pre + length mid)%nat by lia.
      rewrite app_assoc. rewrite lookup_app_l by (rewrite !length_app; simpl; lia).
      rewrite app_assoc. rewrite lookup_app_r by (rewrite length_app; lia).
      rewrite length_app. by rewrite Nat.sub_diag. }
    eapply wp_bind, wp_store; [done|lia|].
    eapply wp_store; [simpl; by rewrite lookup_insert_eq| |].
    { rewrite length_insert. lia. }
    simpl. rewrite insert_insert_eq.
    replace (Z.to_nat (i + Z.of_nat (S (length mid)) + 1 + -1))
      with (S (length pre + length mid)) by lia.
    replace (Z.to_nat (i + Z.of_nat (S (length mid)) + -1))
      with (length pre + length mid)%nat by lia.
    rewrite insert2_shift_right.
    replace (i + Z.of_nat (S (length mid)) + -1) with (i + Z.of_nat (length mid)) by lia.
    replace (i + Z.of_nat (S (length mid)) + 1 + -1)
      with (i + Z.of_nat (length mid) + 1) by lia.
    eapply wp_mono.
    { eapply (IH (moved_from m) (m :: post)); [done|].
      simpl. by rewrite lookup_insert_eq. }
    intros r w' [-> [x ->]]. cbv beta. split; [done|]. exists x.
    unfold set_heap. simpl. rewrite insert_insert_eq. by rewrite <-app_assoc.
Qed.

(** an array cut at the cell [i] and at the size [n] *)
Lemma array_split (l : list T) i n y :
  l !! i = Some y → (i < n ≤ length l)%nat →
  l = take i l ++ y :: take (n - S i) (drop (S i) l) ++ drop n l.
Proof.
  intros Hy Hn. rewrite <-(take_drop_middle l i y Hy) at 1. do 2 f_equal.
  rewrite <-(take_drop (n - S i) (drop (S i) l)) at 1. f_equal.
  rewrite drop_drop. f_equal. lia.
Qed.

Lemma cbegin_run this w s :
  objs w !! this = Some s →
  SimpleVector.cbegin this w = Ok (ArrayPtrRep.raw_ptr_ (items_ s)) w.
Proof. intros Hs. unfold SimpleVector.cbegin, ArrayPtr.Get. by erewrite bind_ok; [|by apply rd_ok]. Qed.

Lemma end_run this w s b l :
  objs w !! this = Some s → ArrayPtrRep.raw_ptr_ (items_ s) = Ptr b 0 →
  heap w !! b = Some l → 0 ≤ size_ s ≤ Z.of_nat (length l) →
  SimpleVector.end_ this w = Ok (Ptr b (size_ s)) w.
Proof.
  intros Hs Hraw Hl Hsz. unfold SimpleVector.end_, ArrayPtr.Get.
  erewrite bind_ok; [|by apply rd_ok]. erewrite bind_ok; [|by apply rd_ok].
  cbv beta. rewrite Hraw. unfold ptr_add. rewrite Hl.
  destruct (Z.leb_spec 0 (0 + size_ s)); [|lia].
  by destruct (Z.leb_spec (0 + size_ s) (Z.of_nat (length l))); [|lia].
Qed.

Lemma cend_run this w s b l :
  objs w !! this = Some s → ArrayPtrRep.raw_ptr_ (items_ s) = Ptr b 0 →
  heap w !! b = Some l → 0 ≤ size_ s ≤ Z.of_nat (length l) →
  SimpleVector.cend this w = Ok (Ptr b (size_ s)) w.
Proof. apply end_run. Qed.

Lemma ptr_add_run b o n l w :
  heap w !! b = Some l → 0 ≤ o + n ≤ Z.of_nat (length l) →
  ptr_add (Ptr b o) n w = Ok (Ptr b (o + n)) w.
Proof.
  intros Hl Hn. unfold ptr_add. rewrite Hl.
  destruct (Z.leb_spec 0 (o + n)); [|lia].
  by destruct (Z.leb_spec (o + n) (Z.of_nat (length l))); [|lia].
Qed.

Lemma ptr_add_inv b o n w q :
  ptr_add (Ptr b o) n w = Ok q w → q = Ptr b (o + n).
Proof. unfold ptr_add. intros Hq. repeat case_match; by simplify_eq. Qed.

(** X15.  [Erase(pos)], for [pos = begin() + i] with [i < size], removes
    the element at index [i]: the elements before it stay, those behind it
    move one place to the front; the iterator returned is [pos]; the
    capacity and the array stay and the other vectors keep their elements.
    For [pos = end()], and so on every empty vector, the assertion
    fails. *)
Theorem erase_elements (w : world) (this : loc) (s : SimpleVectorRep)
    (xs : list T) (first pos : pointer) (i : Z) :
  wf_world w → objs w !! this = Some s → elements w this = Some xs →
  SimpleVector.begin_ this w = Ok first w → ptr_add first i w = Ok pos w →
  0 ≤ i ≤ Z.of_nat (length xs) →
  (i = Z.of_nat (length xs) → SimpleVector.Erase this pos w = AssertFail) ∧
  (i < Z.of_nat (length xs) →
   ∃ w',
     SimpleVector.Erase this pos w = Ok pos w' ∧
     wf_world w' ∧
     elements w' this = Some (take (Z.to_nat i) xs ++ drop (S (Z.to_nat i)) xs) ∧
     SimpleVector.begin_ this w' = Ok first w' ∧
     SimpleVector.GetCapacity this w' = Ok (capacity_ s) w' ∧
     (backed w this → backed w' this) ∧
     ∀ o, o ≠ this → elements w' o = elements w o).
Proof.
  intros Hwf Hs Hel Hfirst Hpos Hi.
  pose proof Hel as (s0 & Hs0 & Hlen & Hxs)%elements_Some. simplify_eq.
  pose proof (wf_size_bound _ _ _ Hwf Hs) as Hb.
  rewrite (begin_run _ _ _ Hs) in Hfirst. injection Hfirst as <-.
  destruct (decide (xs = [])) as [->|Hne].
  { (* no elements: [!IsEmpty()] fails *)
    simpl in *. assert (i = 0) as -> by lia. split; [|lia]. intros _.
    unfold SimpleVector.Erase, SimpleVector.IsEmpty.
    erewrite bind_ok; [|erewrite bind_ok; [|by apply rd_ok]; done].
    by rewrite Hlen. }
  assert (0 < size_ s) as Hpos0 by (destruct xs; [done|simpl in Hlen; lia]).
  destruct (ArrayPtrRep.raw_ptr_ (items_ s)) as [|b x] eqn:Hraw.
  { subst xs. done. }
  destruct Hxs as (-> & l & Hl & Hxs & Hle).
  apply ptr_add_inv in Hpos. rewrite Z.add_0_l in Hpos. subst pos.
  assert (SimpleVector.IsEmpty this w = Ok false w) as Hempty.
  { unfold SimpleVector.IsEmpty. erewrite bind_ok; [|by apply rd_ok].
    cbv beta. by destruct (Z.eqb_spec (size_ s) 0); [lia|]. }
  assert (SimpleVector.in_range_open this (Ptr b i) w = Ok (i <? size_ s) w) as Hrange.
  { unfold SimpleVector.in_range_open.
    erewrite bind_ok; [|by apply cbegin_run]. rewrite Hraw. simpl.
    rewrite Nat.eqb_refl. destruct (Z.leb_spec 0 i); [|lia].
    erewrite bind_ok; [|by eapply cend_run; [done..|lia]].
    unfold ret, ptr_lt, ptr_le, ptr_eqb. rewrite Nat.eqb_refl. simpl. f_equal.
    destruct (Z.leb_spec i (size_ s)), (Z.eqb_spec i (size_ s)), (Z.ltb_spec i (size_ s));
      simpl; try done; lia. }
  split.
  - intros ->. unfold SimpleVector.Erase.
    erewrite bind_ok; [|exact Hempty]. simpl. erewrite bind_ok; [|done].
    erewrite bind_ok; [|exact Hrange].
    by destruct (Z.ltb_spec (Z.of_nat (length xs)) (size_ s)); [lia|].
  - intros Hlt.
    destruct (lookup_lt_is_Some_2 l (Z.to_nat i)) as [y Hy]; [lia|].
    set (pre := take (Z.to_nat i) l).
    set (mid := take (Z.to_nat (size_ s) - S (Z.to_nat i)) (drop (S (Z.to_nat i)) l)).
    set (post := drop (Z.to_nat (size_ s)) l).
    assert (l = pre ++ y :: mid ++ post) as Hsplit by (apply array_split; [done|lia]).
    assert (length pre = Z.to_nat i) as Hlpre by (unfold pre; rewrite length_take; lia).
    assert (length mid = (Z.to_nat (size_ s) - S (Z.to_nat i))%nat) as Hlmid.
    { unfold mid. rewrite length_take, length_drop. lia. }
    assert (length l = (length pre + S (length mid + length post))%nat) as Hll.
    { rewrite Hsplit at 1. rewrite length_app. simpl. rewrite length_app. lia. }
    cut (wp (SimpleVector.Erase this (Ptr b i)) w (λ r w',
           r = Ptr b i ∧
           ∃ x, w' = World (<[b := pre ++ mid ++ x :: post]> (heap w)) (next_block w)
                       (<[this := BuildSV (size_ s - 1) (capacity_ s) (items_ s)]> (objs w))
                       (next_loc w))).
    { intros (r & w' & Heq & -> & x & Hw')%wp_elim. exists w'.
      assert (objs w' !! this = Some (BuildSV (size_ s - 1) (capacity_ s) (items_ s)))
        as Hs' by (rewrite Hw'; simpl; by rewrite lookup_insert_eq).
      assert (heap w' !! b = Some (pre ++ mid ++ x :: post)) as Hl'
        by (rewrite Hw'; simpl; by rewrite lookup_insert_eq).
      split_and!; try done.
      - destruct (wlp_eq _ _ _ _ _ _ (Erase_kept this (Ptr b i) w Hwf) Heq). done.
      - rewrite (elements_intro _ _ _ _ _ Hs' Hraw Hl'); simpl.
        2:{ rewrite length_app. simpl. rewrite length_app. simpl. lia. }
        f_equal. rewrite app_assoc.
        rewrite take_app_le by (rewrite length_app; lia).
        rewrite take_ge by (rewrite length_app; lia).
        rewrite Hxs. rewrite take_take.
        replace (Z.to_nat i `min` Z.to_nat (size_ s))%nat with (Z.to_nat i) by lia.
        fold pre. f_equal. unfold mid.
        rewrite take_drop_commute. do 2 f_equal. lia.
      - rewrite (begin_run _ _ _ Hs'). simpl. by rewrite Hraw.
      - by rewrite (GetCapacity_ok _ _ _ Hs').
      - intros (s0 & Hs0 & Hback). simplify_eq. rewrite Hraw in Hback.
        destruct Hback as (l0 & Hl0 & Hcl). assert (l0 = l) as -> by congruence.
        eapply backed_intro; [done..|]. simpl.
        rewrite length_app. simpl. rewrite length_app. simpl. lia.
      - apply (elements_others w w' this Hwf); rewrite Hw'; simpl.
        + intros o Ho. by rewrite lookup_insert_ne.
        + intros b' _ Hown. rewrite lookup_insert_ne; [done|].
          intros <-. apply Hown. by exists s, 0. }
    unfold SimpleVector.Erase.
    eapply wp_bind, wp_intro; [exact Hempty|]. apply wp_bind, wp_assert; [done|].
    eapply wp_bind, wp_intro; [exact Hrange|].
    destruct (Z.ltb_spec i (size_ s)); [|lia]. apply wp_bind, wp_assert; [done|].
    eapply wp_bind, wp_intro; [by apply cbegin_run|]. rewrite Hraw.
    eapply wp_bind, wp_ptr_diff; [done|]. rewrite Z.sub_0_r. rewrite (wrap_small i) by lia.
    rewrite (wrap_small (i + 1)) by lia.
    unfold ArrayPtr.index.
    eapply wp_bind, wp_rd; [done|]. cbv beta. rewrite Hraw.
    eapply wp_bind, wp_ptr_add; [done|lia|].
    eapply wp_bind, wp_intro; [by eapply end_run; [done..|lia]|].
    eapply wp_bind, wp_rd; [done|]. cbv beta. rewrite Hraw.
    eapply wp_bind, wp_ptr_add; [done|lia|]. rewrite !Z.add_0_l.
    unfold Std.move, Std.range_length.
    eapply wp_bind, wp_bind, wp_bind, wp_ptr_diff; [done|].
    destruct (Z.ltb_spec (size_ s - (i + 1)) 0); [lia|]. apply wp_ret.
    replace (Z.to_nat (size_ s - (i + 1))) with (length mid) by lia.
    eapply wp_mono.
    { eapply (wp_move_n_shift mid pre y post b w i); [lia|]. by rewrite <-Hsplit. }
    intros r w1 [-> [x ->]]. cbv beta.
    eapply wp_bind, wp_rd; [done|]. cbv beta. rewrite wrap_small by lia.
    eapply wp_bind, wp_wr_size_; [done|].
    eapply wp_bind, wp_rd; [simpl; by rewrite lookup_insert_eq|]. simpl. rewrite Hraw.
    eapply wp_ptr_add; [simpl; by rewrite lookup_insert_eq| |].
    { rewrite length_app. simpl. rewrite length_app. simpl. lia. }
    rewrite Z.add_0_l. split; [done|]. by exists x.
Qed.

Lemma array_split_right (l : list T) i n y :
  l !! n = Some y → (i ≤ n)%nat →
  l = take i l ++ take (n - i) (drop i l) ++ y :: drop (S n) l.
Proof.
  intros Hy Hn. rewrite app_assoc, take_take_drop.
  replace (i + (n - i))%nat with n by lia. by rewrite take_drop_middle.
Qed.

Lemma in_range_closed_run this w s b l i :
  objs w !! this = Some s → ArrayPtrRep.raw_ptr_ (items_ s) = Ptr b 0 →
  heap w !! b = Some l → 0 ≤ size_ s ≤ Z.of_nat (length l) → 0 ≤ i →
  SimpleVector.in_range_closed this (Ptr b i) w = Ok (i <=? size_ s) w.
Proof.
  intros Hs Hraw Hl Hsz Hi. unfold SimpleVector.in_range_closed.
  erewrite bind_ok; [|by apply cbegin_run]. rewrite Hraw. simpl.
  rewrite Nat.eqb_refl. destruct (Z.leb_spec 0 i); [|lia].
  erewrite bind_ok; [|by eapply cend_run]. unfold ret, ptr_le. by rewrite Nat.eqb_refl.
Qed.

(** X16.  [Insert(pos, value)] by [const Type&], under three conditions:
    [pos = begin() + i] with [i <= size]; the vector has room to spare
    ([size < capacity]) and an array with a cell for each unit of capacity
    behind it; and [value] refers to an object of the caller that is not
    an element of a vector.  Then the value of the argument becomes the
    element at index [i], the elements before it stay and those from [i]
    on move one place to the back; the iterator returned is [pos] and
    points to the new element; the capacity and the array stay; the
    argument and the other vectors are what they were.  (For an argument
    inside the vector, and for a copy of a vector with spare capacity,
    which has no such array, this is not what happens.) *)
Theorem insert_const_ref_elements (w : world) (this : loc) (s : SimpleVectorRep)
    (xs : list T) (first pos value : pointer) (i : Z) (v : T) :
  wf_world w → objs w !! this = Some s → elements w this = Some xs →
  backed w this → size_ s < capacity_ s → client_holds w value v →
  SimpleVector.begin_ this w = Ok first w → ptr_add first i w = Ok pos w →
  0 ≤ i ≤ Z.of_nat (length xs) →
  ∃ w',
    SimpleVector.Insert_const_ref this pos value w = Ok pos w' ∧
    wf_world w' ∧
    elements w' this = Some (take (Z.to_nat i) xs ++ v :: drop (Z.to_nat i) xs) ∧
    load pos w' = Ok v w' ∧
    SimpleVector.begin_ this w' = Ok first w' ∧
    SimpleVector.GetCapacity this w' = Ok (capacity_ s) w' ∧
    backed w' this ∧
    client_holds w' value v ∧
    ∀ o, o ≠ this → elements w' o = elements w o.
Proof.
  intros Hwf Hs Hel Hback Hroom Hvalue Hfirst Hpos Hi.
  pose proof Hel as (s0 & Hs0 & Hlen & Hxs)%elements_Some. simplify_eq.
  pose proof (wf_size_bound _ _ _ Hwf Hs) as Hb.
  pose proof (wf_vec_of _ _ _ Hwf Hs) as [Hsz _].
  rewrite (begin_run _ _ _ Hs) in Hfirst. injection Hfirst as <-.
  destruct Hback as (s0 & Hs0 & Hback). simplify_eq.
  destruct (ArrayPtrRep.raw_ptr_ (items_ s)) as [|b x] eqn:Hraw; [lia|].
  destruct Hxs as (-> & l & Hl & Hxs & Hle).
  destruct Hback as (l0 & Hl0 & Hcl). assert (l0 = l) as -> by congruence.
  apply ptr_add_inv in Hpos. rewrite Z.add_0_l in Hpos. subst pos.
  destruct value as [|bv ov]; [done|].
  pose proof Hvalue as [(lv & Hlv & Hov & Hv) Hfree].
  assert (bv ≠ b) as Hne by (intros ->; apply (Hfree this); by exists s, 0).
  set (s1 := BuildSV (size_ s + 1) (capacity_ s) (items_ s)).
  set (w1 := set_objs (<[this := s1]> (objs w)) w).
  assert (objs w1 !! this = Some s1) as Hs1 by (simpl; by rewrite lookup_insert_eq).
  assert (SimpleVector.make_room this w = Ok tt w1) as Hmk.
  { apply wp_intro_eq. unfold SimpleVector.make_room.
    eapply wp_bind, wp_rd; [done|]. eapply wp_bind, wp_rd; [done|]. simpl.
    destruct (Z.ltb_spec (size_ s) (capacity_ s)); [|lia].
    rewrite wrap_small by lia. by eapply wp_wr_size_. }
  (* the state the call leaves, for the array it leaves *)
  cut (∃ l', wp (SimpleVector.Insert_const_ref this (Ptr b i) (Ptr bv ov)) w (λ r w',
           r = Ptr b i ∧ w' = set_heap (<[b := l']> (heap w1)) w1) ∧
         length l' = length l ∧
         take (Z.to_nat (size_ s + 1)) l' =
           take (Z.to_nat i) xs ++ v :: drop (Z.to_nat i) xs ∧
         l' !! Z.to_nat i = Some v).
  { intros (l' & (r & w' & Heq & -> & Hw')%wp_elim & Hlen' & Htake & Hat).
    exists w'.
    assert (objs w' !! this = Some s1) as Hs' by (by rewrite Hw').
    assert (heap w' !! b = Some l') as Hl'
      by (rewrite Hw'; simpl; by rewrite lookup_insert_eq).
    destruct (wlp_eq _ _ _ _ _ _ (Insert_const_ref_kept this (Ptr b i) (Ptr bv ov) w Hwf) Heq)
      as [Hwf' Hcf].
    destruct (Hcf bv lv Hlv Hfree) as [Hlv' Hfree'].
    split_and!; try done.
    - rewrite (elements_intro _ _ _ _ _ Hs' Hraw Hl'); simpl; [by rewrite Htake|lia].
    - unfold load. rewrite Hl'. destruct (Z.leb_spec 0 i); [|lia]. by rewrite Hat.
    - rewrite (begin_run _ _ _ Hs'). simpl. by rewrite Hraw.
    - by rewrite (GetCapacity_ok _ _ _ Hs').
    - eapply backed_intro; [done..|]. simpl. lia.
    - split; [|done]. by exists lv.
    - apply (elements_others w w' this Hwf); rewrite Hw'; simpl.
      + intros o Ho. by rewrite lookup_insert_ne.
      + intros b' _ Hown. rewrite lookup_insert_ne; [done|].
        intros <-. apply Hown. by exists s, 0. }
  assert (SimpleVector.in_range_closed this (Ptr b i) w = Ok true w) as Hrange.
  { rewrite (in_range_closed_run this w s b l i) by (done || lia).
    by destruct (Z.leb_spec i (size_ s)); [|lia]. }
  assert (SimpleVector.end_ this w1 = Ok (Ptr b (size_ s + 1)) w1) as Hend1.
  { apply (end_run this w1 s1 b l); try done. simpl. lia. }
  destruct (decide (i = size_ s)) as [->|Hni].
  - (* at the end: [PushBack] *)
    exists (<[Z.to_nat (size_ s) := v]> l). split_and!.
    + unfold SimpleVector.Insert_const_ref.
      eapply wp_bind, wp_intro; [exact Hrange|]. apply wp_bind, wp_assert; [done|].
      eapply wp_bind, wp_intro; [by eapply cend_run; [done..|lia]|].
      unfold ptr_eqb. rewrite Nat.eqb_refl, Z.eqb_refl. simpl.
      unfold SimpleVector.PushBack_const_ref.
      eapply wp_bind, wp_bind, wp_intro; [exact Hmk|].
      eapply wp_bind, wp_rd; [done|]. eapply wp_bind, wp_rd; [done|]. simpl.
      replace (size_ s + 1 - 1) with (size_ s) by lia. rewrite wrap_small by lia.
      unfold ArrayPtr.index. rewrite Hraw.
      eapply wp_bind, wp_ptr_add; [done|lia|]. unfold Std.copy_assign.
      eapply wp_bind, wp_load; [done..|].
      eapply wp_store; [done|lia|]. rewrite Z.add_0_l.
      eapply wp_bind, wp_intro.
      { apply (end_run this _ s1 b (<[Z.to_nat (size_ s) := v]> l)); try done.
        - simpl. by rewrite lookup_insert_eq.
        - simpl. rewrite length_insert. lia. }
      simpl. eapply wp_ptr_add; [simpl; by rewrite lookup_insert_eq| |].
      { rewrite length_insert. lia. }
      split; [f_equal; lia|done].
    + by rewrite length_insert.
    + replace (Z.to_nat (size_ s + 1)) with (S (Z.to_nat (size_ s))) by lia.
      rewrite take_S_insert by lia. rewrite <-Hxs.
      rewrite take_ge, drop_ge by lia. done.
    + apply list_lookup_insert_eq. lia.
  - (* in the middle: the elements from [i] on move to the back *)
    destruct (lookup_lt_is_Some_2 l (Z.to_nat (size_ s))) as [y Hy]; [lia|].
    set (pre := take (Z.to_nat i) l).
    set (mid := take (Z.to_nat (size_ s) - Z.to_nat i) (drop (Z.to_nat i) l)).
    set (post := drop (S (Z.to_nat (size_ s))) l).
    assert (l = pre ++ mid ++ y :: post) as Hsplit
      by (apply array_split_right; [done|lia]).
    assert (length pre = Z.to_nat i) as Hlpre by (unfold pre; rewrite length_take; lia).
    assert (length mid = (Z.to_nat (size_ s) - Z.to_nat i)%nat) as Hlmid.
    { unfold mid. rewrite length_take, length_drop. lia. }
    assert (length l = (length pre + (length mid + S (length post)))%nat) as Hll.
    { rewrite Hsplit at 1. rewrite !length_app. simpl. lia. }
    exists (pre ++ v :: mid ++ post). split_and!.
    + unfold SimpleVector.Insert_const_ref.
      eapply wp_bind, wp_intro; [exact Hrange|]. apply wp_bind, wp_assert; [done|].
      eapply wp_bind, wp_intro; [by eapply cend_run; [done..|lia]|].
      unfold ptr_eqb. rewrite Nat.eqb_refl.
      destruct (Z.eqb_spec i (size_ s)); [lia|]. simpl.
      eapply wp_bind, wp_intro; [exact Hmk|].
      eapply wp_bind, wp_intro; [by apply cbegin_run|]. simpl. rewrite Hraw.
      eapply wp_bind, wp_ptr_diff; [done|]. rewrite Z.sub_0_r, (wrap_small i) by lia.
      unfold ArrayPtr.index.
      eapply wp_bind, wp_rd; [done|]. simpl. rewrite Hraw.
      eapply wp_bind, wp_ptr_add; [done|lia|].
      eapply wp_bind, wp_intro; [exact Hend1|].
      eapply wp_bind, wp_ptr_add; [done|lia|].
      eapply wp_bind, wp_intro; [exact Hend1|].
      unfold Std.move_backward, Std.range_length.
      eapply wp_bind, wp_bind, wp_bind, wp_ptr_diff; [done|].
      destruct (Z.ltb_spec (size_ s + 1 + -1 - (0 + i)) 0); [lia|]. apply wp_ret.
      replace (Z.to_nat (size_ s + 1 + -1 - (0 + i))) with (length mid) by lia.
      replace (size_ s + 1 + -1) with (i + Z.of_nat (length mid)) by lia.
      replace (size_ s + 1) with (i + Z.of_nat (length mid) + 1) by lia.
      eapply wp_mono.
      { eapply (wp_move_backward_n_shift mid pre y post b w1 i); [lia|].
        simpl. by rewrite <-Hsplit. }
      intros r w2 [-> [x ->]]. cbv beta.
      eapply wp_bind, wp_ptr_add; [simpl; by rewrite lookup_insert_eq| |].
      { rewrite !length_app. simpl. rewrite length_app. lia. }
      unfold Std.copy_assign.
      eapply wp_bind, wp_bind, wp_load; [simpl; by rewrite lookup_insert_ne|done..|].
      eapply wp_store; [simpl; by rewrite lookup_insert_eq| |].
      { rewrite !length_app. simpl. rewrite length_app. lia. }
      apply wp_ret. split; [f_equal; lia|].
      unfold set_heap. simpl. rewrite insert_insert_eq. do 2 f_equal.
      replace (Z.to_nat (i + 1 + -1)) with (length pre) by lia.
      rewrite insert_app_r_alt by lia. by rewrite Nat.sub_diag.
    + rewrite !length_app. simpl. rewrite length_app. lia.
    + replace (pre ++ v :: mid ++ post) with ((pre ++ v :: mid) ++ post)
        by (by rewrite <-app_assoc).
      rewrite take_app_le by (rewrite length_app; simpl; lia).
      rewrite take_ge by (rewrite length_app; simpl; lia).
      rewrite Hxs, take_take.
      replace (Z.to_nat i `min` Z.to_nat (size_ s))%nat with (Z.to_nat i) by lia.
      fold pre. do 2 f_equal. unfold mid. rewrite take_drop_commute.
      do 2 f_equal. lia.
    + rewrite lookup_app_r by lia. by rewrite Hlpre, Nat.sub_diag.
Qed.

(** ** Iterators and comparisons *)

Lemma reads_array w b i k l :
  heap w !! b = Some l → 0 ≤ i → i + Z.of_nat k ≤ Z.of_nat (length l) →
  reads w (Ptr b i) (take k (drop (Z.to_nat i) l)).
Proof.
  intros Hl. revert i. induction k as [|k IH]; intros i Hi Hk; [by rewrite take_0|].
  destruct (lookup_lt_is_Some_2 l (Z.to_nat i)) as [x Hx]; [lia|].
  rewrite (drop_S l x (Z.to_nat i)) by done. simpl. split.
  - unfold load. rewrite Hl. destruct (Z.leb_spec 0 i); [|lia]. by rewrite Hx.
  - exists (Ptr b (i + 1)). split; [apply (ptr_add_run b i 1 l); [done|lia]|].
    replace (S (Z.to_nat i)) with (Z.to_nat (i + 1)) by lia. apply IH; lia.
Qed.

(** what [begin()] and [end()] are for a vector with the elements [xs] *)
Lemma elements_range w this xs :
  elements w this = Some xs →
  ∃ first last,
    SimpleVector.begin_ this w = Ok first w ∧
    SimpleVector.end_ this w = Ok last w ∧
    reads w first xs ∧
    ptr_add first (Z.of_nat (length xs)) w = Ok last w ∧
    Std.range_length first last w = Ok (length xs) w.
Proof.
  intros (s & Hs & Hlen & Hxs)%elements_Some.
  destruct (ArrayPtrRep.raw_ptr_ (items_ s)) as [|b x] eqn:Hraw.
  - subst xs. simpl in Hlen. exists Null, Null.
    rewrite (begin_run _ _ _ Hs), Hraw. split; [done|].
    unfold SimpleVector.end_, ArrayPtr.Get.
    erewrite bind_ok; [|by apply rd_ok]. erewrite bind_ok; [|by apply rd_ok].
    cbv beta. by rewrite Hraw, Hlen.
  - destruct Hxs as (-> & l & Hl & -> & Hle).
    assert (0 ≤ size_ s) as Hsz by lia.
    exists (Ptr b 0), (Ptr b (size_ s)).
    rewrite (begin_run _ _ _ Hs), Hraw. split; [done|].
    rewrite (end_run _ _ _ _ _ Hs Hraw Hl) by lia. split; [done|].
    rewrite length_take. split_and!.
    + pose proof (reads_array w b 0 (Z.to_nat (size_ s)) l Hl) as Hr.
      change (Z.to_nat 0) with O in Hr. rewrite drop_0 in Hr. apply Hr; lia.
    + rewrite (ptr_add_run b 0 _ l) by (done || lia). do 2 f_equal. lia.
    + unfold Std.range_length, bind, ptr_diff. rewrite Nat.eqb_refl, Hl.
      destruct (Z.ltb_spec (size_ s - 0) 0); [lia|]. unfold ret. f_equal. lia.
Qed.

Lemma load_same w p z w' : load p w = Ok z w' → w' = w.
Proof. unfold load. intros Hl. repeat case_match; by simplify_eq. Qed.

Lemma wp_equal_n_run xs ys p1 p2 w :
  reads w p1 xs → reads w p2 ys → length xs = length ys →
  Std.equal_n (length xs) p1 p2 w = Ok (equal_lists xs ys) w.
Proof.
  revert ys p1 p2. induction xs as [|x xs IH]; intros [|y ys] p1 p2 H1 H2 Hlen;
    simpl in *; try done.
  destruct H1 as (Hx & p1' & Hp1 & H1), H2 as (Hy & p2' & Hp2 & H2).
  erewrite bind_ok; [|exact Hx]. erewrite bind_ok; [|exact Hy].
  destruct (elem_eqb x y); [|done]. simpl.
  erewrite bind_ok; [|exact Hp1]. erewrite bind_ok; [|exact Hp2].
  apply IH; try done. lia.
Qed.

Lemma equal_lists_length xs ys : length xs ≠ length ys → equal_lists xs ys = false.
Proof.
  revert ys. induction xs as [|x xs IH]; intros [|y ys] Hlen; simpl in *; try done.
  rewrite IH by lia. apply andb_false_r.
Qed.

Lemma operator_eq_run w lhs rhs xs ys :
  elements w lhs = Some xs → elements w rhs = Some ys →
  SimpleVector.operator_eq lhs rhs w = Ok (equal_lists xs ys) w.
Proof.
  intros Hxs Hys.
  pose proof Hxs as (s1 & Hs1 & Hlen1 & _)%elements_Some.
  pose proof Hys as (s2 & Hs2 & Hlen2 & _)%elements_Some.
  destruct (elements_range _ _ _ Hxs) as (f1 & l1 & Hf1 & Hl1 & Hr1 & _ & Hn1).
  destruct (elements_range _ _ _ Hys) as (f2 & l2 & Hf2 & _ & Hr2 & _).
  unfold SimpleVector.operator_eq, SimpleVector.GetSize.
  erewrite bind_ok; [|by apply rd_ok]. erewrite bind_ok; [|by apply rd_ok].
  cbv beta. destruct (Z.eqb_spec (size_ s1) (size_ s2)) as [Hsame|Hdiff].
  - erewrite bind_ok; [|exact Hf1]. erewrite bind_ok; [|exact Hl1].
    erewrite bind_ok; [|exact Hf2]. unfold Std.equal.
    erewrite bind_ok; [|exact Hn1]. apply wp_equal_n_run; try done. lia.
  - rewrite equal_lists_length by lia. done.
Qed.

Lemma operator_ne_run w lhs rhs xs ys :
  elements w lhs = Some xs → elements w rhs = Some ys →
  SimpleVector.operator_ne lhs rhs w = Ok (negb (equal_lists xs ys)) w.
Proof.
  intros Hxs Hys. unfold SimpleVector.operator_ne.
  by erewrite bind_ok; [|by apply operator_eq_run].
Qed.

(** X17.  [operator==] answers whether the two vectors have the same size
    and elements that are equal one by one, by [operator==] of [Type];
    [operator!=] answers the opposite.  The capacities play no part and
    the state is what it was. *)
Theorem operator_eq_compares_elements (w : world) (lhs rhs : loc)
    (xs ys : list T) :
  elements w lhs = Some xs → elements w rhs = Some ys →
  SimpleVector.operator_eq lhs rhs w = Ok (equal_lists xs ys) w ∧
  SimpleVector.operator_ne lhs rhs w = Ok (negb (equal_lists xs ys)) w.
Proof.
  intros Hxs Hys. split; [by apply operator_eq_run|by apply operator_ne_run].
Qed.

Section Ordered.
Context `{!Ordered T}.

Lemma lexicographical_compare_n_run xs ys p1 p2 w :
  reads w p1 xs → reads w p2 ys →
  Std.lexicographical_compare_n (length xs) (length ys) p1 p2 w = Ok (lex_lt xs ys) w.
Proof.
  revert ys p1 p2. induction xs as [|x xs IH]; intros [|y ys] p1 p2 H1 H2;
    simpl in *; try done.
  destruct H1 as (Hx & p1' & Hp1 & H1), H2 as (Hy & p2' & Hp2 & H2).
  erewrite bind_ok; [|exact Hx]. erewrite bind_ok; [|exact Hy].
  destruct (elem_ltb x y); [done|]. destruct (elem_ltb y x); [done|].
  erewrite bind_ok; [|exact Hp1]. erewrite bind_ok; [|exact Hp2].
  by apply IH.
Qed.

Lemma operator_lt_run w lhs rhs xs ys :
  elements w lhs = Some xs → elements w rhs = Some ys →
  SimpleVector.operator_lt lhs rhs w = Ok (lex_lt xs ys) w.
Proof.
  intros Hxs Hys.
  destruct (elements_range _ _ _ Hxs) as (f1 & l1 & Hf1 & Hl1 & Hr1 & _ & Hn1).
  destruct (elements_range _ _ _ Hys) as (f2 & l2 & Hf2 & Hl2 & Hr2 & _ & Hn2).
  unfold SimpleVector.operator_lt.
  erewrite bind_ok; [|exact Hf1]. erewrite bind_ok; [|exact Hl1].
  erewrite bind_ok; [|exact Hf2]. erewrite bind_ok; [|exact Hl2].
  unfold Std.lexicographical_compare.
  erewrite bind_ok; [|exact Hn1]. erewrite bind_ok; [|exact Hn2].
  by apply lexicographical_compare_n_run.
Qed.

(** X18.  [operator<] is the lexicographic comparison of the elements of
    the two vectors by [operator<] of [Type]; [a <= b] is [!(b < a)],
    [a > b] is [b < a] and [a >= b] is [!(a < b)].  The capacities play no
    part and the state is what it was. *)
Theorem comparison_operators_lexicographic (w : world) (lhs rhs : loc)
    (xs ys : list T) :
  elements w lhs = Some xs → elements w rhs = Some ys →
  SimpleVector.operator_lt lhs rhs w = Ok (lex_lt xs ys) w ∧
  SimpleVector.operator_le lhs rhs w = Ok (negb (lex_lt ys xs)) w ∧
  SimpleVector.operator_gt lhs rhs w = Ok (lex_lt ys xs) w ∧
  SimpleVector.operator_ge lhs rhs w = Ok (negb (lex_lt xs ys)) w.
Proof.
  intros Hxs Hys.
  pose proof (operator_lt_run w lhs rhs xs ys Hxs Hys) as Hlt.
  pose proof (operator_lt_run w rhs lhs ys xs Hys Hxs) as Hgt.
  assert (SimpleVector.operator_le lhs rhs w = Ok (negb (lex_lt ys xs)) w) as Hle.
  { unfold SimpleVector.operator_le. by erewrite bind_ok; [|exact Hgt]. }
  split_and!; try done.
  - unfold SimpleVector.operator_gt. erewrite bind_ok; [|exact Hle].
    unfold ret. by rewrite negb_involutive.
  - unfold SimpleVector.operator_ge. by erewrite bind_ok; [|exact Hlt].
Qed.

End Ordered.

(** X19.  Walking from [begin()] to [end()] reads the elements of the
    vector in order, and [end()] is [begin()] advanced by the size;
    [cbegin()] and [cend()] are the same two pointers.  For an index
    within the size, [operator[]] and [At] return the pointer to that
    element. *)
Theorem iterators_read_elements (w : world) (this : loc) (xs : list T) :
  elements w this = Some xs →
  ∃ first last,
    SimpleVector.begin_ this w = Ok first w ∧
    SimpleVector.end_ this w = Ok last w ∧
    SimpleVector.cbegin this w = Ok first w ∧
    SimpleVector.cend this w = Ok last w ∧
    reads w first xs ∧
    ptr_add first (Z.of_nat (length xs)) w = Ok last w ∧
    ∀ i x, xs !! i = Some x →
      ∃ p, ptr_add first (Z.of_nat i) w = Ok p w ∧
           load p w = Ok x w ∧
           SimpleVector.operator_index this (Z.of_nat i) w = Ok p w ∧
           SimpleVector.At this (Z.of_nat i) w = Ok p w.
Proof.
  intros Hel.
  destruct (elements_range _ _ _ Hel) as (first & last & Hf & Hl & Hr & Hadd & _).
  exists first, last. split_and!; try done.
  intros i x Hx.
  pose proof Hel as (s & Hs & Hlen & Hxs)%elements_Some.
  pose proof (lookup_lt_Some _ _ _ Hx) as Hi.
  rewrite (begin_run _ _ _ Hs) in Hf. injection Hf as <-.
  destruct (ArrayPtrRep.raw_ptr_ (items_ s)) as [|b o] eqn:Hraw.
  { subst xs. done. }
  destruct Hxs as (-> & l & Hll & -> & Hle).
  rewrite length_take in Hi.
  rewrite lookup_take_lt in Hx by lia.
  exists (Ptr b (0 + Z.of_nat i)).
  assert (ptr_add (Ptr b 0) (Z.of_nat i) w = Ok (Ptr b (0 + Z.of_nat i)) w) as Hp
    by (apply (ptr_add_run b 0 _ l); [done|lia]).
  split_and!; try done.
  - unfold load. rewrite Hll. destruct (Z.leb_spec 0 (0 + Z.of_nat i)); [|lia].
    replace (Z.to_nat (0 + Z.of_nat i)) with i by lia. by rewrite Hx.
  - unfold SimpleVector.operator_index, ArrayPtr.index.
    erewrite bind_ok; [|by apply rd_ok]. cbv beta.
    destruct (Z.leb_spec (Z.of_nat i) (size_ s)); [|lia]. simpl.
    erewrite bind_ok; [|done]. erewrite bind_ok; [|by apply rd_ok]. by rewrite Hraw.
  - rewrite (At_run _ _ _ _ Hs). rewrite Hraw.
    by destruct (Z.geb_spec (Z.of_nat i) (size_ s)); [lia|].
Qed.

(** ** The assignment operators and the destructor *)

(** X20.  Copy assignment from another vector.  When the two vectors
    compare equal nothing happens.  Otherwise [*this] gets a copy of the
    elements of [rhs], in a new array, with the capacity of [rhs], and the
    array it had is freed.  [rhs] and the other vectors keep their
    elements. *)
Theorem assign_copy_elements (w : world) (this rhs : loc) (s r : SimpleVectorRep)
    (xs ys : list T) :
  wf_world w → objs w !! this = Some s → objs w !! rhs = Some r →
  elements w this = Some xs → elements w rhs = Some ys → this ≠ rhs →
  ∃ w',
    SimpleVector.assign_copy this rhs w = Ok this w' ∧
    wf_world w' ∧
    (if equal_lists xs ys then w' = w
     else elements w' this = Some ys ∧
          SimpleVector.GetCapacity this w' = Ok (capacity_ r) w' ∧
          ∀ b, owns w this b → heap w' !! b = None) ∧
    ∀ o, o ≠ this → elements w' o = elements w o.
Proof.
  intros Hwf Hs Hr Hxs Hys Hne.
  pose proof (operator_ne_run w this rhs xs ys Hxs Hys) as Hcmp.
  pose proof (wf_obj_lt _ _ _ Hwf Hs) as Hlt.
  pose proof (wf_obj_lt _ _ _ Hwf Hr) as Hltr.
  pose proof (wf_vec_of _ _ _ Hwf Hs) as [Hsz Hp].
  pose proof Hys as (r0 & Hr0 & Hlenr & _)%elements_Some. simplify_eq.
  cut (wp (SimpleVector.assign_copy this rhs) w (λ res w',
         res = this ∧
         if equal_lists xs ys then w' = w
         else (∃ it, objs w' !! this = Some (BuildSV (size_ r) (capacity_ r) it) ∧
                     match ArrayPtrRep.raw_ptr_ it with
                     | Null => ys = []
                     | Ptr nb o => o = 0 ∧ heap w' !! nb = Some ys
                     end) ∧
              (∀ o, o ≠ this → objs w' !! o = objs w !! o) ∧
              (∀ b, owns w this b → heap w' !! b = None) ∧
              (∀ b l, heap w !! b = Some l → ¬ owns w this b → heap w' !! b = Some l))).
  { intros (res & w' & Heq & -> & Hpost)%wp_elim. exists w'.
    pose proof (wlp_eq _ _ _ _ _ _ (assign_copy_wf this rhs w Hwf) Heq) as Hwf'.
    destruct (equal_lists xs ys); [subst w'; done|].
    destruct Hpost as ((it & Hs' & Hit) & Hobjs & Hold & Hfr).
    split_and!; try done.
    - by apply (elements_at w' this r it ys Hs' Hlenr).
    - by rewrite (GetCapacity_ok _ _ _ Hs').
    - intros o Ho. apply elements_frame; [by apply Hobjs|].
      intros b Hb. destruct (wf_owns_live w o b Hwf Hb) as [l Hl].
      rewrite Hl. apply Hfr; [done|].
      intros Hthis. apply Ho. by eapply (wf_owner _ Hwf). }
  unfold SimpleVector.assign_copy.
  eapply wp_bind, wp_intro; [exact Hcmp|].
  destruct (equal_lists xs ys); simpl; [by apply wp_bind, wp_ret, wp_ret|].
  eapply wp_bind, wp_bind, wp_mono; [by apply (wp_ctor_copy rhs w r ys)|].
  intros tmp w1 (-> & it & Ho1 & Hfr1 & Hit).
  eapply wp_bind, wp_swap.
  { rewrite Ho1. by rewrite lookup_insert_ne by lia. }
  { rewrite Ho1. by rewrite lookup_insert_eq. }
  unfold SimpleVector.dtor, ArrayPtr.dtor.
  eapply wp_bind, wp_rd; [simpl; by rewrite lookup_insert_eq|]. cbv beta.
  assert (∀ (m : gmap loc SimpleVectorRep) a c,
            delete (next_loc w) (<[next_loc w := a]> (<[this := c]> m)) !! this = Some c)
    as Hthis.
  { intros m a c. rewrite lookup_delete_ne by lia.
    rewrite lookup_insert_ne by lia. by rewrite lookup_insert_eq. }
  assert (∀ a c o, o ≠ this →
            delete (next_loc w) (<[next_loc w := a]> (<[this := c]> (objs w1))) !! o
            = objs w !! o) as Hothers.
  { intros a c o Ho. destruct (decide (o = next_loc w)) as [->|Ho'].
    - rewrite lookup_delete_eq. symmetry. apply (wf_fresh_loc _ Hwf). lia.
    - rewrite lookup_delete_ne by done. rewrite !lookup_insert_ne by done.
      rewrite Ho1. by rewrite lookup_insert_ne. }
  destruct (ArrayPtrRep.raw_ptr_ (items_ s)) as [|b x] eqn:Hraw.
  - apply wp_bind, wp_delete_array_null.
    eapply wp_del_obj; [simpl; by rewrite lookup_insert_eq|].
    apply wp_ret. split; [done|]. simpl. split_and!.
    + exists it. split; [apply Hthis|].
      destruct (ArrayPtrRep.raw_ptr_ it); [done|]. by destruct Hit as (? & _ & ?).
    + apply Hothers.
    + intros b' (s1 & x1 & Hs1 & Hraw1). simplify_eq. congruence.
    + intros b' l Hl _. by apply Hfr1.
  - destruct Hp as (-> & l & Hl & Hle).
    eapply wp_bind, wp_delete_array; [simpl; by apply Hfr1|].
    eapply wp_del_obj; [simpl; by rewrite lookup_insert_eq|].
    apply wp_ret. split; [done|]. simpl. split_and!.
    + exists it. split; [apply Hthis|].
      destruct (ArrayPtrRep.raw_ptr_ it) as [|nb o]; [done|].
      destruct Hit as (-> & Hnone & Hsome). split; [done|].
      rewrite lookup_delete_ne; [done|]. intros <-. by rewrite Hl in Hnone.
    + apply Hothers.
    + intros b' (s1 & x1 & Hs1 & Hraw1). simplify_eq.
      assert (b' = b) as -> by congruence. by rewrite lookup_delete_eq.
    + intros b' l' Hl' Hown. rewrite lookup_delete_ne; [by apply Hfr1|].
      intros <-. apply Hown. by exists s, 0.
Qed.

Lemma ctor_move_run other w s :
  objs w !! other = Some s →
  SimpleVector.ctor_move other w =
    Ok (next_loc w)
       (World (heap w) (next_block w)
          (<[next_loc w := s]>
             (<[other := BuildSV 0 0 (ArrayPtrRep.Build Null)]> (objs w)))
          (S (next_loc w))).
Proof.
  intros Hs. apply wp_intro_eq. unfold SimpleVector.ctor_move, ArrayPtr.move_ctor.
  eapply wp_bind, wp_rd; [done|]. cbv beta.
  eapply wp_bind, wp_wr_size_; [done|].
  eapply wp_bind, wp_rd; [simpl; by rewrite lookup_insert_eq|]. simpl.
  eapply wp_bind, wp_wr_capacity_; [simpl; by rewrite lookup_insert_eq|]. simpl.
  eapply wp_bind, wp_rd; [simpl; by rewrite lookup_insert_eq|]. simpl.
  eapply wp_bind, wp_wr_items_; [simpl; by rewrite lookup_insert_eq|]. simpl.
  apply wp_new_obj. split; [done|]. rewrite !insert_insert_eq.
  by destruct s as [? ? []].
Qed.

(** a vector that got the fields of another one has its elements, while
    the array stays *)
Lemma elements_moved w w' o o' :
  objs w' !! o' = objs w !! o →
  (∀ b, owns w o b → heap w' !! b = heap w !! b) →
  elements w' o' = elements w o.
Proof.
  intros Ho Hh. unfold elements. rewrite Ho.
  destruct (objs w !! o) as [s|] eqn:Hs; [|done].
  destruct (ArrayPtrRep.raw_ptr_ (items_ s)) as [|b x] eqn:Hraw; [done|].
  rewrite (Hh b); [done|]. by exists s, x.
Qed.

(** X21.  Move assignment from another vector.  When the two vectors
    compare equal nothing happens, and [rhs] keeps its elements.
    Otherwise [*this] takes over the array, the size and the capacity of
    [rhs], [rhs] is left with size [0], capacity [0] and a null pointer,
    and the array [*this] had is freed.  The other vectors keep their
    elements. *)
Theorem assign_move_elements (w : world) (this rhs : loc) (s r : SimpleVectorRep)
    (xs ys : list T) :
  wf_world w → objs w !! this = Some s → objs w !! rhs = Some r →
  elements w this = Some xs → elements w rhs = Some ys → this ≠ rhs →
  ∃ w',
    SimpleVector.assign_move this rhs w = Ok this w' ∧
    wf_world w' ∧
    (if equal_lists xs ys then w' = w
     else elements w' this = Some ys ∧
          SimpleVector.GetCapacity this w' = Ok (capacity_ r) w' ∧
          SimpleVector.begin_ this w' = Ok (ArrayPtrRep.raw_ptr_ (items_ r)) w' ∧
          elements w' rhs = Some [] ∧
          SimpleVector.GetCapacity rhs w' = Ok 0 w' ∧
          SimpleVector.begin_ rhs w' = Ok Null w' ∧
          ∀ b, owns w this b → heap w' !! b = None) ∧
    ∀ o, o ≠ this → o ≠ rhs → elements w' o = elements w o.
Proof.
  intros Hwf Hs Hr Hxs Hys Hne.
  pose proof (operator_ne_run w this rhs xs ys Hxs Hys) as Hcmp.
  pose proof (wf_obj_lt _ _ _ Hwf Hs) as Hlt.
  pose proof (wf_obj_lt _ _ _ Hwf Hr) as Hltr.
  pose proof (wf_vec_of _ _ _ Hwf Hs) as [Hsz Hp].
  cut (wp (SimpleVector.assign_move this rhs) w (λ res w',
         res = this ∧
         if equal_lists xs ys then w' = w
         else objs w' !! this = Some r ∧
              objs w' !! rhs = Some (BuildSV 0 0 (ArrayPtrRep.Build Null)) ∧
              (∀ o, o ≠ this → o ≠ rhs → objs w' !! o = objs w !! o) ∧
              (∀ b, owns w this b → heap w' !! b = None) ∧
              (∀ b, ¬ owns w this b → heap w' !! b = heap w !! b))).
  { intros (res & w' & Heq & -> & Hpost)%wp_elim. exists w'.
    pose proof (wlp_eq _ _ _ _ _ _ (assign_move_wf this rhs w Hwf) Heq) as Hwf'.
    destruct (equal_lists xs ys); [subst w'; done|].
    destruct Hpost as (Hs' & Hr' & Hobjs & Hold & Hfr).
    split_and!; try done.
    - rewrite <-Hys. apply elements_moved; [by rewrite Hs'|].
      intros b Hb. apply Hfr. intros Hthis. apply Hne. by eapply (wf_owner _ Hwf).
    - by rewrite (GetCapacity_ok _ _ _ Hs').
    - by rewrite (begin_run _ _ _ Hs').
    - by eapply elements_null.
    - by rewrite (GetCapacity_ok _ _ _ Hr').
    - by rewrite (begin_run _ _ _ Hr').
    - intros o Ho1 Ho2. apply elements_frame; [by apply Hobjs|].
      intros b Hb. apply Hfr. intros Hthis. apply Ho1. by eapply (wf_owner _ Hwf). }
  unfold SimpleVector.assign_move.
  eapply wp_bind, wp_intro; [exact Hcmp|].
  destruct (equal_lists xs ys); simpl; [by apply wp_bind, wp_ret, wp_ret|].
  eapply wp_bind, wp_bind, wp_intro; [by apply ctor_move_run|].
  eapply wp_bind, wp_swap.
  { simpl. rewrite !lookup_insert_ne by (done || lia). done. }
  { simpl. by rewrite lookup_insert_eq. }
  unfold SimpleVector.dtor, ArrayPtr.dtor.
  eapply wp_bind, wp_rd; [simpl; by rewrite lookup_insert_eq|]. cbv beta.
  assert (∀ (m : gmap loc SimpleVectorRep) a c,
            delete (next_loc w) (<[next_loc w := a]> (<[this := c]> m)) !! this = Some c)
    as Hthis.
  { intros m a c. rewrite lookup_delete_ne by lia.
    rewrite lookup_insert_ne by lia. by rewrite lookup_insert_eq. }
  assert (∀ (m : gmap loc SimpleVectorRep) a c d e,
            delete (next_loc w) (<[next_loc w := a]> (<[this := c]>
              (<[next_loc w := d]> (<[rhs := e]> m)))) !! rhs = Some e) as Hrhs.
  { intros m a c d e. rewrite lookup_delete_ne by lia.
    rewrite !lookup_insert_ne by (done || lia). by rewrite lookup_insert_eq. }
  assert (∀ a c d e o, o ≠ this → o ≠ rhs →
            delete (next_loc w) (<[next_loc w := a]> (<[this := c]>
              (<[next_loc w := d]> (<[rhs := e]> (objs w))))) !! o = objs w !! o)
    as Hothers.
  { intros a c d e o Ho1 Ho2. destruct (decide (o = next_loc w)) as [->|Ho'].
    - rewrite lookup_delete_eq. symmetry. apply (wf_fresh_loc _ Hwf). lia.
    - rewrite lookup_delete_ne by done. by rewrite !lookup_insert_ne by done. }
  destruct (ArrayPtrRep.raw_ptr_ (items_ s)) as [|b x] eqn:Hraw.
  - apply wp_bind, wp_delete_array_null.
    eapply wp_del_obj; [simpl; by rewrite lookup_insert_eq|].
    apply wp_ret. split; [done|]. simpl. split_and!.
    + apply Hthis.
    + apply Hrhs.
    + apply Hothers.
    + intros b' (s1 & x1 & Hs1 & Hraw1). simplify_eq. congruence.
    + done.
  - destruct Hp as (-> & l & Hl & Hle).
    eapply wp_bind, wp_delete_array; [simpl; done|].
    eapply wp_del_obj; [simpl; by rewrite lookup_insert_eq|].
    apply wp_ret. split; [done|]. simpl. split_and!.
    + apply Hthis.
    + apply Hrhs.
    + apply Hothers.
    + intros b' (s1 & x1 & Hs1 & Hraw1). simplify_eq.
      assert (b' = b) as -> by congruence. by rewrite lookup_delete_eq.
    + intros b' Hown. rewrite lookup_delete_ne; [done|].
      intros <-. apply Hown. by exists s, 0.
Qed.

(** X22.  The destructor frees the array of the vector and ends the
    object; the arrays it does not own and the other vectors stay as they
    are. *)
Theorem dtor_frees_array (w : world) (this : loc) (s : SimpleVectorRep) :
  wf_world w → objs w !! this = Some s →
  ∃ w',
    SimpleVector.dtor this w = Ok tt w' ∧
    wf_world w' ∧
    objs w' !! this = None ∧
    (∀ b, owns w this b → heap w' !! b = None) ∧
    (∀ b, ¬ owns w this b → heap w' !! b = heap w !! b) ∧
    ∀ o, o ≠ this → elements w' o = elements w o.
Proof.
  intros Hwf Hs.
  pose proof (wf_vec_of _ _ _ Hwf Hs) as [Hsz Hp].
  cut (wp (SimpleVector.dtor this) w (λ _ w',
         objs w' = delete this (objs w) ∧
         (∀ b, owns w this b → heap w' !! b = None) ∧
         (∀ b, ¬ owns w this b → heap w' !! b = heap w !! b))).
  { intros ([] & w' & Heq & Ho & Hold & Hfr)%wp_elim. exists w'.
    destruct (wlp_eq _ _ _ _ _ _ (dtor_kept this w Hwf) Heq) as [Hwf' _].
    split_and!; try done.
    - rewrite Ho. by rewrite lookup_delete_eq.
    - intros o Hne. apply elements_frame.
      + rewrite Ho. by rewrite lookup_delete_ne.
      + intros b Hb. apply Hfr. intros Hthis. apply Hne. by eapply (wf_owner _ Hwf). }
  unfold SimpleVector.dtor, ArrayPtr.dtor.
  eapply wp_bind, wp_rd; [done|]. cbv beta.
  destruct (ArrayPtrRep.raw_ptr_ (items_ s)) as [|b x] eqn:Hraw.
  - apply wp_bind, wp_delete_array_null. eapply wp_del_obj; [done|]. simpl.
    split_and!; try done.
    intros b' (s1 & x1 & Hs1 & Hraw1). simplify_eq. congruence.
  - destruct Hp as (-> & l & Hl & Hle).
    eapply wp_bind, wp_delete_array; [done|]. eapply wp_del_obj; [done|]. simpl.
    split_and!; try done.
    + intros b' (s1 & x1 & Hs1 & Hraw1). simplify_eq.
      assert (b' = b) as -> by congruence. by rewrite lookup_delete_eq.
    + intros b' Hown. rewrite lookup_delete_ne; [done|].
      intros <-. apply Hown. by exists s, 0.
Qed.

(** X23.  In every state a client can reach, whatever constructors and
    methods it called: no two vectors share an array; the array of every
    vector is allocated (no pointer of a vector dangles) and within what
    the allocator gives; and every vector has its elements, as many as its
    size says. *)
Theorem reachable_arrays_owned_once (w : world) :
  reachable w →
  (∀ o1 o2 b, owns w o1 b → owns w o2 b → o1 = o2) ∧
  (∀ o b, owns w o b →
          ∃ l, heap w !! b = Some l ∧ Z.of_nat (length l) ≤ max_alloc) ∧
  (∀ o s, objs w !! o = Some s →
          ∃ xs, elements w o = Some xs ∧ Z.of_nat (length xs) = size_ s).
Proof.
  intros Hwf%reachable_wf. split_and!.
  - apply (wf_owner _ Hwf).
  - intros o b Hb. destruct (wf_owns_live _ _ _ Hwf Hb) as [l Hl].
    exists l. split; [done|]. by apply (wf_alloc _ Hwf b).
  - intros o s Hs. destruct (wf_vec_of _ _ _ Hwf Hs) as [Hsz Hp].
    unfold elements. rewrite Hs.
    destruct (ArrayPtrRep.raw_ptr_ (items_ s)) as [|b x].
    + rewrite Hp. by exists [].
    + destruct Hp as (-> & l & Hl & Hle). rewrite Hl. simpl.
      destruct (Z.leb_spec 0 (size_ s)); [|lia].
      destruct (Z.leb_spec (size_ s) (Z.of_nat (length l))); [|lia]. simpl.
      eexists. split; [done|]. rewrite length_take. lia.
Qed.

(** X24.  [Insert(pos, value)] by [Type&&], under three conditions:
    [pos = begin() + i] with [i <= size]; the vector has room to spare
    ([size < capacity]) and an array with a cell for each unit of capacity
    behind it; and [value] refers to an object of the caller that is not
    an element of a vector.  Then it leaves the same elements, iterator
    and capacity as the overload for [const Type&], and leaves its
    argument moved from.  At [end()] it calls [PushBack(Type&&)]: in the
    body [value] is an lvalue of type [Type], and [std::move] makes it an
    rvalue again. *)
Theorem insert_rvalue_ref_elements (w : world) (this : loc) (s : SimpleVectorRep)
    (xs : list T) (first pos value : pointer) (i : Z) (v : T) :
  wf_world w → objs w !! this = Some s → elements w this = Some xs →
  backed w this → size_ s < capacity_ s → client_holds w value v →
  SimpleVector.begin_ this w = Ok first w → ptr_add first i w = Ok pos w →
  0 ≤ i ≤ Z.of_nat (length xs) →
  ∃ w',
    SimpleVector.Insert_rvalue_ref this pos value w = Ok pos w' ∧
    wf_world w' ∧
    elements w' this = Some (take (Z.to_nat i) xs ++ v :: drop (Z.to_nat i) xs) ∧
    load pos w' = Ok v w' ∧
    SimpleVector.begin_ this w' = Ok first w' ∧
    SimpleVector.GetCapacity this w' = Ok (capacity_ s) w' ∧
    backed w' this ∧
    client_holds w' value (moved_from v) ∧
    ∀ o, o ≠ this → elements w' o = elements w o.
Proof.
  intros Hwf Hs Hel Hback Hroom Hvalue Hfirst Hpos Hi.
  pose proof Hel as (s0 & Hs0 & Hlen & Hxs)%elements_Some. simplify_eq.
  pose proof (wf_size_bound _ _ _ Hwf Hs) as Hb.
  pose proof (wf_vec_of _ _ _ Hwf Hs) as [Hsz _].
  rewrite (begin_run _ _ _ Hs) in Hfirst. injection Hfirst as <-.
  destruct Hback as (s0 & Hs0 & Hback). simplify_eq.
  destruct (ArrayPtrRep.raw_ptr_ (items_ s)) as [|b x] eqn:Hraw; [lia|].
  destruct Hxs as (-> & l & Hl & Hxs & Hle).
  destruct Hback as (l0 & Hl0 & Hcl). assert (l0 = l) as -> by congruence.
  apply ptr_add_inv in Hpos. rewrite Z.add_0_l in Hpos. subst pos.
  destruct value as [|bv ov]; [done|].
  pose proof Hvalue as [(lv & Hlv & Hov & Hv) Hfree].
  assert (bv ≠ b) as Hne by (intros ->; apply (Hfree this); by exists s, 0).
  assert (Z.to_nat ov < length lv)%nat as Hovlt by (by eapply lookup_lt_Some).
  set (s1 := BuildSV (size_ s + 1) (capacity_ s) (items_ s)).
  set (w1 := set_objs (<[this := s1]> (objs w)) w).
  assert (objs w1 !! this = Some s1) as Hs1 by (simpl; by rewrite lookup_insert_eq).
  assert (SimpleVector.make_room this w = Ok tt w1) as Hmk.
  { apply wp_intro_eq. unfold SimpleVector.make_room.
    eapply wp_bind, wp_rd; [done|]. eapply wp_bind, wp_rd; [done|]. simpl.
    destruct (Z.ltb_spec (size_ s) (capacity_ s)); [|lia].
    rewrite wrap_small by lia. by eapply wp_wr_size_. }
  (* the state the call leaves, for the array it leaves *)
  cut (∃ l', wp (SimpleVector.Insert_rvalue_ref this (Ptr b i) (Ptr bv ov)) w (λ r w',
           r = Ptr b i ∧
           w' = set_heap (<[bv := <[Z.to_nat ov := moved_from v]> lv]>
                            (<[b := l']> (heap w1))) w1) ∧
         length l' = length l ∧
         take (Z.to_nat (size_ s + 1)) l' =
           take (Z.to_nat i) xs ++ v :: drop (Z.to_nat i) xs ∧
         l' !! Z.to_nat i = Some v).
  { intros (l' & (r & w' & Heq & -> & Hw')%wp_elim & Hlen' & Htake & Hat).
    exists w'.
    assert (objs w' !! this = Some s1) as Hs' by (by rewrite Hw').
    assert (heap w' !! b = Some l') as Hl'.
    { rewrite Hw'. simpl. rewrite lookup_insert_ne by done. by rewrite lookup_insert_eq. }
    pose proof (wlp_eq _ _ _ _ _ _
                  (Insert_rvalue_ref_wf this (Ptr b i) (Ptr bv ov) w Hwf) Heq) as Hwf'.
    assert (∀ o, ¬ owns w' o bv) as Hfree'.
    { intros o (s2 & x2 & Hs2 & Hraw2). rewrite Hw' in Hs2. simpl in Hs2.
      destruct (decide (o = this)) as [->|Ho].
      - rewrite lookup_insert_eq in Hs2. simplify_eq. simpl in Hraw2. congruence.
      - rewrite lookup_insert_ne in Hs2 by done. apply (Hfree o). by exists s2, x2. }
    split_and!; try done.
    - rewrite (elements_intro _ _ _ _ _ Hs' Hraw Hl'); simpl; [by rewrite Htake|lia].
    - unfold load. rewrite Hl'. destruct (Z.leb_spec 0 i); [|lia]. by rewrite Hat.
    - rewrite (begin_run _ _ _ Hs'). simpl. by rewrite Hraw.
    - by rewrite (GetCapacity_ok _ _ _ Hs').
    - eapply backed_intro; [done..|]. simpl. lia.
    - split; [|done]. eexists. split_and!; [|done|by apply list_lookup_insert_eq].
      rewrite Hw'. simpl. by rewrite lookup_insert_eq.
    - intros o Ho. apply elements_frame; rewrite Hw'; simpl.
      + by rewrite lookup_insert_ne.
      + intros b' Hb'.
        rewrite lookup_insert_ne by (intros <-; by apply (Hfree o)).
        rewrite lookup_insert_ne; [done|].
        intros <-. apply Ho. eapply (wf_owner _ Hwf); [done|]. by exists s, 0. }
  assert (SimpleVector.in_range_closed this (Ptr b i) w = Ok true w) as Hrange.
  { rewrite (in_range_closed_run this w s b l i) by (done || lia).
    by destruct (Z.leb_spec i (size_ s)); [|lia]. }
  assert (SimpleVector.end_ this w1 = Ok (Ptr b (size_ s + 1)) w1) as Hend1.
  { apply (end_run this w1 s1 b l); try done. simpl. lia. }
  destruct (decide (i = size_ s)) as [->|Hni].
  - (* at the end: [PushBack] *)
    exists (<[Z.to_nat (size_ s) := v]> l). split_and!.
    + unfold SimpleVector.Insert_rvalue_ref.
      eapply wp_bind, wp_intro; [exact Hrange|]. apply wp_bind, wp_assert; [done|].
      eapply wp_bind, wp_intro; [by eapply cend_run; [done..|lia]|].
      unfold ptr_eqb. rewrite Nat.eqb_refl, Z.eqb_refl. simpl.
      unfold SimpleVector.PushBack_rvalue_ref.
      eapply wp_bind, wp_bind, wp_intro; [exact Hmk|].
      eapply wp_bind, wp_rd; [done|]. eapply wp_bind, wp_rd; [done|]. simpl.
      replace (size_ s + 1 - 1) with (size_ s) by lia. rewrite wrap_small by lia.
      unfold ArrayPtr.index. rewrite Hraw.
      eapply wp_bind, wp_ptr_add; [done|lia|]. unfold Std.move_assign.
      eapply wp_bind, wp_load; [done..|].
      eapply wp_bind, wp_store; [done|lia|].
      eapply wp_store; [simpl; by rewrite lookup_insert_ne|lia|]. rewrite Z.add_0_l.
      eapply wp_bind, wp_intro.
      { apply (end_run this _ s1 b (<[Z.to_nat (size_ s) := v]> l)); try done.
        - simpl. rewrite lookup_insert_ne by done. by rewrite lookup_insert_eq.
        - simpl. rewrite length_insert. lia. }
      simpl. eapply wp_ptr_add.
      { simpl. rewrite lookup_insert_ne by done. by rewrite lookup_insert_eq. }
      { rewrite length_insert. lia. }
      split; [f_equal; lia|done].
    + by rewrite length_insert.
    + replace (Z.to_nat (size_ s + 1)) with (S (Z.to_nat (size_ s))) by lia.
      rewrite take_S_insert by lia. rewrite <-Hxs.
      rewrite take_ge, drop_ge by lia. done.
    + apply list_lookup_insert_eq. lia.
  - (* in the middle: the elements from [i] on move to the back *)
    destruct (lookup_lt_is_Some_2 l (Z.to_nat (size_ s))) as [y Hy]; [lia|].
    set (pre := take (Z.to_nat i) l).
    set (mid := take (Z.to_nat (size_ s) - Z.to_nat i) (drop (Z.to_nat i) l)).
    set (post := drop (S (Z.to_nat (size_ s))) l).
    assert (l = pre ++ mid ++ y :: post) as Hsplit
      by (apply array_split_right; [done|lia]).
    assert (length pre = Z.to_nat i) as Hlpre by (unfold pre; rewrite length_take; lia).
    assert (length mid = (Z.to_nat (size_ s) - Z.to_nat i)%nat) as Hlmid.
    { unfold mid. rewrite length_take, length_drop. lia. }
    assert (length l = (length pre + (length mid + S (length post)))%nat) as Hll.
    { rewrite Hsplit at 1. rewrite !length_app. simpl. lia. }
    exists (pre ++ v :: mid ++ post). split_and!.
    + unfold SimpleVector.Insert_rvalue_ref.
      eapply wp_bind, wp_intro; [exact Hrange|]. apply wp_bind, wp_assert; [done|].
      eapply wp_bind, wp_intro; [by eapply cend_run; [done..|lia]|].
      unfold ptr_eqb. rewrite Nat.eqb_refl.
      destruct (Z.eqb_spec i (size_ s)); [lia|]. simpl.
      eapply wp_bind, wp_intro; [exact Hmk|].
      eapply wp_bind, wp_intro; [by apply cbegin_run|]. simpl. rewrite Hraw.
      eapply wp_bind, wp_ptr_diff; [done|]. rewrite Z.sub_0_r, (wrap_small i) by lia.
      unfold ArrayPtr.index.
      eapply wp_bind, wp_rd; [done|]. simpl. rewrite Hraw.
      eapply wp_bind, wp_ptr_add; [done|lia|].
      eapply wp_bind, wp_intro; [exact Hend1|].
      eapply wp_bind, wp_ptr_add; [done|lia|].
      eapply wp_bind, wp_intro; [exact Hend1|].
      unfold Std.move_backward, Std.range_length.
      eapply wp_bind, wp_bind, wp_bind, wp_ptr_diff; [done|].
      destruct (Z.ltb_spec (size_ s + 1 + -1 - (0 + i)) 0); [lia|]. apply wp_ret.
      replace (Z.to_nat (size_ s + 1 + -1 - (0 + i))) with (length mid) by lia.
      replace (size_ s + 1 + -1) with (i + Z.of_nat (length mid)) by lia.
      replace (size_ s + 1) with (i + Z.of_nat (length mid) + 1) by lia.
      eapply wp_mono.
      { eapply (wp_move_backward_n_shift mid pre y post b w1 i); [lia|].
        simpl. by rewrite <-Hsplit. }
      intros r w2 [-> [x ->]]. cbv beta.
      eapply wp_bind, wp_ptr_add; [simpl; by rewrite lookup_insert_eq| |].
      { rewrite !length_app. simpl. rewrite length_app. lia. }
      unfold Std.move_assign.
      eapply wp_bind, wp_bind, wp_load; [simpl; by rewrite lookup_insert_ne|done..|].
      eapply wp_bind, wp_store; [simpl; by rewrite lookup_insert_eq| |].
      { rewrite !length_app. simpl. rewrite length_app. lia. }
      eapply wp_store.
      { simpl. rewrite lookup_insert_ne by done. by rewrite lookup_insert_ne. }
      { lia. }
      apply wp_ret. split; [f_equal; lia|].
      unfold set_heap. simpl. rewrite insert_insert_eq. do 3 f_equal.
      replace (Z.to_nat (i + 1 + -1)) with (length pre) by lia.
      rewrite insert_app_r_alt by lia. by rewrite Nat.sub_diag.
    + rewrite !length_app. simpl. rewrite length_app. lia.
    + replace (pre ++ v :: mid ++ post) with ((pre ++ v :: mid) ++ post)
        by (by rewrite <-app_assoc).
      rewrite take_app_le by (rewrite length_app; simpl; lia).
      rewrite take_ge by (rewrite length_app; simpl; lia).
      rewrite Hxs, take_take.
      replace (Z.to_nat i `min` Z.to_nat (size_ s))%nat with (Z.to_nat i) by lia.
      fold pre. do 2 f_equal. unfold mid. rewrite take_drop_commute.
      do 2 f_equal. lia.
    + rewrite lookup_app_r by lia. by rewrite Hlpre, Nat.sub_diag.
Qed.

(** ** [ArrayPtr] on its own *)

(** X25.  [ArrayPtr(size)] holds a null pointer for size [0] and, for a
    size the allocator can serve, a new array of that many
    default-initialised cells, each of which [operator[]] gives access to;
    its destructor frees the array again and the free store is what it was
    before.  A size too large makes the constructor throw [bad_alloc] with
    nothing allocated. *)
Theorem array_ptr_allocates_and_frees (w : world) (size : Z) :
  wf_world w → 0 ≤ size →
  (size = 0 → ArrayPtr.from_size size w = Ok ArrayPtr.default w) ∧
  (0 < size ≤ max_alloc →
   ∃ a w1,
     ArrayPtr.from_size size w = Ok a w1 ∧
     ArrayPtr.to_bool a = true ∧
     heap w !! next_block w = None ∧
     ArrayPtr.Get a = Ptr (next_block w) 0 ∧
     heap w1 !! next_block w = Some (replicate (Z.to_nat size) default_init) ∧
     (∀ b, b ≠ next_block w → heap w1 !! b = heap w !! b) ∧
     (∀ i, 0 ≤ i < size →
           ∃ p, ArrayPtr.index a i w1 = Ok p w1 ∧ load p w1 = Ok default_init w1) ∧
     ∃ w2, ArrayPtr.dtor a w1 = Ok tt w2 ∧ heap w2 = heap w) ∧
  (max_alloc < size → ArrayPtr.from_size size w = Throw bad_alloc w).
Proof.
  intros Hwf Hsize. pose proof max_alloc_range as Hrange. split_and!.
  - intros ->. done.
  - intros Hn. unfold ArrayPtr.from_size, bind, new_array.
    destruct (Z.eqb_spec size 0); [lia|].
    destruct (Z.ltb_spec max_alloc size); [lia|].
    assert (heap w !! next_block w = None) as Hfresh
      by (apply (wf_fresh_block _ Hwf); lia).
    eexists _, _. split; [done|]. simpl. split_and!; try done.
    + by rewrite lookup_insert_eq.
    + intros b Hb. by rewrite lookup_insert_ne.
    + intros i Hi. exists (Ptr (next_block w) (0 + i)).
      unfold ArrayPtr.index, ptr_add, load. simpl. rewrite lookup_insert_eq.
      rewrite length_replicate.
      destruct (Z.leb_spec 0 (0 + i)); [|lia].
      destruct (Z.leb_spec (0 + i) (Z.of_nat (Z.to_nat size))); [|lia]. simpl.
      split; [done|]. by rewrite lookup_replicate_2 by lia.
    + unfold ArrayPtr.dtor, delete_array. simpl. rewrite lookup_insert_eq.
      eexists. split; [done|]. simpl. by rewrite delete_insert_id.
  - intros Hn. unfold ArrayPtr.from_size, bind, new_array.
    destruct (Z.eqb_spec size 0); [lia|].
    by destruct (Z.ltb_spec max_alloc size); [|lia].
Qed.

(** X26.  Move assignment of [ArrayPtr] takes over the pointer of [other]
    and leaves [other] null, and does not delete the array [*this] held:
    once both objects are destroyed, the array of [other] is freed and the
    array [*this] held before the assignment is still allocated. *)
Theorem array_ptr_move_assign_keeps_old_array (w : world) (a other : ArrayPtrRep.t)
    (b b' : block) (l l' : list T) :
  ArrayPtr.Get a = Ptr b 0 → ArrayPtr.Get other = Ptr b' 0 → b ≠ b' →
  heap w !! b = Some l → heap w !! b' = Some l' →
  ∃ a1 rest w1,
    ArrayPtr.assign_move a other = (a1, rest) ∧
    ArrayPtr.Get a1 = Ptr b' 0 ∧
    ArrayPtr.Get rest = Null ∧
    (ArrayPtr.dtor a1 ;; ArrayPtr.dtor rest) w = Ok tt w1 ∧
    heap w1 !! b' = None ∧
    heap w1 !! b = Some l.
Proof.
  intros Ha Hother Hne Hl Hl'. unfold ArrayPtr.Get in *.
  eexists _, _, (set_heap (delete b' (heap w)) w). split; [done|]. simpl.
  rewrite Hother. split_and!; try done.
  - unfold bind, ArrayPtr.dtor, delete_array. simpl. by rewrite Hl'.
  - by rewrite lookup_delete_eq.
  - by rewrite lookup_delete_ne.
Qed.

(** X27.  [Release()] returns the pointer held and leaves the [ArrayPtr]
    null: it converts to [false], and its destructor frees nothing, so the
    array stays allocated for the caller.  An [ArrayPtr] built from the
    released pointer holds what the first one held. *)
Theorem array_ptr_release_round_trip (w : world) (a : ArrayPtrRep.t) :
  ∃ p a1,
    ArrayPtr.Release a = (p, a1) ∧
    p = ArrayPtr.Get a ∧
    ArrayPtr.Get a1 = Null ∧
    ArrayPtr.to_bool a1 = false ∧
    ArrayPtr.dtor a1 w = Ok tt w ∧
    ArrayPtr.from_raw p = a ∧
    ArrayPtr.to_bool (ArrayPtr.from_raw p) = ArrayPtr.to_bool a.
Proof.
  eexists _, _. split; [done|]. simpl. split_and!; try done.
  - destruct a as [[|b o]]; done.
  - by destruct a as [[|b o]].
Qed.

(** ** Growth on a full vector, through [PushBack] and [Insert] at [end()] *)

Lemma wf_elements w o s :
  wf_world w → objs w !! o = Some s →
  ∃ xs, elements w o = Some xs ∧ Z.of_nat (length xs) = size_ s.
Proof.
  intros Hwf Hs. destruct (wf_vec_of _ _ _ Hwf Hs) as [Hsz Hp].
  unfold elements. rewrite Hs.
  destruct (ArrayPtrRep.raw_ptr_ (items_ s)) as [|b x].
  - rewrite Hp. by exists [].
  - destruct Hp as (-> & l & Hl & Hle). rewrite Hl. simpl.
    destruct (Z.leb_spec 0 (size_ s)); [|lia].
    destruct (Z.leb_spec (size_ s) (Z.of_nat (length l))); [|lia]. simpl.
    eexists. split; [done|]. rewrite length_take. lia.
Qed.

Lemma live_not_next w b l : wf_world w → heap w !! b = Some l → b ≠ next_block w.
Proof. intros Hwf Hl ->. rewrite (wf_fresh_block _ Hwf) in Hl; [done|lia]. Qed.

(** the statement that makes room, on a full vector *)
Lemma make_room_full_run this w s xs :
  wf_world w → objs w !! this = Some s → elements w this = Some xs →
  capacity_ s ≤ size_ s → Z.max (capacity_ s * 2) (size_ s + 1) ≤ max_alloc →
  ∃ w1, SimpleVector.make_room this w = Ok tt w1 ∧ wf_world w1 ∧
        objs w1 !! this =
          Some (BuildSV (size_ s + 1) (Z.max (capacity_ s * 2) (size_ s + 1))
                  (ArrayPtrRep.Build (Ptr (next_block w) 0))) ∧
        heap w1 !! next_block w =
          Some (xs ++ replicate (Z.to_nat (Z.max (capacity_ s * 2) (size_ s + 1) - size_ s))
                        value_init) ∧
        (∀ o, o ≠ this → objs w1 !! o = objs w !! o) ∧
        (∀ b, b ≠ next_block w → ¬ owns w this b → heap w1 !! b = heap w !! b).
Proof.
  intros Hwf Hs Hel Hfull Hmax.
  pose proof (wf_size_bound _ _ _ Hwf Hs) as Hb.
  destruct (Resize_grow_run this (size_ s + 1) w s xs Hwf Hs Hel ltac:(lia) Hmax)
    as (w1 & Heq & Hwf1 & Hs1 & Hl1 & Hobjs & Hheap & _).
  exists w1. split_and!; try done.
  unfold SimpleVector.make_room.
  erewrite bind_ok; [|by apply rd_ok]. erewrite bind_ok; [|by apply rd_ok].
  cbv beta. destruct (Z.ltb_spec (size_ s) (capacity_ s)); [lia|].
  by rewrite wrap_small by lia.
Qed.

(** [PushBack(const Type&)] on a full vector, with an argument outside the
    array of the vector *)
Lemma PushBack_const_ref_full_run this w s xs bv ov lv v :
  wf_world w → objs w !! this = Some s → elements w this = Some xs →
  capacity_ s ≤ size_ s → Z.max (capacity_ s * 2) (size_ s + 1) ≤ max_alloc →
  heap w !! bv = Some lv → 0 ≤ ov → lv !! Z.to_nat ov = Some v → ¬ owns w this bv →
  ∃ w' l,
    SimpleVector.PushBack_const_ref this (Ptr bv ov) w = Ok tt w' ∧
    objs w' !! this =
      Some (BuildSV (size_ s + 1) (Z.max (capacity_ s * 2) (size_ s + 1))
              (ArrayPtrRep.Build (Ptr (next_block w) 0))) ∧
    heap w' !! next_block w = Some l ∧
    Z.of_nat (length l) = Z.max (capacity_ s * 2) (size_ s + 1) ∧
    take (Z.to_nat (size_ s + 1)) l = xs ++ [v] ∧
    heap w' !! bv = Some lv.
Proof.
  intros Hwf Hs Hel Hfull Hmax Hlv Hov Hv Hown.
  pose proof (wf_size_bound _ _ _ Hwf Hs) as Hb.
  pose proof (wf_vec_of _ _ _ Hwf Hs) as [Hsz _].
  pose proof Hel as (s0 & Hs0 & Hlen & _)%elements_Some. simplify_eq.
  destruct (make_room_full_run this w s xs Hwf Hs Hel Hfull Hmax)
    as (w1 & Hmk & Hwf1 & Hs1 & Hl1 & Hobjs & Hheap).
  set (c := Z.max (capacity_ s * 2) (size_ s + 1)) in *.
  set (l1 := xs ++ replicate (Z.to_nat (c - size_ s)) value_init) in *.
  assert (Z.of_nat (length l1) = c) as Hlen1.
  { unfold l1. rewrite length_app, length_replicate. lia. }
  pose proof (live_not_next _ _ _ Hwf Hlv) as Hne.
  assert (heap w1 !! bv = Some lv) as Hlv1 by (by rewrite Hheap).
  exists (set_heap (<[next_block w := <[Z.to_nat (size_ s) := v]> l1]> (heap w1)) w1),
    (<[Z.to_nat (size_ s) := v]> l1).
  split_and!; try done.
  - apply wp_intro_eq. unfold SimpleVector.PushBack_const_ref.
    eapply wp_bind, wp_intro; [exact Hmk|].
    eapply wp_bind, wp_rd; [done|]. eapply wp_bind, wp_rd; [done|]. simpl.
    replace (size_ s + 1 - 1) with (size_ s) by lia. rewrite wrap_small by lia.
    unfold ArrayPtr.index. simpl.
    eapply wp_bind, wp_ptr_add; [done|lia|]. unfold Std.copy_assign.
    eapply wp_bind, wp_load; [done..|].
    eapply wp_store; [done|lia|]. by rewrite Z.add_0_l.
  - simpl. by rewrite lookup_insert_eq.
  - rewrite length_insert. lia.
  - replace (Z.to_nat (size_ s + 1)) with (S (Z.to_nat (size_ s))) by lia.
    rewrite take_S_insert by lia. f_equal. unfold l1.
    rewrite take_app_le by lia. apply take_ge. lia.
  - simpl. by rewrite lookup_insert_ne.
Qed.

(** [PushBack(Type&&)] on a full vector *)
Lemma PushBack_rvalue_ref_full_run this w s xs bv ov lv v :
  wf_world w → objs w !! this = Some s → elements w this = Some xs →
  capacity_ s ≤ size_ s → Z.max (capacity_ s * 2) (size_ s + 1) ≤ max_alloc →
  heap w !! bv = Some lv → 0 ≤ ov → lv !! Z.to_nat ov = Some v → ¬ owns w this bv →
  ∃ w' l,
    SimpleVector.PushBack_rvalue_ref this (Ptr bv ov) w = Ok tt w' ∧
    objs w' !! this =
      Some (BuildSV (size_ s + 1) (Z.max (capacity_ s * 2) (size_ s + 1))
              (ArrayPtrRep.Build (Ptr (next_block w) 0))) ∧
    heap w' !! next_block w = Some l ∧
    Z.of_nat (length l) = Z.max (capacity_ s * 2) (size_ s + 1) ∧
    take (Z.to_nat (size_ s + 1)) l = xs ++ [v] ∧
    heap w' !! bv = Some (<[Z.to_nat ov := moved_from v]> lv).
Proof.
  intros Hwf Hs Hel Hfull Hmax Hlv Hov Hv Hown.
  pose proof (wf_size_bound _ _ _ Hwf Hs) as Hb.
  pose proof (wf_vec_of _ _ _ Hwf Hs) as [Hsz _].
  pose proof Hel as (s0 & Hs0 & Hlen & _)%elements_Some. simplify_eq.
  destruct (make_room_full_run this w s xs Hwf Hs Hel Hfull Hmax)
    as (w1 & Hmk & Hwf1 & Hs1 & Hl1 & Hobjs & Hheap).
  set (c := Z.max (capacity_ s * 2) (size_ s + 1)) in *.
  set (l1 := xs ++ replicate (Z.to_nat (c - size_ s)) value_init) in *.
  assert (Z.of_nat (length l1) = c) as Hlen1.
  { unfold l1. rewrite length_app, length_replicate. lia. }
  pose proof (live_not_next _ _ _ Hwf Hlv) as Hne.
  assert (heap w1 !! bv = Some lv) as Hlv1 by (by rewrite Hheap).
  assert (Z.to_nat ov < length lv)%nat as Hovlt by (by eapply lookup_lt_Some).
  exists (set_heap (<[bv := <[Z.to_nat ov := moved_from v]> lv]>
                      (<[next_block w := <[Z.to_nat (size_ s) := v]> l1]> (heap w1))) w1),
    (<[Z.to_nat (size_ s) := v]> l1).
  split_and!; try done.
  - apply wp_intro_eq. unfold SimpleVector.PushBack_rvalue_ref.
    eapply wp_bind, wp_intro; [exact Hmk|].
    eapply wp_bind, wp_rd; [done|]. eapply wp_bind, wp_rd; [done|]. simpl.
    replace (size_ s + 1 - 1) with (size_ s) by lia. rewrite wrap_small by lia.
    unfold ArrayPtr.index. simpl.
    eapply wp_bind, wp_ptr_add; [done|lia|]. unfold Std.move_assign.
    eapply wp_bind, wp_load; [done..|].
    eapply wp_bind, wp_store; [done|lia|].
    eapply wp_store; [simpl; by rewrite lookup_insert_ne|lia|].
    by rewrite Z.add_0_l.
  - simpl. rewrite lookup_insert_ne by done. by rewrite lookup_insert_eq.
  - rewrite length_insert. lia.
  - replace (Z.to_nat (size_ s + 1)) with (S (Z.to_nat (size_ s))) by lia.
    rewrite take_S_insert by lia. f_equal. unfold l1.
    rewrite take_app_le by lia. apply take_ge. lia.
  - simpl. by rewrite lookup_insert_eq.
Qed.

(** [end()] passes the range check of [Insert] and selects the branch
    that calls [PushBack] *)
Lemma in_range_closed_end this w s pos :
  wf_world w → objs w !! this = Some s → SimpleVector.cend this w = Ok pos w →
  SimpleVector.in_range_closed this pos w = Ok true w ∧ ptr_eqb pos pos = true.
Proof.
  intros Hwf Hs Hend.
  pose proof (wf_vec_of _ _ _ Hwf Hs) as [Hsz Hp].
  assert (ptr_le (ArrayPtrRep.raw_ptr_ (items_ s)) pos = true ∧ ptr_le pos pos = true
          ∧ ptr_eqb pos pos = true) as (Hle1 & Hle2 & Heqb).
  { unfold SimpleVector.cend, ArrayPtr.Get, bind in Hend.
    rewrite !(rd_ok _ _ _ _ Hs) in Hend.
    destruct (ArrayPtrRep.raw_ptr_ (items_ s)) as [|b o].
    - rewrite Hp in Hend. by simplify_eq/=.
    - destruct Hp as (-> & l & Hl & Hle). unfold ptr_add in Hend. rewrite Hl in Hend.
      destruct ((0 <=? 0 + size_ s) && (0 + size_ s <=? Z.of_nat (length l)));
        simplify_eq/=.
      rewrite !Nat.eqb_refl, Z.eqb_refl, Z.leb_refl. simpl. split; [|done].
      apply Z.leb_le. lia. }
  split; [|done]. unfold SimpleVector.in_range_closed.
  erewrite bind_ok; [|by apply cbegin_run]. rewrite Hle1.
  erewrite bind_ok; [|exact Hend]. by rewrite Hle2.
Qed.

(** [Insert] at [end()]: the call of [PushBack] does the work, and the
    iterator returned points at the last element *)
Lemma Insert_const_ref_end_run this pos value w s w' s' b' l' :
  wf_world w → objs w !! this = Some s → SimpleVector.cend this w = Ok pos w →
  SimpleVector.PushBack_const_ref this value w = Ok tt w' →
  objs w' !! this = Some s' → ArrayPtrRep.raw_ptr_ (items_ s') = Ptr b' 0 →
  heap w' !! b' = Some l' → 1 ≤ size_ s' ≤ Z.of_nat (length l') →
  SimpleVector.Insert_const_ref this pos value w = Ok (Ptr b' (size_ s' - 1)) w'.
Proof.
  intros Hwf Hs Hend Hpush Hs' Hraw' Hl' Hsz'.
  destruct (in_range_closed_end this w s pos Hwf Hs Hend) as [Hin Heqb].
  unfold SimpleVector.Insert_const_ref.
  erewrite bind_ok; [|exact Hin]. unfold assert at 1.
  erewrite bind_ok; [|reflexivity].
  erewrite bind_ok; [|exact Hend]. rewrite Heqb.
  unfold SimpleVector.PushBack. simpl.
  erewrite bind_ok; [|exact Hpush].
  erewrite bind_ok; [|by eapply end_run; [done..|lia]].
  erewrite ptr_add_run; [|done|lia]. reflexivity.
Qed.

Lemma Insert_rvalue_ref_end_run this pos value w s w' s' b' l' :
  wf_world w → objs w !! this = Some s → SimpleVector.cend this w = Ok pos w →
  SimpleVector.PushBack_rvalue_ref this value w = Ok tt w' →
  objs w' !! this = Some s' → ArrayPtrRep.raw_ptr_ (items_ s') = Ptr b' 0 →
  heap w' !! b' = Some l' → 1 ≤ size_ s' ≤ Z.of_nat (length l') →
  SimpleVector.Insert_rvalue_ref this pos value w = Ok (Ptr b' (size_ s' - 1)) w'.
Proof.
  intros Hwf Hs Hend Hpush Hs' Hraw' Hl' Hsz'.
  destruct (in_range_closed_end this w s pos Hwf Hs Hend) as [Hin Heqb].
  unfold SimpleVector.Insert_rvalue_ref.
  erewrite bind_ok; [|exact Hin]. unfold assert at 1.
  erewrite bind_ok; [|reflexivity].
  erewrite bind_ok; [|exact Hend]. rewrite Heqb.
  unfold SimpleVector.PushBack. simpl.
  erewrite bind_ok; [|exact Hpush].
  erewrite bind_ok; [|by eapply end_run; [done..|lia]].
  erewrite ptr_add_run; [|done|lia]. reflexivity.
Qed.

(** The capacity after growth, for every operation that grows: [Resize]
    beyond the capacity, and on a full vector both [PushBack]s and both
    [Insert]s at [end()], leave the capacity [max(capacity * 2, required)],
    provided the allocation of that many elements succeeds.  The argument
    of [PushBack] and [Insert] is an object outside the array of the
    vector. *)
Lemma capacity_after_growth_of_all (w : world) (this : loc) (s : SimpleVectorRep)
    (required : Z) :
  wf_world w → objs w !! this = Some s →
  capacity_ s + 1 ≤ required →
  Z.max (capacity_ s * 2) required ≤ max_alloc →
  (∃ w', SimpleVector.Resize this required w = Ok tt w' ∧
         SimpleVector.GetCapacity this w' =
           Ok (Z.max (capacity_ s * 2) required) w') ∧
  (required = size_ s + 1 →
   ∀ bv ov lv v,
     heap w !! bv = Some lv → 0 ≤ ov → lv !! Z.to_nat ov = Some v →
     ¬ owns w this bv →
     (∃ w', SimpleVector.PushBack_const_ref this (Ptr bv ov) w = Ok tt w' ∧
            SimpleVector.GetCapacity this w' =
              Ok (Z.max (capacity_ s * 2) required) w') ∧
     (∃ w', SimpleVector.PushBack_rvalue_ref this (Ptr bv ov) w = Ok tt w' ∧
            SimpleVector.GetCapacity this w' =
              Ok (Z.max (capacity_ s * 2) required) w') ∧
     (∀ pos, SimpleVector.cend this w = Ok pos w →
        (∃ it w', SimpleVector.Insert_const_ref this pos (Ptr bv ov) w = Ok it w' ∧
                  SimpleVector.GetCapacity this w' =
                    Ok (Z.max (capacity_ s * 2) required) w') ∧
        (∃ it w', SimpleVector.Insert_rvalue_ref this pos (Ptr bv ov) w = Ok it w' ∧
                  SimpleVector.GetCapacity this w' =
                    Ok (Z.max (capacity_ s * 2) required) w'))).
Proof.
  intros Hwf Hs Hreq Hmax.
  destruct (wf_elements _ _ _ Hwf Hs) as (xs & Hel & Hlen).
  pose proof (wf_vec_of _ _ _ Hwf Hs) as [Hsz _].
  split.
  - destruct (Resize_grow_run this required w s xs Hwf Hs Hel ltac:(lia) Hmax)
      as (w' & Heq & _ & Hs' & _).
    exists w'. split; [done|]. by rewrite (GetCapacity_ok _ _ _ Hs').
  - intros -> bv ov lv v Hlv Hov Hv Hown.
    destruct (PushBack_const_ref_full_run this w s xs bv ov lv v)
      as (wc & lc & Hpc & Hsc & Hlc & Hlenc & _); [done|done|done|lia|done..|].
    destruct (PushBack_rvalue_ref_full_run this w s xs bv ov lv v)
      as (wr & lr & Hpr & Hsr & Hlr & Hlenr & _); [done|done|done|lia|done..|].
    split_and!.
    + exists wc. split; [done|]. by rewrite (GetCapacity_ok _ _ _ Hsc).
    + exists wr. split; [done|]. by rewrite (GetCapacity_ok _ _ _ Hsr).
    + intros pos Hend. split.
      * eexists _, wc. split.
        -- eapply (Insert_const_ref_end_run this pos _ w s wc); try done. simpl. lia.
        -- by rewrite (GetCapacity_ok _ _ _ Hsc).
      * eexists _, wr. split.
        -- eapply (Insert_rvalue_ref_end_run this pos _ w s wr); try done. simpl. lia.
        -- by rewrite (GetCapacity_ok _ _ _ Hsr).
Qed.

(** ** The constructor from the reservation marker *)

(** [SimpleVector(ReserveProxyObj)] on a request the allocator can serve:
    the object it builds and the array it takes *)
Lemma ctor_reserve_run n w :
  0 ≤ n ≤ max_alloc →
  SimpleVector.ctor_reserve (Reserve n) w =
    Ok (next_loc w)
       (if n =? 0 then
          World (heap w) (next_block w)
                (<[next_loc w := BuildSV 0 0 (ArrayPtrRep.Build Null)]> (objs w))
                (S (next_loc w))
        else
          World (<[next_block w := replicate (Z.to_nat n) default_init]> (heap w))
                (S (next_block w))
                (<[next_loc w := BuildSV 0 n (ArrayPtrRep.Build (Ptr (next_block w) 0))]>
                   (objs w))
                (S (next_loc w))).
Proof.
  intros Hn. apply wp_intro_eq.
  unfold SimpleVector.ctor_reserve, Reserve, ReserveProxyObj.GetCapacity.
  apply wp_bind, wp_new_obj. simpl.
  apply wp_bind, wp_unwinding. unfold SimpleVector.Reserve.
  eapply wp_bind, wp_rd; [simpl; by rewrite lookup_insert_eq|]. simpl.
  destruct (Z.gtb_spec n 0) as [Hpos|Hzero].
  - unfold ArrayPtr.from_size. destruct (Z.eqb_spec n 0); [lia|].
    apply wp_bind, wp_bind, wp_new_array; [lia|]. apply wp_ret.
    unfold SimpleVector.begin_, SimpleVector.end_, ArrayPtr.Get.
    eapply wp_bind, wp_bind, wp_rd; [simpl; by rewrite lookup_insert_eq|]. simpl.
    apply wp_ret.
    eapply wp_bind, wp_bind, wp_rd; [simpl; by rewrite lookup_insert_eq|]. simpl.
    eapply wp_bind, wp_rd; [simpl; by rewrite lookup_insert_eq|]. simpl.
    apply wp_ptr_add_null.
    unfold Std.copy, Std.range_length.
    apply wp_bind, wp_bind, wp_bind, wp_ptr_diff_null. simpl. apply wp_ret, wp_ret.
    eapply wp_bind, wp_rd; [simpl; by rewrite lookup_insert_eq|]. simpl.
    eapply wp_bind, wp_wr_items_; [simpl; by rewrite lookup_insert_eq|]. simpl.
    eapply wp_bind, wp_wr_capacity_; [simpl; by rewrite lookup_insert_eq|]. simpl.
    unfold ArrayPtr.dtor, ArrayPtr.default. simpl.
    apply wp_delete_array_null, wp_ret. split; [done|].
    unfold set_objs. simpl. by rewrite !insert_insert_eq.
  - destruct (Z.eqb_spec n 0); [|lia]. by apply wp_ret, wp_ret.
Qed.

(** C1.  Built from the marker [Reserve(n)], a vector is empty, has
    capacity [n], and has [n] cells reserved: for [n > 0] its [begin()]
    points at the start of an array of [n] cells, the only array the
    constructor allocates, and for [n = 0] it holds a null pointer and
    nothing is allocated.  This holds whenever the allocation of [n]
    elements succeeds.  The body of the constructor calls the member
    function [Reserve], which hides the free function of that name. *)
Theorem reserve_ctor_size_capacity (n : Z) (w : world) :
  0 ≤ n ≤ max_alloc →
  ∃ this w',
    SimpleVector.ctor_reserve (Reserve n) w = Ok this w' ∧
    SimpleVector.GetSize this w' = Ok 0 w' ∧
    SimpleVector.GetCapacity this w' = Ok n w' ∧
    elements w' this = Some [] ∧
    backed w' this ∧
    (0 < n →
     SimpleVector.begin_ this w' = Ok (Ptr (next_block w) 0) w' ∧
     heap w' = <[next_block w := replicate (Z.to_nat n) default_init]> (heap w) ∧
     ∃ l, heap w' !! next_block w = Some l ∧ Z.of_nat (length l) = n) ∧
    (n = 0 → SimpleVector.begin_ this w' = Ok Null w' ∧ heap w' = heap w).
Proof.
  intros Hn. eexists _, _. split; [by apply ctor_reserve_run|].
  destruct (Z.eqb_spec n 0) as [->|Hnz].
  - set (w' := World _ _ _ _).
    assert (objs w' !! next_loc w = Some (BuildSV 0 0 (ArrayPtrRep.Build Null))) as Hs
      by (simpl; by rewrite lookup_insert_eq).
    rewrite (GetSize_ok _ _ _ Hs), (GetCapacity_ok _ _ _ Hs), (begin_run _ _ _ Hs).
    split_and!; try done; try lia.
    + by eapply elements_null.
    + by eapply backed_null.
  - set (w' := World _ _ _ _).
    assert (objs w' !! next_loc w =
              Some (BuildSV 0 n (ArrayPtrRep.Build (Ptr (next_block w) 0)))) as Hs
      by (simpl; by rewrite lookup_insert_eq).
    assert (heap w' !! next_block w = Some (replicate (Z.to_nat n) default_init)) as Hl
      by (simpl; by rewrite lookup_insert_eq).
    rewrite (GetSize_ok _ _ _ Hs), (GetCapacity_ok _ _ _ Hs), (begin_run _ _ _ Hs).
    split_and!; try done; try lia.
    + rewrite (elements_intro _ _ _ _ _ Hs eq_refl Hl); simpl; [done|lia].
    + eapply backed_intro; [done..|]. simpl. rewrite length_replicate. lia.
    + intros _. split_and!; try done. eexists. split; [done|].
      rewrite length_replicate. lia.
Qed.

(** ** What [Insert(pos, const Type&)] leaves of the arrays outside the vector *)

(** [Resize] beyond the capacity when the allocation fails: the new value
    of [capacity_] is all that has changed *)
Lemma Resize_bad_alloc_run this n w s :
  objs w !! this = Some s → 0 ≤ size_ s < n → capacity_ s < n →
  max_alloc < Z.max (wrap (capacity_ s * 2)) n →
  SimpleVector.Resize this n w =
    Throw bad_alloc
      (set_objs (<[this := BuildSV (size_ s) (Z.max (wrap (capacity_ s * 2)) n) (items_ s)]>
                   (objs w)) w).
Proof.
  intros Hs Hsz Hn Hmax. pose proof max_alloc_range as Hrange.
  set (c' := Z.max (wrap (capacity_ s * 2)) n) in *.
  unfold SimpleVector.Resize.
  erewrite bind_ok; [|by apply rd_ok]. cbv beta.
  destruct (Z.eqb_spec n (size_ s)); [lia|].
  destruct (Z.ltb_spec n (size_ s)); [lia|].
  erewrite bind_ok; [|by apply rd_ok]. cbv beta.
  destruct (Z.leb_spec n (capacity_ s)); [lia|].
  fold c'.
  erewrite bind_ok; [|apply wp_intro_eq; by eapply wp_wr_capacity_].
  erewrite bind_ok; [|apply rd_ok; simpl; by rewrite lookup_insert_eq]. simpl.
  unfold bind, SimpleVector.ctor_size, ArrayPtr.from_size, bind, new_array.
  destruct (Z.eqb_spec c' 0); [lia|].
  by destruct (Z.ltb_spec max_alloc c'); [|lia].
Qed.

(** an array that is not the vector's is not touched when [make_room]
    makes room, and is not the vector's afterwards *)
Lemma make_room_leaves_others this w bv lv :
  wf_world w → heap w !! bv = Some lv → ¬ owns w this bv →
  wlp (SimpleVector.make_room this) w
    (λ _ w', heap w' !! bv = Some lv ∧ ¬ owns w' this bv)
    (λ _ w', heap w' !! bv = Some lv ∧ ¬ owns w' this bv).
Proof.
  intros Hwf Hlv Hown. unfold SimpleVector.make_room.
  apply wlp_bind, wlp_rd. intros s Hs.
  apply wlp_bind, wlp_rd. intros s' Hs'. simplify_eq.
  pose proof (wf_size_bound _ _ _ Hwf Hs) as Hb.
  pose proof (wf_vec_of _ _ _ Hwf Hs) as [Hsz _].
  destruct (Z.ltb_spec (size_ s) (capacity_ s)) as [Hlt|Hge].
  - apply wlp_wr_size_. intros s' Hs'. simplify_eq. simpl. split; [done|].
    intros (s1 & x & Hs1 & Hx). simpl in Hs1. rewrite lookup_insert_eq in Hs1.
    simplify_eq. simpl in Hx. apply Hown. by exists s, x.
  - rewrite wrap_small by lia. unfold wlp.
    destruct (Z_le_gt_dec (Z.max (capacity_ s * 2) (size_ s + 1)) max_alloc) as [Hmax|Hmax].
    + destruct (wf_elements _ _ _ Hwf Hs) as (xs & Hel & _).
      destruct (Resize_grow_run this (size_ s + 1) w s xs Hwf Hs Hel ltac:(lia) Hmax)
        as (w1 & Heq & Hwf1 & Hs1 & Hl1 & Hobjs & Hheap & _).
      rewrite Heq. pose proof (live_not_next _ _ _ Hwf Hlv) as Hne. split.
      * by rewrite Hheap.
      * intros (s2 & x & Hs2 & Hx). rewrite Hs1 in Hs2. simplify_eq. simpl in Hx.
        congruence.
    + rewrite (Resize_bad_alloc_run this (size_ s + 1) w s Hs); try lia.
      2:{ rewrite wrap_small by lia. lia. }
      simpl. split; [done|].
      intros (s1 & x & Hs1 & Hx). simpl in Hs1. rewrite lookup_insert_eq in Hs1.
      simplify_eq. simpl in Hx. apply Hown. by exists s, x.
Qed.

Lemma PushBack_const_ref_leaves_others this item w bv lv :
  wf_world w → heap w !! bv = Some lv → ¬ owns w this bv →
  wlp (SimpleVector.PushBack_const_ref this item) w
    (λ _ w', heap w' !! bv = Some lv) (λ _ w', heap w' !! bv = Some lv).
Proof.
  intros Hwf Hlv Hown. unfold SimpleVector.PushBack_const_ref.
  apply wlp_bind. eapply wlp_mono; [by apply (make_room_leaves_others this w bv lv) | |].
  2:{ by intros e w1 [? _]. }
  intros _ w1 [Hlv1 Hown1]. cbv beta.
  eapply wlp_mono; [by apply (push_copy_tail this item w1) | | done].
  intros _ w2 [(_ & _ & _ & _ & Hst) _]. by rewrite Hst.
Qed.

Lemma Insert_const_ref_leaves_others this pos value w bv lv :
  wf_world w → heap w !! bv = Some lv → ¬ owns w this bv →
  wlp (SimpleVector.Insert_const_ref this pos value) w
    (λ _ w', heap w' !! bv = Some lv) (λ _ w', heap w' !! bv = Some lv).
Proof.
  intros Hwf Hlv Hown. unfold SimpleVector.Insert_const_ref.
  apply wlp_bind, wlp_in_range_closed. intros ok.
  apply wlp_bind, wlp_assert. intros _.
  apply wlp_bind, wlp_cend_any. intros last.
  destruct (ptr_eqb pos last).
  - apply wlp_bind. simpl.
    eapply wlp_mono; [by apply (PushBack_const_ref_leaves_others this value w bv lv) | | done].
    intros ? w1 Hlv1. cbv beta in *. apply wlp_bind, wlp_end_any. intros e.
    by apply wlp_ptr_add_any.
  - apply wlp_bind.
    eapply wlp_mono; [by apply (make_room_leaves_others this w bv lv) | |].
    2:{ by intros e w1 [? _]. }
    intros ? w1 [Hlv1 Hown1]. cbv beta in *.
    apply wlp_no_throw, insert_shift.
    intros s1 it w2 Hs1 Hst Hit HN HP.
    apply wlp_bind. eapply wlp_frames; [by apply (frames_copy_assign (owns w1 this))|].
    intros _ w3 Hst3. apply wlp_ret.
    pose proof (stores_in_trans _ _ _ _ Hst Hst3) as (_ & _ & _ & _ & Hst13).
    by rewrite Hst13.
Qed.

(** [Insert(pos, const Type&)] with room to spare, for an argument outside
    the array of the vector: the call returns [pos], which points at a
    copy of the argument, and the array of the argument is what it was *)
Lemma Insert_const_ref_room_run (w : world) (this : loc) (s : SimpleVectorRep)
    (xs : list T) (first pos : pointer) (bv : block) (ov : Z) (lv : list T)
    (i : Z) (v : T) :
  wf_world w → objs w !! this = Some s → elements w this = Some xs →
  backed w this → size_ s < capacity_ s →
  heap w !! bv = Some lv → 0 ≤ ov → lv !! Z.to_nat ov = Some v → ¬ owns w this bv →
  SimpleVector.begin_ this w = Ok first w → ptr_add first i w = Ok pos w →
  0 ≤ i ≤ Z.of_nat (length xs) →
  ∃ w',
    SimpleVector.Insert_const_ref this pos (Ptr bv ov) w = Ok pos w' ∧
    elements w' this = Some (take (Z.to_nat i) xs ++ v :: drop (Z.to_nat i) xs) ∧
    load pos w' = Ok v w' ∧
    heap w' !! bv = Some lv.
Proof.
  intros Hwf Hs Hel Hback Hroom Hlv Hov Hv Hown Hfirst Hpos Hi.
  pose proof Hel as (s0 & Hs0 & Hlen & Hxs)%elements_Some. simplify_eq.
  pose proof (wf_size_bound _ _ _ Hwf Hs) as Hb.
  pose proof (wf_vec_of _ _ _ Hwf Hs) as [Hsz _].
  rewrite (begin_run _ _ _ Hs) in Hfirst. injection Hfirst as <-.
  destruct Hback as (s0 & Hs0 & Hback). simplify_eq.
  destruct (ArrayPtrRep.raw_ptr_ (items_ s)) as [|b x] eqn:Hraw; [lia|].
  destruct Hxs as (-> & l & Hl & Hxs & Hle).
  destruct Hback as (l0 & Hl0 & Hcl). assert (l0 = l) as -> by congruence.
  apply ptr_add_inv in Hpos. rewrite Z.add_0_l in Hpos. subst pos.
  assert (bv ≠ b) as Hne by (intros ->; apply Hown; by exists s, 0).
  set (s1 := BuildSV (size_ s + 1) (capacity_ s) (items_ s)).
  set (w1 := set_objs (<[this := s1]> (objs w)) w).
  assert (objs w1 !! this = Some s1) as Hs1 by (simpl; by rewrite lookup_insert_eq).
  assert (SimpleVector.make_room this w = Ok tt w1) as Hmk.
  { apply wp_intro_eq. unfold SimpleVector.make_room.
    eapply wp_bind, wp_rd; [done|]. eapply wp_bind, wp_rd; [done|]. simpl.
    destruct (Z.ltb_spec (size_ s) (capacity_ s)); [|lia].
    rewrite wrap_small by lia. by eapply wp_wr_size_. }
  (* the state the call leaves, for the array it leaves *)
  cut (∃ l', wp (SimpleVector.Insert_const_ref this (Ptr b i) (Ptr bv ov)) w (λ r w',
           r = Ptr b i ∧ w' = set_heap (<[b := l']> (heap w1)) w1) ∧
         length l' = length l ∧
         take (Z.to_nat (size_ s + 1)) l' =
           take (Z.to_nat i) xs ++ v :: drop (Z.to_nat i) xs ∧
         l' !! Z.to_nat i = Some v).
  { intros (l' & (r & w' & Heq & -> & Hw')%wp_elim & Hlen' & Htake & Hat).
    exists w'.
    assert (objs w' !! this = Some s1) as Hs' by (by rewrite Hw').
    assert (heap w' !! b = Some l') as Hl'
      by (rewrite Hw'; simpl; by rewrite lookup_insert_eq).
    split_and!; try done.
    - rewrite (elements_intro _ _ _ _ _ Hs' Hraw Hl'); simpl; [by rewrite Htake|lia].
    - unfold load. rewrite Hl'. destruct (Z.leb_spec 0 i); [|lia]. by rewrite Hat.
    - rewrite Hw'. simpl. by rewrite lookup_insert_ne. }
  assert (SimpleVector.in_range_closed this (Ptr b i) w = Ok true w) as Hrange.
  { rewrite (in_range_closed_run this w s b l i) by (done || lia).
    by destruct (Z.leb_spec i (size_ s)); [|lia]. }
  assert (SimpleVector.end_ this w1 = Ok (Ptr b (size_ s + 1)) w1) as Hend1.
  { apply (end_run this w1 s1 b l); try done. simpl. lia. }
  destruct (decide (i = size_ s)) as [->|Hni].
  - (* at the end: [PushBack] *)
    exists (<[Z.to_nat (size_ s) := v]> l). split_and!.
    + unfold SimpleVector.Insert_const_ref.
      eapply wp_bind, wp_intro; [exact Hrange|]. apply wp_bind, wp_assert; [done|].
      eapply wp_bind, wp_intro; [by eapply cend_run; [done..|lia]|].
      unfold ptr_eqb. rewrite Nat.eqb_refl, Z.eqb_refl. simpl.
      unfold SimpleVector.PushBack_const_ref.
      eapply wp_bind, wp_bind, wp_intro; [exact Hmk|].
      eapply wp_bind, wp_rd; [done|]. eapply wp_bind, wp_rd; [done|]. simpl.
      replace (size_ s + 1 - 1) with (size_ s) by lia. rewrite wrap_small by lia.
      unfold ArrayPtr.index. rewrite Hraw.
      eapply wp_bind, wp_ptr_add; [done|lia|]. unfold Std.copy_assign.
      eapply wp_bind, wp_load; [done..|].
      eapply wp_store; [done|lia|]. rewrite Z.add_0_l.
      eapply wp_bind, wp_intro.
      { apply (end_run this _ s1 b (<[Z.to_nat (size_ s) := v]> l)); try done.
        - simpl. by rewrite lookup_insert_eq.
        - simpl. rewrite length_insert. lia. }
      simpl. eapply wp_ptr_add; [simpl; by rewrite lookup_insert_eq| |].
      { rewrite length_insert. lia. }
      split; [f_equal; lia|done].
    + by rewrite length_insert.
    + replace (Z.to_nat (size_ s + 1)) with (S (Z.to_nat (size_ s))) by lia.
      rewrite take_S_insert by lia. rewrite <-Hxs.
      rewrite take_ge, drop_ge by lia. done.
    + apply list_lookup_insert_eq. lia.
  - (* in the middle: the elements from [i] on move to the back *)
    destruct (lookup_lt_is_Some_2 l (Z.to_nat (size_ s))) as [y Hy]; [lia|].
    set (pre := take (Z.to_nat i) l).
    set (mid := take (Z.to_nat (size_ s) - Z.to_nat i) (drop (Z.to_nat i) l)).
    set (post := drop (S (Z.to_nat (size_ s))) l).
    assert (l = pre ++ mid ++ y :: post) as Hsplit
      by (apply array_split_right; [done|lia]).
    assert (length pre = Z.to_nat i) as Hlpre by (unfold pre; rewrite length_take; lia).
    assert (length mid = (Z.to_nat (size_ s) - Z.to_nat i)%nat) as Hlmid.
    { unfold mid. rewrite length_take, length_drop. lia. }
    assert (length l = (length pre + (length mid + S (length post)))%nat) as Hll.
    { rewrite Hsplit at 1. rewrite !length_app. simpl. lia. }
    exists (pre ++ v :: mid ++ post). split_and!.
    + unfold SimpleVector.Insert_const_ref.
      eapply wp_bind, wp_intro; [exact Hrange|]. apply wp_bind, wp_assert; [done|].
      eapply wp_bind, wp_intro; [by eapply cend_run; [done..|lia]|].
      unfold ptr_eqb. rewrite Nat.eqb_refl.
      destruct (Z.eqb_spec i (size_ s)); [lia|]. simpl.
      eapply wp_bind, wp_intro; [exact Hmk|].
      eapply wp_bind, wp_intro; [by apply cbegin_run|]. simpl. rewrite Hraw.
      eapply wp_bind, wp_ptr_diff; [done|]. rewrite Z.sub_0_r, (wrap_small i) by lia.
      unfold ArrayPtr.index.
      eapply wp_bind, wp_rd; [done|]. simpl. rewrite Hraw.
      eapply wp_bind, wp_ptr_add; [done|lia|].
      eapply wp_bind, wp_intro; [exact Hend1|].
      eapply wp_bind, wp_ptr_add; [done|lia|].
      eapply wp_bind, wp_intro; [exact Hend1|].
      unfold Std.move_backward, Std.range_length.
      eapply wp_bind, wp_bind, wp_bind, wp_ptr_diff; [done|].
      destruct (Z.ltb_spec (size_ s + 1 + -1 - (0 + i)) 0); [lia|]. apply wp_ret.
      replace (Z.to_nat (size_ s + 1 + -1 - (0 + i))) with (length mid) by lia.
      replace (size_ s + 1 + -1) with (i + Z.of_nat (length mid)) by lia.
      replace (size_ s + 1) with (i + Z.of_nat (length mid) + 1) by lia.
      eapply wp_mono.
      { eapply (wp_move_backward_n_shift mid pre y post b w1 i); [lia|].
        simpl. by rewrite <-Hsplit. }
      intros r w2 [-> [x ->]]. cbv beta.
      eapply wp_bind, wp_ptr_add; [simpl; by rewrite lookup_insert_eq| |].
      { rewrite !length_app. simpl. rewrite length_app. lia. }
      unfold Std.copy_assign.
      eapply wp_bind, wp_bind, wp_load; [simpl; by rewrite lookup_insert_ne|done..|].
      eapply wp_store; [simpl; by rewrite lookup_insert_eq| |].
      { rewrite !length_app. simpl. rewrite length_app. lia. }
      apply wp_ret. split; [f_equal; lia|].
      unfold set_heap. simpl. rewrite insert_insert_eq. do 2 f_equal.
      replace (Z.to_nat (i + 1 + -1)) with (length pre) by lia.
      rewrite insert_app_r_alt by lia. by rewrite Nat.sub_diag.
    + rewrite !length_app. simpl. rewrite length_app. lia.
    + replace (pre ++ v :: mid ++ post) with ((pre ++ v :: mid) ++ post)
        by (by rewrite <-app_assoc).
      rewrite take_app_le by (rewrite length_app; simpl; lia).
      rewrite take_ge by (rewrite length_app; simpl; lia).
      rewrite Hxs, take_take.
      replace (Z.to_nat i `min` Z.to_nat (size_ s))%nat with (Z.to_nat i) by lia.
      fold pre. do 2 f_equal. unfold mid. rewrite take_drop_commute.
      do 2 f_equal. lia.
    + rewrite lookup_app_r by lia. by rewrite Hlpre, Nat.sub_diag.
Qed.

(** C7, for an argument that is not an element of the vector itself.
    [Insert(pos, value)] with [value] passed by [const Type&] leaves the
    object [value] refers to what it was, wherever [pos] points: in every
    state the call leaves behind, by a return or by an exception, a read
    of the argument gives its old value.  The call does return, pointing
    at a copy of the argument, when [pos] is [end()] and the vector is
    full, allocation permitting, and for every [pos] from [begin()] to
    [end()] when the vector has room to spare and an array with a cell
    for each unit of capacity behind it.  ([value] may be an object of
    the caller or an element of another vector.  For an element of the
    vector itself the shift of the elements reaches the argument before
    it is read.) *)
Theorem insert_const_ref_keeps_argument (w : world) (this : loc) (pos : pointer)
    (bv : block) (ov : Z) (lv : list T) (v : T) :
  wf_world w →
  heap w !! bv = Some lv → 0 ≤ ov → lv !! Z.to_nat ov = Some v →
  ¬ owns w this bv →
  match SimpleVector.Insert_const_ref this pos (Ptr bv ov) w with
  | Ok _ w' | Throw _ w' => load (Ptr bv ov) w' = Ok v w'
  | AssertFail | Undefined => True
  end ∧
  (∀ s, objs w !! this = Some s → SimpleVector.cend this w = Ok pos w →
        capacity_ s ≤ size_ s →
        Z.max (capacity_ s * 2) (size_ s + 1) ≤ max_alloc →
        ∃ it w', SimpleVector.Insert_const_ref this pos (Ptr bv ov) w = Ok it w' ∧
                 load it w' = Ok v w' ∧ load (Ptr bv ov) w' = Ok v w') ∧
  (∀ s xs first i,
     objs w !! this = Some s → elements w this = Some xs →
     backed w this → size_ s < capacity_ s →
     SimpleVector.begin_ this w = Ok first w → ptr_add first i w = Ok pos w →
     0 ≤ i ≤ Z.of_nat (length xs) →
     ∃ w', SimpleVector.Insert_const_ref this pos (Ptr bv ov) w = Ok pos w' ∧
           load pos w' = Ok v w' ∧ load (Ptr bv ov) w' = Ok v w').
Proof.
  intros Hwf Hlv Hov Hv Hown.
  assert (∀ w', heap w' !! bv = Some lv → load (Ptr bv ov) w' = Ok v w') as Hload.
  { intros w' Hlv'. unfold load. rewrite Hlv'.
    destruct (Z.leb_spec 0 ov); [|lia]. by rewrite Hv. }
  pose proof (Insert_const_ref_leaves_others this pos (Ptr bv ov) w bv lv Hwf Hlv Hown)
    as Hwlp.
  unfold wlp in Hwlp. split_and!.
  - destruct (SimpleVector.Insert_const_ref this pos (Ptr bv ov) w); auto.
  - intros s Hs Hend Hfull Hmax.
    destruct (wf_elements _ _ _ Hwf Hs) as (xs & Hel & Hlen).
    pose proof (wf_vec_of _ _ _ Hwf Hs) as [Hsz _].
    destruct (PushBack_const_ref_full_run this w s xs bv ov lv v)
      as (w' & l & Hpush & Hs' & Hl' & Hlen' & Htake & Hlv'); [done..|].
    pose proof (Insert_const_ref_end_run this pos (Ptr bv ov) w s w' _ _ l
                  Hwf Hs Hend Hpush Hs' eq_refl Hl' ltac:(simpl; lia)) as Heq.
    simpl in Heq.
    eexists _, w'. split; [exact Heq|]. split; [|by apply Hload].
    unfold load. rewrite Hl'.
    replace (size_ s + 1 - 1) with (size_ s) by lia.
    destruct (Z.leb_spec 0 (size_ s)); [|lia].
    assert (l !! Z.to_nat (size_ s) = Some v) as ->; [|done].
    assert ((xs ++ [v]) !! Z.to_nat (size_ s) = Some v) as Hx.
    { rewrite lookup_app_r by lia.
      by replace (Z.to_nat (size_ s) - length xs)%nat with O by lia. }
    rewrite <-Htake in Hx. rewrite lookup_take_lt in Hx by lia. done.
  - intros s xs first i Hs Hel Hback Hroom Hfirst Hpos Hi.
    destruct (Insert_const_ref_room_run w this s xs first pos bv ov lv i v)
      as (w' & Heq & _ & Hat & Hlv'); [done..|].
    exists w'. split; [done|]. split; [done|]. by apply Hload.
Qed.

(** ** Assignment of a vector to itself *)

(** when the elements compare equal to themselves the guard of both
    assignment operators is false and nothing runs *)
Lemma self_assignment_guarded w this xs :
  elements w this = Some xs → equal_lists xs xs = true →
  SimpleVector.assign_copy this this w = Ok this w ∧
  SimpleVector.assign_move this this w = Ok this w.
Proof.
  intros Hel Hrefl.
  pose proof (operator_ne_run w this this xs xs Hel Hel) as Hne.
  rewrite Hrefl in Hne. simpl in Hne.
  unfold SimpleVector.assign_copy, SimpleVector.assign_move.
  by rewrite !(bind_ok _ _ _ _ _ Hne).
Qed.

(** move assignment to itself, whatever the guard answers: the temporary
    takes the fields, gives them back in the swap and is destroyed with a
    null pointer *)
Lemma assign_move_self_run w this s xs :
  wf_world w → objs w !! this = Some s → elements w this = Some xs →
  ∃ w', SimpleVector.assign_move this this w = Ok this w' ∧
        heap w' = heap w ∧ objs w' = objs w.
Proof.
  intros Hwf Hs Hel.
  pose proof (wf_obj_lt _ _ _ Hwf Hs) as Hlt.
  pose proof (operator_ne_run w this this xs xs Hel Hel) as Hne.
  cut (wp (SimpleVector.assign_move this this) w (λ r w',
         r = this ∧ heap w' = heap w ∧ objs w' = objs w)).
  { intros (r & w' & Heq & -> & Hh' & Ho')%wp_elim. by exists w'. }
  unfold SimpleVector.assign_move.
  eapply wp_bind, wp_intro; [exact Hne|].
  destruct (negb (equal_lists xs xs)); [|by apply wp_bind, wp_ret, wp_ret].
  unfold SimpleVector.ctor_move, ArrayPtr.move_ctor.
  eapply wp_bind, wp_bind, wp_bind, wp_rd; [done|]. cbv beta.
  eapply wp_bind, wp_wr_size_; [done|].
  eapply wp_bind, wp_rd; [simpl; by rewrite lookup_insert_eq|]. simpl.
  eapply wp_bind, wp_wr_capacity_; [simpl; by rewrite lookup_insert_eq|]. simpl.
  eapply wp_bind, wp_rd; [simpl; by rewrite lookup_insert_eq|]. simpl.
  eapply wp_bind, wp_wr_items_; [simpl; by rewrite lookup_insert_eq|]. simpl.
  apply wp_new_obj. simpl.
  eapply wp_bind, wp_swap.
  { simpl. rewrite lookup_insert_ne by lia. by rewrite lookup_insert_eq. }
  { simpl. by rewrite lookup_insert_eq. }
  unfold SimpleVector.dtor, ArrayPtr.dtor.
  eapply wp_bind, wp_rd; [simpl; by rewrite lookup_insert_eq|]. simpl.
  apply wp_bind, wp_delete_array_null.
  eapply wp_del_obj; [simpl; by rewrite lookup_insert_eq|]. simpl.
  apply wp_ret. split; [done|]. split; [done|]. simpl.
  apply map_eq. intros o.
  destruct (decide (o = next_loc w)) as [->|Htmp].
  { rewrite lookup_delete_eq. symmetry. apply (wf_fresh_loc _ Hwf). lia. }
  rewrite lookup_delete_ne by done. rewrite lookup_insert_ne by done.
  destruct (decide (o = this)) as [->|Hthis].
  { rewrite lookup_insert_eq, Hs. by destruct s as [? ? []]. }
  by repeat (rewrite lookup_insert_ne by done).
Qed.

(** ** States to try the theorems on *)

Lemma owned_by_none_spec w b : owned_by_none w b = true → ∀ o, ¬ owns w o b.
Proof.
  unfold owned_by_none. rewrite forallb_forall.
  intros Hall o (s & x & Hs & Hraw).
  specialize (Hall (o, s)). simpl in Hall. rewrite Hraw in Hall.
  rewrite Nat.eqb_refl in Hall. simpl in Hall.
  assert (false = true) as Hf; [|done]. apply Hall.
  apply list_elem_of_In. by apply elem_of_map_to_list.
Qed.

Lemma client_holds_intro w b o l v :
  heap w !! b = Some l → 0 ≤ o → l !! Z.to_nat o = Some v →
  owned_by_none w b = true → client_holds w (Ptr b o) v.
Proof.
  intros Hl Ho Hv Hnone. split; [by exists l|]. by apply owned_by_none_spec.
Qed.

Lemma wf_run_all cs : Forall well_typed cs → wf_world (run_all cs empty_world).
Proof. intros Hcs. apply reachable_wf, reachable_run_all; [apply reachable_empty|done]. Qed.

End Verification.

(** * The scenarios of the specification, on concrete vectors *)

(** C5 holds for every growth step but one.  When [Resize], either
    [PushBack] on a full vector, or either [Insert] at [end()] of a full
    vector needs [required >= capacity + 1] cells, the new capacity is
    [max(capacity * 2, required)] (so [1] for a vector of capacity [0]),
    provided the allocation succeeds; five [PushBack]s on a
    default-constructed vector leave the capacities 1, 2, 4, 4, 8.  [Insert]
    before [end()] of a full vector, by either overload, is undefined
    behaviour and leaves no capacity to speak of: [index] is computed from
    [pos] after the reallocation, when [pos] points into the array that was
    freed.  (The argument of [PushBack] and [Insert] is an object outside
    the array of the vector; one inside it dangles after the
    reallocation.) *)
Theorem growth_policy :
  (∀ (T : Type) (EL : Element T) (PL : Platform)
     (w : world T) (this : loc) (s : SimpleVectorRep) (required : Z),
     wf_world w → objs w !! this = Some s →
     capacity_ s + 1 ≤ required →
     Z.max (capacity_ s * 2) required ≤ max_alloc →
     (∃ w', SimpleVector.Resize this required w = Ok tt w' ∧
            SimpleVector.GetCapacity this w' =
              Ok (Z.max (capacity_ s * 2) required) w') ∧
     (required = size_ s + 1 →
      ∀ bv ov lv v,
        heap w !! bv = Some lv → 0 ≤ ov → lv !! Z.to_nat ov = Some v →
        ¬ owns w this bv →
        (∃ w', SimpleVector.PushBack_const_ref this (Ptr bv ov) w = Ok tt w' ∧
               SimpleVector.GetCapacity this w' =
                 Ok (Z.max (capacity_ s * 2) required) w') ∧
        (∃ w', SimpleVector.PushBack_rvalue_ref this (Ptr bv ov) w = Ok tt w' ∧
               SimpleVector.GetCapacity this w' =
                 Ok (Z.max (capacity_ s * 2) required) w') ∧
        (∀ pos, SimpleVector.cend this w = Ok pos w →
           (∃ it w', SimpleVector.Insert_const_ref this pos (Ptr bv ov) w = Ok it w' ∧
                     SimpleVector.GetCapacity this w' =
                       Ok (Z.max (capacity_ s * 2) required) w') ∧
           (∃ it w', SimpleVector.Insert_rvalue_ref this pos (Ptr bv ov) w = Ok it w' ∧
                     SimpleVector.GetCapacity this w' =
                       Ok (Z.max (capacity_ s * 2) required) w')))) ∧
  (∃ w', Scenario.five_push_backs 10 20 30 40 50 empty_world = Ok [1; 2; 4; 4; 8] w') ∧
  Scenario.insert_at [1; 2; 4; 5] 2 3 empty_world = Undefined ∧
  Scenario.insert_rvalue_at [1; 2; 4; 5] 2 3 empty_world = Undefined.
Proof.
  split; [|split; [|split]].
  - intros T EL PL. apply capacity_after_growth_of_all.
  - eexists. vm_compute. reflexivity.
  - vm_compute. reflexivity.
  - vm_compute. reflexivity.
Qed.

(** C2 fails on the code.  [Insert] in the middle of a full vector: [Resize]
    moves the elements to a new array and frees the old one, and only then
    does [Insert] compute [index] from [pos], which still points into the
    old array.  The scenario S2 of the specification runs into this; with
    room for one more element the same call gives [1; 2; 3; 4; 5]. *)
Theorem insert_in_full_vector_undefined :
  Scenario.insert_at [1; 2; 4; 5] 2 3 empty_world = Undefined ∧
  (∃ w', Scenario.reserve_insert_at [1; 2; 4; 5] 5 2 3 empty_world
         = Ok (Some [1; 2; 3; 4; 5]) w').
Proof.
  split.
  - vm_compute. reflexivity.
  - eexists. vm_compute. reflexivity.
Qed.

(** C3 fails on the code.  Move assignment from a vector whose elements
    equal those of the destination leaves the source as it was: the guard of
    [operator=] compares the contents, not the addresses.  From a source
    with other elements it leaves size [0], capacity [0] and a null
    pointer. *)
Theorem move_assignment_keeps_equal_source :
  (∃ w', Scenario.move_assign_from [1] [1] empty_world = Ok (1, 1, Ptr 1%nat 0) w') ∧
  (∃ w', Scenario.move_assign_from [1] [2] empty_world = Ok (0, 0, Null) w').
Proof.
  split; eexists; vm_compute; reflexivity.
Qed.

(** C6 fails on the code.  The assertion of [operator[]] is
    [index <= size_]: with three elements, [v[3]] passes it and yields a
    reference one past the last element; [v[4]] fails it. *)
Theorem index_assertion_accepts_size :
  (∃ w', Scenario.index_at [1; 2; 3] 3 empty_world = Ok (Ptr 0%nat 3) w') ∧
  Scenario.index_at [1; 2; 3] 4 empty_world = AssertFail.
Proof.
  split; [eexists|]; vm_compute; reflexivity.
Qed.

(** C7 fails for an argument that is an element of the vector itself.
    With [v] holding the strings [[1]], [[2]], [[3]] in an array of four
    cells, [v.Insert(v.begin() + 2, v[2])] first moves the element at
    index 2 one place back and then copies from the argument, which is that
    element: the argument reads [[3]] before the call and the empty,
    moved-from string afterwards, and the vector ends as
    [[1]; [2]; []; [3]].  On integers, [v.Insert(v.begin(), v[2])] with
    [v = {1, 2, 3}] leaves the argument reading [2] after [3], and the
    vector [2; 1; 2; 3]. *)
Lemma insert_const_ref_changes_own_element :
  (∃ w', Scenario.insert_own_element [[1]; [2]; [3]] 4 2 2 (empty_world (T := list Z))
           = Ok ([3], []) w' ∧
         elements w' 0%nat = Some [[1]; [2]; []; [3]]) ∧
  (∃ w', Scenario.insert_own_element [1; 2; 3] 4 0 2 (empty_world (T := Z))
           = Ok (3, 2) w' ∧
         elements w' 0%nat = Some [2; 1; 2; 3]).
Proof.
  split; eexists; split; vm_compute; reflexivity.
Qed.

(** C10 fails on the code for copy assignment of a vector to itself when
    an element does not compare equal to itself.  The guard of
    [operator=] is [*this != rhs], a comparison of the elements: with a NaN
    among them it is true for [v = v], and the vector is copied and swapped.
    For [v] holding a NaN and [1.0] in an array of four cells, [begin()]
    moves to a new array of two cells, the old array is freed, [capacity_]
    still says [4], and a [PushBack] that returned before the assignment is
    undefined behaviour after it.  Move assignment of the same vector to
    itself leaves [begin()] where it was.  In general: when the elements
    compare equal to themselves both assignments return at the guard and the
    state is what it was; move assignment to itself always leaves every
    array and the fields of every vector what they were; copy assignment to
    itself always keeps the size and the elements. *)
Theorem copy_self_assignment_reallocates :
  (∃ w', Scenario.copy_self_assign [None; Some 1] 4 empty_world
           = Ok (Ptr 1%nat 0, Ptr 2%nat 0) w' ∧
         SimpleVector.GetCapacity 0%nat w' = Ok 4 w' ∧
         heap w' !! 2%nat = Some [None; Some 1] ∧
         heap w' !! 1%nat = None ∧
         ¬ backed w' 0%nat) ∧
  (∃ w', Scenario.reserve_push_back [None; Some 1] 4 (Some 2) empty_world = Ok tt w') ∧
  Scenario.copy_self_assign_push_back [None; Some 1] 4 (Some 2) empty_world = Undefined ∧
  (∃ w', Scenario.move_self_assign [None; Some 1] 4 empty_world
           = Ok (Ptr 1%nat 0, Ptr 1%nat 0) w') ∧
  (∀ (T : Type) (EL : Element T) (PL : Platform)
     (w : world T) (this : loc) (s : SimpleVectorRep) (xs : list T),
     wf_world w → objs w !! this = Some s → elements w this = Some xs →
     (equal_lists xs xs = true →
      SimpleVector.assign_copy this this w = Ok this w ∧
      SimpleVector.assign_move this this w = Ok this w) ∧
     (∃ w', SimpleVector.assign_move this this w = Ok this w' ∧
            heap w' = heap w ∧ objs w' = objs w) ∧
     (∃ w', SimpleVector.assign_copy this this w = Ok this w' ∧
            SimpleVector.GetSize this w' = Ok (size_ s) w' ∧
            elements w' this = Some xs)).
Proof.
  split_and!.
  - eexists. split; [vm_compute; reflexivity|].
    split; [vm_compute; reflexivity|].
    split; [vm_compute; reflexivity|].
    split; [vm_compute; reflexivity|].
    intros (s & Hs & Hb). vm_compute in Hs. injection Hs as <-.
    destruct Hb as (l & Hl & Hc). vm_compute in Hl. injection Hl as <-.
    vm_compute in Hc. by apply Hc.
  - eexists. vm_compute. reflexivity.
  - vm_compute. reflexivity.
  - eexists. vm_compute. reflexivity.
  - intros T EL PL w this s xs Hwf Hs Hel. split_and!.
    + by apply self_assignment_guarded.
    + by eapply assign_move_self_run.
    + destruct (self_assignment_fields w this s xs Hwf Hs Hel)
        as [(w' & Heq & Hsz & _ & Hel') _].
      by exists w'.
Qed.

(** ** Instances of the theorems *)

Lemma reserve_ctor_size_capacity_witness :
  0 ≤ 7 ≤ max_alloc ∧
  ∃ this w',
    SimpleVector.ctor_reserve (Reserve 7) (empty_world (T := Z)) = Ok this w' ∧
    SimpleVector.GetSize this w' = Ok 0 w' ∧
    SimpleVector.GetCapacity this w' = Ok 7 w' ∧
    backed w' this ∧
    ∃ l, heap w' !! 0%nat = Some l ∧ Z.of_nat (length l) = 7.
Proof.
  assert (0 ≤ 7 ≤ max_alloc) as Hn by (simpl; lia).
  split; [exact Hn|].
  destruct (reserve_ctor_size_capacity 7 (empty_world (T := Z)) Hn)
    as (this & w' & Heq & Hsz & Hcap & _ & Hback & Hcells & _).
  destruct (Hcells ltac:(lia)) as (_ & _ & Hl).
  exists this, w'. split; [exact Heq|]. split; [exact Hsz|]. split; [exact Hcap|].
  split; [exact Hback|]. exact Hl.
Defined.

Lemma reachable_size_capacity_range_witness :
  reachable (run_all [CtorInitList [1; 2; 3]] (empty_world (T := Z))) ∧
  is_Some (objs (run_all [CtorInitList [1; 2; 3]] (empty_world (T := Z))) !! 0%nat) ∧
  ∃ n c first last,
    SimpleVector.GetSize 0%nat (run_all [CtorInitList [1; 2; 3]] empty_world)
      = Ok n (run_all [CtorInitList [1; 2; 3]] empty_world) ∧
    SimpleVector.GetCapacity 0%nat (run_all [CtorInitList [1; 2; 3]] empty_world)
      = Ok c (run_all [CtorInitList [1; 2; 3]] empty_world) ∧
    0 ≤ n ≤ c ∧
    SimpleVector.begin_ 0%nat (run_all [CtorInitList [1; 2; 3]] empty_world)
      = Ok first (run_all [CtorInitList [1; 2; 3]] empty_world) ∧
    SimpleVector.end_ 0%nat (run_all [CtorInitList [1; 2; 3]] empty_world)
      = Ok last (run_all [CtorInitList [1; 2; 3]] empty_world) ∧
    ptr_diff last first (run_all [CtorInitList [1; 2; 3]] empty_world)
      = Ok n (run_all [CtorInitList [1; 2; 3]] empty_world).
Proof.
  assert (reachable (run_all [CtorInitList [1; 2; 3]] (empty_world (T := Z)))) as Hr.
  { apply reachable_run_all; [apply reachable_empty|].
    repeat constructor. simpl. unfold is_size_t. simpl. lia. }
  assert (is_Some (objs (run_all [CtorInitList [1; 2; 3]] (empty_world (T := Z))) !! 0%nat))
    as Hs by (eexists; vm_compute; reflexivity).
  split; [exact Hr|]. split; [exact Hs|].
  exact (reachable_size_capacity_range _ _ Hr Hs).
Defined.

Lemma growth_policy_witness :
  let w : world Z :=
    run_all [CtorInitList [1; 2]; ClientNew 1; ClientStore (Ptr 1%nat 0) 7] empty_world in
  let s := BuildSV 2 2 (ArrayPtrRep.Build (Ptr 0%nat 0)) in
  wf_world w ∧ objs w !! 0%nat = Some s ∧
  capacity_ s + 1 ≤ 3 ∧ Z.max (capacity_ s * 2) 3 ≤ max_alloc ∧
  3 = size_ s + 1 ∧
  heap w !! 1%nat = Some [7] ∧ 0 ≤ 0 ∧ [7] !! Z.to_nat 0 = Some 7 ∧ ¬ owns w 0%nat 1%nat ∧
  SimpleVector.cend 0%nat w = Ok (Ptr 0%nat 2) w ∧
  (∃ w', SimpleVector.Resize 0%nat 3 w = Ok tt w' ∧
         SimpleVector.GetCapacity 0%nat w' = Ok 4 w') ∧
  (∃ it w', SimpleVector.Insert_rvalue_ref 0%nat (Ptr 0%nat 2) (Ptr 1%nat 0) w = Ok it w' ∧
            SimpleVector.GetCapacity 0%nat w' = Ok 4 w').
Proof.
  intros w s.
  assert (wf_world w) as Hwf.
  { apply wf_run_all. repeat constructor; simpl; unfold is_size_t; simpl; lia. }
  assert (objs w !! 0%nat = Some s) as Hs by (vm_compute; reflexivity).
  assert (capacity_ s + 1 ≤ 3) as Hreq by (simpl; lia).
  assert (Z.max (capacity_ s * 2) 3 ≤ max_alloc) as Hmax by (simpl; lia).
  assert (3 = size_ s + 1) as Hthree by reflexivity.
  assert (heap w !! 1%nat = Some [7]) as Hlv by (vm_compute; reflexivity).
  assert (0 ≤ 0) as Hov by lia.
  assert ([7] !! Z.to_nat 0 = Some 7) as Hv by reflexivity.
  assert (¬ owns w 0%nat 1%nat) as Hown
    by (apply owned_by_none_spec; vm_compute; reflexivity).
  assert (SimpleVector.cend 0%nat w = Ok (Ptr 0%nat 2) w) as Hend
    by (vm_compute; reflexivity).
  split; [exact Hwf|]. split; [exact Hs|]. split; [exact Hreq|]. split; [exact Hmax|].
  split; [exact Hthree|]. split; [exact Hlv|]. split; [exact Hov|]. split; [exact Hv|].
  split; [exact Hown|]. split; [exact Hend|]. clearbody w.
  destruct growth_policy as [Hall _].
  destruct (Hall Z _ _ w 0%nat s 3 Hwf Hs Hreq Hmax) as [Hresize Hpush].
  destruct (Hpush Hthree 1%nat 0 [7] 7 Hlv Hov Hv Hown) as (_ & _ & Hins).
  destruct (Hins (Ptr 0%nat 2) Hend) as [_ Hrv].
  split; [exact Hresize|exact Hrv].
Defined.

Lemma insert_const_ref_keeps_argument_witness :
  let w : world (list Z) :=
    run_all [CtorInitList [[1]; [2]]; ClientNew 1; ClientStore (Ptr 1%nat 0) [3]]
      empty_world in
  let s := BuildSV 2 2 (ArrayPtrRep.Build (Ptr 0%nat 0)) in
  wf_world w ∧ heap w !! 1%nat = Some [[3]] ∧ 0 ≤ 0 ∧ [[3]] !! Z.to_nat 0 = Some [3] ∧
  ¬ owns w 0%nat 1%nat ∧
  objs w !! 0%nat = Some s ∧ SimpleVector.cend 0%nat w = Ok (Ptr 0%nat 2) w ∧
  capacity_ s ≤ size_ s ∧ Z.max (capacity_ s * 2) (size_ s + 1) ≤ max_alloc ∧
  ∃ it w', SimpleVector.Insert_const_ref 0%nat (Ptr 0%nat 2) (Ptr 1%nat 0) w = Ok it w' ∧
           load it w' = Ok [3] w' ∧ load (Ptr 1%nat 0) w' = Ok [3] w'.
Proof.
  intros w s.
  assert (wf_world w) as Hwf.
  { apply wf_run_all. repeat constructor; simpl; unfold is_size_t; simpl; lia. }
  assert (heap w !! 1%nat = Some [[3]]) as Hlv by (vm_compute; reflexivity).
  assert (0 ≤ 0) as Hov by lia.
  assert ([[3]] !! Z.to_nat 0 = Some [3]) as Hv by reflexivity.
  assert (¬ owns w 0%nat 1%nat) as Hown
    by (apply owned_by_none_spec; vm_compute; reflexivity).
  assert (objs w !! 0%nat = Some s) as Hs by (vm_compute; reflexivity).
  assert (SimpleVector.cend 0%nat w = Ok (Ptr 0%nat 2) w) as Hend
    by (vm_compute; reflexivity).
  assert (capacity_ s ≤ size_ s) as Hfull by (simpl; lia).
  assert (Z.max (capacity_ s * 2) (size_ s + 1) ≤ max_alloc) as Hmax by (simpl; lia).
  split; [exact Hwf|]. split; [exact Hlv|]. split; [exact Hov|]. split; [exact Hv|].
  split; [exact Hown|]. split; [exact Hs|]. split; [exact Hend|]. split; [exact Hfull|].
  split; [exact Hmax|]. clearbody w.
  pose proof (insert_const_ref_keeps_argument w 0%nat (Ptr 0%nat 2) 1%nat 0 [[3]] [3]
                Hwf Hlv Hov Hv Hown) as (_ & Hret & _).
  exact (Hret s Hs Hend Hfull Hmax).
Defined.

Lemma At_checks_bounds_witness :
  let w : world Z := run_all [CtorInitList [1; 2; 3]] empty_world in
  elements w 0%nat = Some [1; 2; 3] ∧ 0 ≤ 0 ∧
  (SimpleVector.At 0%nat 0 w = Throw out_of_range w ↔ Z.of_nat (length [1; 2; 3]) ≤ 0) ∧
  (0 < Z.of_nat (length [1; 2; 3]) →
   ∃ p x, SimpleVector.At 0%nat 0 w = Ok p w ∧ load p w = Ok x w ∧
          [1; 2; 3] !! Z.to_nat 0 = Some x).
Proof.
  intros w.
  assert (elements w 0%nat = Some [1; 2; 3]) as Hel by (vm_compute; reflexivity).
  assert (0 ≤ 0) as Hi by lia.
  split; [exact Hel|]. split; [exact Hi|].
  exact (At_checks_bounds w 0%nat [1; 2; 3] 0 Hel Hi).
Defined.

Lemma resize_down_up_witness :
  let w : world Z := run_all [CtorInitList [7; 7; 7]] empty_world in
  wf_world w ∧ elements w 0%nat = Some [7; 7; 7] ∧ 0 ≤ 1 ≤ Z.of_nat (length [7; 7; 7]) ∧
  ∃ w',
    (SimpleVector.Resize 0%nat 1 ;; SimpleVector.Resize 0%nat (Z.of_nat (length [7; 7; 7]))) w
      = Ok tt w' ∧
    SimpleVector.GetSize 0%nat w' = Ok (Z.of_nat (length [7; 7; 7])) w' ∧
    elements w' 0%nat =
      Some (take (Z.to_nat 1) [7; 7; 7] ++
            replicate (length [7; 7; 7] - Z.to_nat 1) value_init).
Proof.
  intros w.
  assert (wf_world w) as Hwf.
  { apply reachable_wf, reachable_run_all; [apply reachable_empty|].
    repeat constructor. simpl. unfold is_size_t. simpl. lia. }
  assert (elements w 0%nat = Some [7; 7; 7]) as Hel by (vm_compute; reflexivity).
  assert (0 ≤ 1 ≤ Z.of_nat (length [7; 7; 7])) as Hk by (simpl; lia).
  split; [exact Hwf|]. split; [exact Hel|]. split; [exact Hk|].
  exact (resize_down_up w 0%nat [7; 7; 7] 1 Hwf Hel Hk).
Defined.

Lemma copy_self_assignment_reallocates_witness :
  let w : world Z := run_all [CtorInitList [1; 2; 3]] empty_world in
  let s := BuildSV 3 3 (ArrayPtrRep.Build (Ptr 0%nat 0)) in
  wf_world w ∧ objs w !! 0%nat = Some s ∧ elements w 0%nat = Some [1; 2; 3] ∧
  equal_lists [1; 2; 3] [1; 2; 3] = true ∧
  SimpleVector.assign_copy 0%nat 0%nat w = Ok 0%nat w ∧
  SimpleVector.assign_move 0%nat 0%nat w = Ok 0%nat w.
Proof.
  intros w s.
  assert (wf_world w) as Hwf.
  { apply wf_run_all. repeat constructor; simpl; unfold is_size_t; simpl; lia. }
  assert (objs w !! 0%nat = Some s) as Hs by (vm_compute; reflexivity).
  assert (elements w 0%nat = Some [1; 2; 3]) as Hel by (vm_compute; reflexivity).
  assert (equal_lists [1; 2; 3] [1; 2; 3] = true) as Hrefl by reflexivity.
  split; [exact Hwf|]. split; [exact Hs|]. split; [exact Hel|]. split; [exact Hrefl|].
  clearbody w.
  destruct copy_self_assignment_reallocates as (_ & _ & _ & _ & Hall).
  destruct (Hall Z _ _ w 0%nat s [1; 2; 3] Hwf Hs Hel) as (Hguard & _).
  exact (Hguard Hrefl).
Defined.

(** ** Instances of the theorems on the other functions *)

Lemma ctor_init_list_elements_witness :
  wf_world (empty_world (T := Z)) ∧
  ∃ this w',
    SimpleVector.ctor_init_list [1; 2; 3] (empty_world (T := Z)) = Ok this w' ∧
    elements w' this = Some [1; 2; 3].
Proof.
  split; [apply wf_empty_world|].
  destruct (proj1 (ctor_init_list_elements (empty_world (T := Z)) [1; 2; 3] wf_empty_world))
    as (this & w' & Heq & _ & Hel & _); [simpl; lia|].
  exists this, w'. split; [exact Heq|exact Hel].
Defined.

Lemma ctor_size_elements_witness :
  wf_world (empty_world (T := Z)) ∧ 0 ≤ 3 ∧
  ∃ this w',
    SimpleVector.ctor_size 3 (empty_world (T := Z)) = Ok this w' ∧
    elements w' this = Some [0; 0; 0].
Proof.
  assert (0 ≤ 3) as Hn by lia.
  split; [apply wf_empty_world|]. split; [exact Hn|].
  destruct (proj1 (ctor_size_elements (empty_world (T := Z)) 3 wf_empty_world Hn))
    as (this & w' & Heq & _ & Hel & _); [simpl; lia|].
  exists this, w'. split; [exact Heq|exact Hel].
Defined.

Lemma ctor_size_value_elements_witness :
  let w : world Z := run_all [ClientNew 1; ClientStore (Ptr 0%nat 0) 7] empty_world in
  wf_world w ∧ 0 ≤ 2 ∧ client_holds w (Ptr 0%nat 0) 7 ∧
  ∃ this w',
    SimpleVector.ctor_size_value 2 (Ptr 0%nat 0) w = Ok this w' ∧
    elements w' this = Some [7; 7].
Proof.
  intros w.
  assert (wf_world w) as Hwf.
  { apply wf_run_all. repeat constructor; simpl; unfold is_size_t; simpl; lia. }
  assert (0 ≤ 2) as Hn by lia.
  assert (client_holds w (Ptr 0%nat 0) 7) as Hv.
  { apply (client_holds_intro w 0%nat 0 [7]); [vm_compute; reflexivity|lia|reflexivity|
                                                vm_compute; reflexivity]. }
  split; [exact Hwf|]. split; [exact Hn|]. split; [exact Hv|]. clearbody w.
  destruct (proj1 (ctor_size_value_elements w 2 (Ptr 0%nat 0) 7 Hwf Hn Hv))
    as (this & w' & Heq & _ & Hel & _); [simpl; lia|].
  exists this, w'. split; [exact Heq|exact Hel].
Defined.

Lemma ctor_copy_elements_witness :
  let w : world Z := run_all [CtorInitList [1; 2; 3]] empty_world in
  wf_world w ∧ elements w 0%nat = Some [1; 2; 3] ∧
  ∃ this w',
    SimpleVector.ctor_copy 0%nat w = Ok this w' ∧
    elements w' this = Some [1; 2; 3].
Proof.
  intros w.
  assert (wf_world w) as Hwf.
  { apply wf_run_all. repeat constructor; simpl; unfold is_size_t; simpl; lia. }
  assert (elements w 0%nat = Some [1; 2; 3]) as Hel by (vm_compute; reflexivity).
  split; [exact Hwf|]. split; [exact Hel|]. clearbody w.
  destruct (ctor_copy_elements w 0%nat [1; 2; 3] Hwf Hel)
    as (this & w' & Heq & _ & Hel' & _).
  exists this, w'. split; [exact Heq|exact Hel'].
Defined.

Lemma ctor_copy_capacity_without_cells_witness :
  let w : world Z := run_all [CtorInitList [1; 2]; CallReserve 0%nat 4] empty_world in
  let s := BuildSV 2 4 (ArrayPtrRep.Build (Ptr 1%nat 0)) in
  wf_world w ∧ objs w !! 0%nat = Some s ∧ elements w 0%nat = Some [1; 2] ∧
  size_ s < capacity_ s ∧
  ∃ this w',
    SimpleVector.ctor_copy 0%nat w = Ok this w' ∧
    SimpleVector.GetCapacity this w' = Ok 4 w' ∧
    SimpleVector.PushBack_const_ref this Null w' = Undefined.
Proof.
  intros w s.
  assert (wf_world w) as Hwf.
  { apply wf_run_all. repeat constructor; simpl; unfold is_size_t; simpl; lia. }
  assert (objs w !! 0%nat = Some s) as Hs by (vm_compute; reflexivity).
  assert (elements w 0%nat = Some [1; 2]) as Hel by (vm_compute; reflexivity).
  assert (size_ s < capacity_ s) as Hroom by (simpl; lia).
  split; [exact Hwf|]. split; [exact Hs|]. split; [exact Hel|]. split; [exact Hroom|].
  clearbody w.
  destruct (ctor_copy_capacity_without_cells w 0%nat s [1; 2] Null Hwf Hs Hel Hroom)
    as (this & w' & Heq & _ & Hcap & _ & Hub).
  exists this, w'. split; [exact Heq|]. split; [exact Hcap|exact Hub].
Defined.

Lemma ctor_move_elements_witness :
  let w : world Z := run_all [CtorInitList [1; 2; 3]] empty_world in
  let s := BuildSV 3 3 (ArrayPtrRep.Build (Ptr 0%nat 0)) in
  wf_world w ∧ objs w !! 0%nat = Some s ∧ elements w 0%nat = Some [1; 2; 3] ∧
  ∃ this w',
    SimpleVector.ctor_move 0%nat w = Ok this w' ∧
    elements w' this = Some [1; 2; 3] ∧
    elements w' 0%nat = Some [].
Proof.
  intros w s.
  assert (wf_world w) as Hwf.
  { apply wf_run_all. repeat constructor; simpl; unfold is_size_t; simpl; lia. }
  assert (objs w !! 0%nat = Some s) as Hs by (vm_compute; reflexivity).
  assert (elements w 0%nat = Some [1; 2; 3]) as Hel by (vm_compute; reflexivity).
  split; [exact Hwf|]. split; [exact Hs|]. split; [exact Hel|]. clearbody w.
  destruct (ctor_move_elements w 0%nat s [1; 2; 3] Hwf Hs Hel)
    as (this & w' & Heq & _ & _ & Hel' & _ & _ & _ & Hsrc & _).
  exists this, w'. split; [exact Heq|]. split; [exact Hel'|exact Hsrc].
Defined.

Lemma resize_up_elements_witness :
  let w : world Z := run_all [CtorInitList [1; 2; 3]] empty_world in
  let s := BuildSV 3 3 (ArrayPtrRep.Build (Ptr 0%nat 0)) in
  wf_world w ∧ objs w !! 0%nat = Some s ∧ elements w 0%nat = Some [1; 2; 3] ∧
  size_ s ≤ 5 ∧ (5 ≤ capacity_ s → backed w 0%nat) ∧
  (capacity_ s < 5 → Z.max (capacity_ s * 2) 5 ≤ max_alloc) ∧
  ∃ w',
    SimpleVector.Resize 0%nat 5 w = Ok tt w' ∧
    elements w' 0%nat = Some [1; 2; 3; 0; 0] ∧
    SimpleVector.GetCapacity 0%nat w' = Ok 6 w' ∧
    SimpleVector.begin_ 0%nat w' = Ok (Ptr 1%nat 0) w' ∧
    heap w' !! 0%nat = None.
Proof.
  intros w s.
  assert (wf_world w) as Hwf.
  { apply wf_run_all. repeat constructor; simpl; unfold is_size_t; simpl; lia. }
  assert (objs w !! 0%nat = Some s) as Hs by (vm_compute; reflexivity).
  assert (elements w 0%nat = Some [1; 2; 3]) as Hel by (vm_compute; reflexivity).
  assert (5 ≤ capacity_ s → backed w 0%nat) as Hback.
  { intros _. apply (backed_intro w 0%nat s 0%nat 0 [1; 2; 3]);
      [exact Hs|reflexivity|vm_compute; reflexivity|simpl; lia]. }
  assert (size_ s ≤ 5) as Hn by (simpl; lia).
  assert (capacity_ s < 5 → Z.max (capacity_ s * 2) 5 ≤ max_alloc) as Hmax
    by (intros _; simpl; lia).
  assert (capacity_ s < 5) as Hgrow by (simpl; lia).
  assert (owns w 0%nat 0%nat) as Hown by (by exists s, 0).
  assert (next_block w = 1%nat) as Hnext by (vm_compute; reflexivity).
  split; [exact Hwf|]. split; [exact Hs|]. split; [exact Hel|]. split; [exact Hn|].
  split; [exact Hback|]. split; [exact Hmax|]. clearbody w.
  destruct (resize_up_elements w 0%nat s [1; 2; 3] 5 Hwf Hs Hel Hn Hback Hmax)
    as (w' & Heq & _ & Hel' & _ & Hcap & _ & _ & Hnew & _).
  destruct (Hnew Hgrow) as (Hfirst & _ & Hold). rewrite Hnext in Hfirst.
  exists w'. split; [exact Heq|]. split; [exact Hel'|]. split; [exact Hcap|].
  split; [exact Hfirst|exact (Hold 0%nat Hown)].
Defined.

Lemma resize_bad_alloc_keeps_new_capacity_witness :
  let w : world Z := run_all [CtorInitList [1; 2; 3]] empty_world in
  let s := BuildSV 3 3 (ArrayPtrRep.Build (Ptr 0%nat 0)) in
  wf_world w ∧ objs w !! 0%nat = Some s ∧ capacity_ s < 2 ^ 41 ∧
  max_alloc < Z.max (wrap (capacity_ s * 2)) (2 ^ 41) ∧
  ∃ w',
    SimpleVector.Resize 0%nat (2 ^ 41) w = Throw bad_alloc w' ∧
    SimpleVector.GetSize 0%nat w' = Ok 3 w' ∧
    SimpleVector.GetCapacity 0%nat w' = Ok (2 ^ 41) w'.
Proof.
  intros w s.
  assert (wf_world w) as Hwf.
  { apply wf_run_all. repeat constructor; simpl; unfold is_size_t; simpl; lia. }
  assert (objs w !! 0%nat = Some s) as Hs by (vm_compute; reflexivity).
  assert (capacity_ s < 2 ^ 41) as Hn by (simpl; lia).
  assert (max_alloc < Z.max (wrap (capacity_ s * 2)) (2 ^ 41)) as Hmax
    by (vm_compute; reflexivity).
  split; [exact Hwf|]. split; [exact Hs|]. split; [exact Hn|]. split; [exact Hmax|].
  clearbody w.
  destruct (resize_bad_alloc_keeps_new_capacity w 0%nat s (2 ^ 41) Hwf Hs Hn Hmax)
    as (w' & Heq & _ & Hsz & Hcap & _).
  exists w'. split; [exact Heq|]. split; [exact Hsz|exact Hcap].
Defined.

Lemma push_back_const_ref_elements_witness :
  let w : world Z :=
    run_all [CtorInitList [1; 2]; ClientNew 1; ClientStore (Ptr 1%nat 0) 7] empty_world in
  let s := BuildSV 2 2 (ArrayPtrRep.Build (Ptr 0%nat 0)) in
  wf_world w ∧ objs w !! 0%nat = Some s ∧ elements w 0%nat = Some [1; 2] ∧
  (size_ s < capacity_ s → backed w 0%nat) ∧ client_holds w (Ptr 1%nat 0) 7 ∧
  (capacity_ s ≤ size_ s → Z.max (capacity_ s * 2) (size_ s + 1) ≤ max_alloc) ∧
  ∃ w',
    SimpleVector.PushBack_const_ref 0%nat (Ptr 1%nat 0) w = Ok tt w' ∧
    elements w' 0%nat = Some [1; 2; 7] ∧
    SimpleVector.GetCapacity 0%nat w' = Ok 4 w'.
Proof.
  intros w s.
  assert (wf_world w) as Hwf.
  { apply wf_run_all. repeat constructor; simpl; unfold is_size_t; simpl; lia. }
  assert (objs w !! 0%nat = Some s) as Hs by (vm_compute; reflexivity).
  assert (elements w 0%nat = Some [1; 2]) as Hel by (vm_compute; reflexivity).
  assert (size_ s < capacity_ s → backed w 0%nat) as Hback.
  { intros _. apply (backed_intro w 0%nat s 0%nat 0 [1; 2]);
      [exact Hs|reflexivity|vm_compute; reflexivity|simpl; lia]. }
  assert (client_holds w (Ptr 1%nat 0) 7) as Hv.
  { apply (client_holds_intro w 1%nat 0 [7]); [vm_compute; reflexivity|lia|reflexivity|
                                                vm_compute; reflexivity]. }
  assert (capacity_ s ≤ size_ s → Z.max (capacity_ s * 2) (size_ s + 1) ≤ max_alloc)
    as Hmax by (intros _; simpl; lia).
  split; [exact Hwf|]. split; [exact Hs|]. split; [exact Hel|]. split; [exact Hback|].
  split; [exact Hv|]. split; [exact Hmax|]. clearbody w.
  destruct (push_back_const_ref_elements w 0%nat s [1; 2] (Ptr 1%nat 0) 7
              Hwf Hs Hel Hback Hv Hmax) as (w' & Heq & _ & Hel' & Hcap & _).
  exists w'. split; [exact Heq|]. split; [exact Hel'|exact Hcap].
Defined.

Lemma push_back_rvalue_ref_elements_witness :
  let w : world (list Z) :=
    run_all [CtorInitList [[1]; [2]]; CallReserve 0%nat 4; ClientNew 1;
             ClientStore (Ptr 2%nat 0) [7]] empty_world in
  let s := BuildSV 2 4 (ArrayPtrRep.Build (Ptr 1%nat 0)) in
  wf_world w ∧ objs w !! 0%nat = Some s ∧ elements w 0%nat = Some [[1]; [2]] ∧
  (size_ s < capacity_ s → backed w 0%nat) ∧ client_holds w (Ptr 2%nat 0) [7] ∧
  (capacity_ s ≤ size_ s → Z.max (capacity_ s * 2) (size_ s + 1) ≤ max_alloc) ∧
  ∃ w',
    SimpleVector.PushBack_rvalue_ref 0%nat (Ptr 2%nat 0) w = Ok tt w' ∧
    elements w' 0%nat = Some [[1]; [2]; [7]] ∧
    SimpleVector.GetCapacity 0%nat w' = Ok 4 w' ∧
    client_holds w' (Ptr 2%nat 0) [].
Proof.
  intros w s.
  assert (wf_world w) as Hwf.
  { apply wf_run_all. repeat constructor; simpl; unfold is_size_t; simpl; lia. }
  assert (objs w !! 0%nat = Some s) as Hs by (vm_compute; reflexivity).
  assert (elements w 0%nat = Some [[1]; [2]]) as Hel by (vm_compute; reflexivity).
  assert (size_ s < capacity_ s → backed w 0%nat) as Hback.
  { intros _. apply (backed_intro w 0%nat s 1%nat 0 [[1]; [2]; []; []]);
      [exact Hs|reflexivity|vm_compute; reflexivity|simpl; lia]. }
  assert (client_holds w (Ptr 2%nat 0) [7]) as Hv.
  { apply (client_holds_intro w 2%nat 0 [[7]]); [vm_compute; reflexivity|lia|reflexivity|
                                                  vm_compute; reflexivity]. }
  assert (capacity_ s ≤ size_ s → Z.max (capacity_ s * 2) (size_ s + 1) ≤ max_alloc)
    as Hmax by (intros _; simpl; lia).
  split; [exact Hwf|]. split; [exact Hs|]. split; [exact Hel|]. split; [exact Hback|].
  split; [exact Hv|]. split; [exact Hmax|]. clearbody w.
  destruct (push_back_rvalue_ref_elements w 0%nat s [[1]; [2]] (Ptr 2%nat 0) [7]
              Hwf Hs Hel Hback Hv Hmax) as (w' & Heq & _ & Hel' & Hcap & _ & _ & Hv' & _).
  exists w'. split; [exact Heq|]. split; [exact Hel'|]. split; [exact Hcap|exact Hv'].
Defined.

Lemma clear_keeps_capacity_witness :
  let w : world Z := run_all [CtorInitList [1; 2; 3]] empty_world in
  let s := BuildSV 3 3 (ArrayPtrRep.Build (Ptr 0%nat 0)) in
  objs w !! 0%nat = Some s ∧ elements w 0%nat = Some [1; 2; 3] ∧
  ∃ w',
    SimpleVector.Clear 0%nat w = Ok tt w' ∧
    elements w' 0%nat = Some [] ∧
    SimpleVector.GetCapacity 0%nat w' = Ok 3 w'.
Proof.
  intros w s.
  assert (objs w !! 0%nat = Some s) as Hs by (vm_compute; reflexivity).
  assert (elements w 0%nat = Some [1; 2; 3]) as Hel by (vm_compute; reflexivity).
  split; [exact Hs|]. split; [exact Hel|]. clearbody w.
  destruct (clear_keeps_capacity w 0%nat s [1; 2; 3] Hs Hel)
    as (w' & Heq & Hel' & _ & Hcap & _).
  exists w'. split; [exact Heq|]. split; [exact Hel'|exact Hcap].
Defined.

Lemma pop_back_elements_witness :
  let w : world Z := run_all [CtorInitList [1; 2; 3]] empty_world in
  let s := BuildSV 3 3 (ArrayPtrRep.Build (Ptr 0%nat 0)) in
  wf_world w ∧ objs w !! 0%nat = Some s ∧ elements w 0%nat = Some [1; 2; 3] ∧
  ∃ w',
    SimpleVector.PopBack 0%nat w = Ok tt w' ∧
    elements w' 0%nat = Some [1; 2].
Proof.
  intros w s.
  assert (wf_world w) as Hwf.
  { apply wf_run_all. repeat constructor; simpl; unfold is_size_t; simpl; lia. }
  assert (objs w !! 0%nat = Some s) as Hs by (vm_compute; reflexivity).
  assert (elements w 0%nat = Some [1; 2; 3]) as Hel by (vm_compute; reflexivity).
  split; [exact Hwf|]. split; [exact Hs|]. split; [exact Hel|]. clearbody w.
  destruct (proj2 (pop_back_elements w 0%nat s [1; 2; 3] Hwf Hs Hel))
    as (w' & Heq & Hel' & _); [discriminate|].
  exists w'. split; [exact Heq|exact Hel'].
Defined.

Lemma swap_exchanges_witness :
  let w : world Z := run_all [CtorInitList [1; 2]; CtorInitList [3]] empty_world in
  let s1 := BuildSV 2 2 (ArrayPtrRep.Build (Ptr 0%nat 0)) in
  let s2 := BuildSV 1 1 (ArrayPtrRep.Build (Ptr 1%nat 0)) in
  objs w !! 0%nat = Some s1 ∧ objs w !! 1%nat = Some s2 ∧
  ∃ w',
    SimpleVector.swap 0%nat 1%nat w = Ok tt w' ∧
    elements w' 0%nat = Some [3] ∧
    elements w' 1%nat = Some [1; 2] ∧
    SimpleVector.swap 0%nat 1%nat w' = Ok tt w.
Proof.
  intros w s1 s2.
  assert (objs w !! 0%nat = Some s1) as Hs1 by (vm_compute; reflexivity).
  assert (objs w !! 1%nat = Some s2) as Hs2 by (vm_compute; reflexivity).
  assert (elements w 0%nat = Some [1; 2]) as Hel1 by (vm_compute; reflexivity).
  assert (elements w 1%nat = Some [3]) as Hel2 by (vm_compute; reflexivity).
  split; [exact Hs1|]. split; [exact Hs2|]. clearbody w.
  destruct (swap_exchanges w 0%nat 1%nat s1 s2 Hs1 Hs2)
    as (w' & Heq & H1 & H2 & _ & _ & _ & _ & _ & _ & Hback).
  exists w'. split; [exact Heq|]. split; [exact (eq_trans H1 Hel2)|].
  split; [exact (eq_trans H2 Hel1)|exact Hback].
Defined.

Lemma reserve_elements_witness :
  let w : world Z := run_all [CtorInitList [1; 2; 3]] empty_world in
  let s := BuildSV 3 3 (ArrayPtrRep.Build (Ptr 0%nat 0)) in
  wf_world w ∧ objs w !! 0%nat = Some s ∧ elements w 0%nat = Some [1; 2; 3] ∧
  ∃ w',
    SimpleVector.Reserve 0%nat 10 w = Ok tt w' ∧
    elements w' 0%nat = Some [1; 2; 3] ∧
    SimpleVector.GetCapacity 0%nat w' = Ok 10 w'.
Proof.
  intros w s.
  assert (wf_world w) as Hwf.
  { apply wf_run_all. repeat constructor; simpl; unfold is_size_t; simpl; lia. }
  assert (objs w !! 0%nat = Some s) as Hs by (vm_compute; reflexivity).
  assert (elements w 0%nat = Some [1; 2; 3]) as Hel by (vm_compute; reflexivity).
  split; [exact Hwf|]. split; [exact Hs|]. split; [exact Hel|]. clearbody w.
  destruct (proj1 (proj2 (reserve_elements w 0%nat s [1; 2; 3] 10 Hwf Hs Hel)))
    as (w' & Heq & _ & Hel' & _ & Hcap & _); [simpl; lia|simpl; lia|].
  exists w'. split; [exact Heq|]. split; [exact Hel'|exact Hcap].
Defined.

Lemma erase_elements_witness :
  let w : world Z := run_all [CtorInitList [1; 2; 3]] empty_world in
  let s := BuildSV 3 3 (ArrayPtrRep.Build (Ptr 0%nat 0)) in
  wf_world w ∧ objs w !! 0%nat = Some s ∧ elements w 0%nat = Some [1; 2; 3] ∧
  SimpleVector.begin_ 0%nat w = Ok (Ptr 0%nat 0) w ∧
  ptr_add (Ptr 0%nat 0) 1 w = Ok (Ptr 0%nat 1) w ∧
  0 ≤ 1 ≤ Z.of_nat (length [1; 2; 3]) ∧
  ∃ w',
    SimpleVector.Erase 0%nat (Ptr 0%nat 1) w = Ok (Ptr 0%nat 1) w' ∧
    elements w' 0%nat = Some [1; 3].
Proof.
  intros w s.
  assert (wf_world w) as Hwf.
  { apply wf_run_all. repeat constructor; simpl; unfold is_size_t; simpl; lia. }
  assert (objs w !! 0%nat = Some s) as Hs by (vm_compute; reflexivity).
  assert (elements w 0%nat = Some [1; 2; 3]) as Hel by (vm_compute; reflexivity).
  assert (SimpleVector.begin_ 0%nat w = Ok (Ptr 0%nat 0) w) as Hfirst
    by (vm_compute; reflexivity).
  assert (ptr_add (Ptr 0%nat 0) 1 w = Ok (Ptr 0%nat 1) w) as Hpos
    by (vm_compute; reflexivity).
  assert (0 ≤ 1 ≤ Z.of_nat (length [1; 2; 3])) as Hi by (simpl; lia).
  split; [exact Hwf|]. split; [exact Hs|]. split; [exact Hel|]. split; [exact Hfirst|].
  split; [exact Hpos|]. split; [exact Hi|]. clearbody w.
  destruct (proj2 (erase_elements w 0%nat s [1; 2; 3] (Ptr 0%nat 0) (Ptr 0%nat 1) 1
                     Hwf Hs Hel Hfirst Hpos Hi))
    as (w' & Heq & _ & Hel' & _); [simpl; lia|].
  exists w'. split; [exact Heq|exact Hel'].
Defined.

Lemma insert_const_ref_elements_witness :
  let w : world Z :=
    run_all [CtorInitList [1; 2]; CallReserve 0%nat 4; ClientNew 1;
             ClientStore (Ptr 2%nat 0) 7] empty_world in
  let s := BuildSV 2 4 (ArrayPtrRep.Build (Ptr 1%nat 0)) in
  wf_world w ∧ objs w !! 0%nat = Some s ∧ elements w 0%nat = Some [1; 2] ∧
  backed w 0%nat ∧ size_ s < capacity_ s ∧ client_holds w (Ptr 2%nat 0) 7 ∧
  SimpleVector.begin_ 0%nat w = Ok (Ptr 1%nat 0) w ∧
  ptr_add (Ptr 1%nat 0) 1 w = Ok (Ptr 1%nat 1) w ∧
  0 ≤ 1 ≤ Z.of_nat (length [1; 2]) ∧
  ∃ w',
    SimpleVector.Insert_const_ref 0%nat (Ptr 1%nat 1) (Ptr 2%nat 0) w = Ok (Ptr 1%nat 1) w' ∧
    elements w' 0%nat = Some [1; 7; 2] ∧
    client_holds w' (Ptr 2%nat 0) 7.
Proof.
  intros w s.
  assert (wf_world w) as Hwf.
  { apply wf_run_all. repeat constructor; simpl; unfold is_size_t; simpl; lia. }
  assert (objs w !! 0%nat = Some s) as Hs by (vm_compute; reflexivity).
  assert (elements w 0%nat = Some [1; 2]) as Hel by (vm_compute; reflexivity).
  assert (backed w 0%nat) as Hback.
  { apply (backed_intro w 0%nat s 1%nat 0 [1; 2; -1; -1]);
      [exact Hs|reflexivity|vm_compute; reflexivity|simpl; lia]. }
  assert (size_ s < capacity_ s) as Hroom by (simpl; lia).
  assert (client_holds w (Ptr 2%nat 0) 7) as Hv.
  { apply (client_holds_intro w 2%nat 0 [7]); [vm_compute; reflexivity|lia|reflexivity|
                                                vm_compute; reflexivity]. }
  assert (SimpleVector.begin_ 0%nat w = Ok (Ptr 1%nat 0) w) as Hfirst
    by (vm_compute; reflexivity).
  assert (ptr_add (Ptr 1%nat 0) 1 w = Ok (Ptr 1%nat 1) w) as Hpos
    by (vm_compute; reflexivity).
  assert (0 ≤ 1 ≤ Z.of_nat (length [1; 2])) as Hi by (simpl; lia).
  split; [exact Hwf|]. split; [exact Hs|]. split; [exact Hel|]. split; [exact Hback|].
  split; [exact Hroom|]. split; [exact Hv|]. split; [exact Hfirst|]. split; [exact Hpos|].
  split; [exact Hi|]. clearbody w.
  destruct (insert_const_ref_elements w 0%nat s [1; 2] (Ptr 1%nat 0) (Ptr 1%nat 1)
              (Ptr 2%nat 0) 1 7 Hwf Hs Hel Hback Hroom Hv Hfirst Hpos Hi)
    as (w' & Heq & _ & Hel' & _ & _ & _ & _ & Hv' & _).
  exists w'. split; [exact Heq|]. split; [exact Hel'|exact Hv'].
Defined.

Lemma insert_rvalue_ref_elements_witness :
  let w : world (list Z) :=
    run_all [CtorInitList [[1]; [2]]; CallReserve 0%nat 4; ClientNew 1;
             ClientStore (Ptr 2%nat 0) [7]] empty_world in
  let s := BuildSV 2 4 (ArrayPtrRep.Build (Ptr 1%nat 0)) in
  wf_world w ∧ objs w !! 0%nat = Some s ∧ elements w 0%nat = Some [[1]; [2]] ∧
  backed w 0%nat ∧ size_ s < capacity_ s ∧ client_holds w (Ptr 2%nat 0) [7] ∧
  SimpleVector.begin_ 0%nat w = Ok (Ptr 1%nat 0) w ∧
  ptr_add (Ptr 1%nat 0) 0 w = Ok (Ptr 1%nat 0) w ∧
  0 ≤ 0 ≤ Z.of_nat (length [[1]; [2]]) ∧
  ∃ w',
    SimpleVector.Insert_rvalue_ref 0%nat (Ptr 1%nat 0) (Ptr 2%nat 0) w = Ok (Ptr 1%nat 0) w' ∧
    elements w' 0%nat = Some [[7]; [1]; [2]] ∧
    client_holds w' (Ptr 2%nat 0) [].
Proof.
  intros w s.
  assert (wf_world w) as Hwf.
  { apply wf_run_all. repeat constructor; simpl; unfold is_size_t; simpl; lia. }
  assert (objs w !! 0%nat = Some s) as Hs by (vm_compute; reflexivity).
  assert (elements w 0%nat = Some [[1]; [2]]) as Hel by (vm_compute; reflexivity).
  assert (backed w 0%nat) as Hback.
  { apply (backed_intro w 0%nat s 1%nat 0 [[1]; [2]; []; []]);
      [exact Hs|reflexivity|vm_compute; reflexivity|simpl; lia]. }
  assert (size_ s < capacity_ s) as Hroom by (simpl; lia).
  assert (client_holds w (Ptr 2%nat 0) [7]) as Hv.
  { apply (client_holds_intro w 2%nat 0 [[7]]); [vm_compute; reflexivity|lia|reflexivity|
                                                  vm_compute; reflexivity]. }
  assert (SimpleVector.begin_ 0%nat w = Ok (Ptr 1%nat 0) w) as Hfirst
    by (vm_compute; reflexivity).
  assert (ptr_add (Ptr 1%nat 0) 0 w = Ok (Ptr 1%nat 0) w) as Hpos
    by (vm_compute; reflexivity).
  assert (0 ≤ 0 ≤ Z.of_nat (length [[1]; [2]])) as Hi by (simpl; lia).
  split; [exact Hwf|]. split; [exact Hs|]. split; [exact Hel|]. split; [exact Hback|].
  split; [exact Hroom|]. split; [exact Hv|]. split; [exact Hfirst|]. split; [exact Hpos|].
  split; [exact Hi|]. clearbody w.
  destruct (insert_rvalue_ref_elements w 0%nat s [[1]; [2]] (Ptr 1%nat 0) (Ptr 1%nat 0)
              (Ptr 2%nat 0) 0 [7] Hwf Hs Hel Hback Hroom Hv Hfirst Hpos Hi)
    as (w' & Heq & _ & Hel' & _ & _ & _ & _ & Hv' & _).
  exists w'. split; [exact Heq|]. split; [exact Hel'|exact Hv'].
Defined.

Lemma operator_eq_compares_elements_witness :
  let w : world Z := run_all [CtorInitList [1; 2]; CtorInitList [3]] empty_world in
  elements w 0%nat = Some [1; 2] ∧ elements w 1%nat = Some [3] ∧
  SimpleVector.operator_eq 0%nat 1%nat w = Ok false w ∧
  SimpleVector.operator_ne 0%nat 1%nat w = Ok true w.
Proof.
  intros w.
  assert (elements w 0%nat = Some [1; 2]) as Hel1 by (vm_compute; reflexivity).
  assert (elements w 1%nat = Some [3]) as Hel2 by (vm_compute; reflexivity).
  split; [exact Hel1|]. split; [exact Hel2|]. clearbody w.
  exact (operator_eq_compares_elements w 0%nat 1%nat [1; 2] [3] Hel1 Hel2).
Defined.

Lemma comparison_operators_lexicographic_witness :
  let w : world Z := run_all [CtorInitList [1; 2]; CtorInitList [3]] empty_world in
  elements w 0%nat = Some [1; 2] ∧ elements w 1%nat = Some [3] ∧
  SimpleVector.operator_lt 0%nat 1%nat w = Ok true w ∧
  SimpleVector.operator_le 0%nat 1%nat w = Ok true w ∧
  SimpleVector.operator_gt 0%nat 1%nat w = Ok false w ∧
  SimpleVector.operator_ge 0%nat 1%nat w = Ok false w.
Proof.
  intros w.
  assert (elements w 0%nat = Some [1; 2]) as Hel1 by (vm_compute; reflexivity).
  assert (elements w 1%nat = Some [3]) as Hel2 by (vm_compute; reflexivity).
  split; [exact Hel1|]. split; [exact Hel2|]. clearbody w.
  exact (comparison_operators_lexicographic w 0%nat 1%nat [1; 2] [3] Hel1 Hel2).
Defined.

Lemma iterators_read_elements_witness :
  let w : world Z := run_all [CtorInitList [1; 2; 3]] empty_world in
  elements w 0%nat = Some [1; 2; 3] ∧
  ∃ first last,
    SimpleVector.begin_ 0%nat w = Ok first w ∧
    SimpleVector.end_ 0%nat w = Ok last w ∧
    reads w first [1; 2; 3] ∧
    ptr_add first 3 w = Ok last w.
Proof.
  intros w.
  assert (elements w 0%nat = Some [1; 2; 3]) as Hel by (vm_compute; reflexivity).
  split; [exact Hel|]. clearbody w.
  destruct (iterators_read_elements w 0%nat [1; 2; 3] Hel)
    as (first & last & Hf & Hl & _ & _ & Hr & Hadd & _).
  exists first, last. split; [exact Hf|]. split; [exact Hl|]. split; [exact Hr|exact Hadd].
Defined.

Lemma assign_copy_elements_witness :
  let w : world Z := run_all [CtorInitList [1; 2]; CtorInitList [3]] empty_world in
  let s := BuildSV 2 2 (ArrayPtrRep.Build (Ptr 0%nat 0)) in
  let r := BuildSV 1 1 (ArrayPtrRep.Build (Ptr 1%nat 0)) in
  wf_world w ∧ objs w !! 0%nat = Some s ∧ objs w !! 1%nat = Some r ∧
  elements w 0%nat = Some [1; 2] ∧ elements w 1%nat = Some [3] ∧ 0%nat ≠ 1%nat ∧
  ∃ w',
    SimpleVector.assign_copy 0%nat 1%nat w = Ok 0%nat w' ∧
    elements w' 0%nat = Some [3] ∧
    elements w' 1%nat = Some [3].
Proof.
  intros w s r.
  assert (wf_world w) as Hwf.
  { apply wf_run_all. repeat constructor; simpl; unfold is_size_t; simpl; lia. }
  assert (objs w !! 0%nat = Some s) as Hs by (vm_compute; reflexivity).
  assert (objs w !! 1%nat = Some r) as Hr by (vm_compute; reflexivity).
  assert (elements w 0%nat = Some [1; 2]) as Hel1 by (vm_compute; reflexivity).
  assert (elements w 1%nat = Some [3]) as Hel2 by (vm_compute; reflexivity).
  assert (0%nat ≠ 1%nat) as Hne by discriminate.
  split; [exact Hwf|]. split; [exact Hs|]. split; [exact Hr|]. split; [exact Hel1|].
  split; [exact Hel2|]. split; [exact Hne|]. clearbody w.
  destruct (assign_copy_elements w 0%nat 1%nat s r [1; 2] [3] Hwf Hs Hr Hel1 Hel2 Hne)
    as (w' & Heq & _ & Hcase & Hothers).
  exists w'. split; [exact Heq|]. split; [exact (proj1 Hcase)|].
  exact (eq_trans (Hothers 1%nat (not_eq_sym Hne)) Hel2).
Defined.

Lemma assign_move_elements_witness :
  let w : world Z := run_all [CtorInitList [1; 2]; CtorInitList [3]] empty_world in
  let s := BuildSV 2 2 (ArrayPtrRep.Build (Ptr 0%nat 0)) in
  let r := BuildSV 1 1 (ArrayPtrRep.Build (Ptr 1%nat 0)) in
  wf_world w ∧ objs w !! 0%nat = Some s ∧ objs w !! 1%nat = Some r ∧
  elements w 0%nat = Some [1; 2] ∧ elements w 1%nat = Some [3] ∧ 0%nat ≠ 1%nat ∧
  ∃ w',
    SimpleVector.assign_move 0%nat 1%nat w = Ok 0%nat w' ∧
    elements w' 0%nat = Some [3] ∧
    elements w' 1%nat = Some [] ∧
    heap w' !! 0%nat = None.
Proof.
  intros w s r.
  assert (wf_world w) as Hwf.
  { apply wf_run_all. repeat constructor; simpl; unfold is_size_t; simpl; lia. }
  assert (objs w !! 0%nat = Some s) as Hs by (vm_compute; reflexivity).
  assert (objs w !! 1%nat = Some r) as Hr by (vm_compute; reflexivity).
  assert (elements w 0%nat = Some [1; 2]) as Hel1 by (vm_compute; reflexivity).
  assert (elements w 1%nat = Some [3]) as Hel2 by (vm_compute; reflexivity).
  assert (0%nat ≠ 1%nat) as Hne by discriminate.
  assert (owns w 0%nat 0%nat) as Hown by (exists s, 0; split; [exact Hs|reflexivity]).
  split; [exact Hwf|]. split; [exact Hs|]. split; [exact Hr|]. split; [exact Hel1|].
  split; [exact Hel2|]. split; [exact Hne|]. clearbody w.
  destruct (assign_move_elements w 0%nat 1%nat s r [1; 2] [3] Hwf Hs Hr Hel1 Hel2 Hne)
    as (w' & Heq & _ & Hcase & _).
  destruct Hcase as (Hthis & _ & _ & Hrhs & _ & _ & Hold).
  exists w'. split; [exact Heq|]. split; [exact Hthis|]. split; [exact Hrhs|].
  exact (Hold 0%nat Hown).
Defined.

Lemma dtor_frees_array_witness :
  let w : world Z := run_all [CtorInitList [1; 2; 3]] empty_world in
  let s := BuildSV 3 3 (ArrayPtrRep.Build (Ptr 0%nat 0)) in
  wf_world w ∧ objs w !! 0%nat = Some s ∧
  ∃ w',
    SimpleVector.dtor 0%nat w = Ok tt w' ∧
    objs w' !! 0%nat = None ∧
    heap w' !! 0%nat = None.
Proof.
  intros w s.
  assert (wf_world w) as Hwf.
  { apply wf_run_all. repeat constructor; simpl; unfold is_size_t; simpl; lia. }
  assert (objs w !! 0%nat = Some s) as Hs by (vm_compute; reflexivity).
  assert (owns w 0%nat 0%nat) as Hown by (exists s, 0; split; [exact Hs|reflexivity]).
  split; [exact Hwf|]. split; [exact Hs|]. clearbody w.
  destruct (dtor_frees_array w 0%nat s Hwf Hs) as (w' & Heq & _ & Hgone & Hold & _).
  exists w'. split; [exact Heq|]. split; [exact Hgone|exact (Hold 0%nat Hown)].
Defined.

Lemma reachable_arrays_owned_once_witness :
  let w : world Z := run_all [CtorInitList [1; 2]; CtorInitList [3]] empty_world in
  reachable w ∧
  (∀ o1 o2 b, owns w o1 b → owns w o2 b → o1 = o2) ∧
  (∀ o s, objs w !! o = Some s →
          ∃ xs, elements w o = Some xs ∧ Z.of_nat (length xs) = size_ s).
Proof.
  intros w.
  assert (reachable w) as Hr.
  { apply reachable_run_all; [apply reachable_empty|].
    repeat constructor; simpl; unfold is_size_t; simpl; lia. }
  split; [exact Hr|]. clearbody w.
  destruct (reachable_arrays_owned_once w Hr) as (Hown & _ & Hel).
  split; [exact Hown|exact Hel].
Defined.

Lemma array_ptr_allocates_and_frees_witness :
  wf_world (empty_world (T := Z)) ∧ 0 ≤ 3 ∧
  ∃ a w1,
    ArrayPtr.from_size 3 (empty_world (T := Z)) = Ok a w1 ∧
    ArrayPtr.Get a = Ptr 0%nat 0 ∧
    ∃ w2, ArrayPtr.dtor a w1 = Ok tt w2 ∧ heap w2 = heap (empty_world (T := Z)).
Proof.
  assert (0 ≤ 3) as Hn by lia.
  split; [apply wf_empty_world|]. split; [exact Hn|].
  destruct (proj1 (proj2 (array_ptr_allocates_and_frees (empty_world (T := Z)) 3
                            wf_empty_world Hn)))
    as (a & w1 & Heq & _ & _ & Hget & _ & _ & _ & Hfree); [simpl; lia|].
  exists a, w1. split; [exact Heq|]. split; [exact Hget|exact Hfree].
Defined.

Lemma array_ptr_move_assign_keeps_old_array_witness :
  let w : world Z := run_all [ClientNew 1; ClientNew 2] empty_world in
  let a := ArrayPtrRep.Build (Ptr 0%nat 0) in
  let other := ArrayPtrRep.Build (Ptr 1%nat 0) in
  ArrayPtr.Get a = Ptr 0%nat 0 ∧ ArrayPtr.Get other = Ptr 1%nat 0 ∧ 0%nat ≠ 1%nat ∧
  heap w !! 0%nat = Some [-1] ∧ heap w !! 1%nat = Some [-1; -1] ∧
  ∃ a1 rest w1,
    ArrayPtr.assign_move a other = (a1, rest) ∧
    ArrayPtr.Get a1 = Ptr 1%nat 0 ∧
    ArrayPtr.Get rest = Null ∧
    (ArrayPtr.dtor a1 ;; ArrayPtr.dtor rest) w = Ok tt w1 ∧
    heap w1 !! 1%nat = None ∧
    heap w1 !! 0%nat = Some [-1].
Proof.
  intros w a other.
  assert (ArrayPtr.Get a = Ptr 0%nat 0) as Ha by reflexivity.
  assert (ArrayPtr.Get other = Ptr 1%nat 0) as Ho by reflexivity.
  assert (0%nat ≠ 1%nat) as Hne by discriminate.
  assert (heap w !! 0%nat = Some [-1]) as Hl by (vm_compute; reflexivity).
  assert (heap w !! 1%nat = Some [-1; -1]) as Hl' by (vm_compute; reflexivity).
  split; [exact Ha|]. split; [exact Ho|]. split; [exact Hne|]. split; [exact Hl|].
  split; [exact Hl'|]. clearbody w.
  exact (array_ptr_move_assign_keeps_old_array w a other 0%nat 1%nat [-1] [-1; -1]
           Ha Ho Hne Hl Hl').
Defined.
